(** * RV-graph-high-capacity: route search, RTV levels and assignment model

    A shallow embedding of the batch-assignment core of the ride-pooling
    simulator:
    - [src/algo/insersion.py]     route feasibility search ([travel]),
    - [src/algo/rtvgenerator.py]  RTV level construction and [delay_all],
    - [src/algo/assignment.py]    the constraint rows of the assignment ILP,
    together with the entity classes they read.

    Conventions of the embedding.
    - Python integers are [Z]; simulation times, node indices and request
      identifiers are all [Z].  The float in which [delay_all] sums the
      delays always has an integer value: it is embedded as that value,
      rounded as the float is ([nearest_float]).
    - The configuration module [global_var] is the record [Glo]; its string
      valued switches stay strings and are compared with [String.eqb].
    - [Network.time_matrix] is a total function on node indices (the network
      is a read-only oracle of the core); [get_time] keeps the two dwell
      sentinels of the source.
    - A [MetaNodeStop] is a node stop together with the stops it unlocks.  The
      unlock graphs built by [new_travel] and [memory] are forests, so the
      class is embedded as a finitely branching tree and a Python set of
      meta stops as the list of its members.  (The one exception is a
      vehicle whose order lacks the stops of two or more of its passengers:
      see [prepare_stops].)
    - A Python exception is the outcome [Raises]; [print] is dropped. *)

From Stdlib Require Import ZArith List Bool Lia String Permutation Sorted.
From Stdlib Require Import Ascii.
From Stdlib Require DecimalString DecimalN.
Import ListNotations.
Open Scope Z_scope.
Local Set Warnings "-register-all,-notation-for-abbreviation".

(** ** Entities (src/env/struct) *)

(** [Request]: the fields read by the assignment core. *)
Record Request := mkRequest {
  r_id : Z;
  r_origin : Z;
  r_destination : Z;
  r_entry_time : Z;
  r_ideal_traveltime : Z;
  r_latest_boarding : Z;
  r_latest_alighting : Z;
  r_assigned : bool
}.

(** [Request.__eq__]: requests are compared by their id. *)
Definition request_eq (a b : Request) : bool := r_id a =? r_id b.

(** [NodeStop(request, is_pickup, node)]. *)
Record NodeStop := mkNodeStop {
  ns_r : Request;
  ns_is_pickup : bool;
  ns_node : Z
}.

(** [NodeStop.__lt__]: by request, then by [is_pickup] (False < True). *)
Definition nodestop_lt (a b : NodeStop) : bool :=
  if r_id (ns_r a) <? r_id (ns_r b) then true
  else if request_eq (ns_r a) (ns_r b)
          && (negb (ns_is_pickup a) && ns_is_pickup b) then true
  else false.

(** [NodeStop.__eq__]: same request and same kind of stop. *)
Definition nodestop_eq (a b : NodeStop) : bool :=
  request_eq (ns_r a) (ns_r b) && Bool.eqb (ns_is_pickup a) (ns_is_pickup b).

(** [Trip(cost, is_fake, use_memory, order_record, requests)]. *)
Record Trip := mkTrip {
  t_cost : Z;
  t_is_fake : bool;
  t_use_memory : bool;
  t_order_record : list NodeStop;
  t_requests : list Request
}.

(** [Vehicle]: the fields read by the assignment core. *)
Record Vehicle := mkVehicle {
  v_id : Z;
  v_capacity : Z;
  v_node : Z;
  v_offset : Z;
  v_passengers : list Request;
  v_pending_requests : list Request;
  v_order_record : list NodeStop
}.

(** [Network]: the travel-time matrix and the two dwell constants. *)
Record Network := mkNetwork {
  time_matrix : Z -> Z -> Z;
  dwell_pickup : Z;
  dwell_alight : Z
}.

(** [Network.get_time]: -10 and -20 are the pickup and alight sentinels. *)
Definition get_time (network : Network) (node_one node_two : Z) : Z :=
  if node_one =? -10 then dwell_pickup network
  else if node_one =? -20 then dwell_alight network
  else time_matrix network node_one node_two.

(** [Network.get_vehicle_time]. *)
Definition get_vehicle_time (network : Network) (vehicle : Vehicle) (node : Z) : Z :=
  v_offset vehicle + get_time network (v_node vehicle) node.

(** The switches of [src/utils/global_var.py] read by the core. *)
Record Glo := mkGlo {
  CTSP : string;
  CTSP_OBJECTIVE : string;
  CARSIZE : Z;
  LP_LIMITVALUE : Z;
  DWELL_ALIGHT : Z;
  DWELL_PICKUP : Z;
  MAX_NEW : Z;
  RTV_TIMELIMIT : Z;
  ALGORITHM : string;
  ASSIGNMENT_OBJECTIVE : string
}.

(** What a call can do: return a value, raise a Python exception, leave the
    domain of the embedding, or (for fuelled recursion) run out of fuel. *)
Inductive outcome (A : Type) : Type :=
| Return (a : A)
| Raises (msg : string)
| Unmodelled
| OutOfFuel.
Arguments Return {A} a.
Arguments Raises {A} msg.
Arguments Unmodelled {A}.
Arguments OutOfFuel {A}.

(** ** Route search (src/algo/insersion.py) *)

(** [MetaNodeStop(node, unlocks)]. *)
Inductive MetaNodeStop : Type :=
| Meta (node : NodeStop) (unlocks : list MetaNodeStop).

Definition m_node (m : MetaNodeStop) : NodeStop :=
  match m with Meta n _ => n end.

Definition m_unlocks (m : MetaNodeStop) : list MetaNodeStop :=
  match m with Meta _ u => u end.

(** [class Action]. *)
Inductive Action := PICKUP | DROPOFF | NO_ACTION.

(** [get_alight_deadline]. *)
Definition get_alight_deadline (r : Request) : Z := r_latest_alighting r.

(** [format_path]: the cost is made relative to [current_time] under
    CTSP_VTT when it is not negative, and the stop list is reversed. *)
Definition format_path (glo : Glo) (reverse_path : Z * list NodeStop)
    (current_time : Z) : Z * list NodeStop :=
  let cost := fst reverse_path in
  let cost := if String.eqb (CTSP_OBJECTIVE glo) "CTSP_VTT" && (0 <=? cost)
              then cost - current_time else cost in
  (cost, rev (snd reverse_path)).

Section Search.

Variable glo : Glo.
Variable network : Network.

(** [id(m.unlocks)], the address of the unlock list of a meta stop; it only
    breaks ties between two meta stops of the same request and kind. *)
Variable unlocks_id : MetaNodeStop -> Z.

(** [MetaNodeStop.__lt__]. *)
Definition meta_lt (a b : MetaNodeStop) : bool :=
  if ns_node (m_node a) <? ns_node (m_node b) then true
  else if ns_node (m_node a) >? ns_node (m_node b) then false
  else if negb (ns_is_pickup (m_node a)) && ns_is_pickup (m_node b) then true
  else if ns_is_pickup (m_node a) && negb (ns_is_pickup (m_node b)) then false
  else if nodestop_lt (m_node a) (m_node b)
          || (nodestop_eq (m_node a) (m_node b)
              && (unlocks_id a <? unlocks_id b)) then true
  else false.

(** [sorted(initially_available)]: a stable sort that only uses [__lt__].
    When all keys differ, as they do for stops of distinct requests, the
    result does not depend on the order in which the set is iterated. *)
Fixpoint sorted_insert (x : MetaNodeStop) (l : list MetaNodeStop) : list MetaNodeStop :=
  match l with
  | [] => [x]
  | y :: l' => if meta_lt y x then y :: sorted_insert x l' else x :: l
  end.

Fixpoint sorted (l : list MetaNodeStop) : list MetaNodeStop :=
  match l with
  | [] => []
  | x :: l' => sorted_insert x (sorted l')
  end.

(** The dwell time charged on the way to stop [m], lines 125-128. *)
Definition dwell_before (prev_action : Action) (initial_location : Z)
    (m : NodeStop) : Z :=
  match prev_action with
  | DROPOFF =>
      if ns_is_pickup m || negb (initial_location =? ns_node m)
      then DWELL_ALIGHT glo else 0
  | PICKUP =>
      if negb (ns_is_pickup m) || negb (initial_location =? ns_node m)
      then DWELL_PICKUP glo else 0
  | NO_ACTION => 0
  end.

(** The time at which the vehicle starts to serve [m], lines 119-131. *)
Definition arrival (prev_action : Action) (initial_location current_time : Z)
    (m : NodeStop) : Z :=
  let arrival_time :=
    current_time + get_time network initial_location (ns_node m)
    + dwell_before prev_action initial_location m in
  if ns_is_pickup m && (r_entry_time (ns_r m) >? arrival_time)
  then r_entry_time (ns_r m) else arrival_time.

(** The deadline used by the reachability test, line 160. *)
Definition deadline (x : NodeStop) : Z :=
  if ns_is_pickup x then r_latest_boarding (ns_r x)
  else r_latest_alighting (ns_r x).

Definition basic_reachability (arrival_time new_location : Z)
    (remaining_nodes : list MetaNodeStop) : bool :=
  forallb (fun x => arrival_time + get_time network new_location (ns_node (m_node x))
                    <=? deadline (m_node x)) remaining_nodes.

Definition action_of (m : NodeStop) : Action :=
  if ns_is_pickup m then PICKUP else DROPOFF.

(** The test of line 114 on the stop iterated before [m]. *)
Definition same_node_duplicate (previous : option MetaNodeStop)
    (m : MetaNodeStop) : bool :=
  match previous with
  | None => false
  | Some p => negb (ns_is_pickup (m_node m))
              && (ns_node (m_node p) =? ns_node (m_node m))
  end.

(** The [for m in initially_available] loop of [recursive_search], lines
    113-179.  [visited] are the stops already iterated and [todo] those
    still to come, so that [set(initially_available) - {m}] is
    [visited ++ todo'] at the head [m] of [todo].  [rec] is the recursive
    call of line 168. *)
Fixpoint search_loop
    (rec : Z -> Z -> list MetaNodeStop -> Z -> Z -> Action
           -> option (Z * list NodeStop))
    (initial_location residual_capacity current_time : Z) (prev_action : Action)
    (visited todo : list MetaNodeStop) (previous : option MetaNodeStop)
    (best_time : Z) (best_tail : list NodeStop)
    : option (Z * list NodeStop) :=
  match todo with
  | [] => Some (best_time, best_tail)
  | m :: todo' =>
    let continue := search_loop rec initial_location residual_capacity
                      current_time prev_action (visited ++ [m]) todo' in
    if same_node_duplicate previous m then continue previous best_time best_tail
    else
      let previous := Some m in
      let new_location := ns_node (m_node m) in
      let arrival_time := arrival prev_action initial_location current_time (m_node m) in
      if negb (best_time =? -1) && (arrival_time >=? best_time)
      then continue previous best_time best_tail
      else
        let new_residual_capacity :=
          if ns_is_pickup (m_node m) then residual_capacity - 1
          else residual_capacity + 1 in
        if new_residual_capacity <? 0 then continue previous best_time best_tail
        else if ns_is_pickup (m_node m)
                && (arrival_time >? r_latest_boarding (ns_r (m_node m)))
        then continue previous best_time best_tail
        else if get_alight_deadline (ns_r (m_node m)) <? arrival_time
        then continue previous best_time best_tail
        else
          let remaining_nodes := visited ++ todo' ++ m_unlocks m in
          if negb (basic_reachability arrival_time new_location remaining_nodes)
          then continue previous best_time best_tail
          else
            match rec new_location new_residual_capacity remaining_nodes
                      arrival_time best_time (action_of (m_node m)) with
            | None => None
            | Some (tail_time, tail_stops) =>
              if tail_time =? -1 then continue previous best_time best_tail
              else if (best_time =? -1) || (tail_time <? best_time)
              then continue previous tail_time (tail_stops ++ [m_node m])
              else continue previous best_time best_tail
            end
  end.

(** [recursive_search]; the result is [None] when [fuel] nested calls do
    not suffice.  The stop list is built first-visit-last, as in the
    source. *)
Fixpoint recursive_search (fuel : nat) (initial_location residual_capacity : Z)
    (initially_available : list MetaNodeStop) (current_time best_time : Z)
    (prev_action : Action) : option (Z * list NodeStop) :=
  match fuel with
  | O => None
  | S fuel' =>
    match sorted initially_available with
    | [] => Some (current_time, [])
    | m :: l =>
      search_loop (recursive_search fuel') initial_location residual_capacity
        current_time prev_action [] (m :: l) None best_time []
    end
  end.

End Search.

(** The number of meta stops of a stop graph; it bounds the depth of the
    recursion of [recursive_search]. *)
Fixpoint meta_size (m : MetaNodeStop) : nat :=
  match m with
  | Meta _ u => S (list_sum (map meta_size u))
  end.

Definition forest_size (l : list MetaNodeStop) : nat :=
  list_sum (map meta_size l).

(** Python sets of requests ([Request.__hash__] and [__eq__] go by id). *)
Definition request_mem (r : Request) (s : list Request) : bool :=
  existsb (request_eq r) s.

Fixpoint request_remove (r : Request) (s : list Request) : list Request :=
  match s with
  | [] => []
  | x :: s' => if request_eq r x then s' else x :: request_remove r s'
  end.

(** [set(l)]: the first occurrence of every id is kept. *)
Fixpoint request_set (l : list Request) : list Request :=
  match l with
  | [] => []
  | x :: l' => x :: filter (fun y => negb (request_eq x y)) (request_set l')
  end.

(** The stops of the onboard passengers, lines 207-212: the first stop of
    [order_record] for every passenger, in the order of [order_record]. *)
Fixpoint onboard_stops (onboard : list Request) (order_record : list NodeStop)
    : list NodeStop :=
  match order_record with
  | [] => []
  | ns :: rest =>
    if request_mem (ns_r ns) onboard
    then ns :: onboard_stops (request_remove (ns_r ns) onboard) rest
    else onboard_stops onboard rest
  end.

(** The pickup of a new request, unlocking its dropoff, lines 200-204. *)
Definition pickup_stop (r : Request) : NodeStop := mkNodeStop r true (r_origin r).
Definition dropoff_stop (r : Request) : NodeStop := mkNodeStop r false (r_destination r).
Definition request_meta (r : Request) : MetaNodeStop :=
  Meta (pickup_stop r) [Meta (dropoff_stop r) []].

(** A fixed chain: only the first stop is available and every stop unlocks
    the next one (lines 216-218 and 282-284). *)
Fixpoint chain (stops : list NodeStop) : list MetaNodeStop :=
  match stops with
  | [] => []
  | ns :: rest => [Meta ns (chain rest)]
  end.

(** All stops available at once (lines 220-221). *)
Definition free_stops (stops : list NodeStop) : list MetaNodeStop :=
  map (fun ns => Meta ns []) stops.

(** The outcome of the preparation of the stop graph. *)
Inductive prepared :=
| Available (initially_available : list MetaNodeStop)
| Infeasible.

(** The test of line 215 (and 450). *)
Definition fix_onboard_locked (glo : Glo) (vehicle : Vehicle)
    (requests : list Request) : bool :=
  String.eqb (CTSP glo) "FIX_ONBOARD"
  && (Z.of_nat (List.length requests) + Z.of_nat (List.length (v_passengers vehicle))
      >? CARSIZE glo)
  && negb (Nat.eqb (List.length (v_passengers vehicle)) 0).

(** Every passenger has a stop in [order_record]: the loop of lines
    208-212 appends as many onboard stops to [meta_nodes] as
    [vehicle.passengers] has entries. *)
Definition stops_stored (vehicle : Vehicle) : Prop :=
  List.length (onboard_stops (request_set (v_passengers vehicle))
                 (v_order_record vehicle))
  = List.length (v_passengers vehicle).

(** Lines 194-250 of [new_travel], repeated as lines 429-485 of
    [new_travel_timed]: the meta stops and the initially available set.

    [meta_nodes] holds, for every request in turn, its dropoff and its
    pickup, and then the onboard stops.  Lines 215-221 address the onboard
    stops as the last [len(vehicle.passengers)] entries of [meta_nodes],
    whatever the number of onboard stops that lines 208-212 appended:

    - with more passengers than entries an index is out of range
      (IndexError);
    - with as many onboard stops as passengers the indices are the onboard
      stops: these are chained under the lock and available otherwise;
    - with one onboard stop less, the first index is the pickup of the last
      request: without the lock it is added to the available set, where it
      is already; under the lock, and with two passengers or more, its
      [unlocks] is overwritten by the first onboard stop, so that its own
      dropoff is no longer unlocked by any stop;
    - with two or more onboard stops less, a dropoff of a request is made
      available next to the pickup that unlocks it, or made to unlock its
      pickup: the [MetaNodeStop] objects are then shared or form a cycle,
      which the forest of the embedding cannot hold ([Unmodelled]).

    Under FIX_PREFIX with more than LP_LIMITVALUE meta stops the source
    returns [(-1, [])] when there are too many new requests; otherwise
    [meta_nodes] is not empty and the source builds the dictionary
    [{m.node: m for m in meta_nodes}]: [NodeStop] defines [__eq__] without
    [__hash__], so its instances are unhashable and this raises TypeError. *)
Definition prepare_stops (glo : Glo) (vehicle : Vehicle) (requests : list Request)
    : outcome prepared :=
  let request_metas := map request_meta requests in
  let onboard := onboard_stops (request_set (v_passengers vehicle))
                   (v_order_record vehicle) in
  let passengers := List.length (v_passengers vehicle) in
  let meta_nodes := (2 * List.length requests + List.length onboard)%nat in
  if Nat.ltb meta_nodes passengers
  then Raises "IndexError: list index out of range"
  else if String.eqb (CTSP glo) "FIX_PREFIX"
          && (Z.of_nat meta_nodes >? LP_LIMITVALUE glo)
  then
    let new_requests :=
      request_set (filter (fun r => negb (request_mem r (v_pending_requests vehicle)))
                          requests) in
    if Z.of_nat (List.length new_requests) * 2 >? LP_LIMITVALUE glo
    then Return Infeasible
    else Raises "FIX_PREFIX: unhashable type: 'NodeStop'"
  else
    match (passengers - List.length onboard)%nat with
    | O =>
      Return (Available
                (if fix_onboard_locked glo vehicle requests
                 then request_metas ++ chain onboard
                 else request_metas ++ free_stops onboard))
    | 1%nat =>
      if fix_onboard_locked glo vehicle requests && Nat.leb 2 passengers
      then
        match rev requests with
        | last_request :: front =>
          Return (Available
                    (map request_meta (rev front)
                     ++ [Meta (pickup_stop last_request) (chain onboard)]))
        | [] => Raises "IndexError: list index out of range"
        end
      else Return (Available (request_metas ++ free_stops onboard))
    | _ => Unmodelled
    end.

Section Travel.

Variable glo : Glo.
Variable network : Network.
Variable unlocks_id : MetaNodeStop -> Z.

Definition valid_objective : bool :=
  String.eqb (CTSP_OBJECTIVE glo) "CTSP_VTT"
  || String.eqb (CTSP_OBJECTIVE glo) "CTSP_DELAY".

(** [new_travel]. *)
Definition new_travel (vehicle : Vehicle) (requests : list Request)
    (current_time : Z) : outcome (Z * list NodeStop) :=
  match prepare_stops glo vehicle requests with
  | Return Infeasible => Return (-1, [])
  | Return (Available initially_available) =>
    let call_time := current_time + v_offset vehicle in
    let start_node := v_node vehicle in
    if valid_objective then
      match recursive_search glo network unlocks_id
              (S (forest_size initially_available)) start_node
              (v_capacity vehicle - Z.of_nat (List.length (v_passengers vehicle)))
              initially_available call_time (-1) NO_ACTION with
      | Some optimal => Return (format_path glo optimal current_time)
      | None => OutOfFuel
      end
    else Raises "not a valid CTSP objective"
  | Raises msg => Raises msg
  | Unmodelled => Unmodelled
  | OutOfFuel => OutOfFuel
  end.

(** [memory]: the stored order as one chain. *)
Definition memory (vehicle : Vehicle) (current_time : Z)
    : outcome (Z * list NodeStop) :=
  let initially_available := chain (v_order_record vehicle) in
  let call_time := current_time + v_offset vehicle in
  match recursive_search glo network unlocks_id
          (S (forest_size initially_available)) (v_node vehicle)
          (v_capacity vehicle - Z.of_nat (List.length (v_passengers vehicle)))
          initially_available call_time (-1) NO_ACTION with
  | Some optimal => Return (format_path glo optimal current_time)
  | None => OutOfFuel
  end.

(** [travel]. *)
Definition travel (vehicle : Vehicle) (requests : list Request)
    (current_time : Z) (trigger : string) : outcome (Z * list NodeStop) :=
  if String.eqb trigger "MEMORY" then memory vehicle current_time
  else if String.eqb trigger "REBALANCING"
  then Raises "Rebalancing moudle hasn't been implemented!"
  else new_travel vehicle requests current_time.

End Travel.

(** ** The time-constrained search (src/algo/insersion.py, lines 311-517)

    [time()] is read from [wall_clock]: the n-th reading of the run is
    [wall_clock n], and every function that may read the clock takes the
    number of readings made so far and returns it updated.  Readings and
    the [start_time] derived from them are integers here (seconds). *)

Section Timed.

Variable glo : Glo.
Variable network : Network.
Variable unlocks_id : MetaNodeStop -> Z.
Variable wall_clock : nat -> Z.

(** The loop of [recursive_search_timed], lines 343-414: the loop of
    [recursive_search] with the timeout test of lines 345-346 at its head. *)
Fixpoint search_loop_timed
    (rec : Z -> Z -> list MetaNodeStop -> Z -> Z -> Action -> nat
           -> option (Z * list NodeStop * nat))
    (initial_location residual_capacity current_time : Z) (prev_action : Action)
    (start_time time_limit : Z)
    (visited todo : list MetaNodeStop) (previous : option MetaNodeStop)
    (best_time : Z) (best_tail : list NodeStop) (reads : nat)
    : option (Z * list NodeStop * nat) :=
  match todo with
  | [] => Some (best_time, best_tail, reads)
  | m :: todo' =>
    let timed_out :=
      negb (time_limit =? 0) && (wall_clock reads - start_time >? time_limit) in
    let reads := if negb (time_limit =? 0) then S reads else reads in
    if timed_out then Some (best_time, best_tail, reads)
    else
    let continue := search_loop_timed rec initial_location residual_capacity
                      current_time prev_action start_time time_limit
                      (visited ++ [m]) todo' in
    if same_node_duplicate previous m
    then continue previous best_time best_tail reads
    else
      let previous := Some m in
      let new_location := ns_node (m_node m) in
      let arrival_time :=
        arrival glo network prev_action initial_location current_time (m_node m) in
      if negb (best_time =? -1) && (arrival_time >=? best_time)
      then continue previous best_time best_tail reads
      else
        let new_residual_capacity :=
          if ns_is_pickup (m_node m) then residual_capacity - 1
          else residual_capacity + 1 in
        if new_residual_capacity <? 0
        then continue previous best_time best_tail reads
        else if ns_is_pickup (m_node m)
                && (arrival_time >? r_latest_boarding (ns_r (m_node m)))
        then continue previous best_time best_tail reads
        else if get_alight_deadline (ns_r (m_node m)) <? arrival_time
        then continue previous best_time best_tail reads
        else
          let remaining_nodes := visited ++ todo' ++ m_unlocks m in
          if negb (basic_reachability network arrival_time new_location
                     remaining_nodes)
          then continue previous best_time best_tail reads
          else
            match rec new_location new_residual_capacity remaining_nodes
                      arrival_time best_time (action_of (m_node m)) reads with
            | None => None
            | Some (tail_time, tail_stops, reads) =>
              if tail_time =? -1
              then continue previous best_time best_tail reads
              else if (best_time =? -1) || (tail_time <? best_time)
              then continue previous tail_time (tail_stops ++ [m_node m]) reads
              else continue previous best_time best_tail reads
            end
  end.

(** [recursive_search_timed(initial_location, residual_capacity,
    initially_available, network, current_time, best_time, start_time,
    time_limit, prev_action)]. *)
Fixpoint recursive_search_timed (fuel : nat)
    (initial_location residual_capacity : Z)
    (initially_available : list MetaNodeStop)
    (current_time best_time start_time time_limit : Z) (prev_action : Action)
    (reads : nat) : option (Z * list NodeStop * nat) :=
  match fuel with
  | O => None
  | S fuel' =>
    match sorted unlocks_id initially_available with
    | [] => Some (current_time, [], reads)
    | m :: l =>
      search_loop_timed
        (fun loc cap avail now best prev reads =>
           recursive_search_timed fuel' loc cap avail now best
             start_time time_limit prev reads)
        initial_location residual_capacity current_time prev_action
        start_time time_limit [] (m :: l) None best_time [] reads
    end
  end.

(** [new_travel_timed].  The call of lines 492-493 passes, in this order,
    [call_time, start_time, time_limit, -1] for the parameters
    [current_time, best_time, start_time, time_limit] of
    [recursive_search_timed]; [prev_action] keeps its default. *)
Definition new_travel_timed (vehicle : Vehicle) (requests : list Request)
    (current_time start_time time_limit : Z) (reads : nat)
    : outcome (Z * list NodeStop) * nat :=
  match prepare_stops glo vehicle requests with
  | Return Infeasible => (Return (-1, []), reads)
  | Return (Available initially_available) =>
    let call_time := current_time + v_offset vehicle in
    let start_node := v_node vehicle in
    if valid_objective glo then
      match recursive_search_timed (S (forest_size initially_available))
              start_node
              (v_capacity vehicle - Z.of_nat (List.length (v_passengers vehicle)))
              initially_available call_time start_time time_limit (-1)
              NO_ACTION reads with
      | Some (t, tail, reads) => (Return (format_path glo (t, tail) current_time), reads)
      | None => (OutOfFuel, reads)
      end
    else (Raises "not a valid CTSP objective", reads)
  | Raises msg => (Raises msg, reads)
  | Unmodelled => (Unmodelled, reads)
  | OutOfFuel => (OutOfFuel, reads)
  end.

(** [travel_timed(vehicle, requests, network, current_time, start_time=0,
    time_limit=0, trigger='STANDARD')]. *)
Definition travel_timed (vehicle : Vehicle) (requests : list Request)
    (current_time start_time time_limit : Z) (trigger : string) (reads : nat)
    : outcome (Z * list NodeStop) * nat :=
  if time_limit =? 0
  then (travel glo network unlocks_id vehicle requests current_time trigger, reads)
  else new_travel_timed vehicle requests current_time start_time time_limit reads.

End Timed.

(** ** RTV levels (src/algo/rtvgenerator.py) *)

(** Sequencing of calls that may raise. *)
Definition bind {A B : Type} (x : outcome A) (f : A -> outcome B) : outcome B :=
  match x with
  | Return a => f a
  | Raises msg => Raises msg
  | Unmodelled => Unmodelled
  | OutOfFuel => OutOfFuel
  end.

Notation "x <- e ;; f" := (bind e (fun x => f))
  (at level 61, e at next level, right associativity).
Notation "' pat <- e ;; f" := (bind e (fun pat => f))
  (at level 61, pat pattern, e at next level, right associativity).

(** The dwell sentinel chosen after serving [node], lines 71-75 and 87-91:
    -20 after a dropoff, -10 after a pickup, unless the next stop is of the
    same kind at the same node, in which case it is the node itself. *)
Definition node_type (node : NodeStop) (next : option NodeStop) : Z :=
  let last_or (test : NodeStop -> bool) :=
    match next with
    | None => true
    | Some n => test n || negb (ns_node n =? ns_node node)
    end in
  if negb (ns_is_pickup node) && last_or (fun n => ns_is_pickup n) then -20
  else if ns_is_pickup node && last_or (fun n => negb (ns_is_pickup n)) then -10
  else ns_node node.

(** The delay of a stop reached at [arrival_time]: pickups have none, a
    dropoff counts the time after [entry_time + ideal_traveltime]. *)
Definition stop_delay (node : NodeStop) (arrival_time : Z) : Z :=
  if ns_is_pickup node then 0
  else Z.max 0 (arrival_time
                - (r_entry_time (ns_r node) + r_ideal_traveltime (ns_r node))).

(** [float(z)] for an integer [z] that is not negative, as the integer it
    is equal to: the nearest number with a significand of 53 bits, a tie
    going to the even significand.  The exponent is not bounded here: from
    2^1024 on the conversion of the source raises OverflowError, and a sum
    of that size is [inf]. *)
Definition nearest_float (z : Z) : Z :=
  if z <? 2 ^ 53 then z
  else
    let shift := Z.log2 z - 52 in
    let significand := Z.shiftr z shift in
    let rest := z - Z.shiftl significand shift in
    let half := Z.shiftl 1 (shift - 1) in
    let significand :=
      if (half <? rest) || ((rest =? half) && Z.odd significand)
      then significand + 1 else significand in
    Z.shiftl significand shift.

(** [delay += value] on the float [delay], for an integer [value] that is
    not negative: [value] is converted to a float and the sum is rounded. *)
Definition float_add (delay value : Z) : Z :=
  nearest_float (delay + nearest_float value).

Section Rtv.

Variable glo : Glo.
Variable network : Network.
Variable unlocks_id : MetaNodeStop -> Z.
Variable wall_clock : nat -> Z.

(** [rr_graph.has_edge(f'r{a}', f'r{b}')], on request ids. *)
Variable rr_edge : Z -> Z -> bool.

(** The loop of [delay_all], lines 81-94; [prev] is [node_list[i-1]]. *)
Fixpoint delay_loop (vehicle : Vehicle) (prev : NodeStop)
    (arrival_time delay : Z) (rest : list NodeStop) : Z :=
  match rest with
  | [] => delay
  | node :: rest' =>
    let arrival_time :=
      arrival_time + get_time network (ns_node prev) (ns_node node) in
    let delay := if ns_is_pickup node then delay
                 else float_add delay (stop_delay node arrival_time) in
    let dwell := get_time network (node_type node (hd_error rest'))
                   (v_node vehicle) in
    delay_loop vehicle node (arrival_time + dwell) delay rest'
  end.

(** [delay_all(vehicle, node_list, network, current_time)].  The arrival
    times are integers; [delay] is a float that starts from 0.0, and every
    dropoff adds [max(0.0, ...)] of an integer to it, so that [delay] is
    always a float of integer value: the result is that value. *)
Definition delay_all (vehicle : Vehicle) (node_list : list NodeStop)
    (current_time : Z) : Z :=
  match node_list with
  | [] => 0
  | node :: rest =>
    let arrival_time :=
      current_time + get_vehicle_time network vehicle (ns_node node) in
    let delay := if ns_is_pickup node then 0
                 else float_add 0 (stop_delay node arrival_time) in
    let dwell := get_time network (node_type node (hd_error rest))
                   (v_node vehicle) in
    delay_loop vehicle node (arrival_time + dwell) delay rest
  end.

(** The cost stored on a trip: recomputed by [delay_all] under CTSP_DELAY. *)
Definition stored_cost (vehicle : Vehicle) (path_cost : Z)
    (path_order : list NodeStop) (current_time : Z) : Z :=
  if String.eqb (CTSP_OBJECTIVE glo) "CTSP_DELAY"
  then delay_all vehicle path_order current_time
  else path_cost.

(** [previoustrip]; [travel_timed] is called without budget, so that it is
    [travel] with the trigger MEMORY. *)
Definition previoustrip (vehicle : Vehicle) (current_time : Z) : outcome Trip :=
  '(path_cost, previous_order) <-
    travel glo network unlocks_id vehicle (v_pending_requests vehicle)
      current_time "MEMORY" ;;
  Return (mkTrip (stored_cost vehicle path_cost previous_order current_time)
            false true previous_order (v_pending_requests vehicle)).

(** Python sets of requests as lists without repeated ids. *)
Definition request_union (a b : list Request) : list Request :=
  request_set (a ++ b).

Definition request_diff (a b : list Request) : list Request :=
  filter (fun r => negb (request_mem r b)) a.

Definition request_subset (a b : list Request) : bool :=
  forallb (fun r => request_mem r b) a.

Definition request_set_eq (a b : list Request) : bool :=
  request_subset a b && request_subset b a.

(** [is_rr_connected]. *)
Definition is_rr_connected (requests1 requests2 : list Request) : bool :=
  forallb (fun r1 =>
    forallb (fun r2 =>
      (r_id r1 =? r_id r2)
      || negb (negb (rr_edge (r_id r1) (r_id r2))
               && negb (rr_edge (r_id r2) (r_id r1))))
      requests2) requests1.

(** [all_subsets_exist]. *)
Definition all_subsets_exist (requests : list Request)
    (previous_round : list Trip) : bool :=
  forallb (fun request =>
    existsb (fun trip =>
      request_set_eq (request_set (t_requests trip))
        (request_remove request requests)) previous_round) requests.

(** The state of the pair loops of one level. *)
Record level_state := mkLevel {
  new_round : list Trip;
  existing_trips : list (list Request);
  timeout : bool;
  reads : nat
}.

(** The body of the inner loop, lines 177-210, for the pair
    [(trip1, trip2)] of the previous round. *)
Definition try_pair (vehicle : Vehicle) (current_time start_time : Z)
    (k : nat) (previous_round : list Trip) (trip1 trip2 : Trip)
    (st : level_state) : outcome level_state :=
  let combined_requests := request_union (t_requests trip1) (t_requests trip2) in
  if negb (Nat.eqb (List.length combined_requests) k)
     || existsb (request_set_eq combined_requests) (existing_trips st)
  then Return st
  else
    let new_requests :=
      request_diff combined_requests (request_set (v_pending_requests vehicle)) in
    if Z.of_nat (List.length new_requests) * 2 >? MAX_NEW glo then Return st
    else if negb (is_rr_connected (t_requests trip1) (t_requests trip2))
    then Return st
    else if negb (all_subsets_exist combined_requests previous_round)
    then Return st
    else
      let '(result, reads') :=
        travel_timed glo network unlocks_id wall_clock vehicle
          combined_requests current_time start_time (RTV_TIMELIMIT glo)
          "STANDARD" (reads st) in
      '(path_cost, path_order) <- result ;;
      if path_cost <? 0
      then Return (mkLevel (new_round st) (existing_trips st) (timeout st) reads')
      else
        let trip := mkTrip (stored_cost vehicle path_cost path_order current_time)
                      false false path_order combined_requests in
        Return (mkLevel (new_round st ++ [trip])
                  (existing_trips st ++ [combined_requests])
                  (timeout st) reads').

(** The inner loop, lines 171-210: the partners [trip2] that follow
    [trip1] in the previous round, with the timeout test first. *)
Fixpoint inner_loop (vehicle : Vehicle) (current_time start_time : Z)
    (k : nat) (previous_round : list Trip) (trip1 : Trip)
    (partners : list Trip) (st : level_state) : outcome level_state :=
  match partners with
  | [] => Return st
  | trip2 :: partners' =>
    let limited := negb (RTV_TIMELIMIT glo =? 0) in
    let reads' := if limited then S (reads st) else reads st in
    if limited && (wall_clock (reads st) - start_time >? RTV_TIMELIMIT glo)
    then Return (mkLevel (new_round st) (existing_trips st) true reads')
    else
      st' <- try_pair vehicle current_time start_time k previous_round
               trip1 trip2
               (mkLevel (new_round st) (existing_trips st) (timeout st) reads') ;;
      inner_loop vehicle current_time start_time k previous_round trip1
        partners' st'
  end.

(** The outer loop, line 170: [trips] are [rounds[k-1][idx1:]]. *)
Fixpoint outer_loop (vehicle : Vehicle) (current_time start_time : Z)
    (k : nat) (previous_round : list Trip) (trips : list Trip)
    (st : level_state) : outcome level_state :=
  match trips with
  | [] => Return st
  | trip1 :: trips' =>
    st' <- inner_loop vehicle current_time start_time k previous_round
             trip1 trips' st ;;
    outer_loop vehicle current_time start_time k previous_round trips' st'
  end.

(** The [while] loop of lines 163-211; [k] is the size of the last round
    built, and at most [fuel] further rounds are built. *)
Fixpoint levels (fuel : nat) (vehicle : Vehicle) (current_time start_time : Z)
    (k : nat) (rounds : list (list Trip)) (timed_out : bool) (n : nat)
    : outcome (list (list Trip) * nat) :=
  match fuel with
  | O => OutOfFuel
  | S fuel' =>
    match nth k rounds [], timed_out with
    | _ :: _, false =>
      let k := S k in
      if Z.of_nat k >? v_capacity vehicle then Return (rounds, n)
      else
        let previous_round := nth (k - 1) rounds [] in
        st <- outer_loop vehicle current_time start_time k previous_round
                   previous_round
                   (mkLevel [] (map (fun trip => request_set (t_requests trip))
                                    previous_round) timed_out n) ;;
        levels fuel' vehicle current_time start_time k
          (rounds ++ [new_round st]) (timeout st) (reads st)
    | _, _ => Return (rounds, n)
    end
  end.

(** The trips of one request, lines 147-159. *)
Fixpoint first_round (vehicle : Vehicle) (current_time : Z)
    (initial_pairing : list Request) : outcome (list Trip) :=
  match initial_pairing with
  | [] => Return []
  | request :: rest =>
    '(path_cost, path_order) <-
      travel glo network unlocks_id vehicle [request] current_time "STANDARD" ;;
    trips <- first_round vehicle current_time rest ;;
    if path_cost <? 0 then Return trips
    else Return (mkTrip (stored_cost vehicle path_cost path_order current_time)
                   false false path_order [request] :: trips)
  end.

(** The ids of the requests of the stops of an order, lines 221 and 225. *)
Definition stop_ids (order : list NodeStop) : list Z :=
  map (fun stop => r_id (ns_r stop)) order.

(** Lines 213-230: the flat trip list, the test for a stored infeasible
    cost, and the previous assignment of the vehicle. *)
Definition compile_trips (vehicle : Vehicle) (current_time : Z)
    (rounds : list (list Trip)) : outcome (list Trip) :=
  let potential_trips := List.concat rounds in
  if existsb (fun trip => t_cost trip =? -1) potential_trips
  then Raises "Negative cost in potential trips!!!"
  else
    let potential_trips_request_id :=
      if Nat.ltb (List.length (v_pending_requests vehicle)) (List.length rounds)
      then map (fun trip => stop_ids (t_order_record trip))
               (nth (List.length (v_pending_requests vehicle)) rounds [])
      else [] in
    match v_order_record vehicle with
    | [] => Return potential_trips
    | _ :: _ =>
      let request_id_vehicle := stop_ids (v_order_record vehicle) in
      if existsb (fun ids => if list_eq_dec Z.eq_dec request_id_vehicle ids
                             then true else false)
           potential_trips_request_id
      then Return potential_trips
      else
        previous_trip <- previoustrip vehicle current_time ;;
        if t_cost previous_trip =? -1
        then Raises "Previous assignment no longer feasible for vehicle"
        else Return (potential_trips ++ [previous_trip])
    end.

(** The baseline trip of lines 129-135. *)
Definition baseline_trip (vehicle : Vehicle) (current_time start_time : Z)
    (n : nat) : outcome Trip * nat :=
  let '(result, n') :=
    travel_timed glo network unlocks_id wall_clock vehicle [] current_time
      start_time (RTV_TIMELIMIT glo) "STANDARD" n in
  ('(cost, path) <- result ;;
   Return (mkTrip (stored_cost vehicle cost path current_time)
             false false path []),
   n').

(** Lines 121-211 of [make_rtvgraph] for one vehicle: the list [rounds],
    whose entry [k] holds the trips of [k] requests.  [rv_neighbors] are
    the requests adjacent to the vehicle in the RV graph (none when the
    vehicle is not a node of it). *)
Definition rtv_rounds (vehicle : Vehicle) (rv_neighbors : list Request)
    (current_time : Z) (n : nat) : outcome (list (list Trip) * nat) :=
  let start_time := wall_clock n in
  let '(result, n) := baseline_trip vehicle current_time start_time (S n) in
  baseline <- result ;;
  let initial_pairing :=
    request_set (rv_neighbors ++ v_pending_requests vehicle) in
  round1 <- first_round vehicle current_time initial_pairing ;;
  levels (S (Z.to_nat (v_capacity vehicle))) vehicle current_time start_time
    1 [[baseline]; round1] false n.

(** The body of [make_rtvgraph] for one vehicle, lines 121-234: the value
    stored in [trip_list[vehicle]]. *)
Definition make_rtvgraph (vehicle : Vehicle) (rv_neighbors : list Request)
    (current_time : Z) (n : nat) : outcome (list Trip) :=
  '(rounds, _) <- rtv_rounds vehicle rv_neighbors current_time n ;;
  compile_trips vehicle current_time rounds.

End Rtv.

(** ** The assignment ILP (src/algo/assignment.py)

    The embedding covers the rows that [ilp_assignment] hands to the
    solver; the solver itself is outside the core. *)

(** The binary variables [e[i]] (trip [i] is selected) and [x[k]]
    (request [k] is not served). *)
Inductive ilp_var := e_var (i : nat) | x_var (k : nat).

Inductive ilp_sense := sense_eq | sense_le.

(** [model.addConstr(quicksum(vars) <sense> rhs, name=f"{prefix}_{id}")]. *)
Record ilp_constr := mkConstr {
  c_prefix : string;
  c_id : Z;
  c_vars : list ilp_var;
  c_sense : ilp_sense;
  c_rhs : Z
}.

(** The dictionary [rids_to_trips], from request id to the set of the
    indices of the trips that include the request, in insertion order. *)
Definition rid_map := list (Z * list nat).

Fixpoint rid_get (m : rid_map) (rid : Z) : option (list nat) :=
  match m with
  | [] => None
  | (key, indices) :: m' => if key =? rid then Some indices else rid_get m' rid
  end.

(** Lines 32-35: [rids_to_trips[rid]] is created when missing, and
    [index] is added to it. *)
Fixpoint rid_add (m : rid_map) (rid : Z) (index : nat) : rid_map :=
  match m with
  | [] => [(rid, [index])]
  | (key, indices) :: m' =>
    if key =? rid
    then (key, if existsb (Nat.eqb index) indices then indices
               else indices ++ [index]) :: m'
    else (key, indices) :: rid_add m' rid index
  end.

(** The body of the loop over the trips, lines 29-37, on the pair of
    [rids_to_trips] and [index]. *)
Definition index_trip (acc : rid_map * nat) (trip : Trip) : rid_map * nat :=
  (fold_left (fun m request => rid_add m (r_id request) (snd acc))
     (t_requests trip) (fst acc),
   S (snd acc)).

(** Lines 26-37 over all vehicles. *)
Definition index_trips (trip_list : list (Vehicle * list Trip)) : rid_map * nat :=
  fold_left (fun acc entry => fold_left index_trip (snd entry) acc)
    trip_list ([], 0%nat).

(** Constraint one, lines 66-75; [count] is the index of the first trip of
    the next vehicle. *)
Fixpoint constraint_one (glo : Glo) (trip_list : list (Vehicle * list Trip))
    (count : nat) : list ilp_constr :=
  match trip_list with
  | [] => []
  | (vehicle, trips) :: rest =>
    let num_vehicle_trips := List.length trips in
    let e_vars := map e_var (seq count num_vehicle_trips) in
    mkConstr "c1" (v_id vehicle) e_vars
      (if negb (String.eqb (ALGORITHM glo) "ILP_FULL") then sense_le
       else sense_eq) 1
    :: constraint_one glo rest (count + num_vehicle_trips)
  end.

(** Constraint two, lines 77-85; [k] is the position of the first request
    of the list. *)
Fixpoint constraint_two (rids_to_trips : rid_map) (requests : list Request)
    (k : nat) : list ilp_constr :=
  match requests with
  | [] => []
  | request :: rest =>
    let rid := r_id request in
    let indices := match rid_get rids_to_trips rid with
                   | Some indices => indices
                   | None => []
                   end in
    let e_vars := map e_var indices in
    mkConstr "c2" rid
      (if r_assigned request then e_vars else e_vars ++ [x_var k])
      sense_eq 1
    :: constraint_two rids_to_trips rest (S k)
  end.

(** The constraints that [ilp_assignment] adds to the model: none when
    there is no trip at all (the function returns before it builds the
    model), and an exception for an unknown objective. *)
Definition ilp_constraints (glo : Glo) (trip_list : list (Vehicle * list Trip))
    (requests : list Request) : outcome (option (list ilp_constr)) :=
  let '(rids_to_trips, index) := index_trips trip_list in
  if Nat.eqb index 0 then Return None
  else if String.eqb (ASSIGNMENT_OBJECTIVE glo) "AO_SERVICERATE"
          || String.eqb (ASSIGNMENT_OBJECTIVE glo) "AO_RMT"
  then Return (Some (constraint_one glo trip_list 0
                     ++ constraint_two rids_to_trips requests 0))
  else Raises "Invalid assignment objective.".

(** The flat list of the trips, in the order of their indices. *)
Definition all_trips (trip_list : list (Vehicle * list Trip)) : list Trip :=
  List.concat (map snd trip_list).

(** ** Routes: what a stop order must satisfy

    The notions the properties of the search are stated with.  They are
    functions of the stop order alone and do not mention the search. *)

(** All the stops of a stop graph. *)
Fixpoint meta_stops (m : MetaNodeStop) : list NodeStop :=
  match m with
  | Meta n u => n :: flat_map meta_stops u
  end.

Definition forest_stops (l : list MetaNodeStop) : list NodeStop :=
  flat_map meta_stops l.

(** [Lin F order]: [order] visits every stop of the stop graph [F] once,
    each time taking an available stop and making available the stops it
    unlocks. *)
Inductive Lin : list MetaNodeStop -> list NodeStop -> Prop :=
| Lin_nil : Lin [] []
| Lin_cons (F F' : list MetaNodeStop) (m : MetaNodeStop) (rest : list NodeStop) :
    Permutation F (m :: F') ->
    Lin (F' ++ m_unlocks m) rest ->
    Lin F (m_node m :: rest).

Section Routes.

Variable glo : Glo.
Variable network : Network.

(** The arrival-time model of the search along a stop order: travel time,
    dwell time, and no pickup before the entry time of the request. *)
Fixpoint arrival_times (prev_action : Action) (location now : Z)
    (order : list NodeStop) : list Z :=
  match order with
  | [] => []
  | ns :: rest =>
    let a := arrival glo network prev_action location now ns in
    a :: arrival_times (action_of ns) (ns_node ns) a rest
  end.

(** The time at which the last stop of the order is reached. *)
Fixpoint route_end (prev_action : Action) (location now : Z)
    (order : list NodeStop) : Z :=
  match order with
  | [] => now
  | ns :: rest =>
    route_end (action_of ns) (ns_node ns)
      (arrival glo network prev_action location now ns) rest
  end.

(** The number of passengers onboard after each stop of the order. *)
Fixpoint onboard_counts (onboard : Z) (order : list NodeStop) : list Z :=
  match order with
  | [] => []
  | ns :: rest =>
    let n := if ns_is_pickup ns then onboard + 1 else onboard - 1 in
    n :: onboard_counts n rest
  end.

(** Capacity and deadlines along a stop order, from a vehicle with
    [residual_capacity] free seats at [location] at time [now]. *)
Fixpoint route_ok (prev_action : Action) (location residual_capacity now : Z)
    (order : list NodeStop) : bool :=
  match order with
  | [] => true
  | ns :: rest =>
    let a := arrival glo network prev_action location now ns in
    let c := if ns_is_pickup ns then residual_capacity - 1
             else residual_capacity + 1 in
    (0 <=? c)
    && (negb (ns_is_pickup ns) || (a <=? r_latest_boarding (ns_r ns)))
    && (a <=? r_latest_alighting (ns_r ns))
    && route_ok (action_of ns) (ns_node ns) c a rest
  end.

End Routes.

(** The total delay of a stop order under the arrival-time model of the
    search: the sum over its dropoffs of the time by which the dropoff is
    reached after [entry_time + ideal_traveltime]. *)
Definition total_delay (glo : Glo) (network : Network) (vehicle : Vehicle)
    (order : list NodeStop) (current_time : Z) : Z :=
  fold_right Z.add 0
    (map (fun '(ns, a) => stop_delay ns a)
       (combine order
          (arrival_times glo network NO_ACTION (v_node vehicle)
             (current_time + v_offset vehicle) order))).

(** Two sets of requests with the same ids. *)
Definition same_requests (a b : list Request) : Prop :=
  forall id, In id (map r_id a) <-> In id (map r_id b).

(** The gates a trip of [k] requests passes, lines 178-195, against the
    trips of [k - 1] requests: its request set [U] is the union of the
    request sets of two of them and has exactly [k] members; at most
    MAX_NEW / 2 of these are not pending on the vehicle; every request of
    the first parent is joined to every other request of the second by an
    RR edge in one direction at least; and every subset of [k - 1] requests
    of [U] is the request set of one of them. *)
Definition passes_gates (glo : Glo) (rr_edge : Z -> Z -> bool)
    (vehicle : Vehicle) (k : nat) (previous_round : list Trip) (trip : Trip)
    : Prop :=
  let U := t_requests trip in
  exists T1 T2,
    In T1 previous_round /\ In T2 previous_round
    /\ U = request_union (t_requests T1) (t_requests T2)
    /\ NoDup (map r_id U) /\ List.length U = k
    /\ 2 * Z.of_nat (List.length
                       (request_diff U (v_pending_requests vehicle)))
       <= MAX_NEW glo
    /\ (forall a b, In a (t_requests T1) -> In b (t_requests T2) ->
          r_id a <> r_id b ->
          rr_edge (r_id a) (r_id b) = true \/ rr_edge (r_id b) (r_id a) = true)
    /\ (forall sub, NoDup (map r_id sub) ->
          incl (map r_id sub) (map r_id U) ->
          S (List.length sub) = k ->
          exists T, In T previous_round /\ same_requests (t_requests T) sub).

(** The data-model invariant read by [new_travel] for the passengers of a
    vehicle: they have been picked up, so the stops that [order_record]
    holds for them are dropoffs. *)
Definition passenger_stops_are_dropoffs (vehicle : Vehicle) : Prop :=
  forall ns, In ns (v_order_record vehicle) ->
             request_mem (ns_r ns) (v_passengers vehicle) = true ->
             ns_is_pickup ns = false.

(** Pickup and boarding deadline of a stop against its arrival time. *)
Definition meets_deadlines (ns : NodeStop) (a : Z) : Prop :=
  (ns_is_pickup ns = true -> a <= r_latest_boarding (ns_r ns))
  /\ a <= r_latest_alighting (ns_r ns).

(** The pairs (stop, stop it unlocks) of a stop graph. *)
Fixpoint meta_unlock_pairs (m : MetaNodeStop) : list (NodeStop * NodeStop) :=
  match m with
  | Meta n u => map (fun x => (n, m_node x)) u ++ flat_map meta_unlock_pairs u
  end.

Definition unlock_pairs (l : list MetaNodeStop) : list (NodeStop * NodeStop) :=
  flat_map meta_unlock_pairs l.

(** Every stop of a list paired with its successor. *)
Fixpoint consecutive_pairs (l : list NodeStop) : list (NodeStop * NodeStop) :=
  match l with
  | a :: (b :: _) as rest => (a, b) :: consecutive_pairs rest
  | _ => []
  end.

(** Travel and dwell times are not negative, and neither are the clock and
    the offset of the vehicle. *)
Definition nonneg_times (glo : Glo) (network : Network) : Prop :=
  (forall a b, 0 <= get_time network a b)
  /\ 0 <= DWELL_ALIGHT glo /\ 0 <= DWELL_PICKUP glo.

(** The shape of a result of [travel]: the pair of the cost -1 and the
    empty order, or a cost that is not negative. *)
Definition sentinel_or_cost (result : Z * list NodeStop) : Prop :=
  (fst result = -1 /\ snd result = []) \/ 0 <= fst result.

(** [travel] returns, and what it returns has that shape. *)
Definition returns_sentinel_or_cost (glo : Glo) (network : Network)
    (unlocks_id : MetaNodeStop -> Z) (vehicle : Vehicle)
    (requests : list Request) (current_time : Z) (trigger : string) : Prop :=
  exists result,
    travel glo network unlocks_id vehicle requests current_time trigger
      = Return result
    /\ sentinel_or_cost result.

(** The rule for locking the onboard dropoffs, for a given threshold on
    the number of riders: the stop graph is built, and above the threshold
    (and with a passenger onboard) the onboard dropoffs form a chain in the
    order of [order_record], only the first one being available and each
    one unlocking the next; otherwise all of them are available at once.
    The pickups of the new requests are always available and unlock their
    dropoffs. *)
Definition onboard_lock_rule (threshold : Z) (glo : Glo) (vehicle : Vehicle)
    (requests : list Request) : Prop :=
  exists F, prepare_stops glo vehicle requests = Return (Available F) /\
    let onboard := onboard_stops (request_set (v_passengers vehicle))
                     (v_order_record vehicle) in
    let riders := Z.of_nat (List.length requests)
                  + Z.of_nat (List.length (v_passengers vehicle)) in
    let request_pairs := map (fun r => (pickup_stop r, dropoff_stop r)) requests in
    (threshold < riders /\ v_passengers vehicle <> [] ->
       map m_node F = map pickup_stop requests ++ firstn 1 onboard
       /\ unlock_pairs F = request_pairs ++ consecutive_pairs onboard)
    /\ (~ (threshold < riders /\ v_passengers vehicle <> []) ->
       map m_node F = map pickup_stop requests ++ onboard
       /\ unlock_pairs F = request_pairs).

(** Travel times between node indices (which are not negative) form a
    metric up to symmetry: they are not negative, zero from a node to
    itself, and satisfy the triangle inequality. *)
Definition metric_times (network : Network) : Prop :=
  forall a b c, 0 <= a -> 0 <= b -> 0 <= c ->
    0 <= get_time network a b
    /\ get_time network a a = 0
    /\ get_time network a c <= get_time network a b + get_time network b c.

(** The travel times that [get_time] returns form such a metric among the
    given nodes. *)
Definition metric_among (nodes : list Z) (network : Network) : Prop :=
  forall a b c, In a nodes -> In b nodes -> In c nodes ->
    0 <= get_time network a b
    /\ get_time network a a = 0
    /\ get_time network a c <= get_time network a b + get_time network b c.

Definition nonneg_dwell (glo : Glo) : Prop :=
  0 <= DWELL_ALIGHT glo /\ 0 <= DWELL_PICKUP glo.

(** The nodes of the stops of an order are node indices. *)
Definition valid_nodes (order : list NodeStop) : Prop :=
  Forall (fun ns => 0 <= ns_node ns) order.

(** The stops [new_travel] has to order: pickup and dropoff of every new
    request, and the stored stop of every passenger. *)
Definition required_stops (vehicle : Vehicle) (requests : list Request)
    : list NodeStop :=
  flat_map (fun r => [pickup_stop r; dropoff_stop r]) requests
  ++ onboard_stops (request_set (v_passengers vehicle)) (v_order_record vehicle).

(** The nodes of a search: that of the vehicle and those of the stops. *)
Definition search_nodes (vehicle : Vehicle) (requests : list Request) : list Z :=
  v_node vehicle :: map ns_node (required_stops vehicle requests).

(** Every new request is picked up before it is dropped off. *)
Definition precedence (requests : list Request) (order : list NodeStop) : Prop :=
  forall r, In r requests ->
    exists l1 l2 l3, order = l1 ++ pickup_stop r :: l2 ++ dropoff_stop r :: l3.

(** A visit order over the required stops that satisfies the precedence,
    capacity and deadline constraints. *)
Definition feasible_order (glo : Glo) (network : Network) (vehicle : Vehicle)
    (requests : list Request) (current_time : Z) (order : list NodeStop) : Prop :=
  Permutation order (required_stops vehicle requests)
  /\ precedence requests order
  /\ route_ok glo network NO_ACTION (v_node vehicle)
       (v_capacity vehicle - Z.of_nat (List.length (v_passengers vehicle)))
       (current_time + v_offset vehicle) order = true.

(** The cost [travel] reports for an order: its completion time, made
    relative to the clock under CTSP_VTT. *)
Definition order_cost (glo : Glo) (network : Network) (vehicle : Vehicle)
    (current_time : Z) (order : list NodeStop) : Z :=
  fst (format_path glo
         (route_end glo network NO_ACTION (v_node vehicle)
            (current_time + v_offset vehicle) order, [])
         current_time).

(** The search decides feasibility exactly and returns a feasible order of
    minimum cost when there is one, for the cost [cost_of] of an order. *)
Definition search_exact_for (cost_of : list NodeStop -> Z)
    (glo : Glo) (network : Network)
    (unlocks_id : MetaNodeStop -> Z) (vehicle : Vehicle)
    (requests : list Request) (current_time : Z) : Prop :=
  exists cost order,
    travel glo network unlocks_id vehicle requests current_time "STANDARD"
      = Return (cost, order)
    /\ (cost = -1 <->
        ~ exists o, feasible_order glo network vehicle requests current_time o)
    /\ (forall o, feasible_order glo network vehicle requests current_time o ->
          feasible_order glo network vehicle requests current_time order
          /\ cost = cost_of order
          /\ forall o', feasible_order glo network vehicle requests current_time o' ->
                cost <= cost_of o').

(** The time at which the vehicle has served the last stop of an order. *)
Definition completion_time (glo : Glo) (network : Network) (vehicle : Vehicle)
    (current_time : Z) (order : list NodeStop) : Z :=
  route_end glo network NO_ACTION (v_node vehicle)
    (current_time + v_offset vehicle) order.

(** The configured objective of an order: its total delay under CTSP_DELAY,
    and its completion time minus the current time otherwise (CTSP_VTT). *)
Definition objective_cost (glo : Glo) (network : Network) (vehicle : Vehicle)
    (current_time : Z) (order : list NodeStop) : Z :=
  if String.eqb (CTSP_OBJECTIVE glo) "CTSP_DELAY"
  then total_delay glo network vehicle order current_time
  else completion_time glo network vehicle current_time order - current_time.

(** The completion time of an order, made relative to the clock under
    CTSP_VTT. *)
Definition completion_cost (glo : Glo) (network : Network) (vehicle : Vehicle)
    (current_time : Z) (order : list NodeStop) : Z :=
  if String.eqb (CTSP_OBJECTIVE glo) "CTSP_VTT"
  then completion_time glo network vehicle current_time order - current_time
  else completion_time glo network vehicle current_time order.

(** The search is exact for the configured objective. *)
Definition exact_search (glo : Glo) (network : Network)
    (unlocks_id : MetaNodeStop -> Z) (vehicle : Vehicle)
    (requests : list Request) (current_time : Z) : Prop :=
  search_exact_for (objective_cost glo network vehicle current_time)
    glo network unlocks_id vehicle requests current_time.

(** The search is exact for the completion time. *)
Definition exact_for_completion (glo : Glo) (network : Network)
    (unlocks_id : MetaNodeStop -> Z) (vehicle : Vehicle)
    (requests : list Request) (current_time : Z) : Prop :=
  search_exact_for (completion_cost glo network vehicle current_time)
    glo network unlocks_id vehicle requests current_time.

(** No prefix lock is engaged: the test of line 215 fails (FIX_ONBOARD
    does not chain the onboard stops) and so does the test of line 222
    (FIX_PREFIX with more than LP_LIMITVALUE meta stops). *)
Definition no_prefix_lock (glo : Glo) (vehicle : Vehicle)
    (requests : list Request) : Prop :=
  fix_onboard_locked glo vehicle requests = false
  /\ String.eqb (CTSP glo) "FIX_PREFIX"
     && (Z.of_nat (2 * List.length requests
                   + List.length (onboard_stops (request_set (v_passengers vehicle))
                                    (v_order_record vehicle)))
         >? LP_LIMITVALUE glo) = false.

(** The order in which the search iterates the available stops, as far as
    node and kind go: by node, dropoffs before pickups at a node. *)
Definition stop_le (a b : NodeStop) : Prop :=
  ns_node a < ns_node b
  \/ (ns_node a = ns_node b /\ (ns_is_pickup a = true -> ns_is_pickup b = true)).

Definition meta_le (a b : MetaNodeStop) : Prop := stop_le (m_node a) (m_node b).

(** The time [best] is a time and no later than [finish_time]. *)
Definition covers (best finish_time : Z) : Prop :=
  best <> -1 /\ best <= finish_time.

(** No two consecutive stops of an order are of the same kind at the same
    node (no batched stops). *)
Fixpoint no_batched_stops (order : list NodeStop) : Prop :=
  match order with
  | a :: (b :: _) as rest =>
    (ns_is_pickup a = ns_is_pickup b -> ns_node a <> ns_node b)
    /\ no_batched_stops rest
  | _ => True
  end.

(** ** Invariants of the loops

    The statements the proofs below carry through the loops of the search,
    of the RTV builder and of the indexing of the trips. *)

(** What [recursive_search] may return for the bound [best] it was given:
    the bound itself with no stops, or the end time of a route that is a
    linearisation of the stop graph and respects capacity and deadlines. *)
Definition sound_result (glo : Glo) (network : Network) (prev : Action) (loc cap : Z) (F : list MetaNodeStop)
    (now best : Z) (res : Z * list NodeStop) : Prop :=
  (fst res = best /\ snd res = [])
  \/ (Lin F (rev (snd res))
      /\ route_ok glo network prev loc cap now (rev (snd res)) = true
      /\ route_end glo network prev loc now (rev (snd res)) = fst res).

(** A route through the stop graph [F] that starts with the available
    stop [m]. *)
Definition starts_with (F : list MetaNodeStop) (m : MetaNodeStop)
    (rest : list NodeStop) : Prop :=
  exists F', Permutation F (m :: F') /\ Lin (F' ++ m_unlocks m) rest.

(** What the completeness of a call means: its result is a time, and it
    is no later than the end of any valid route through the stop graph. *)
Definition complete_result (glo : Glo) (network : Network) (prev : Action) (loc cap : Z)
    (F : list MetaNodeStop) (now : Z) (res : Z * list NodeStop) : Prop :=
  forall order, Lin F order -> route_ok glo network prev loc cap now order = true ->
    covers (fst res) (route_end glo network prev loc now order).

(** Every round from the second on holds trips that passed the gates
    against the round before. *)
Definition gated_rounds (glo : Glo) (rr_edge : Z -> Z -> bool)
    (vehicle : Vehicle) (rounds : list (list Trip)) : Prop :=
  forall k trip, (2 <= k)%nat -> In trip (nth k rounds []) ->
    passes_gates glo rr_edge vehicle k (nth (k - 1) rounds []) trip.

(** The set [rids_to_trips.get(rid, [])]. *)
Definition rid_indices (m : rid_map) (rid : Z) : list nat :=
  match rid_get m rid with
  | Some indices => indices
  | None => []
  end.

(** What [rids_to_trips] holds once the trips [done] have been indexed. *)
Definition indexes (m : rid_map) (done : list Trip) : Prop :=
  forall rid,
    NoDup (rid_indices m rid)
    /\ forall i, In i (rid_indices m rid) <->
                 exists trip, nth_error done i = Some trip
                              /\ In rid (map r_id (t_requests trip)).

(** ** Concrete networks, vehicles and requests *)

Module Examples.

(** A line of nodes 0, 1, 2, ... with 60 seconds between neighbours and no
    dwell time. *)
Definition line : Network := mkNetwork (fun a b => 60 * Z.abs (a - b)) 0 0.

(** The default configuration of [global_var.py]. *)
Definition defaults : Glo :=
  mkGlo "FIX_ONBOARD" "CTSP_VTT" 4 8 0 0 8 0 "ILP_FULL" "AO_SERVICERATE".

(** A request on the line with MAX_WAITING = 300 and MAX_DETOUR = 600, as
    [load_requests] builds it. *)
Definition request_on_line (id origin destination entry_time : Z) : Request :=
  mkRequest id origin destination entry_time
    (60 * Z.abs (origin - destination))
    (entry_time + 300)
    (entry_time + 600 + 60 * Z.abs (origin - destination))
    false.

Definition no_ties : MetaNodeStop -> Z := fun _ => 0.

(** Per-row capacities (CARSIZE < 0): a vehicle with four seats carrying
    two passengers that alight at nodes 2 and 1. *)
Definition per_row_capacity : Glo :=
  mkGlo "FIX_ONBOARD" "CTSP_VTT" (-1) 8 0 0 8 0 "ILP_FULL" "AO_SERVICERATE".
Definition p1 : Request := request_on_line 1 0 2 0.
Definition p2 : Request := request_on_line 2 0 1 0.
Definition two_onboard : Vehicle :=
  mkVehicle 7 4 0 0 [p1; p2] [] [dropoff_stop p1; dropoff_stop p2].


(** A new request from node 1 to node 2, and the route [travel] finds for
    it on [two_onboard] under the default configuration. *)
Definition r3 : Request := request_on_line 3 1 2 0.
Definition route_with_r3 : list NodeStop :=
  [dropoff_stop p2; pickup_stop r3; dropoff_stop p1; dropoff_stop r3].


(** Scenario 1 of the specification: an empty four-seat vehicle at node 0
    and one request from node 0 to node 2. *)
Definition taxi : Vehicle := mkVehicle 1 4 0 0 [] [] [].
Definition rider : Request := request_on_line 1 0 2 0.

(** A wall clock that starts at 1 700 000 000 s and advances by one second
    per reading. *)
Definition clock : nat -> Z := fun n => 1700000000 + Z.of_nat n.


(** Scenario 2 of the specification: two requests that can share the
    vehicle, with RR edges between all requests. *)
Definition sharer1 : Request := request_on_line 11 0 3 0.
Definition sharer2 : Request := request_on_line 12 1 2 0.
Definition all_edges : Z -> Z -> bool := fun _ _ => true.

(** The CTSP_DELAY objective with the other defaults. *)
Definition delay_objective : Glo :=
  mkGlo "FIX_ONBOARD" "CTSP_DELAY" 4 8 0 0 8 0 "ILP_FULL" "AO_SERVICERATE".

(** A vehicle at node 0 at time 1000 whose pending request could be
    boarded until time 300 only. *)
Definition late_rider : Request := request_on_line 5 0 2 0.
Definition late : Vehicle :=
  mkVehicle 2 4 0 0 [] [late_rider]
    [pickup_stop late_rider; dropoff_stop late_rider].

(** A vehicle at node 0 with two passengers who both alight at node 2. *)
Definition pa : Request := request_on_line 21 0 2 0.
Definition pb : Request := request_on_line 22 0 2 0.
Definition pooled : Vehicle :=
  mkVehicle 3 4 0 0 [pa; pb] [] [dropoff_stop pa; dropoff_stop pb].


(** The rounds and the trip list of scenario 2, as the embedding computes
    them. *)
Definition scenario2_rounds : list (list Trip) :=
  Eval vm_compute in
    match rtv_rounds defaults line no_ties clock all_edges taxi
            [sharer1; sharer2] 0 0 with
    | Return (rounds, _) => rounds
    | _ => []
    end.

Definition scenario2_shared_trip : Trip :=
  mkTrip 180 false false
    [pickup_stop sharer1; pickup_stop sharer2;
     dropoff_stop sharer2; dropoff_stop sharer1]
    [sharer1; sharer2].

Definition scenario2_trips : list Trip :=
  Eval vm_compute in List.concat scenario2_rounds.


(** The rows of the assignment ILP of scenario 2. *)
Definition scenario2_trip_list : list (Vehicle * list Trip) :=
  [(taxi, scenario2_trips)].

Definition scenario2_rows : list ilp_constr :=
  Eval vm_compute in
    match ilp_constraints defaults scenario2_trip_list [sharer1; sharer2] with
    | Return (Some rows) => rows
    | _ => []
    end.

End Examples.

(** ** Further notions used by the properties *)

(** The order [sorted] puts the stops in: [b] is not before [a]. *)
Definition not_after (unlocks_id : MetaNodeStop -> Z) (a b : MetaNodeStop) : Prop :=
  meta_lt unlocks_id b a = false.

(** No two of the stops are equal in the sense of [NodeStop.__eq__]. *)
Definition distinct_stops (l : list MetaNodeStop) : Prop :=
  ForallOrdPairs (fun a b => nodestop_eq (m_node a) (m_node b) = false) l.

(** ** The RV and RR graphs (src/algo/rvgenerator.py)

    The two graphs are [networkx] graphs whose nodes are named [f'v{id}']
    for a vehicle and [f'r{id}'] for a request.  A graph is embedded as the
    list of its nodes with their attributes and the list of its weighted
    edges, both in the order of insertion, which is the order in which
    [networkx] iterates them. *)

(** The switches of [global_var.py] read outside the route search. *)
Record Switches := mkSwitches {
  INTERVAL : Z;
  PRUNING_RV_K : Z;
  PRUNING_RR_K : Z;
  MAX_WAITING : Z;
  MAX_DETOUR : Z
}.

(** The node names [f'v{id}'] and [f'r{id}']. *)
Inductive label := v_label (id : Z) | r_label (id : Z).

Definition label_eqb (a b : label) : bool :=
  match a, b with
  | v_label i, v_label j => i =? j
  | r_label i, r_label j => i =? j
  | _, _ => false
  end.

(** The attributes of a node: [request=...] or [vehicle=...], or none for
    a node that [add_edge] had to create. *)
Inductive node_data :=
| request_data (request : Request)
| vehicle_data (vehicle : Vehicle)
| no_data.

(** [nx.Graph()] (undirected) or [nx.DiGraph()] (directed). *)
Record graph := mkGraph {
  g_directed : bool;
  g_nodes : list (label * node_data);
  g_edges : list (label * label * Z)
}.

Definition has_node (g : graph) (n : label) : bool :=
  existsb (fun entry => label_eqb (fst entry) n) (g_nodes g).

(** [add_node(n, **attr)]: a new node is appended, the attributes of a
    known one are replaced. *)
Fixpoint set_node (nodes : list (label * node_data)) (n : label)
    (d : node_data) : list (label * node_data) :=
  match nodes with
  | [] => [(n, d)]
  | (m, e) :: rest =>
    if label_eqb m n then (m, d) :: rest else (m, e) :: set_node rest n d
  end.

Definition add_node (g : graph) (n : label) (d : node_data) : graph :=
  mkGraph (g_directed g) (set_node (g_nodes g) n d) (g_edges g).

(** The edge [(a, b)] is the edge between [u] and [v]. *)
Definition same_edge (directed : bool) (u v a b : label) : bool :=
  (label_eqb a u && label_eqb b v)
  || (negb directed && (label_eqb a v && label_eqb b u)).

Fixpoint set_edge (directed : bool) (edges : list (label * label * Z))
    (u v : label) (weight : Z) : list (label * label * Z) :=
  match edges with
  | [] => [(u, v, weight)]
  | (a, b, w) :: rest =>
    if same_edge directed u v a b then (a, b, weight) :: rest
    else (a, b, w) :: set_edge directed rest u v weight
  end.

(** [add_edge(u, v, weight=...)]: missing end nodes are created without
    attributes; the weight of a known edge is replaced. *)
Definition add_edge (g : graph) (u v : label) (weight : Z) : graph :=
  let with_node (nodes : list (label * node_data)) (n : label) :=
    if existsb (fun entry => label_eqb (fst entry) n) nodes then nodes
    else nodes ++ [(n, no_data)] in
  mkGraph (g_directed g) (with_node (with_node (g_nodes g) u) v)
          (set_edge (g_directed g) (g_edges g) u v weight).

Definition has_edge (g : graph) (u v : label) : bool :=
  existsb (fun e => same_edge (g_directed g) u v (fst (fst e)) (snd (fst e)))
          (g_edges g).

(** [neighbors(u)]: the nodes joined to [u] (its successors in a directed
    graph), in the order in which the edges were first added. *)
Definition neighbors (g : graph) (u : label) : list label :=
  flat_map (fun e =>
    let '(a, b, _) := e in
    if label_eqb a u then [b]
    else if negb (g_directed g) && label_eqb b u then [a]
    else []) (g_edges g).

(** [list.sort(key=...)]: the stable sort, by insertion from the right;
    [lt x y] says that the key of [x] is less than the key of [y]. *)
Fixpoint insert_sorted {A : Type} (lt : A -> A -> bool) (x : A) (l : list A)
    : list A :=
  match l with
  | [] => [x]
  | y :: l' => if lt y x then y :: insert_sorted lt x l' else x :: l
  end.

Fixpoint sort_stable {A : Type} (lt : A -> A -> bool) (l : list A) : list A :=
  match l with
  | [] => []
  | x :: l' => insert_sorted lt x (sort_stable lt l')
  end.

(** The slice [l[:k]]: a negative [k] counts from the end. *)
Definition py_prefix {A : Type} (k : Z) (l : list A) : list A :=
  if 0 <=? k then firstn (Z.to_nat k) l
  else firstn (List.length l - Z.to_nat (- k)) l.

Section RvGraph.

Variable glo : Glo.
Variable switches : Switches.
Variable network : Network.
Variable unlocks_id : MetaNodeStop -> Z.

(** The float that [detour_factor] computes for a pair of requests, and
    [<] on such floats.  The rank only orders the RR links of a request
    before they are cut to PRUNING_RR_K; floats without NaN are totally
    preordered by [<], so that every stable sort yields the same list. *)
Variable rank : Type.
Variable detour_factor : Request -> Request -> Network -> rank.
Variable rank_lt : rank -> rank -> bool.

(** Lines 75-82 of [make_rvgraph]: the vehicles that can reach the origin
    of the request by its latest boarding time, with their waiting time. *)
Definition nearest_vehicles (vehicles : list Vehicle) (request : Request)
    (current_time : Z) : list (Z * Vehicle) :=
  flat_map (fun v =>
    let buffer := 0 in
    let min_wait := get_vehicle_time network v (r_origin request) - buffer in
    if current_time + min_wait >? r_latest_boarding request then []
    else [(min_wait, v)]) vehicles.

(** Lines 87-96: the loop over the sorted vehicles.  [travel] is called
    before the pruning test. *)
Fixpoint rv_link (request : Request) (current_time : Z)
    (nearest_vs : list (Z * Vehicle)) (count : Z) (g : graph) : outcome graph :=
  match nearest_vs with
  | [] => Return g
  | (_, vehicle) :: rest =>
    path <- travel glo network unlocks_id vehicle [request] current_time
              "STANDARD" ;;
    if (PRUNING_RV_K switches >? 0) && (count >=? PRUNING_RV_K switches)
    then Return g
    else if fst path >=? 0
    then rv_link request current_time rest (count + 1)
           (add_edge (add_node g (v_label (v_id vehicle)) (vehicle_data vehicle))
              (v_label (v_id vehicle)) (r_label (r_id request)) (fst path))
    else rv_link request current_time rest count g
  end.

(** The body of the loop of [make_rvgraph] for one request, lines 70-96. *)
Definition rv_request (vehicles : list Vehicle) (current_time : Z)
    (g : graph) (request : Request) : outcome graph :=
  let g := add_node g (r_label (r_id request)) (request_data request) in
  let nearest_vs :=
    sort_stable (fun a b : Z * Vehicle => fst a <? fst b)
      (nearest_vehicles vehicles request current_time) in
  rv_link request current_time nearest_vs 0 g.

(** [for i in range(start, end): request = requests[i]; ...] with a loop
    body that updates the graph. *)
Fixpoint for_requests (body : graph -> Request -> outcome graph)
    (requests : list Request) (indices : list nat) (g : graph) : outcome graph :=
  match indices with
  | [] => Return g
  | i :: rest =>
    match nth_error requests i with
    | None => Raises "IndexError: list index out of range"
    | Some request =>
      g' <- body g request ;;
      for_requests body requests rest g'
    end
  end.

(** [make_rvgraph] on the jobs [start, ..., end - 1]; the result is the
    graph when the call returns. *)
Definition make_rvgraph (start end_ : nat) (rv_graph : graph)
    (requests : list Request) (vehicles : list Vehicle) (current_time : Z)
    : outcome graph :=
  for_requests (rv_request vehicles current_time) requests
    (seq start (end_ - start)) rv_graph.

(** [Vehicle(0, 0, 4, request1.origin)]. *)
Definition dummyvehicle (request1 : Request) : Vehicle :=
  mkVehicle 0 4 (r_origin request1) 0 [] [] [].

(** Lines 117-130 of [make_rrgraph]: the requests that can share a
    vehicle with [request1], with the cost of the shared route. *)
Fixpoint compatible (request1 : Request) (requests : list Request)
    (current_time : Z) : outcome (list (Request * Z)) :=
  match requests with
  | [] => Return []
  | request2 :: rest =>
    if request_eq request1 request2 then compatible request1 rest current_time
    else
      let buffer := 0 in
      let min_wait :=
        get_time network (r_origin request1) (r_origin request2) - buffer in
      if min_wait + Z.max current_time (r_entry_time request1)
         >? r_latest_boarding request2
      then compatible request1 rest current_time
      else
        path <- travel glo network unlocks_id (dummyvehicle request1)
                  [request1; request2] current_time "STANDARD" ;;
        tail <- compatible request1 rest current_time ;;
        Return (if fst path >=? 0 then (request2, fst path) :: tail else tail)
  end.

(** The body of the loop of [make_rrgraph] for one request, lines
    112-138. *)
Definition rr_request (requests : list Request) (current_time : Z)
    (g : graph) (request1 : Request) : outcome graph :=
  let g := add_node g (r_label (r_id request1)) (request_data request1) in
  compatible_requests <- compatible request1 requests current_time ;;
  let ranked :=
    sort_stable (fun a b : Request * Z =>
                   rank_lt (detour_factor request1 (fst a) network)
                           (detour_factor request1 (fst b) network))
      compatible_requests in
  let kept :=
    if negb (PRUNING_RR_K switches =? 0)
       && (Z.of_nat (List.length ranked) >? PRUNING_RR_K switches)
    then py_prefix (PRUNING_RR_K switches) ranked
    else ranked in
  Return (fold_left (fun g (link : Request * Z) =>
            add_edge (add_node g (r_label (r_id (fst link)))
                        (request_data (fst link)))
              (r_label (r_id request1)) (r_label (r_id (fst link))) (snd link))
          kept g).

(** [make_rrgraph] on the jobs [start, ..., end - 1]. *)
Definition make_rrgraph (start end_ : nat) (rr_graph : graph)
    (requests : list Request) (current_time : Z) : outcome graph :=
  for_requests (rr_request requests current_time) requests
    (seq start (end_ - start)) rr_graph.

End RvGraph.

(** The requests that [make_rtvgraph] reads off the RV graph for a
    vehicle, lines 138-144 of rtvgenerator.py: the [request] attributes of
    the neighbours of the node of the vehicle; a neighbour without this
    attribute is a KeyError. *)
Definition node_request (g : graph) (n : label) : outcome Request :=
  match find (fun entry => label_eqb (fst entry) n) (g_nodes g) with
  | Some (_, request_data r) => Return r
  | _ => Raises "KeyError: 'request'"
  end.

Fixpoint node_requests (g : graph) (names : list label) : outcome (list Request) :=
  match names with
  | [] => Return []
  | n :: rest =>
    r <- node_request g n ;;
    tail <- node_requests g rest ;;
    Return (r :: tail)
  end.

Definition rv_neighbors_of (rv_graph : graph) (vehicle : Vehicle)
    : outcome (list Request) :=
  if has_node rv_graph (v_label (v_id vehicle))
  then node_requests rv_graph (neighbors rv_graph (v_label (v_id vehicle)))
  else Return [].

(** [rr_graph.has_edge(f'r{a}', f'r{b}')] on request ids. *)
Definition rr_edge_of (rr_graph : graph) (a b : Z) : bool :=
  has_edge rr_graph (r_label a) (r_label b).

(** [nx.Graph()] and [nx.DiGraph()]. *)
Definition empty_graph (directed : bool) : graph := mkGraph directed [] [].

(** The number of edges stored towards a node and from a node. *)
Definition edges_to (g : graph) (n : label) : nat :=
  List.length (filter (fun e => label_eqb (snd (fst e)) n) (g_edges g)).

Definition edges_from (g : graph) (n : label) : nat :=
  List.length (filter (fun e => label_eqb (fst (fst e)) n) (g_edges g)).

(** What an edge of the RV graph stands for: a vehicle and a request such
    that [travel] finds a route for the request alone on the vehicle, at
    the cost that is the weight of the edge. *)
Definition rv_feasible (glo : Glo) (network : Network)
    (unlocks_id : MetaNodeStop -> Z) (vehicles : list Vehicle)
    (requests : list Request) (current_time : Z) (e : label * label * Z) : Prop :=
  exists vehicle request order,
    In vehicle vehicles /\ In request requests
    /\ fst (fst e) = v_label (v_id vehicle)
    /\ snd (fst e) = r_label (r_id request)
    /\ 0 <= snd e
    /\ travel glo network unlocks_id vehicle [request] current_time "STANDARD"
       = Return (snd e, order).

(** What an edge of the RR graph stands for: two requests of different
    ids such that [travel] finds a route for both on a vehicle of four
    seats that starts at the origin of the first. *)
Definition rr_feasible (glo : Glo) (network : Network)
    (unlocks_id : MetaNodeStop -> Z) (requests : list Request)
    (current_time : Z) (e : label * label * Z) : Prop :=
  exists request1 request2 order,
    In request1 requests /\ In request2 requests
    /\ r_id request1 <> r_id request2
    /\ fst (fst e) = r_label (r_id request1)
    /\ snd (fst e) = r_label (r_id request2)
    /\ 0 <= snd e
    /\ travel glo network unlocks_id (dummyvehicle request1)
         [request1; request2] current_time "STANDARD"
       = Return (snd e, order).

(** Scenario 2 again, for the RV and RR graphs. *)
Module GraphExamples.

(** The defaults of [global_var.py]: no pruning. *)
Definition no_pruning : Switches := mkSwitches 60 0 0 300 600.

(** At most one RV edge and one RR edge per request. *)
Definition one_link : Switches := mkSwitches 60 1 1 300 600.

(** A rank under which all links of a request tie. *)
Definition flat_rank (_ _ : Request) (_ : Network) : Z := 0.

Definition requests : list Request := [Examples.sharer1; Examples.sharer2].

(** A second vehicle, at node 1. *)
Definition taxi2 : Vehicle := mkVehicle 2 4 1 0 [] [] [].

Definition rv_graph_of (switches : Switches) : graph :=
  match make_rvgraph Examples.defaults switches Examples.line Examples.no_ties
          0 2 (empty_graph false) requests [Examples.taxi; taxi2] 0 with
  | Return g => g
  | _ => empty_graph false
  end.

Definition rr_graph_of (switches : Switches) : graph :=
  match make_rrgraph Examples.defaults switches Examples.line Examples.no_ties
          Z flat_rank Z.ltb 0 2 (empty_graph true) requests 0 with
  | Return g => g
  | _ => empty_graph true
  end.

Definition rv_graph : graph := Eval vm_compute in rv_graph_of no_pruning.
Definition rv_graph_pruned : graph := Eval vm_compute in rv_graph_of one_link.
Definition rr_graph : graph := Eval vm_compute in rr_graph_of no_pruning.
Definition rr_graph_pruned : graph := Eval vm_compute in rr_graph_of one_link.

End GraphExamples.

(** ** Time strings and the request buffer (src/utils/helper.py)

    A [str] is a string of code points below 256.  The interpreter
    refuses to convert between [int] and [str] a numeral longer than
    [sys.get_int_max_str_digits()]: the argument [limit] is that setting,
    0 for none (4300 unless changed; no limit before CPython 3.11 and the
    security releases of 3.7 to 3.10).  Numerals of at most 640
    characters are never refused, whatever the setting. *)

(** [str(n)] for [n >= 0], without the limit. *)
Definition decimal (n : N) : string :=
  DecimalString.NilZero.string_of_uint (N.to_uint n).

Definition LONG_MAX_STR_DIGITS_THRESHOLD : nat := 640.

(** The test of the conversion to [str]: [strlen] counts the sign,
    [digits] does not. *)
Definition str_refused (limit : nat) (strlen digits : nat) : bool :=
  Nat.ltb LONG_MAX_STR_DIGITS_THRESHOLD strlen
  && Nat.ltb 0 limit && Nat.ltb limit digits.

(** The test of the conversion to [int]. *)
Definition int_refused (limit : nat) (digits : nat) : bool :=
  Nat.ltb LONG_MAX_STR_DIGITS_THRESHOLD digits
  && Nat.ltb 0 limit && Nat.ltb limit digits.

(** Whether [str(n)], and so [f'{n:02}'], raises ValueError. *)
Definition format_refused (limit : nat) (n : Z) : bool :=
  let digits := String.length (decimal (Z.to_N (Z.abs n))) in
  str_refused limit (if n <? 0 then S digits else digits) digits.

(** [f'{n:02}']: zero-padded to two characters, the sign included;
    [None] is the ValueError of the limit. *)
Definition format_02 (limit : nat) (n : Z) : option string :=
  if format_refused limit n then None
  else
    let d := decimal (Z.to_N (Z.abs n)) in
    Some (if n <? 0 then String "-" d
          else if Nat.ltb (String.length d) 2 then String "0" d else d).

(** [encode_time]; [//] and [%] round towards minus infinity, as [/] and
    [mod] on [Z] do. *)
Definition encode_time (limit : nat) (timeint : Z) : outcome string :=
  let hour := timeint / 3600 in
  let minute := (timeint / 60) mod 60 in
  let second := timeint mod 60 in
  match format_02 limit hour, format_02 limit minute, format_02 limit second with
  | Some h, Some m, Some s => Return (h ++ ":" ++ m ++ ":" ++ s)%string
  | _, _, _ =>
    Raises ("ValueError: Exceeds the limit (" ++ decimal (N.of_nat limit)
            ++ " digits) for integer string conversion; "
            ++ "use sys.set_int_max_str_digits() to increase the limit")%string
  end.

(** [s.split(sep)] for a separator of one character. *)
Fixpoint split_on (sep : ascii) (s : string) : list string :=
  match s with
  | EmptyString => [EmptyString]
  | String c rest =>
    if Ascii.eqb c sep then EmptyString :: split_on sep rest
    else match split_on sep rest with
         | field :: fields => String c field :: fields
         | [] => [String c EmptyString]
         end
  end.

(** The characters that [int] skips around the numeral: tab to carriage
    return, space, and of the code points from 128 on, next line and
    no-break space. *)
Definition is_space (c : ascii) : bool :=
  let n := nat_of_ascii c in
  ((9 <=? n) && (n <=? 13) || (n =? 32) || (n =? 133) || (n =? 160))%nat.

Definition is_digit (c : ascii) : bool :=
  let n := nat_of_ascii c in ((48 <=? n) && (n <=? 57))%nat.

Fixpoint lstrip (s : string) : string :=
  match s with
  | String c rest => if is_space c then lstrip rest else s
  | EmptyString => EmptyString
  end.

Fixpoint rstrip (s : string) : string :=
  match s with
  | EmptyString => EmptyString
  | String c rest =>
    match rstrip rest with
    | EmptyString => if is_space c then EmptyString else String c EmptyString
    | kept => String c kept
    end
  end.

(** Digits in groups separated by single underscores: [after_digit] tells
    whether the character before was a digit. *)
Fixpoint grouped_digits (s : string) (after_digit : bool) : bool :=
  match s with
  | EmptyString => after_digit
  | String c rest =>
    if is_digit c then grouped_digits rest true
    else if Ascii.eqb c "_" && after_digit then grouped_digits rest false
    else false
  end.

Fixpoint without_underscores (s : string) : string :=
  match s with
  | EmptyString => EmptyString
  | String c rest =>
    if Ascii.eqb c "_" then without_underscores rest
    else String c (without_underscores rest)
  end.

(** [int(s)] for a string: whitespace around, an optional sign, decimal
    digits with optional single underscores between them; [None] is
    ValueError. *)
Definition py_int (limit : nat) (s : string) : option Z :=
  let t := rstrip (lstrip s) in
  let '(negative, body) :=
    match t with
    | String "-" rest => (true, rest)
    | String "+" rest => (false, rest)
    | _ => (false, t)
    end in
  let digits := without_underscores body in
  if grouped_digits body false && negb (int_refused limit (String.length digits))
  then
    match DecimalString.NilEmpty.uint_of_string digits with
    | Some d =>
      let n := Z.of_N (N.of_uint d) in
      Some (if negative then - n else n)
    | None => None
    end
  else None.

(** [decode_time]: three integers separated by colons; everything else
    is the ValueError that the function raises again. *)
Definition decode_time (limit : nat) (timestring : string) : outcome Z :=
  match map (py_int limit) (split_on ":" timestring) with
  | [Some h; Some m; Some s] => Return (h * 3600 + m * 60 + s)
  | _ => Raises ("ValueError: Invalid time string: " ++ timestring)%string
  end.

(** [read_time]: the same computation; only the chaining of the exception
    differs. *)
Definition read_time (limit : nat) (timestring : string) : outcome Z :=
  match map (py_int limit) (split_on ":" timestring) with
  | [Some h; Some m; Some s] => Return (h * 3600 + m * 60 + s)
  | _ => Raises ("ValueError: Invalid time string: " ++ timestring)%string
  end.

(** [get_new_requests]: the requests that entered during the interval
    that ends at [current_time]. *)
Definition get_new_requests (switches : Switches) (requests : list Request)
    (current_time : Z) : list Request :=
  filter (fun r => (r_entry_time r <=? current_time)
                   && (current_time <? r_entry_time r + INTERVAL switches))
         requests.

(** The clock of the main loop of [main.py], lines 98-104: it starts at
    [initial_time - INTERVAL], and as long as it is before
    [final_time - INTERVAL] it advances by INTERVAL and the body runs at the
    new time.  The result lists the times at which the body runs. *)
Fixpoint clock_loop (switches : Switches) (fuel : nat)
    (current_time final_time : Z) : outcome (list Z) :=
  if current_time <? final_time - INTERVAL switches
  then match fuel with
       | O => OutOfFuel
       | S fuel' =>
         let current_time := current_time + INTERVAL switches in
         ticks <- clock_loop switches fuel' current_time final_time ;;
         Return (current_time :: ticks)
       end
  else Return [].

Definition simulation_ticks (switches : Switches) (fuel : nat)
    (initial_time final_time : Z) : outcome (list Z) :=
  clock_loop switches fuel (initial_time - INTERVAL switches) final_time.

(** What [active_requests.extend(new_requests)] (line 116) appends to the
    request buffer over the given ticks. *)
Definition buffer_entries (switches : Switches) (requests : list Request)
    (ticks : list Z) : list Request :=
  flat_map (get_new_requests switches requests) ticks.

Definition Request_eq_dec (a b : Request) : {a = b} + {a <> b}.
Proof. decide equality; first [apply Z.eq_dec|apply bool_dec]. Defined.

Definition NodeStop_eq_dec (a b : NodeStop) : {a = b} + {a <> b}.
Proof.
  decide equality; first [apply Z.eq_dec|apply bool_dec|apply Request_eq_dec].
Defined.

(** The first time [initial_time + k * INTERVAL] at or after the entry of
    the request. *)
Definition entry_tick (switches : Switches) (initial_time : Z) (r : Request) : Z :=
  initial_time
  + - ((initial_time - r_entry_time r) / INTERVAL switches) * INTERVAL switches.

(** [get_active_vehicles]. *)
Definition get_active_vehicles (vehicles : list Vehicle) (current_time : Z)
    : list Vehicle := vehicles.

(** Every character of the string satisfies [p]. *)
Fixpoint string_all (p : ascii -> bool) (s : string) : bool :=
  match s with
  | EmptyString => true
  | String c rest => p c && string_all p rest
  end.

Definition no_colon (c : ascii) : bool := negb (Ascii.eqb c ":").

(** [s.count(c)]. *)
Fixpoint count_char (c : ascii) (s : string) : nat :=
  match s with
  | EmptyString => 0%nat
  | String c' rest =>
    if Ascii.eqb c' c then S (count_char c rest) else count_char c rest
  end.

(** ** The state clock of a vehicle (src/env/struct/Vehicle.py)

    The fields of [Vehicle] that [set_state] and the [get_total_*]
    methods read and write; no other method touches them. *)

Definition IDLE : string := "Idle".
Definition ENROUTE : string := "EnRoute".
Definition IN_USE : string := "InUse".
Definition REBALANCING : string := "Rebalancing".

Record VehicleClock := mkVehicleClock {
  v_state : string;
  v_total_idle : Z;
  v_total_rebalancing : Z;
  v_total_enroute : Z;
  v_total_inuse : Z;
  v_time_stamp : Z
}.

(** The values that [__init__] gives to these fields. *)
Definition new_clock : VehicleClock := mkVehicleClock IDLE 0 0 0 0 0.

(** [set_state]: a stamp of -1 is first replaced by the current time;
    a change of state closes the period of the old state, and every state
    that is not one of the first three counts as rebalancing. *)
Definition set_state (self : VehicleClock) (state : string) (current_time : Z)
    : VehicleClock :=
  let time_stamp :=
    if v_time_stamp self =? -1 then current_time else v_time_stamp self in
  if negb (String.eqb state (v_state self)) then
    let duration := current_time - time_stamp in
    let idle := String.eqb (v_state self) IDLE in
    let enroute := String.eqb (v_state self) ENROUTE in
    let inuse := String.eqb (v_state self) IN_USE in
    mkVehicleClock state
      (if idle then v_total_idle self + duration else v_total_idle self)
      (if idle || enroute || inuse then v_total_rebalancing self
       else v_total_rebalancing self + duration)
      (if negb idle && enroute then v_total_enroute self + duration
       else v_total_enroute self)
      (if negb idle && negb enroute && inuse then v_total_inuse self + duration
       else v_total_inuse self)
      current_time
  else
    mkVehicleClock (v_state self) (v_total_idle self) (v_total_rebalancing self)
      (v_total_enroute self) (v_total_inuse self) time_stamp.

Definition get_total_idle (self : VehicleClock) (time : Z) : Z :=
  if String.eqb (v_state self) IDLE
  then v_total_idle self + (time - v_time_stamp self) else v_total_idle self.

Definition get_total_rebalancing (self : VehicleClock) (time : Z) : Z :=
  if String.eqb (v_state self) REBALANCING
  then v_total_rebalancing self + (time - v_time_stamp self)
  else v_total_rebalancing self.

Definition get_total_enroute (self : VehicleClock) (time : Z) : Z :=
  if String.eqb (v_state self) ENROUTE
  then v_total_enroute self + (time - v_time_stamp self)
  else v_total_enroute self.

Definition get_total_inuse (self : VehicleClock) (time : Z) : Z :=
  if String.eqb (v_state self) IN_USE
  then v_total_inuse self + (time - v_time_stamp self)
  else v_total_inuse self.

(** A vehicle after a sequence of calls of [set_state]. *)
Definition set_states (self : VehicleClock) (calls : list (string * Z))
    : VehicleClock :=
  fold_left (fun v call => set_state v (fst call) (snd call)) calls self.

(** The four states that the simulator passes to [set_state]. *)
Definition known_state (state : string) : bool :=
  String.eqb state IDLE || String.eqb state ENROUTE
  || String.eqb state IN_USE || String.eqb state REBALANCING.

(** ** Jobs of the thread pools

    [range(start, stop)] and, for a positive step,
    [range(start, stop, step)]. *)

Definition py_range (start stop : Z) : list Z :=
  map (fun k => start + Z.of_nat k) (seq 0 (Z.to_nat (stop - start))).

Definition py_range_step (start stop step : Z) : list Z :=
  map (fun k => start + Z.of_nat k * step)
      (seq 0 (Z.to_nat ((stop - start + step - 1) / step))).

(** [build_rtv_graph], lines 288-300 of rtvgenerator.py: the pairs of
    [start] and [end] handed to [make_rtvgraph], which works on
    [range(start, end)].  The pool refuses a number of workers that is
    not positive. *)
Definition rtv_jobs (threads : Z) (vehicles : list Vehicle)
    : outcome (list (Z * Z)) :=
  if threads <=? 0 then Raises "ValueError: max_workers must be greater than 0"
  else
    let len := Z.of_nat (List.length vehicles) in
    let vehicles_per_thread := len / threads in
    Return (map (fun i =>
                   (i * vehicles_per_thread,
                    if i <? threads - 1 then (i + 1) * vehicles_per_thread
                    else len))
                (py_range 0 threads)).

(** [simulate_vehicles], lines 251-261 of simulate.py: the pairs of
    [chunk_start] and [chunk_end] handed to [simulate_dispatch], which
    works on [range(chunk_start, chunk_end)].  The chunk size is computed
    before the pool is made, and the range before anything is
    submitted. *)
Definition simulate_chunks (num_threads : Z) (vehicles : list Vehicle)
    : outcome (list (Z * Z)) :=
  let num_vehicles := Z.of_nat (List.length vehicles) in
  if num_threads =? 0
  then Raises "ZeroDivisionError: integer division or modulo by zero"
  else
    let chunk_size := (num_vehicles + num_threads - 1) / num_threads in
    if num_threads <? 0
    then Raises "ValueError: max_workers must be greater than 0"
    else if chunk_size =? 0
    then Raises "ValueError: range() arg 3 must not be zero"
    else Return (map (fun chunk_start =>
                        (chunk_start,
                         Z.min (chunk_start + chunk_size) num_vehicles))
                     (py_range_step 0 num_vehicles chunk_size)).

(** The indices that the jobs work on, job after job. *)
Definition job_indices (jobs : list (Z * Z)) : list Z :=
  flat_map (fun job => py_range (fst job) (snd job)) jobs.

(** The time that the four counters of a vehicle hold. *)
Definition clock_total (v : VehicleClock) : Z :=
  v_total_idle v + v_total_rebalancing v + v_total_enroute v + v_total_inuse v.

(** ** Solutions of the assignment ILP (src/algo/assignment.py)

    The solver is outside the embedding: a solution is given by the test
    [v.X > 0.5] that [ilp_assignment] applies to the values of the
    variables. *)

(** [value v] tells whether the solver's value of the variable, [v.X], is
    above 0.5. *)
Definition var_value (value : ilp_var -> bool) (v : ilp_var) : Z :=
  if value v then 1 else 0.

(** [quicksum(vars)] at these values. *)
Definition row_sum (value : ilp_var -> bool) (row : ilp_constr) : Z :=
  fold_right Z.add 0 (map (var_value value) (c_vars row)).

(** The row holds at these values. *)
Definition row_holds (value : ilp_var -> bool) (row : ilp_constr) : bool :=
  match c_sense row with
  | sense_eq => row_sum value row =? c_rhs row
  | sense_le => row_sum value row <=? c_rhs row
  end.

(** The values satisfy every row. *)
Definition solves (value : ilp_var -> bool) (rows : list ilp_constr) : bool :=
  forallb (row_holds value) rows.

(** Lines 116-120 of [ilp_assignment]: the first trip of the vehicle whose
    variable is selected; [count] is the index of the first trip of the
    vehicle. *)
Fixpoint first_selected (value : ilp_var -> bool) (count : nat)
    (trips : list Trip) : option Trip :=
  match trips with
  | [] => None
  | trip :: rest =>
    if value (e_var count) then Some trip
    else first_selected value (S count) rest
  end.

(** Lines 112-121 of [ilp_assignment]: the dictionary [assigned_trips],
    as the list of its items. *)
Fixpoint retrieve_assignments (value : ilp_var -> bool)
    (trip_list : list (Vehicle * list Trip)) (count : nat)
    : list (Vehicle * Trip) :=
  match trip_list with
  | [] => []
  | (vehicle, trips) :: rest =>
    let assigned := retrieve_assignments value rest (count + List.length trips) in
    match first_selected value count trips with
    | Some trip => (vehicle, trip) :: assigned
    | None => assigned
    end
  end.

(** The trip includes a request of the id [rid]. *)
Definition serves (rid : Z) (trip : Trip) : bool :=
  existsb (Z.eqb rid) (map r_id (t_requests trip)).

(** The vehicles whose assigned trip serves the request. *)
Definition served_by (rid : Z) (assigned : list (Vehicle * Trip)) : list Vehicle :=
  map fst (filter (fun entry => serves rid (snd entry)) assigned).

(** Lines 166-169 of [ilp_assignement_full]: the ids of the committed
    requests that no trip includes. *)
Definition missing_assigned_requests (trip_list : list (Vehicle * list Trip))
    (requests : list Request) : list Z :=
  let assigned_request_ids :=
    nodup Z.eq_dec (map r_id (filter r_assigned requests)) in
  let included_request_ids :=
    flat_map (fun trip => map r_id (t_requests trip)) (all_trips trip_list) in
  filter (fun rid => negb (existsb (Z.eqb rid) included_request_ids))
         assigned_request_ids.

(** A choice of one trip for every vehicle: [choice] lists, vehicle after
    vehicle, the position of the chosen trip among the trips of the
    vehicle. *)
Fixpoint chosen_trips (trip_list : list (Vehicle * list Trip))
    (choice : list nat) : list (Vehicle * Trip) :=
  match trip_list, choice with
  | (vehicle, trips) :: rest, c :: choice' =>
    match nth_error trips c with
    | Some trip => (vehicle, trip) :: chosen_trips rest choice'
    | None => chosen_trips rest choice'
    end
  | _, _ => []
  end.

(** The indices of the chosen trips in the numbering of the ILP. *)
Fixpoint chosen_indices (trip_list : list (Vehicle * list Trip))
    (choice : list nat) (count : nat) : list nat :=
  match trip_list, choice with
  | (vehicle, trips) :: rest, c :: choice' =>
    (count + c)%nat :: chosen_indices rest choice' (count + List.length trips)
  | _, _ => []
  end.

(** The values of the variables that stand for the choice: [e[i]] is set
    for the chosen trips, [x[k]] for the requests that no chosen trip
    serves. *)
Definition choice_value (trip_list : list (Vehicle * list Trip))
    (choice : list nat) (requests : list Request) (v : ilp_var) : bool :=
  match v with
  | e_var i => existsb (Nat.eqb i) (chosen_indices trip_list choice 0)
  | x_var k =>
    match nth_error requests k with
    | Some request =>
      Nat.eqb (List.length (served_by (r_id request)
                              (chosen_trips trip_list choice))) 0
    | None => false
    end
  end.

(** The number of the selected variables among [e[i]], [i] in [l]. *)
Definition esum (value : ilp_var -> bool) (l : list nat) : Z :=
  fold_right Z.add 0 (map (fun i => var_value value (e_var i)) l).

(** The indices, counted from [count], of the trips that serve the
    request [rid]. *)
Fixpoint serving (rid : Z) (count : nat) (trips : list Trip) : list nat :=
  match trips with
  | [] => []
  | trip :: rest =>
    if serves rid trip then count :: serving rid (S count) rest
    else serving rid (S count) rest
  end.

Module AssignmentExamples.

(** The solution of scenario 2 that selects the shared trip. *)
Definition shared_selected (v : ilp_var) : bool :=
  match v with
  | e_var 3 => true
  | _ => false
  end.

(** A committed request that no trip of scenario 2 includes. *)
Definition orphan : Request := mkRequest 99 0 1 0 60 300 660 true.

Definition orphan_rows : list ilp_constr :=
  Eval vm_compute in
    match ilp_constraints Examples.defaults Examples.scenario2_trip_list
            [orphan] with
    | Return (Some rows) => rows
    | _ => []
    end.

End AssignmentExamples.

(** ** The check of the previous trips (src/algo/assignment.py) *)

(** Lines 176-182 of [ilp_assignement_full]: whether a trip of the vehicle
    has the pending requests of the vehicle as its set of requests. *)
Definition previous_trip_found (vehicle : Vehicle) (trips : list Trip) : bool :=
  existsb (fun trip =>
             request_set_eq (t_requests trip) (v_pending_requests vehicle))
          trips.

(** Every stop of the order of the trip belongs to a request of the trip
    or to a passenger of the vehicle. *)
Definition known_stops (vehicle : Vehicle) (trip : Trip) : Prop :=
  forall stop, In stop (t_order_record trip) ->
    In (r_id (ns_r stop)) (map r_id (t_requests trip))
    \/ In (r_id (ns_r stop)) (map r_id (v_passengers vehicle)).

Module ReplicationExamples.

(** A vehicle at node 0 that is committed to the first request of
    scenario 2 and stores the order of its two stops. *)
Definition committed : Vehicle :=
  mkVehicle 1 4 0 0 [] [Examples.sharer1]
    [pickup_stop Examples.sharer1; dropoff_stop Examples.sharer1].

Definition committed_trips : list Trip :=
  Eval vm_compute in
    match make_rtvgraph Examples.defaults Examples.line Examples.no_ties
            Examples.clock Examples.all_edges committed [Examples.sharer2]
            0 0 with
    | Return trips => trips
    | _ => []
    end.

End ReplicationExamples.

(** ** Inputs on which statements of the specification fail *)

Module Counterexamples.

(** A vehicle that carries the passenger [p2] and stores no stop: its
    order was cleared while the passenger stayed aboard. *)
Definition stranded : Vehicle := mkVehicle 8 4 0 0 [Examples.p2] [] [].

(** FIX_ONBOARD with CARSIZE = 2, and a two-seat vehicle with two
    passengers that stores the dropoff of the second one only. *)
Definition two_seats : Glo :=
  mkGlo "FIX_ONBOARD" "CTSP_VTT" 2 8 0 0 8 0 "ILP_FULL" "AO_SERVICERATE".
Definition half_stored : Vehicle :=
  mkVehicle 9 2 0 0 [Examples.p1; Examples.p2] []
    [dropoff_stop Examples.p2].

(** The default configuration with a budget of 10 seconds for the trips of
    a vehicle (RTV_TIMELIMIT = 10). *)
Definition budget : Glo :=
  mkGlo "FIX_ONBOARD" "CTSP_VTT" 4 8 0 0 8 10 "ILP_FULL" "AO_SERVICERATE".

(** An empty vehicle with the offset -5, and a vehicle that carries [p1]
    and stores its dropoff. *)
Definition behind : Vehicle := mkVehicle 10 4 0 (-5) [] [] [].
Definition one_onboard : Vehicle :=
  mkVehicle 11 4 0 0 [Examples.p1] [] [dropoff_stop Examples.p1].

(** Networks with the travel time -7, and 0, between any two nodes. *)
Definition downhill : Network := mkNetwork (fun _ _ => -7) 0 0.
Definition flat : Network := mkNetwork (fun _ _ => 0) 0 0.

(** The default configuration with DWELL_ALIGHT = -7, and with
    DWELL_PICKUP = -7. *)
Definition hasty_alight : Glo :=
  mkGlo "FIX_ONBOARD" "CTSP_VTT" 4 8 (-7) 0 8 0 "ILP_FULL" "AO_SERVICERATE".
Definition hasty_pickup : Glo :=
  mkGlo "FIX_ONBOARD" "CTSP_VTT" 4 8 0 (-7) 8 0 "ILP_FULL" "AO_SERVICERATE".

(** FIX_PREFIX with LP_LIMITVALUE = 1, and an objective that is neither
    CTSP_VTT nor CTSP_DELAY. *)
Definition prefix_limit : Glo :=
  mkGlo "FIX_PREFIX" "CTSP_VTT" 4 1 0 0 8 0 "ILP_FULL" "AO_SERVICERATE".
Definition other_objective : Glo :=
  mkGlo "FIX_ONBOARD" "CTSP_OTHER" 4 8 0 0 8 0 "ILP_FULL" "AO_SERVICERATE".

(** A vehicle at node 0 that carries a passenger for node 0 who entered at
    time 0. *)
Definition overdue_rider : Request := mkRequest 81 0 0 0 0 300 600 false.
Definition overdue : Vehicle :=
  mkVehicle 20 4 0 0 [overdue_rider] [] [dropoff_stop overdue_rider].

(** An empty vehicle with the offset -1. *)
Definition just_behind : Vehicle := mkVehicle 19 4 0 (-1) [] [] [].

(** A vehicle at node 1 of the line with a passenger for node 0 who is due
    at 300, and one for node 3 who is due at 120. *)
Definition slack : Request := Examples.request_on_line 41 5 0 0.
Definition tight : Request := Examples.request_on_line 42 1 3 0.
Definition between : Vehicle :=
  mkVehicle 12 4 1 0 [slack; tight] [] [dropoff_stop slack; dropoff_stop tight].

(** Travel times that satisfy the triangle inequality and are zero from a
    node to itself, but are negative towards node 1: the times
    10 * |a - b| shifted by a potential of -15 at node 1. *)
Definition tilted : Network :=
  mkNetwork (fun a b => 10 * Z.abs (a - b)
                        + (if b =? 1 then -15 else 0)
                        - (if a =? 1 then -15 else 0)) 0 0.

(** The travel time 10 between any two nodes, also from a node to itself;
    and two passengers for node 2, the second one due by time 10. *)
Definition steady : Network := mkNetwork (fun _ _ => 10) 0 0.
Definition hurried : Request := mkRequest 22 0 2 0 120 300 10 false.
Definition pooled_hurried : Vehicle :=
  mkVehicle 13 4 0 0 [Examples.pa; hurried] []
    [dropoff_stop Examples.pa; dropoff_stop hurried].

(** Travel times 10 * |a - b|, except for 50 from node 1 to node 3 (more
    than by way of node 2); and three passengers for the nodes 1, 2 and 3,
    due by 10, 1000 and 40. *)
Definition detour : Network :=
  mkNetwork (fun a b => if (a =? 1) && (b =? 3) then 50
                        else 10 * Z.abs (a - b)) 0 0.
Definition first_stop : Request := mkRequest 51 0 1 0 10 300 10 false.
Definition second_stop : Request := mkRequest 52 0 2 0 20 300 1000 false.
Definition third_stop : Request := mkRequest 53 0 3 0 30 300 40 false.
Definition three_onboard : Vehicle :=
  mkVehicle 14 4 0 0 [first_stop; second_stop; third_stop] []
    [dropoff_stop first_stop; dropoff_stop second_stop;
     dropoff_stop third_stop].

(** DWELL_ALIGHT = -120, and a vehicle at node 2 of the line with
    passengers for the nodes 0 and 1. *)
Definition alight_credit : Glo :=
  mkGlo "FIX_ONBOARD" "CTSP_VTT" 4 8 (-120) 0 8 0 "ILP_FULL" "AO_SERVICERATE".
Definition to_node0 : Request := Examples.request_on_line 31 2 0 0.
Definition to_node1 : Request := Examples.request_on_line 32 2 1 0.
Definition at_node2 : Vehicle :=
  mkVehicle 15 4 2 0 [to_node0; to_node1] []
    [dropoff_stop to_node0; dropoff_stop to_node1].

(** DWELL_PICKUP = -10, and a rider from node 0 to node 2 who is due by
    time 115. *)
Definition pickup_credit : Glo :=
  mkGlo "FIX_ONBOARD" "CTSP_VTT" 4 8 0 (-10) 8 0 "ILP_FULL" "AO_SERVICERATE".
Definition pressed_rider : Request := mkRequest 1 0 2 0 120 300 115 false.

(** A request from node 1 to node 0 and a vehicle with one seat. *)
Definition back : Request := Examples.request_on_line 61 1 0 0.
Definition single_seat : Vehicle := mkVehicle 16 1 0 0 [] [] [].

End Counterexamples.

(** * Properties *)

(** Boolean tests of the embedding as propositions. *)
Ltac zbool :=
  repeat match goal with
  | H : (_ && _) = true |- _ => apply andb_true_iff in H; destruct H
  | H : (_ || _) = false |- _ => apply orb_false_iff in H; destruct H
  | H : negb _ = true |- _ => apply negb_true_iff in H
  | H : negb _ = false |- _ => apply negb_false_iff in H
  | H : (_ >? _) = _ |- _ => rewrite Z.gtb_ltb in H
  | H : (_ >=? _) = _ |- _ => rewrite Z.geb_leb in H
  | H : (_ =? _) = true |- _ => apply Z.eqb_eq in H
  | H : (_ =? _) = false |- _ => apply Z.eqb_neq in H
  | H : (_ <? _) = true |- _ => apply Z.ltb_lt in H
  | H : (_ <? _) = false |- _ => apply Z.ltb_ge in H
  | H : (_ <=? _) = true |- _ => apply Z.leb_le in H
  | H : (_ <=? _) = false |- _ => apply Z.leb_gt in H
  end.

(** The same, with case splits on failed conjunctions and successful
    disjunctions. *)
Ltac zcases :=
  zbool;
  repeat (match goal with
          | H : (_ && _) = false |- _ => apply andb_false_iff in H; destruct H
          | H : (_ || _) = true |- _ => apply orb_true_iff in H; destruct H
          end; zbool).

Section SearchFacts.

Variable glo : Glo.
Variable network : Network.
Variable unlocks_id : MetaNodeStop -> Z.

Notation sorted := (sorted unlocks_id).
Notation sorted_insert := (sorted_insert unlocks_id).
Notation recursive_search := (recursive_search glo network unlocks_id).
Notation search_loop := (search_loop glo network).
Notation arrival := (arrival glo network).
Notation route_ok := (route_ok glo network).
Notation route_end := (route_end glo network).
Notation sound_result := (sound_result glo network).

Lemma sorted_insert_perm (x : MetaNodeStop) (l : list MetaNodeStop) :
  Permutation (sorted_insert x l) (x :: l).
Proof.
  induction l as [|y l IH]; simpl.
  - apply Permutation_refl.
  - destruct (meta_lt unlocks_id y x).
    + eapply perm_trans; [apply perm_skip, IH | apply perm_swap].
    + apply Permutation_refl.
Qed.

Lemma sorted_perm (l : list MetaNodeStop) : Permutation (sorted l) l.
Proof.
  induction l as [|x l IH]; simpl.
  - apply Permutation_refl.
  - eapply perm_trans; [apply sorted_insert_perm | apply perm_skip, IH].
Qed.

Lemma Lin_permutation (F G : list MetaNodeStop) (order : list NodeStop) :
  Permutation F G -> Lin F order -> Lin G order.
Proof.
  intros HP HL. destruct HL as [|F F' m rest HF HL].
  - apply Permutation_nil in HP. subst. constructor.
  - econstructor; [|exact HL].
    eapply perm_trans; [apply Permutation_sym, HP | exact HF].
Qed.


Lemma search_loop_sound
    (rec : Z -> Z -> list MetaNodeStop -> Z -> Z -> Action
           -> option (Z * list NodeStop))
    (loc cap now : Z) (prev : Action) (F : list MetaNodeStop) (best0 : Z) :
  (forall loc' cap' F' now' best' prev' res,
      rec loc' cap' F' now' best' prev' = Some res ->
      sound_result prev' loc' cap' F' now' best' res) ->
  forall todo visited previous best_time best_tail res,
    Permutation F (visited ++ todo) ->
    sound_result prev loc cap F now best0 (best_time, best_tail) ->
    search_loop rec loc cap now prev visited todo previous best_time best_tail
      = Some res ->
    sound_result prev loc cap F now best0 res.
Proof.
  intros Hrec. induction todo as [|m todo IH];
    intros visited previous best_time best_tail res HP Hinv Hrun; simpl in Hrun.
  - inversion Hrun; subst. exact Hinv.
  - assert (HP' : Permutation F ((visited ++ [m]) ++ todo)).
    { rewrite <- app_assoc. exact HP. }
    destruct (same_node_duplicate previous m); [eauto|].
    destruct (negb (best_time =? -1)
              && (arrival prev loc now (m_node m) >=? best_time)); [eauto|].
    set (c := if ns_is_pickup (m_node m) then cap - 1 else cap + 1) in *.
    destruct (c <? 0) eqn:Hc; [eauto|].
    destruct (ns_is_pickup (m_node m)
              && (arrival prev loc now (m_node m)
                  >? r_latest_boarding (ns_r (m_node m)))) eqn:Hb; [eauto|].
    destruct (get_alight_deadline (ns_r (m_node m))
              <? arrival prev loc now (m_node m)) eqn:Ha; [eauto|].
    destruct (negb (basic_reachability network
                (arrival prev loc now (m_node m)) (ns_node (m_node m))
                (visited ++ todo ++ m_unlocks m))); [eauto|].
    destruct (rec (ns_node (m_node m)) c (visited ++ todo ++ m_unlocks m)
                (arrival prev loc now (m_node m)) best_time
                (action_of (m_node m))) as [[tail_time tail_stops]|] eqn:Hr;
      [|discriminate].
    destruct (tail_time =? -1) eqn:Hm1; [eauto|].
    destruct ((best_time =? -1) || (tail_time <? best_time)) eqn:Hup; [|eauto].
    apply (IH _ _ _ _ _ HP') in Hrun; [exact Hrun|].
    right. simpl. rewrite rev_app_distr. simpl.
    apply Hrec in Hr. destruct Hr as [[Ht _]|(HL & Hok & Hend)]; simpl in *.
    + exfalso. subst tail_time.
      apply Z.eqb_neq in Hm1. apply orb_true_iff in Hup.
      destruct Hup as [Hup|Hup]; [apply Z.eqb_eq in Hup|apply Z.ltb_lt in Hup]; lia.
    + split; [|split].
      * apply Lin_cons with (F' := visited ++ todo).
        -- eapply perm_trans; [exact HP|].
           apply Permutation_sym, Permutation_middle.
        -- rewrite <- app_assoc. exact HL.
      * fold c. rewrite Hok, andb_true_r.
        unfold get_alight_deadline in Ha.
        apply Z.ltb_ge in Hc, Ha.
        rewrite !andb_true_iff. repeat split.
        -- apply Z.leb_le. lia.
        -- destruct (ns_is_pickup (m_node m)); simpl in *; [|reflexivity].
           zbool. apply Z.leb_le. lia.
        -- apply Z.leb_le. lia.
      * exact Hend.
Qed.

Lemma recursive_search_S (fuel : nat) loc cap F now best prev :
  recursive_search (S fuel) loc cap F now best prev =
  match sorted F with
  | [] => Some (now, [])
  | m :: l => search_loop (recursive_search fuel) loc cap now prev []
                (m :: l) None best []
  end.
Proof. reflexivity. Qed.

Lemma recursive_search_sound (fuel : nat) :
  forall loc cap F now best prev res,
    recursive_search fuel loc cap F now best prev = Some res ->
    sound_result prev loc cap F now best res.
Proof.
  induction fuel as [|fuel IH]; intros loc cap F now best prev res Hrun;
    [discriminate|].
  rewrite recursive_search_S in Hrun.
  pose proof (sorted_perm F) as HP.
  destruct (sorted F) as [|m l] eqn:Hs.
  - inversion Hrun; subst. right; simpl.
    apply Permutation_nil in HP. subst F.
    repeat split. constructor.
  - eapply search_loop_sound; [exact IH| |left; split; reflexivity|exact Hrun].
    simpl. apply Permutation_sym, HP.
Qed.

(** *** Enough fuel: the search returns *)

Lemma forest_size_app (l1 l2 : list MetaNodeStop) :
  forest_size (l1 ++ l2) = (forest_size l1 + forest_size l2)%nat.
Proof.
  unfold forest_size. rewrite map_app, list_sum_app. reflexivity.
Qed.

Lemma forest_size_cons (m : MetaNodeStop) (l : list MetaNodeStop) :
  forest_size (m :: l) = (S (forest_size (m_unlocks m)) + forest_size l)%nat.
Proof.
  destruct m as [n u]. reflexivity.
Qed.

Lemma forest_size_perm (l1 l2 : list MetaNodeStop) :
  Permutation l1 l2 -> forest_size l1 = forest_size l2.
Proof.
  induction 1; rewrite ?forest_size_cons in *; lia.
Qed.

Lemma search_loop_total
    (rec : Z -> Z -> list MetaNodeStop -> Z -> Z -> Action
           -> option (Z * list NodeStop))
    (loc cap now : Z) (prev : Action) (n : nat) :
  (forall loc' cap' F' now' best' prev',
      (forest_size F' < n)%nat ->
      rec loc' cap' F' now' best' prev' <> None) ->
  forall todo visited previous best_time best_tail,
    (forest_size (visited ++ todo) <= n)%nat ->
    search_loop rec loc cap now prev visited todo previous best_time best_tail
      <> None.
Proof.
  intros Hrec. induction todo as [|m todo IH];
    intros visited previous best_time best_tail Hn; simpl; [discriminate|].
  assert (Hn' : (forest_size ((visited ++ [m]) ++ todo) <= n)%nat).
  { rewrite <- app_assoc. exact Hn. }
  repeat match goal with
  | |- (if ?b then _ else _) <> None => destruct b; [auto|]
  end.
  match goal with
  | |- match ?r with _ => _ end <> None => destruct r as [[tt ts]|] eqn:Hr
  end.
  - repeat match goal with
    | |- (if ?b then _ else _) <> None => destruct b; auto
    end.
  - exfalso. revert Hr. apply Hrec.
    rewrite forest_size_app, forest_size_cons in Hn.
    rewrite !forest_size_app. lia.
Qed.

Lemma recursive_search_total (fuel : nat) :
  forall loc cap F now best prev,
    (forest_size F < fuel)%nat ->
    recursive_search fuel loc cap F now best prev <> None.
Proof.
  induction fuel as [|fuel IH]; intros loc cap F now best prev Hf; [lia|].
  rewrite recursive_search_S. pose proof (forest_size_perm _ _ (sorted_perm F)) as HP.
  destruct (sorted F) as [|m l]; [discriminate|].
  apply search_loop_total with (n := fuel).
  - intros. apply IH. assumption.
  - simpl app. lia.
Qed.

(** *** Linearisations of a stop graph *)

Lemma forest_stops_app (l1 l2 : list MetaNodeStop) :
  forest_stops (l1 ++ l2) = forest_stops l1 ++ forest_stops l2.
Proof. apply flat_map_app. Qed.

Lemma forest_stops_cons (m : MetaNodeStop) (l : list MetaNodeStop) :
  forest_stops (m :: l) = m_node m :: forest_stops (m_unlocks m) ++ forest_stops l.
Proof. destruct m as [n u]. reflexivity. Qed.

Lemma forest_stops_perm (l1 l2 : list MetaNodeStop) :
  Permutation l1 l2 -> Permutation (forest_stops l1) (forest_stops l2).
Proof.
  intros H. unfold forest_stops. apply Permutation_flat_map, H.
Qed.

(** A linearisation visits exactly the stops of the graph. *)
Lemma Lin_stops (F : list MetaNodeStop) (order : list NodeStop) :
  Lin F order -> Permutation order (forest_stops F).
Proof.
  induction 1 as [|F F' m rest HF HL IH]; [constructor|].
  eapply perm_trans; [|apply Permutation_sym, forest_stops_perm, HF].
  rewrite forest_stops_cons. apply perm_skip.
  eapply perm_trans; [exact IH|].
  rewrite forest_stops_app. apply Permutation_app_comm.
Qed.

(** An available stop is visited. *)
Lemma Lin_visits (F : list MetaNodeStop) (order : list NodeStop) (m : MetaNodeStop) :
  Lin F order -> In m F -> In (m_node m) order.
Proof.
  intros HL Hin. apply Permutation_in with (l := forest_stops F).
  - apply Permutation_sym, Lin_stops, HL.
  - apply in_split in Hin. destruct Hin as (l1 & l2 & ->).
    rewrite forest_stops_app, forest_stops_cons.
    apply in_or_app. right. left. reflexivity.
Qed.

(** A stop is visited before the stops it unlocks. *)
Lemma Lin_unlock_order (F : list MetaNodeStop) (order : list NodeStop)
    (m u : MetaNodeStop) :
  Lin F order -> In m F -> In u (m_unlocks m) ->
  exists l1 l2 l3, order = l1 ++ m_node m :: l2 ++ m_node u :: l3.
Proof.
  intros HL. revert m u.
  induction HL as [|F F' m0 rest HF HL IH]; intros m u Hm Hu; [destruct Hm|].
  apply (Permutation_in _ HF) in Hm. destruct Hm as [->|Hm].
  - assert (Hin : In (m_node u) rest).
    { eapply Lin_visits; [exact HL|]. apply in_or_app. right. exact Hu. }
    apply in_split in Hin. destruct Hin as (l2 & l3 & ->).
    exists [], l2, l3. reflexivity.
  - destruct (IH m u) as (l1 & l2 & l3 & ->); [apply in_or_app; left; exact Hm|exact Hu|].
    exists (m_node m0 :: l1), l2, l3. reflexivity.
Qed.

(** *** The stops of the onboard passengers *)

Lemma request_eq_sym (a b : Request) : request_eq a b = request_eq b a.
Proof. apply Z.eqb_sym. Qed.

Lemma request_eq_trans (a b c : Request) :
  request_eq a b = true -> request_eq b c = true -> request_eq a c = true.
Proof. unfold request_eq. intros; zbool. apply Z.eqb_eq. lia. Qed.

Lemma request_mem_In (r : Request) (s : list Request) :
  request_mem r s = true <-> exists x, In x s /\ request_eq r x = true.
Proof. apply existsb_exists. Qed.

Lemma request_remove_length (r : Request) (s : list Request) :
  request_mem r s = true -> S (List.length (request_remove r s)) = List.length s.
Proof.
  induction s as [|x s IH]; simpl; [discriminate|].
  destruct (request_eq r x); simpl; [reflexivity|].
  intros H. rewrite IH; auto.
Qed.

Lemma request_remove_In (r p : Request) (s : list Request) :
  In p s -> request_eq r p = true \/ In p (request_remove r s).
Proof.
  induction s as [|x s IH]; simpl; [tauto|].
  intros [->|Hin].
  - destruct (request_eq r p); [left; reflexivity| right; left; reflexivity].
  - destruct (request_eq r x); [right; exact Hin|].
    destruct (IH Hin); [left|right; right]; assumption.
Qed.

Lemma request_remove_subset (r p : Request) (s : list Request) :
  In p (request_remove r s) -> In p s.
Proof.
  induction s as [|x s IH]; simpl; [tauto|].
  destruct (request_eq r x); simpl; [tauto|].
  intros [->|H]; [left; reflexivity|right; auto].
Qed.

Lemma onboard_stops_length (s : list Request) (order_record : list NodeStop) :
  (List.length (onboard_stops s order_record) <= List.length s)%nat.
Proof.
  revert s. induction order_record as [|ns rest IH]; intros s; simpl; [lia|].
  destruct (request_mem (ns_r ns) s) eqn:Hm; [|apply IH].
  simpl. rewrite <- (request_remove_length _ _ Hm).
  apply le_n_S, IH.
Qed.

Lemma onboard_stops_origin (s : list Request) (order_record : list NodeStop)
    (ns : NodeStop) :
  In ns (onboard_stops s order_record) ->
  In ns order_record /\ request_mem (ns_r ns) s = true.
Proof.
  revert s. induction order_record as [|n rest IH]; intros s; simpl; [tauto|].
  destruct (request_mem (ns_r n) s) eqn:Hm.
  - intros [->|Hin]; [split; [left; reflexivity|exact Hm]|].
    apply IH in Hin. destruct Hin as [Hin Hmem]. split; [right; exact Hin|].
    apply request_mem_In in Hmem. destruct Hmem as (x & Hx & Hxe).
    apply request_mem_In. exists x. split;
      [eapply request_remove_subset; exact Hx|exact Hxe].
  - intros Hin. apply IH in Hin. tauto.
Qed.

Lemma onboard_stops_complete (s : list Request) (order_record : list NodeStop) :
  List.length (onboard_stops s order_record) = List.length s ->
  forall p, In p s ->
    exists ns, In ns (onboard_stops s order_record)
               /\ request_eq (ns_r ns) p = true.
Proof.
  revert s. induction order_record as [|n rest IH]; intros s Hlen p Hp; simpl in *.
  - destruct s; [destruct Hp|discriminate].
  - destruct (request_mem (ns_r n) s) eqn:Hm.
    + simpl in Hlen. rewrite <- (request_remove_length _ _ Hm) in Hlen.
      injection Hlen as Hlen.
      destruct (request_remove_In (ns_r n) p s Hp) as [He|Hin].
      * exists n. split; [left; reflexivity|exact He].
      * destruct (IH _ Hlen p Hin) as (ns & Hns & He).
        exists ns. split; [right; exact Hns|exact He].
    + auto.
Qed.

Lemma request_set_length (l : list Request) :
  (List.length (request_set l) <= List.length l)%nat.
Proof.
  induction l as [|x l IH]; simpl; [lia|].
  apply le_n_S. eapply Nat.le_trans; [apply filter_length_le|exact IH].
Qed.

Lemma request_set_subset (l : list Request) (p : Request) :
  In p (request_set l) -> In p l.
Proof.
  revert p. induction l as [|x l IH]; intros p; simpl; [tauto|].
  intros [->|H]; [left; reflexivity|].
  apply filter_In in H. right. apply IH. tauto.
Qed.

Lemma request_set_complete (l : list Request) (p : Request) :
  In p l -> exists q, In q (request_set l) /\ request_eq q p = true.
Proof.
  induction l as [|x l IH]; simpl; [tauto|].
  intros [->|Hin].
  - exists p. split; [left; reflexivity|apply Z.eqb_refl].
  - destruct (IH Hin) as (q & Hq & He).
    destruct (request_eq x q) eqn:Hx.
    + exists x. split; [left; reflexivity|eapply request_eq_trans; eauto].
    + exists q. split; [|exact He]. right. apply filter_In.
      split; [exact Hq|rewrite Hx; reflexivity].
Qed.

Lemma forest_stops_chain (l : list NodeStop) : forest_stops (chain l) = l.
Proof.
  induction l as [|ns l IH]; [reflexivity|].
  unfold forest_stops in *. simpl. rewrite IH, app_nil_r. reflexivity.
Qed.

Lemma forest_stops_free (l : list NodeStop) : forest_stops (free_stops l) = l.
Proof.
  induction l as [|ns l IH]; [reflexivity|].
  unfold forest_stops in *. simpl. rewrite IH. reflexivity.
Qed.

(** *** Capacity and deadlines of a checked route *)

Lemma route_ok_capacity (capacity : Z) (order : list NodeStop) :
  forall prev loc cap now,
    route_ok prev loc cap now order = true ->
    Forall (fun n => n <= capacity) (onboard_counts (capacity - cap) order).
Proof.
  induction order as [|ns rest IH]; intros prev loc cap now H; simpl in *;
    [constructor|].
  zbool. constructor.
  - destruct (ns_is_pickup ns); lia.
  - match goal with H : route_ok _ _ _ _ rest = true |- _ => apply IH in H end.
    destruct (ns_is_pickup ns);
      match goal with H : Forall _ (onboard_counts ?a _) |- Forall _ (onboard_counts ?b _) =>
        replace b with a by lia; exact H end.
Qed.

Lemma route_ok_deadlines (order : list NodeStop) :
  forall prev loc cap now,
    route_ok prev loc cap now order = true ->
    Forall2 meets_deadlines order (arrival_times glo network prev loc now order).
Proof.
  induction order as [|ns rest IH]; intros prev loc cap now H; simpl in *;
    [constructor|].
  zbool. constructor; [|eauto].
  split; [|lia]. intros Hp.
  match goal with H : negb _ || _ = true |- _ =>
    rewrite Hp in H; simpl in H; apply Z.leb_le in H; exact H end.
Qed.

End SearchFacts.

Section TravelFacts.

Variable glo : Glo.
Variable network : Network.
Variable unlocks_id : MetaNodeStop -> Z.

Notation travel := (travel glo network unlocks_id).
Notation new_travel := (new_travel glo network unlocks_id).
Notation recursive_search := (recursive_search glo network unlocks_id).
Notation route_ok := (route_ok glo network).
Notation route_end := (route_end glo network).

Lemma travel_standard vehicle requests current_time :
  travel vehicle requests current_time "STANDARD"
  = new_travel vehicle requests current_time.
Proof. reflexivity. Qed.

(** No index of lines 215-221 is out of range when every passenger has a
    stored stop. *)
Lemma stops_stored_in_range vehicle (requests : list Request) :
  stops_stored vehicle ->
  Nat.ltb (2 * List.length requests
           + List.length (onboard_stops (request_set (v_passengers vehicle))
                            (v_order_record vehicle)))
          (List.length (v_passengers vehicle)) = false.
Proof. intros H. rewrite H. apply Nat.ltb_ge. lia. Qed.

(** The stop graph that [prepare_stops] hands to the search for a vehicle
    that stores a stop for every passenger. *)
Lemma prepare_stops_available vehicle requests F :
  stops_stored vehicle ->
  prepare_stops glo vehicle requests = Return (Available F) ->
  let onboard := onboard_stops (request_set (v_passengers vehicle))
                   (v_order_record vehicle) in
  F = map request_meta requests
      ++ (if fix_onboard_locked glo vehicle requests
          then chain onboard else free_stops onboard).
Proof.
  intros Hs. unfold prepare_stops. cbv zeta.
  rewrite (stops_stored_in_range vehicle requests Hs).
  red in Hs. rewrite Hs, Nat.sub_diag.
  match goal with |- (if ?b then _ else _) = _ -> _ => destruct b end.
  - match goal with |- (if ?b then _ else _) = _ -> _ => destruct b end;
      discriminate.
  - intros H. injection H as <-.
    destruct (fix_onboard_locked glo vehicle requests); reflexivity.
Qed.

(** The stop graph in general: the request stops and the onboard stops,
    or, with one onboard stop missing under the lock, the onboard chain
    hung below the pickup of the last request. *)
Lemma prepare_stops_shape vehicle requests F :
  prepare_stops glo vehicle requests = Return (Available F) ->
  let onboard := onboard_stops (request_set (v_passengers vehicle))
                   (v_order_record vehicle) in
  F = map request_meta requests
      ++ (if fix_onboard_locked glo vehicle requests
          then chain onboard else free_stops onboard)
  \/ F = map request_meta requests ++ free_stops onboard
  \/ exists front last_request,
       requests = front ++ [last_request]
       /\ F = map request_meta front
              ++ [Meta (pickup_stop last_request) (chain onboard)].
Proof.
  unfold prepare_stops. cbv zeta.
  match goal with |- (if ?b then _ else _) = _ -> _ => destruct b end;
    [discriminate|].
  match goal with |- (if ?b then _ else _) = _ -> _ => destruct b end.
  - match goal with |- (if ?b then _ else _) = _ -> _ => destruct b end;
      discriminate.
  - destruct (List.length (v_passengers vehicle)
              - List.length (onboard_stops (request_set (v_passengers vehicle))
                               (v_order_record vehicle)))%nat as [|[|n]];
      [| |discriminate].
    + intros H. injection H as <-. left.
      destruct (fix_onboard_locked glo vehicle requests); reflexivity.
    + match goal with |- (if ?b then _ else _) = _ -> _ => destruct b end.
      * destruct (rev requests) as [|last_request front] eqn:Hrev;
          [discriminate|].
        intros H. injection H as <-. right. right.
        exists (rev front), last_request. split; [|reflexivity].
        rewrite <- (rev_involutive requests), Hrev. reflexivity.
      * intros H. injection H as <-. right. left. reflexivity.
Qed.

(** A non-negative cost comes from a route found by the search. *)
Lemma new_travel_found vehicle requests current_time cost order :
  new_travel vehicle requests current_time = Return (cost, order) ->
  0 <= cost ->
  exists F,
    prepare_stops glo vehicle requests = Return (Available F)
    /\ Lin F order
    /\ route_ok NO_ACTION (v_node vehicle)
         (v_capacity vehicle - Z.of_nat (List.length (v_passengers vehicle)))
         (current_time + v_offset vehicle) order = true
    /\ 0 <= route_end NO_ACTION (v_node vehicle)
              (current_time + v_offset vehicle) order
    /\ cost = fst (format_path glo
                     (route_end NO_ACTION (v_node vehicle)
                        (current_time + v_offset vehicle) order, [])
                     current_time).
Proof.
  unfold new_travel. intros H Hc.
  destruct (prepare_stops glo vehicle requests) as [[F|]| | |] eqn:Hp;
    try discriminate.
  2:{ injection H as <- <-. lia. }
  destruct (valid_objective glo); [|discriminate].
  match type of H with match ?s with _ => _ end = _ =>
    destruct s as [[t tail]|] eqn:Hs end; [|discriminate].
  injection H as <- <-. exists F. split; [reflexivity|].
  unfold format_path in *. simpl fst in *. simpl snd in *.
  assert (Ht : 0 <= t).
  { destruct (String.eqb (CTSP_OBJECTIVE glo) "CTSP_VTT" && (0 <=? t)) eqn:E.
    - zbool. assumption.
    - exact Hc. }
  apply recursive_search_sound in Hs.
  destruct Hs as [[Hs _]|(HL & Hok & Hend)]; simpl in *; [lia|].
  rewrite Hend. auto.
Qed.

(** Whenever the untimed feasibility search [travel] (trigger STANDARD)
    returns a cost >= 0 for a vehicle that stores a stop for every
    passenger, these stops being dropoffs, the returned stop sequence is
    valid: it holds the pickup and, later, the dropoff of every request of
    R, and a dropoff for every onboard passenger; the number of passengers
    onboard never exceeds the capacity of the vehicle along the sequence;
    and under the arrival-time model of the search every pickup is reached
    by [latest_boarding] and every stop by the [latest_alighting] of its
    request. *)
Lemma travel_route_sound vehicle requests current_time cost order :
  travel vehicle requests current_time "STANDARD" = Return (cost, order) ->
  0 <= cost ->
  stops_stored vehicle ->
  passenger_stops_are_dropoffs vehicle ->
  (forall r, In r requests ->
     exists l1 l2 l3, order = l1 ++ pickup_stop r :: l2 ++ dropoff_stop r :: l3)
  /\ (forall p, In p (v_passengers vehicle) ->
        exists ns, In ns order /\ request_eq (ns_r ns) p = true
                   /\ ns_is_pickup ns = false)
  /\ Forall (fun n => n <= v_capacity vehicle)
       (onboard_counts (Z.of_nat (List.length (v_passengers vehicle))) order)
  /\ Forall2 meets_deadlines order
       (arrival_times glo network NO_ACTION (v_node vehicle)
          (current_time + v_offset vehicle) order).
Proof.
  rewrite travel_standard. intros H Hc Hlen Hwf.
  destruct (new_travel_found _ _ _ _ _ H Hc) as (F & Hp & HL & Hok & _ & _).
  apply (prepare_stops_available _ _ _ Hlen) in Hp. rename Hp into HF.
  cbv zeta in HF. red in Hlen.
  set (onboard := onboard_stops (request_set (v_passengers vehicle))
                    (v_order_record vehicle)) in *.
  split; [|split; [|split]].
  - intros r Hr.
    apply (Lin_unlock_order F order (request_meta r) (Meta (dropoff_stop r) [])).
    + exact HL.
    + subst F. apply in_or_app. left. apply in_map. exact Hr.
    + left. reflexivity.
  - intros p Hpin.
    destruct (request_set_complete _ _ Hpin) as (q & Hq & Hqp).
    assert (Hlen' : List.length onboard
                    = List.length (request_set (v_passengers vehicle))).
    { pose proof (onboard_stops_length (request_set (v_passengers vehicle))
                    (v_order_record vehicle)).
      pose proof (request_set_length (v_passengers vehicle)).
      fold onboard in H0. lia. }
    destruct (onboard_stops_complete _ _ Hlen' q Hq) as (ns & Hns & He).
    exists ns. split; [|split].
    + apply Permutation_in with (l := forest_stops F);
        [apply Permutation_sym, Lin_stops, HL|].
      subst F. rewrite forest_stops_app. apply in_or_app. right.
      destruct (fix_onboard_locked glo vehicle requests);
        [rewrite forest_stops_chain|rewrite forest_stops_free]; exact Hns.
    + eapply request_eq_trans; eassumption.
    + apply onboard_stops_origin in Hns. destruct Hns as [Hin Hmem].
      apply Hwf; [exact Hin|].
      apply request_mem_In in Hmem. destruct Hmem as (x & Hx & Hxe).
      apply request_mem_In. exists x. split; [|exact Hxe].
      apply request_set_subset, Hx.
  - apply (route_ok_capacity glo network (v_capacity vehicle)) in Hok.
    replace (v_capacity vehicle
             - (v_capacity vehicle - Z.of_nat (List.length (v_passengers vehicle))))
      with (Z.of_nat (List.length (v_passengers vehicle))) in Hok by lia.
    exact Hok.
  - eapply route_ok_deadlines, Hok.
Qed.


(** *** The infeasibility sentinel *)

Lemma arrival_ge prev loc now ns :
  nonneg_times glo network -> now <= arrival glo network prev loc now ns.
Proof.
  intros (Ht & Ha & Hp). unfold arrival.
  pose proof (Ht loc (ns_node ns)).
  assert (0 <= dwell_before glo prev loc ns).
  { unfold dwell_before. destruct prev; try lia;
      match goal with |- context [if ?b then _ else _] => destruct b end; lia. }
  match goal with |- context [if ?b then _ else _] => destruct b eqn:E end;
    zbool; lia.
Qed.

Lemma route_end_ge order :
  nonneg_times glo network ->
  forall prev loc now, now <= route_end prev loc now order.
Proof.
  intros Hnn. induction order as [|ns rest IH]; intros prev loc now; simpl; [lia|].
  eapply Z.le_trans; [apply (arrival_ge prev loc now ns Hnn)|apply IH].
Qed.

Lemma format_path_negative (cost : Z) (tail : list NodeStop) (current_time : Z) :
  cost < 0 -> format_path glo (cost, tail) current_time = (cost, rev tail).
Proof.
  intros H. unfold format_path. simpl.
  replace (0 <=? cost) with false by (symmetry; apply Z.leb_gt; exact H).
  rewrite andb_false_r. reflexivity.
Qed.

Lemma prepare_stops_fuel vehicle requests :
  prepare_stops glo vehicle requests <> OutOfFuel.
Proof.
  unfold prepare_stops. cbv zeta.
  repeat match goal with
  | |- (if ?b then _ else _) <> _ => destruct b
  | |- match ?n with O => _ | S _ => _ end <> _ => destruct n
  | |- match ?l with [] => _ | _ :: _ => _ end <> _ => destruct l
  end; discriminate.
Qed.

Lemma new_travel_fuel vehicle requests current_time :
  new_travel vehicle requests current_time <> OutOfFuel.
Proof.
  unfold new_travel.
  destruct (prepare_stops glo vehicle requests) as [[F|]| | |] eqn:Hp;
    try discriminate.
  - destruct (valid_objective glo); [|discriminate].
    match goal with |- match ?s with _ => _ end <> _ => destruct s eqn:Hs end;
      [discriminate|].
    exfalso. revert Hs. apply recursive_search_total. lia.
  - exfalso. revert Hp. apply prepare_stops_fuel.
Qed.

(** The result of a search started without a best time, as [format_path]
    returns it. *)
Lemma search_result_sentinel fuel loc cap F current_time offset optimal :
  nonneg_times glo network ->
  0 <= current_time + offset -> 0 <= offset ->
  recursive_search fuel loc cap F (current_time + offset) (-1) NO_ACTION
    = Some optimal ->
  (fst (format_path glo optimal current_time) = -1
   /\ snd (format_path glo optimal current_time) = [])
  \/ 0 <= fst (format_path glo optimal current_time).
Proof.
  intros Hnn Ht Ho Hs. destruct optimal as [t tail].
  apply recursive_search_sound in Hs.
  destruct Hs as [[Hs Htail]|(HL & Hok & Hend)]; cbn [fst snd] in *.
  - subst t tail. rewrite format_path_negative by lia.
    left. split; reflexivity.
  - pose proof (route_end_ge (rev tail) Hnn NO_ACTION loc
                  (current_time + offset)) as Hge.
    rewrite Hend in Hge. right. unfold format_path. cbn [fst snd].
    destruct (String.eqb (CTSP_OBJECTIVE glo) "CTSP_VTT" && (0 <=? t)); lia.
Qed.

Lemma memory_fuel vehicle current_time :
  memory glo network unlocks_id vehicle current_time <> OutOfFuel.
Proof.
  unfold memory.
  match goal with |- match ?s with _ => _ end <> _ => destruct s eqn:Hs end;
    [discriminate|].
  exfalso. revert Hs. apply recursive_search_total. lia.
Qed.

Lemma travel_fuel vehicle requests current_time trigger :
  travel vehicle requests current_time trigger <> OutOfFuel.
Proof.
  unfold travel.
  destruct (String.eqb trigger "MEMORY"); [apply memory_fuel|].
  destruct (String.eqb trigger "REBALANCING"); [discriminate|].
  apply new_travel_fuel.
Qed.

(** C10 (amended). For travel and dwell times that are not negative, a
    vehicle offset that is not negative and a clock that is not negative
    after the offset is added, the untimed feasibility search, whatever
    its trigger, when it returns, returns either the cost -1 together with
    an empty order, or a cost >= 0, and it never runs out of fuel; and
    [format_path] leaves every negative cost, the sentinel -1 in
    particular, unchanged. *)
Theorem travel_infeasible_sentinel vehicle requests current_time trigger :
  nonneg_times glo network ->
  0 <= current_time + v_offset vehicle -> 0 <= v_offset vehicle ->
  (forall cost order,
     travel vehicle requests current_time trigger = Return (cost, order) ->
     (cost = -1 /\ order = []) \/ 0 <= cost)
  /\ travel vehicle requests current_time trigger <> OutOfFuel
  /\ (forall cost tail, cost < 0 ->
        format_path glo (cost, tail) current_time = (cost, rev tail)).
Proof.
  intros Hnn Ht Ho. split; [|split].
  - intros cost order H.
    assert (Hfrom : forall fuel loc cap F optimal,
              recursive_search fuel loc cap F (current_time + v_offset vehicle)
                (-1) NO_ACTION = Some optimal ->
              Return (format_path glo optimal current_time)
                = Return (cost, order) ->
              (cost = -1 /\ order = []) \/ 0 <= cost).
    { intros fuel loc cap F optimal Hs E.
      assert (E' : format_path glo optimal current_time = (cost, order))
        by congruence.
      pose proof (search_result_sentinel _ _ _ _ _ _ _ Hnn Ht Ho Hs) as Hr.
      rewrite E' in Hr. exact Hr. }
    unfold travel in H.
    destruct (String.eqb trigger "MEMORY").
    + unfold memory in H.
      match type of H with match ?s with _ => _ end = _ =>
        destruct s as [optimal|] eqn:Hs end; [|discriminate].
      eapply Hfrom; eassumption.
    + destruct (String.eqb trigger "REBALANCING"); [discriminate|].
      unfold new_travel in H.
      destruct (prepare_stops glo vehicle requests) as [[F|]| | |] eqn:Hp;
        try discriminate.
      2:{ injection H as <- <-. left. split; reflexivity. }
      destruct (valid_objective glo); [|discriminate].
      match type of H with match ?s with _ => _ end = _ =>
        destruct s as [optimal|] eqn:Hs end; [|discriminate].
      eapply Hfrom; eassumption.
  - apply travel_fuel.
  - intros cost tail Hc. apply format_path_negative. exact Hc.
Qed.

End TravelFacts.

Lemma line_nonneg (glo : Glo) :
  0 <= DWELL_ALIGHT glo -> 0 <= DWELL_PICKUP glo ->
  nonneg_times glo Examples.line.
Proof.
  intros Ha Hp. split; [|split]; [|exact Ha|exact Hp].
  intros a b. unfold get_time, Examples.line.
  cbn [time_matrix dwell_pickup dwell_alight].
  destruct (a =? -10); [lia|]. destruct (a =? -20); lia.
Qed.

Lemma travel_infeasible_sentinel_witness :
  (forall cost order,
     travel Examples.defaults Examples.line Examples.no_ties
       Examples.two_onboard [Examples.r3] 0 "STANDARD" = Return (cost, order) ->
     (cost = -1 /\ order = []) \/ 0 <= cost)
  /\ travel Examples.defaults Examples.line Examples.no_ties
       Examples.two_onboard [Examples.r3] 0 "STANDARD" <> OutOfFuel
  /\ (forall cost tail, cost < 0 ->
        format_path Examples.defaults (cost, tail) 0 = (cost, rev tail)).
Proof.
  apply (travel_infeasible_sentinel Examples.defaults Examples.line
           Examples.no_ties Examples.two_onboard [Examples.r3] 0 "STANDARD").
  - apply line_nonneg; simpl; lia.
  - simpl. lia.
  - simpl. lia.
Defined.

(** A call of [travel] that returns a pair of another shape, or raises,
    does not return a sentinel or a cost. *)
Lemma not_sentinel_returned (glo : Glo) network unlocks_id vehicle requests
    current_time trigger cost order :
  travel glo network unlocks_id vehicle requests current_time trigger
    = Return (cost, order) ->
  cost < -1 ->
  ~ returns_sentinel_or_cost glo network unlocks_id vehicle requests
      current_time trigger.
Proof.
  intros H Hc (result & Hr & Hs). rewrite H in Hr. injection Hr as <-.
  unfold sentinel_or_cost in Hs. cbn [fst snd] in Hs. lia.
Qed.

Lemma not_sentinel_raised (glo : Glo) network unlocks_id vehicle requests
    current_time trigger msg :
  travel glo network unlocks_id vehicle requests current_time trigger
    = Raises msg ->
  ~ returns_sentinel_or_cost glo network unlocks_id vehicle requests
      current_time trigger.
Proof. intros H (result & Hr & _). rewrite H in Hr. discriminate. Qed.

(** C10 as stated fails outside these conditions.  At the clock -5 the
    search for no stop returns the cost -5; so it does at the clock 5 for a
    vehicle with the offset -5; with the travel time -7 the route of one
    dropoff costs -7, and so does a route of two stops with a dwell time
    of -7 (DWELL_ALIGHT between two dropoffs, DWELL_PICKUP between the
    pickup and the dropoff of a request); and [travel] raises, instead of
    returning, under FIX_PREFIX above LP_LIMITVALUE (TypeError), for an
    objective that is not known, for a passenger without stored stop
    (IndexError) and for the trigger REBALANCING.  And at the clock -1 the
    pair of -1 and the empty order is returned for the empty route of an
    empty vehicle, which is feasible: there it does not signal
    infeasibility. *)
Lemma travel_sentinel_fails :
  ~ returns_sentinel_or_cost Examples.defaults Examples.line Examples.no_ties
      Examples.taxi [] (-5) "STANDARD"
  /\ ~ returns_sentinel_or_cost Examples.defaults Examples.line
        Examples.no_ties Counterexamples.behind [] 5 "STANDARD"
  /\ ~ returns_sentinel_or_cost Examples.defaults Counterexamples.downhill
        Examples.no_ties Counterexamples.one_onboard [] 0 "STANDARD"
  /\ ~ returns_sentinel_or_cost Counterexamples.hasty_alight
        Counterexamples.flat Examples.no_ties Examples.two_onboard [] 0
        "STANDARD"
  /\ ~ returns_sentinel_or_cost Counterexamples.hasty_pickup
        Counterexamples.flat Examples.no_ties Examples.taxi [Examples.rider] 0
        "STANDARD"
  /\ ~ returns_sentinel_or_cost Counterexamples.prefix_limit Examples.line
        Examples.no_ties Examples.late [Examples.late_rider] 0 "STANDARD"
  /\ ~ returns_sentinel_or_cost Counterexamples.other_objective Examples.line
        Examples.no_ties Examples.taxi [Examples.rider] 0 "STANDARD"
  /\ ~ returns_sentinel_or_cost Examples.defaults Examples.line
        Examples.no_ties Counterexamples.stranded [] 0 "STANDARD"
  /\ ~ returns_sentinel_or_cost Examples.defaults Examples.line
        Examples.no_ties Examples.taxi [Examples.rider] 0 "REBALANCING"
  /\ (travel Examples.defaults Examples.line Examples.no_ties Examples.taxi
        [] (-1) "STANDARD" = Return (-1, [])
      /\ feasible_order Examples.defaults Examples.line Examples.taxi [] (-1)
           []).
Proof.
  repeat apply conj.
  - apply (not_sentinel_returned _ _ _ _ _ _ _ (-5) []);
      [vm_compute; reflexivity|lia].
  - apply (not_sentinel_returned _ _ _ _ _ _ _ (-5) []);
      [vm_compute; reflexivity|lia].
  - apply (not_sentinel_returned _ _ _ _ _ _ _ (-7)
             [dropoff_stop Examples.p1]); [vm_compute; reflexivity|lia].
  - apply (not_sentinel_returned _ _ _ _ _ _ _ (-7)
             [dropoff_stop Examples.p2; dropoff_stop Examples.p1]);
      [vm_compute; reflexivity|lia].
  - apply (not_sentinel_returned _ _ _ _ _ _ _ (-7)
             [pickup_stop Examples.rider; dropoff_stop Examples.rider]);
      [vm_compute; reflexivity|lia].
  - apply (not_sentinel_raised _ _ _ _ _ _ _
             "FIX_PREFIX: unhashable type: 'NodeStop'").
    vm_compute. reflexivity.
  - apply (not_sentinel_raised _ _ _ _ _ _ _ "not a valid CTSP objective").
    vm_compute. reflexivity.
  - apply (not_sentinel_raised _ _ _ _ _ _ _
             "IndexError: list index out of range").
    vm_compute. reflexivity.
  - apply (not_sentinel_raised _ _ _ _ _ _ _
             "Rebalancing moudle hasn't been implemented!").
    vm_compute. reflexivity.
  - vm_compute. reflexivity.
  - apply Permutation_refl.
  - intros r [].
  - reflexivity.
Qed.

(** C1 fails on the code.  The vehicle carries the passenger [p2] and
    stores no stop for it; for the rider of scenario 1 the search returns
    the cost 120 with the pickup and the dropoff of the rider, a route on
    which [p2] is never dropped off.  Lines 220-221 of the source take the
    last [len(vehicle.passengers)] meta stops for the stops of the
    passengers; here the last one is the pickup of the rider. *)
Theorem travel_skips_passenger :
  In Examples.p2 (v_passengers Counterexamples.stranded)
  /\ travel Examples.defaults Examples.line Examples.no_ties
       Counterexamples.stranded [Examples.rider] 0 "STANDARD"
     = Return (120, [pickup_stop Examples.rider; dropoff_stop Examples.rider])
  /\ ~ In (dropoff_stop Examples.p2)
         [pickup_stop Examples.rider; dropoff_stop Examples.rider].
Proof.
  split; [left; reflexivity|]. split; [vm_compute; reflexivity|].
  intros [H|[H|[]]]; discriminate.
Qed.

(** ** The FIX_ONBOARD prefix lock *)

Section OnboardLock.

Lemma available_request_metas (requests : list Request) :
  map m_node (map request_meta requests) = map pickup_stop requests.
Proof. rewrite map_map. reflexivity. Qed.

Lemma unlock_pairs_app (l1 l2 : list MetaNodeStop) :
  unlock_pairs (l1 ++ l2) = unlock_pairs l1 ++ unlock_pairs l2.
Proof. apply flat_map_app. Qed.

Lemma unlock_pairs_request_metas (requests : list Request) :
  unlock_pairs (map request_meta requests)
  = map (fun r => (pickup_stop r, dropoff_stop r)) requests.
Proof.
  induction requests as [|r l IH]; [reflexivity|].
  unfold unlock_pairs in *. simpl. rewrite IH. reflexivity.
Qed.

Lemma available_chain (l : list NodeStop) : map m_node (chain l) = firstn 1 l.
Proof. destruct l; reflexivity. Qed.

Lemma unlock_pairs_chain (l : list NodeStop) :
  unlock_pairs (chain l) = consecutive_pairs l.
Proof.
  induction l as [|a l IH]; [reflexivity|].
  unfold unlock_pairs in *. simpl. rewrite app_nil_r.
  destruct l as [|b l]; [reflexivity|].
  simpl in *. rewrite app_nil_r in IH. rewrite IH, app_nil_r. reflexivity.
Qed.

Lemma available_free (l : list NodeStop) : map m_node (free_stops l) = l.
Proof. unfold free_stops. rewrite map_map. simpl. apply map_id. Qed.

Lemma unlock_pairs_free (l : list NodeStop) : unlock_pairs (free_stops l) = [].
Proof. induction l as [|a l IH]; [reflexivity|exact IH]. Qed.

Lemma fix_onboard_locked_iff (glo : Glo) vehicle requests :
  CTSP glo = "FIX_ONBOARD"%string ->
  fix_onboard_locked glo vehicle requests = true
  <-> (CARSIZE glo < Z.of_nat (List.length requests)
                     + Z.of_nat (List.length (v_passengers vehicle))
       /\ v_passengers vehicle <> []).
Proof.
  intros HC. unfold fix_onboard_locked. rewrite HC. simpl.
  rewrite andb_true_iff, negb_true_iff, Z.gtb_ltb, Z.ltb_lt, Nat.eqb_neq.
  destruct (v_passengers vehicle); simpl; split; intros [H1 H2]; split;
    auto; congruence.
Qed.

(** C8 (amended). Under the FIX_ONBOARD policy, for a vehicle that stores
    a stop for every passenger, the onboard dropoffs are locked into a
    chain following [order_record] (only the first one available, each one
    unlocking the next) exactly when |R| + |passengers| exceeds the
    configured CARSIZE and the vehicle has a passenger; in every other
    case all onboard dropoffs are available at once. *)
Theorem fix_onboard_lock_carsize (glo : Glo) vehicle requests :
  CTSP glo = "FIX_ONBOARD"%string ->
  stops_stored vehicle ->
  onboard_lock_rule (CARSIZE glo) glo vehicle requests.
Proof.
  intros HC Hs.
  assert (HF : prepare_stops glo vehicle requests
               = Return (Available
                   (map request_meta requests
                    ++ (if fix_onboard_locked glo vehicle requests
                        then chain (onboard_stops (request_set (v_passengers vehicle))
                                      (v_order_record vehicle))
                        else free_stops (onboard_stops
                                           (request_set (v_passengers vehicle))
                                           (v_order_record vehicle)))))).
  { unfold prepare_stops. cbv zeta.
    rewrite (stops_stored_in_range vehicle requests Hs), HC.
    red in Hs. rewrite Hs, Nat.sub_diag. cbn [String.eqb Ascii.eqb Bool.eqb andb].
    destruct (fix_onboard_locked glo vehicle requests); reflexivity. }
  eexists. split; [exact HF|].
  pose proof (fix_onboard_locked_iff glo vehicle requests HC) as Hiff.
  cbv zeta. split; intros Hcond.
  - apply Hiff in Hcond. rewrite Hcond.
    rewrite map_app, unlock_pairs_app, available_request_metas,
      unlock_pairs_request_metas, available_chain, unlock_pairs_chain.
    split; reflexivity.
  - destruct (fix_onboard_locked glo vehicle requests) eqn:E.
    + exfalso. apply Hcond, Hiff. reflexivity.
    + rewrite map_app, unlock_pairs_app, available_request_metas,
        unlock_pairs_request_metas, available_free, unlock_pairs_free, app_nil_r.
      split; reflexivity.
Qed.

Lemma fix_onboard_lock_carsize_witness :
  stops_stored Examples.two_onboard
  /\ onboard_lock_rule (CARSIZE Examples.defaults) Examples.defaults
       Examples.two_onboard [Examples.request_on_line 3 1 2 0].
Proof.
  split; [reflexivity|].
  apply (fix_onboard_lock_carsize Examples.defaults); reflexivity.
Defined.

(** C8 as stated fails twice.  With the capacity of the vehicle as
    threshold: under per-row capacities (CARSIZE < 0) a four-seat vehicle
    with two passengers and no new request has its onboard dropoffs
    chained.  And for a vehicle that stores no stop for one of its two
    passengers, where CARSIZE is the capacity: the lock is engaged, but the
    only available stop is the pickup of the new request, which unlocks
    the onboard dropoff in place of its own. *)
Lemma fix_onboard_lock_capacity_fails :
  ~ onboard_lock_rule (v_capacity Examples.two_onboard)
      Examples.per_row_capacity Examples.two_onboard []
  /\ CARSIZE Counterexamples.two_seats = v_capacity Counterexamples.half_stored
  /\ ~ onboard_lock_rule (v_capacity Counterexamples.half_stored)
         Counterexamples.two_seats Counterexamples.half_stored [Examples.r3].
Proof.
  split; [|split; [reflexivity|]].
  - intros (F & HF & H). vm_compute in HF. injection HF as <-.
    cbv zeta in H. destruct H as [_ H].
    assert (Hn : ~ (v_capacity Examples.two_onboard
                    < Z.of_nat (List.length (@nil Request))
                      + Z.of_nat (List.length (v_passengers Examples.two_onboard))
                    /\ v_passengers Examples.two_onboard <> [])).
    { simpl. lia. }
    destruct (H Hn) as [Hav _]. vm_compute in Hav. discriminate.
  - intros (F & HF & H). vm_compute in HF. injection HF as <-.
    cbv zeta in H. destruct H as [H _].
    assert (Hy : v_capacity Counterexamples.half_stored
                 < Z.of_nat (List.length [Examples.r3])
                   + Z.of_nat (List.length (v_passengers Counterexamples.half_stored))
                 /\ v_passengers Counterexamples.half_stored <> []).
    { split; [simpl; lia|discriminate]. }
    destruct (H Hy) as [Hav _]. vm_compute in Hav. discriminate.
Qed.

End OnboardLock.

(** ** The time budget *)

Section TimeBudget.

Variable glo : Glo.
Variable network : Network.
Variable unlocks_id : MetaNodeStop -> Z.
Variable wall_clock : nat -> Z.

(** With a time budget, [new_travel_timed] hands [start_time] to the search
    as the best time found so far, [time_limit] as its start time and -1 as
    its time limit.  Whenever a stop is to be visited and the clock reads
    more than [time_limit - 1], the search stops at its first test and the
    result is [start_time] (made relative by [format_path]) with no stop at
    all. *)
Lemma new_travel_timed_drops_stops vehicle requests current_time
    start_time time_limit reads F :
  prepare_stops glo vehicle requests = Return (Available F) ->
  F <> [] ->
  valid_objective glo = true ->
  -1 < wall_clock reads - time_limit ->
  new_travel_timed glo network unlocks_id wall_clock vehicle requests
    current_time start_time time_limit reads
  = (Return (format_path glo (start_time, []) current_time), S reads).
Proof.
  intros HF Hne Hobj Hclock. unfold new_travel_timed. rewrite HF, Hobj.
  cbn [recursive_search_timed].
  pose proof (sorted_perm unlocks_id F) as HP.
  destruct (sorted unlocks_id F) as [|m l].
  - apply Permutation_nil in HP. contradiction.
  - cbn [search_loop_timed].
    replace (wall_clock reads - time_limit >? -1) with true
      by (symmetry; rewrite Z.gtb_ltb; apply Z.ltb_lt; exact Hclock).
    reflexivity.
Qed.

End TimeBudget.

(** C3 fails on the code.  With a budget of 10 seconds granted at wall-clock
    time 1 700 000 000, the search for one rider on an empty vehicle
    returns the cost 1 700 000 000 with an empty stop order, although the
    search without budget finds the route of cost 120 through the pickup
    and the dropoff of the rider. *)
Theorem travel_timed_budget_drops_route :
  travel_timed Examples.defaults Examples.line Examples.no_ties Examples.clock
    Examples.taxi [Examples.rider] 0 1700000000 10 "STANDARD" 0
  = (Return (1700000000, []), 1%nat)
  /\ travel Examples.defaults Examples.line Examples.no_ties
       Examples.taxi [Examples.rider] 0 "STANDARD"
     = Return (120, [pickup_stop Examples.rider; dropoff_stop Examples.rider]).
Proof. split; vm_compute; reflexivity. Qed.

(** ** RTV levels *)

Section RequestSets.

Lemma request_mem_ids (r : Request) (s : list Request) :
  request_mem r s = true <-> In (r_id r) (map r_id s).
Proof.
  rewrite request_mem_In, in_map_iff. unfold request_eq.
  split; intros (x & H1 & H2).
  - exists x. apply Z.eqb_eq in H2. auto.
  - exists x. split; [exact H2|apply Z.eqb_eq; auto].
Qed.

Lemma filter_ids_In (f : Request -> bool) (l : list Request) (i : Z) :
  In i (map r_id (filter f l)) -> In i (map r_id l).
Proof.
  rewrite !in_map_iff. intros (x & Hx & Hin). apply filter_In in Hin.
  exists x. tauto.
Qed.

Lemma filter_ids_NoDup (f : Request -> bool) (l : list Request) :
  NoDup (map r_id l) -> NoDup (map r_id (filter f l)).
Proof.
  induction l as [|x l IH]; simpl; intros H; [constructor|].
  inversion H as [|? ? Hx Hl]; subst.
  destruct (f x); simpl; [|auto].
  constructor; [|auto]. intros Hin. apply Hx. eapply filter_ids_In, Hin.
Qed.

Lemma request_set_ids (l : list Request) (i : Z) :
  In i (map r_id (request_set l)) <-> In i (map r_id l).
Proof.
  induction l as [|x l IH]; simpl; [tauto|].
  split.
  - intros [H|H]; [left; exact H|]. right. apply IH. eapply filter_ids_In, H.
  - intros [H|H]; [left; exact H|].
    destruct (Z.eq_dec (r_id x) i) as [E|E]; [left; exact E|right].
    apply IH in H. apply in_map_iff in H. destruct H as (y & Hy & Hin).
    apply in_map_iff. exists y. split; [exact Hy|].
    apply filter_In. split; [exact Hin|].
    unfold request_eq. apply negb_true_iff, Z.eqb_neq. congruence.
Qed.

Lemma request_set_NoDup (l : list Request) : NoDup (map r_id (request_set l)).
Proof.
  induction l as [|x l IH]; simpl; constructor.
  - intros H. apply in_map_iff in H. destruct H as (y & Hy & Hin).
    apply filter_In in Hin. destruct Hin as [_ Hne].
    unfold request_eq in Hne. apply negb_true_iff, Z.eqb_neq in Hne. congruence.
  - apply filter_ids_NoDup, IH.
Qed.

Lemma request_mem_set (r : Request) (l : list Request) :
  request_mem r (request_set l) = request_mem r l.
Proof.
  apply eq_true_iff_eq. rewrite !request_mem_ids. apply request_set_ids.
Qed.

Lemma request_subset_incl (a b : list Request) :
  request_subset a b = true <-> incl (map r_id a) (map r_id b).
Proof.
  unfold request_subset. rewrite forallb_forall. split.
  - intros H i Hi. apply in_map_iff in Hi. destruct Hi as (x & <- & Hx).
    apply request_mem_ids, H, Hx.
  - intros H x Hx. apply request_mem_ids, H, in_map, Hx.
Qed.

Lemma request_set_eq_same (a b : list Request) :
  request_set_eq a b = true <-> same_requests a b.
Proof.
  unfold request_set_eq, same_requests.
  rewrite andb_true_iff, !request_subset_incl. unfold incl.
  split; [intros [H1 H2] i; split; auto|intros H; split; intros i; apply H].
Qed.

Lemma request_remove_ids (x : Request) (l : list Request) (i : Z) :
  NoDup (map r_id l) ->
  In i (map r_id (request_remove x l)) <-> In i (map r_id l) /\ i <> r_id x.
Proof.
  induction l as [|y l IH]; simpl; intros H; [tauto|].
  inversion H as [|? ? Hy Hl]; subst.
  unfold request_eq. destruct (r_id x =? r_id y) eqn:E.
  - apply Z.eqb_eq in E. rewrite E. split.
    + intros Hi. split; [right; exact Hi|]. intros ->. contradiction.
    + intros [[Hi|Hi] Hne]; [congruence|exact Hi].
  - apply Z.eqb_neq in E. simpl. rewrite (IH Hl). split.
    + intros [Hi|[Hi Hne]]; [split; [left; exact Hi|congruence]|tauto].
    + intros [[Hi|Hi] Hne]; [left; exact Hi|right; tauto].
Qed.

(** A set of [k - 1] requests inside a set [U] of [k] requests is [U]
    without one of its members. *)
Lemma subset_is_removal (U sub : list Request) :
  NoDup (map r_id U) -> NoDup (map r_id sub) ->
  incl (map r_id sub) (map r_id U) ->
  S (List.length sub) = List.length U ->
  exists x, In x U /\ same_requests (request_remove x U) sub.
Proof.
  intros HU Hs Hincl Hlen.
  assert (Hex : exists x, In x U /\ ~ In (r_id x) (map r_id sub)).
  { destruct (existsb (fun x => negb (request_mem x sub)) U) eqn:E.
    - apply existsb_exists in E. destruct E as (x & Hx & Hn).
      exists x. split; [exact Hx|]. rewrite <- request_mem_ids.
      apply negb_true_iff in Hn. congruence.
    - exfalso.
      assert (Hall : incl (map r_id U) (map r_id sub)).
      { intros i Hi. apply in_map_iff in Hi. destruct Hi as (x & <- & Hx).
        apply request_mem_ids.
        destruct (request_mem x sub) eqn:Hm; [reflexivity|].
        assert (existsb (fun x => negb (request_mem x sub)) U = true).
        { apply existsb_exists. exists x. rewrite Hm. auto. }
        congruence. }
      apply NoDup_incl_length in Hall; [|exact HU].
      rewrite !length_map in Hall. lia. }
  destruct Hex as (x & Hx & Hnot). exists x. split; [exact Hx|].
  assert (Hsub : incl (map r_id sub) (map r_id (request_remove x U))).
  { intros i Hi. apply request_remove_ids; [exact HU|].
    split; [apply Hincl, Hi|]. intros ->. contradiction. }
  intros i. split; [|apply Hsub].
  revert i. apply NoDup_length_incl; [exact Hs| |exact Hsub].
  rewrite !length_map.
  assert (request_mem x U = true).
  { apply request_mem_ids, in_map, Hx. }
  pose proof (request_remove_length x U H). lia.
Qed.

End RequestSets.

Section RtvFacts.

Variable glo : Glo.
Variable network : Network.
Variable unlocks_id : MetaNodeStop -> Z.
Variable wall_clock : nat -> Z.
Variable rr_edge : Z -> Z -> bool.

Notation try_pair := (try_pair glo network unlocks_id wall_clock rr_edge).
Notation inner_loop := (inner_loop glo network unlocks_id wall_clock rr_edge).
Notation outer_loop := (outer_loop glo network unlocks_id wall_clock rr_edge).
Notation levels := (levels glo network unlocks_id wall_clock rr_edge).
Notation rtv_rounds := (rtv_rounds glo network unlocks_id wall_clock rr_edge).
Notation make_rtvgraph := (make_rtvgraph glo network unlocks_id wall_clock rr_edge).
Notation baseline_trip := (baseline_trip glo network unlocks_id wall_clock).
Notation passes_gates := (passes_gates glo rr_edge).
Notation gated_rounds := (gated_rounds glo rr_edge).

Lemma bind_Return {A B : Type} (x : outcome A) (f : A -> outcome B) (b : B) :
  bind x f = Return b -> exists a, x = Return a /\ f a = Return b.
Proof. destruct x; simpl; try discriminate. intros H. eauto. Qed.

Lemma is_rr_connected_edges (requests1 requests2 : list Request) :
  is_rr_connected rr_edge requests1 requests2 = true ->
  forall a b, In a requests1 -> In b requests2 -> r_id a <> r_id b ->
    rr_edge (r_id a) (r_id b) = true \/ rr_edge (r_id b) (r_id a) = true.
Proof.
  unfold is_rr_connected. intros H a b Ha Hb Hne.
  rewrite forallb_forall in H. specialize (H a Ha).
  rewrite forallb_forall in H. specialize (H b Hb).
  apply orb_true_iff in H. destruct H as [H|H].
  - apply Z.eqb_eq in H. contradiction.
  - destruct (rr_edge (r_id a) (r_id b)); [left; reflexivity|].
    destruct (rr_edge (r_id b) (r_id a)); [right; reflexivity|discriminate].
Qed.

Lemma all_subsets_exist_closed (U : list Request) (previous_round : list Trip) :
  NoDup (map r_id U) ->
  all_subsets_exist U previous_round = true ->
  forall sub, NoDup (map r_id sub) -> incl (map r_id sub) (map r_id U) ->
    S (List.length sub) = List.length U ->
    exists T, In T previous_round /\ same_requests (t_requests T) sub.
Proof.
  intros HU Hall sub Hs Hincl Hlen.
  destruct (subset_is_removal U sub HU Hs Hincl Hlen) as (x & Hx & Hsame).
  unfold all_subsets_exist in Hall. rewrite forallb_forall in Hall.
  specialize (Hall x Hx). apply existsb_exists in Hall.
  destruct Hall as (T & HT & Heq). exists T. split; [exact HT|].
  apply request_set_eq_same in Heq. intros i.
  rewrite <- (Hsame i), <- (Heq i). symmetry. apply request_set_ids.
Qed.

Lemma request_diff_pending (U pending : list Request) :
  request_diff U (request_set pending) = request_diff U pending.
Proof.
  unfold request_diff. apply filter_ext. intros r.
  rewrite request_mem_set. reflexivity.
Qed.

Lemma try_pair_gates vehicle current_time start_time k previous_round
    trip1 trip2 st st' :
  In trip1 previous_round -> In trip2 previous_round ->
  try_pair vehicle current_time start_time k previous_round trip1 trip2 st
    = Return st' ->
  Forall (passes_gates vehicle k previous_round) (new_round st) ->
  Forall (passes_gates vehicle k previous_round) (new_round st').
Proof.
  intros H1 H2. unfold try_pair.
  set (U := request_union (t_requests trip1) (t_requests trip2)).
  destruct (negb (Nat.eqb (List.length U) k)
            || existsb (request_set_eq U) (existing_trips st)) eqn:Hk;
    [intros H; injection H as <-; auto|].
  destruct (Z.of_nat (List.length (request_diff U
              (request_set (v_pending_requests vehicle)))) * 2
            >? MAX_NEW glo) eqn:Hnew;
    [intros H; injection H as <-; auto|].
  destruct (is_rr_connected rr_edge (t_requests trip1) (t_requests trip2)) eqn:Hrr;
    simpl; [|intros H; injection H as <-; auto].
  destruct (all_subsets_exist U previous_round) eqn:Hsub;
    simpl; [|intros H; injection H as <-; auto].
  destruct (travel_timed glo network unlocks_id wall_clock vehicle U
              current_time start_time (RTV_TIMELIMIT glo) "STANDARD" (reads st))
    as [result reads'].
  intros H Hall. apply bind_Return in H. destruct H as ([cost order] & _ & H).
  destruct (cost <? 0); injection H as <-; simpl; [exact Hall|].
  apply Forall_app. split; [exact Hall|]. constructor; [|constructor].
  exists trip1, trip2. cbn [t_requests]. fold U.
  apply orb_false_iff in Hk. destruct Hk as [Hk _].
  apply negb_false_iff, Nat.eqb_eq in Hk.
  assert (HU : NoDup (map r_id U)) by apply request_set_NoDup.
  repeat split; auto.
  - rewrite request_diff_pending in Hnew. zbool. lia.
  - apply is_rr_connected_edges, Hrr.
  - intros sub Hs Hincl Hlen.
    apply (all_subsets_exist_closed U previous_round HU Hsub sub Hs Hincl).
    lia.
Qed.

Lemma inner_loop_gates vehicle current_time start_time k previous_round trip1 :
  In trip1 previous_round ->
  forall partners st st',
    incl partners previous_round ->
    inner_loop vehicle current_time start_time k previous_round trip1
      partners st = Return st' ->
    Forall (passes_gates vehicle k previous_round) (new_round st) ->
    Forall (passes_gates vehicle k previous_round) (new_round st').
Proof.
  intros H1. induction partners as [|trip2 partners IH];
    intros st st' Hincl H Hall; simpl in H.
  - injection H as <-. exact Hall.
  - match type of H with (if ?b then _ else _) = _ => destruct b end.
    + injection H as <-. exact Hall.
    + apply bind_Return in H. destruct H as (st1 & Hp & H).
      eapply IH; [|exact H|].
      * intros x Hx. apply Hincl. right. exact Hx.
      * eapply try_pair_gates; [exact H1| |exact Hp|exact Hall].
        apply Hincl. left. reflexivity.
Qed.

Lemma outer_loop_gates vehicle current_time start_time k previous_round :
  forall trips st st',
    incl trips previous_round ->
    outer_loop vehicle current_time start_time k previous_round trips st
      = Return st' ->
    Forall (passes_gates vehicle k previous_round) (new_round st) ->
    Forall (passes_gates vehicle k previous_round) (new_round st').
Proof.
  induction trips as [|trip1 trips IH]; intros st st' Hincl H Hall; simpl in H.
  - injection H as <-. exact Hall.
  - apply bind_Return in H. destruct H as (st1 & Hp & H).
    eapply IH; [|exact H|].
    + intros x Hx. apply Hincl. right. exact Hx.
    + eapply inner_loop_gates; [| |exact Hp|exact Hall].
      * apply Hincl. left. reflexivity.
      * intros x Hx. apply Hincl. right. exact Hx.
Qed.


Lemma levels_S fuel vehicle current_time start_time k rounds timed_out n :
  levels (S fuel) vehicle current_time start_time k rounds timed_out n =
  match nth k rounds [], timed_out with
  | _ :: _, false =>
    if Z.of_nat (S k) >? v_capacity vehicle then Return (rounds, n)
    else
      st <- outer_loop vehicle current_time start_time (S k)
              (nth (S k - 1) rounds []) (nth (S k - 1) rounds [])
              (mkLevel [] (map (fun trip => request_set (t_requests trip))
                               (nth (S k - 1) rounds [])) timed_out n) ;;
      levels fuel vehicle current_time start_time (S k)
        (rounds ++ [new_round st]) (timeout st) (reads st)
  | _, _ => Return (rounds, n)
  end.
Proof. reflexivity. Qed.

Lemma levels_extend fuel vehicle current_time start_time :
  forall k rounds timed_out n rounds' n',
    levels fuel vehicle current_time start_time k rounds timed_out n
      = Return (rounds', n') ->
    exists extra, rounds' = rounds ++ extra.
Proof.
  induction fuel as [|fuel IH]; intros k rounds timed_out n rounds' n' H;
    [discriminate|].
  rewrite levels_S in H.
  destruct (nth k rounds []) as [|t0 l0];
    [injection H as <- <-; exists []; symmetry; apply app_nil_r|].
  destruct timed_out;
    [injection H as <- <-; exists []; symmetry; apply app_nil_r|].
  destruct (Z.of_nat (S k) >? v_capacity vehicle);
    [injection H as <- <-; exists []; symmetry; apply app_nil_r|].
  apply bind_Return in H. destruct H as (st & _ & H).
  apply IH in H. destruct H as (extra & ->).
  rewrite <- app_assoc. eauto.
Qed.

Lemma levels_gated fuel vehicle current_time start_time :
  forall k rounds timed_out n rounds' n',
    List.length rounds = S k ->
    gated_rounds vehicle rounds ->
    levels fuel vehicle current_time start_time k rounds timed_out n
      = Return (rounds', n') ->
    gated_rounds vehicle rounds'.
Proof.
  induction fuel as [|fuel IH]; intros k rounds timed_out n rounds' n' Hlen Hg H;
    [discriminate|].
  rewrite levels_S in H.
  destruct (nth k rounds []) as [|t0 l0] eqn:Hk; [injection H as <- <-; exact Hg|].
  destruct timed_out; [injection H as <- <-; exact Hg|].
  destruct (Z.of_nat (S k) >? v_capacity vehicle);
    [injection H as <- <-; exact Hg|].
  apply bind_Return in H. destruct H as (st & Hst & H).
  replace (S k - 1)%nat with k in Hst by lia. rewrite Hk in Hst.
  apply outer_loop_gates in Hst; [|apply incl_refl|constructor].
  simpl in Hst.
  eapply IH; [| |exact H].
  - rewrite length_app. simpl. lia.
  - intros j trip Hj Hin.
    destruct (Nat.lt_ge_cases j (S k)) as [Hlt|Hge].
    + rewrite app_nth1 in Hin by lia. rewrite app_nth1 by lia.
      apply Hg; assumption.
    + destruct (Nat.eq_dec j (S k)) as [->|Hne].
      * rewrite app_nth2 in Hin by lia.
        replace (S k - List.length rounds)%nat with 0%nat in Hin by lia.
        simpl in Hin. rewrite app_nth1 by lia.
        replace (S k - 1)%nat with k by lia. rewrite Hk.
        rewrite Forall_forall in Hst. apply Hst, Hin.
      * rewrite nth_overflow in Hin; [destruct Hin|].
        rewrite length_app. simpl. lia.
Qed.

(** C5. Every trip emitted at an RTV level k >= 2 for a vehicle has a
    request set U that is the union of the request sets of two trips of
    level k - 1 and has exactly k members, with
    2 * |U minus pending_requests| <= MAX_NEW; every request of the first
    parent is joined to every distinct request of the second by an RR edge
    in one direction at least; and every (k - 1)-subset of U is the request
    set of a trip of level k - 1. *)
Theorem rtv_levels_pass_gates vehicle rv_neighbors current_time n rounds n' :
  rtv_rounds vehicle rv_neighbors current_time n = Return (rounds, n') ->
  forall k trip, (2 <= k)%nat -> In trip (nth k rounds []) ->
    passes_gates vehicle k (nth (k - 1) rounds []) trip.
Proof.
  unfold rtv_rounds. intros H.
  destruct (baseline_trip vehicle current_time (wall_clock n) (S n))
    as [result n1].
  apply bind_Return in H. destruct H as (baseline & _ & H).
  apply bind_Return in H. destruct H as (round1 & _ & H).
  eapply levels_gated; [| |exact H]; [reflexivity|].
  intros k trip Hk Hin.
  destruct k as [|[|[|k]]]; try lia; destruct Hin.
Qed.

(** The trip list begins with the rounds in order. *)
Lemma compile_trips_prefix vehicle current_time rounds trips :
  compile_trips glo network unlocks_id vehicle current_time rounds
    = Return trips ->
  exists rest, trips = List.concat rounds ++ rest.
Proof.
  unfold compile_trips.
  destruct (existsb (fun trip => t_cost trip =? -1) (List.concat rounds));
    [discriminate|].
  destruct (v_order_record vehicle);
    [intros H; injection H as <-; exists []; symmetry; apply app_nil_r|].
  match goal with |- (if ?b then _ else _) = _ -> _ => destruct b end;
    [intros H; injection H as <-; exists []; symmetry; apply app_nil_r|].
  intros H. apply bind_Return in H. destruct H as (previous_trip & _ & H).
  destruct (t_cost previous_trip =? -1); [discriminate|].
  injection H as <-. eauto.
Qed.

(** The trip list that the RTV builder returns for a vehicle begins with
    the level-0 baseline trip: its request set is empty and it is the trip
    that [baseline_trip] builds from the call of [travel_timed] on the
    vehicle with no new request. *)
Lemma rtv_baseline_first vehicle rv_neighbors current_time n trips :
  make_rtvgraph vehicle rv_neighbors current_time n = Return trips ->
  exists baseline rest,
    trips = baseline :: rest
    /\ t_requests baseline = []
    /\ fst (baseline_trip vehicle current_time (wall_clock n) (S n))
       = Return baseline.
Proof.
  unfold make_rtvgraph. intros H.
  apply bind_Return in H. destruct H as ([rounds n'] & Hr & H).
  unfold rtv_rounds in Hr.
  destruct (baseline_trip vehicle current_time (wall_clock n) (S n))
    as [result n1] eqn:Hb.
  apply bind_Return in Hr. destruct Hr as (baseline & -> & Hr).
  apply bind_Return in Hr. destruct Hr as (round1 & _ & Hr).
  apply levels_extend in Hr. destruct Hr as (extra & ->).
  apply compile_trips_prefix in H. destruct H as (rest & ->).
  exists baseline. eexists. split; [simpl; reflexivity|].
  split; [|reflexivity].
  unfold baseline_trip in Hb.
  destruct (travel_timed glo network unlocks_id wall_clock vehicle []
              current_time (wall_clock n) (RTV_TIMELIMIT glo) "STANDARD" (S n))
    as [res n2].
  injection Hb as Hb _. destruct res as [[c p]| | |]; simpl in Hb;
    try discriminate.
  injection Hb as <-. reflexivity.
Qed.

End RtvFacts.

Lemma rtv_levels_pass_gates_witness :
  passes_gates Examples.defaults Examples.all_edges Examples.taxi 2
    (nth (2 - 1) Examples.scenario2_rounds []) Examples.scenario2_shared_trip.
Proof.
  apply (rtv_levels_pass_gates Examples.defaults Examples.line Examples.no_ties
           Examples.clock Examples.all_edges Examples.taxi
           [Examples.sharer1; Examples.sharer2] 0 0
           Examples.scenario2_rounds 1).
  - vm_compute. reflexivity.
  - lia.
  - vm_compute. left. reflexivity.
Defined.

(** C6 fails on the code when the trips of a vehicle have a time budget.
    With RTV_TIMELIMIT = 10 the trip list of a vehicle that carries two
    passengers begins with a baseline trip without any stop, of cost
    1 700 000 000 (the wall-clock time at which the budget started): the
    baseline does not deliver the passengers.  Without budget
    (RTV_TIMELIMIT = 0, the default) the baseline of the same vehicle drops
    both passengers, at the cost 120.  (The second trip of either list
    replays the stored order.)  The baseline is the result of
    [travel_timed] in both cases; with a budget, [new_travel_timed] passes
    its arguments to the search shifted by one place, the defect that C3
    shows. *)
Theorem rtv_baseline_skips_onboard :
  make_rtvgraph Counterexamples.budget Examples.line Examples.no_ties
    Examples.clock Examples.all_edges Examples.two_onboard [] 0 0
  = Return [mkTrip 1700000000 false false [] [];
            mkTrip 180 false true
              [dropoff_stop Examples.p1; dropoff_stop Examples.p2] []]
  /\ make_rtvgraph Examples.defaults Examples.line Examples.no_ties
       Examples.clock Examples.all_edges Examples.two_onboard [] 0 0
     = Return [mkTrip 120 false false
                 [dropoff_stop Examples.p2; dropoff_stop Examples.p1] [];
               mkTrip 180 false true
                 [dropoff_stop Examples.p1; dropoff_stop Examples.p2] []].
Proof. split; vm_compute; reflexivity. Qed.

(** C4 fails on the code under CTSP_DELAY.  For a vehicle whose stored
    order can no longer be replayed, the Memory replay returns the cost -1,
    but [previoustrip] replaces that cost by the delay of the empty order
    before it is tested, so that the builder returns a memory trip of cost
    0 without any stop; under CTSP_VTT the same vehicle raises the fatal
    error. *)
Theorem rtv_infeasible_memory_not_fatal :
  travel Examples.delay_objective Examples.line Examples.no_ties
    Examples.late (v_pending_requests Examples.late) 1000 "MEMORY"
  = Return (-1, [])
  /\ make_rtvgraph Examples.delay_objective Examples.line Examples.no_ties
       Examples.clock Examples.all_edges Examples.late [] 1000 0
     = Return [mkTrip 0 false false [] [];
               mkTrip 0 false true [] [Examples.late_rider]]
  /\ make_rtvgraph Examples.defaults Examples.line Examples.no_ties
       Examples.clock Examples.all_edges Examples.late [] 1000 0
     = Raises "Previous assignment no longer feasible for vehicle".
Proof. repeat split; vm_compute; reflexivity. Qed.

(** C9 fails on the code.  For two passengers alighting at the same node,
    [delay_all] charges the travel time from that node to the node of the
    vehicle between the two dropoffs: the baseline trip is stored with the
    cost 120, while the total delay of its order under the arrival-time
    model of the search is 0. *)
Theorem rtv_delay_cost_differs :
  let order := [dropoff_stop Examples.pa; dropoff_stop Examples.pb] in
  make_rtvgraph Examples.delay_objective Examples.line Examples.no_ties
    Examples.clock Examples.all_edges Examples.pooled [] 0 0
  = Return [mkTrip 120 false false order []]
  /\ arrival_times Examples.delay_objective Examples.line NO_ACTION
       (v_node Examples.pooled) (0 + v_offset Examples.pooled) order
     = [120; 120]
  /\ total_delay Examples.delay_objective Examples.line Examples.pooled order 0
     = 0.
Proof. repeat split; vm_compute; reflexivity. Qed.

(** ** The rows of the assignment ILP *)

Section IlpFacts.


Lemma rid_indices_add (m : rid_map) (rid : Z) (index : nat) (rid' : Z) :
  rid_indices (rid_add m rid index) rid' =
  if rid' =? rid
  then (if existsb (Nat.eqb index) (rid_indices m rid) then rid_indices m rid
        else rid_indices m rid ++ [index])
  else rid_indices m rid'.
Proof.
  unfold rid_indices. induction m as [|[key indices] m IH]; simpl.
  - rewrite (Z.eqb_sym rid rid'). destruct (rid' =? rid); reflexivity.
  - destruct (rid' =? rid) eqn:B, (key =? rid) eqn:E, (key =? rid') eqn:E';
      simpl; rewrite ?E, ?E'; zbool; try reflexivity; try lia; try exact IH.
Qed.


Lemma existsb_nat_In (i : nat) (l : list nat) :
  existsb (Nat.eqb i) l = true <-> In i l.
Proof.
  rewrite existsb_exists. split.
  - intros (x & Hx & E). apply Nat.eqb_eq in E. subst. exact Hx.
  - intros H. exists i. split; [exact H|apply Nat.eqb_refl].
Qed.

Lemma index_requests (n : nat) (requests : list Request) :
  forall (m : rid_map) (rid : Z),
    let m' := fold_left (fun m request => rid_add m (r_id request) n) requests m in
    (NoDup (rid_indices m rid) -> NoDup (rid_indices m' rid))
    /\ forall i, In i (rid_indices m' rid) <->
                 In i (rid_indices m rid)
                 \/ (i = n /\ In rid (map r_id requests)).
Proof.
  induction requests as [|r requests IH]; intros m rid; simpl.
  - split; [auto|]. intros i. tauto.
  - destruct (IH (rid_add m (r_id r) n) rid) as [IHn IHi].
    assert (Hstep : forall i, In i (rid_indices (rid_add m (r_id r) n) rid) <->
                              In i (rid_indices m rid) \/ (i = n /\ r_id r = rid)).
    { intros i. rewrite rid_indices_add.
      destruct (rid =? r_id r) eqn:E.
      - apply Z.eqb_eq in E. subst rid.
        destruct (existsb (Nat.eqb n) (rid_indices m (r_id r))) eqn:Ex.
        + apply existsb_nat_In in Ex. split; [tauto|].
          intros [H|[-> _]]; assumption.
        + rewrite in_app_iff. simpl. split.
          * intros [H|[H|[]]]; [left; exact H|right; auto].
          * intros [H|[-> _]]; [left; exact H|right; left; reflexivity].
      - apply Z.eqb_neq in E. split; [tauto|].
        intros [H|[_ H]]; [exact H|congruence]. }
    split.
    + intros Hn. apply IHn. rewrite rid_indices_add.
      destruct (rid =? r_id r) eqn:E; [|exact Hn].
      apply Z.eqb_eq in E. subst rid.
      destruct (existsb (Nat.eqb n) (rid_indices m (r_id r))) eqn:Ex; [exact Hn|].
      apply NoDup_app; [exact Hn|repeat constructor; intros []|].
      intros a Ha [->|[]].
      assert (existsb (Nat.eqb a) (rid_indices m (r_id r)) = true)
        by (apply existsb_nat_In; exact Ha).
      congruence.
    + intros i. rewrite IHi, Hstep. tauto.
Qed.

Lemma index_trip_indexes (m : rid_map) (done : list Trip) (trip : Trip) :
  indexes m done ->
  indexes (fst (index_trip (m, List.length done) trip)) (done ++ [trip]).
Proof.
  intros Hm rid. destruct (Hm rid) as [Hn Hi].
  unfold index_trip. cbn [fst snd].
  destruct (index_requests (List.length done) (t_requests trip) m rid)
    as [Hn' Hi'].
  split; [auto|]. intros i. rewrite Hi', Hi. split.
  - intros [(t & Ht & Hin)|[-> Hin]].
    + exists t. split; [|exact Hin]. rewrite nth_error_app1; [exact Ht|].
      apply nth_error_Some. congruence.
    + exists trip. split; [|exact Hin].
      rewrite nth_error_app2, Nat.sub_diag by lia. reflexivity.
  - intros (t & Ht & Hin).
    destruct (Nat.lt_ge_cases i (List.length done)) as [Hlt|Hge].
    + left. exists t. rewrite nth_error_app1 in Ht by exact Hlt. auto.
    + right. rewrite nth_error_app2 in Ht by exact Hge.
      destruct (i - List.length done)%nat as [|d] eqn:Hd; simpl in Ht.
      * injection Ht as <-. split; [lia|exact Hin].
      * destruct d; discriminate.
Qed.

Lemma index_trip_count (acc : rid_map * nat) (trip : Trip) :
  snd (index_trip acc trip) = S (snd acc).
Proof. reflexivity. Qed.

Lemma fold_index_trip (trips : list Trip) :
  forall (m : rid_map) (done : list Trip),
    indexes m done ->
    indexes (fst (fold_left index_trip trips (m, List.length done)))
      (done ++ trips)
    /\ snd (fold_left index_trip trips (m, List.length done))
       = List.length (done ++ trips).
Proof.
  induction trips as [|trip trips IH]; intros m done Hm; simpl.
  - rewrite app_nil_r. auto.
  - pose proof (index_trip_indexes m done trip Hm) as Hstep.
    specialize (IH _ _ Hstep).
    replace (index_trip (m, List.length done) trip)
      with (fst (index_trip (m, List.length done) trip),
            List.length (done ++ [trip])).
    + rewrite <- app_assoc in IH. exact IH.
    + unfold index_trip. cbn [fst snd]. rewrite length_app. simpl.
      f_equal. lia.
Qed.

Lemma index_trips_flat (trip_list : list (Vehicle * list Trip)) :
  forall acc,
    fold_left (fun acc entry => fold_left index_trip (snd entry) acc)
      trip_list acc
    = fold_left index_trip (all_trips trip_list) acc.
Proof.
  unfold all_trips. induction trip_list as [|[v trips] rest IH]; intros acc;
    simpl; [reflexivity|].
  rewrite fold_left_app. apply IH.
Qed.

Lemma index_trips_spec (trip_list : list (Vehicle * list Trip)) :
  indexes (fst (index_trips trip_list)) (all_trips trip_list)
  /\ snd (index_trips trip_list) = List.length (all_trips trip_list).
Proof.
  unfold index_trips. rewrite index_trips_flat.
  apply (fold_index_trip (all_trips trip_list) [] []).
  intros rid. split; [constructor|].
  intros i. simpl. split; [tauto|].
  intros (t & Ht & _). destruct i; discriminate.
Qed.

Lemma constraint_one_length glo trip_list count :
  List.length (constraint_one glo trip_list count) = List.length trip_list.
Proof.
  revert count. induction trip_list as [|[v trips] rest IH]; intros count;
    simpl; [reflexivity|]. rewrite IH. reflexivity.
Qed.

Lemma constraint_two_length m requests k :
  List.length (constraint_two m requests k) = List.length requests.
Proof.
  revert k. induction requests as [|r rest IH]; intros k; simpl; [reflexivity|].
  rewrite IH. reflexivity.
Qed.

Lemma constraint_one_nth glo trip_list :
  forall count j vehicle trips,
    nth_error trip_list j = Some (vehicle, trips) ->
    nth_error (constraint_one glo trip_list count) j =
    Some (mkConstr "c1" (v_id vehicle)
            (map e_var (seq (count + List.length (all_trips (firstn j trip_list)))
                            (List.length trips)))
            (if negb (String.eqb (ALGORITHM glo) "ILP_FULL") then sense_le
             else sense_eq) 1).
Proof.
  induction trip_list as [|[v ts] rest IH]; intros count j vehicle trips H.
  - destruct j; discriminate.
  - destruct j as [|j]; simpl in *.
    + injection H as <- <-. rewrite Nat.add_0_r. reflexivity.
    + rewrite (IH _ _ _ _ H). unfold all_trips. simpl.
      rewrite length_app, Nat.add_assoc. reflexivity.
Qed.

Lemma constraint_two_nth m requests :
  forall k0 k request,
    nth_error requests k = Some request ->
    nth_error (constraint_two m requests k0) k =
    Some (mkConstr "c2" (r_id request)
            (if r_assigned request then map e_var (rid_indices m (r_id request))
             else map e_var (rid_indices m (r_id request)) ++ [x_var (k0 + k)])
            sense_eq 1).
Proof.
  induction requests as [|r rest IH]; intros k0 k request H.
  - destruct k; discriminate.
  - destruct k as [|k]; simpl in *.
    + injection H as <-. rewrite Nat.add_0_r. reflexivity.
    + rewrite (IH _ _ _ H). rewrite Nat.add_succ_r. reflexivity.
Qed.

Lemma e_var_NoDup (l : list nat) : NoDup l -> NoDup (map e_var l).
Proof.
  induction 1 as [|i l Hi Hl IH]; simpl; constructor; [|exact IH].
  rewrite in_map_iff. intros (j & E & Hj). injection E as ->. contradiction.
Qed.

(** The trips of a vehicle are the trips indexed from the number of trips
    of the vehicles before it. *)
Lemma all_trips_vehicle (trip_list : list (Vehicle * list Trip)) :
  forall j vehicle trips i,
    nth_error trip_list j = Some (vehicle, trips) ->
    (i < List.length trips)%nat ->
    nth_error (all_trips trip_list)
      (List.length (all_trips (firstn j trip_list)) + i)
    = nth_error trips i.
Proof.
  unfold all_trips.
  induction trip_list as [|[v ts] rest IH]; intros j vehicle trips i H Hi.
  - destruct j; discriminate.
  - destruct j as [|j]; simpl in *.
    + injection H as <- <-. rewrite nth_error_app1 by exact Hi. reflexivity.
    + rewrite length_app, <- Nat.add_assoc, nth_error_app2 by lia.
      replace (List.length ts
               + (List.length (List.concat (map snd (firstn j rest))) + i)
               - List.length ts)%nat
        with (List.length (List.concat (map snd (firstn j rest))) + i)%nat by lia.
      eapply IH; eassumption.
Qed.

(** C7. The assignment ILP built from the RTV trip list has this
    constraint structure: one row per vehicle, in which the sum of the
    trip-selection variables [e_i] of the trips of the vehicle equals 1
    when ALGORITHM is ILP_FULL and is <= 1 otherwise; then one row per
    request, in which the sum of the [e_i] of the trips whose request set
    contains the request equals 1, with the absorption variable [x_k]
    added for a new request and no such variable for a committed one. *)
Theorem ilp_constraint_structure (glo : Glo)
    (trip_list : list (Vehicle * list Trip)) (requests : list Request)
    (rows : list ilp_constr) :
  ilp_constraints glo trip_list requests = Return (Some rows) ->
  List.length rows = (List.length trip_list + List.length requests)%nat
  /\ (forall j vehicle trips,
        nth_error trip_list j = Some (vehicle, trips) ->
        let first := List.length (all_trips (firstn j trip_list)) in
        (forall i, (i < List.length trips)%nat ->
           nth_error (all_trips trip_list) (first + i) = nth_error trips i)
        /\ exists row,
             nth_error rows j = Some row
             /\ c_vars row = map e_var (seq first (List.length trips))
             /\ c_sense row = (if String.eqb (ALGORITHM glo) "ILP_FULL"
                               then sense_eq else sense_le)
             /\ c_rhs row = 1)
  /\ (forall k request,
        nth_error requests k = Some request ->
        exists row,
          nth_error rows (List.length trip_list + k) = Some row
          /\ c_sense row = sense_eq /\ c_rhs row = 1
          /\ NoDup (c_vars row)
          /\ (forall i, In (e_var i) (c_vars row) <->
                exists trip, nth_error (all_trips trip_list) i = Some trip
                             /\ In (r_id request) (map r_id (t_requests trip)))
          /\ (forall k', In (x_var k') (c_vars row) <->
                k' = k /\ r_assigned request = false)).
Proof.
  unfold ilp_constraints.
  destruct (index_trips_spec trip_list) as [Hidx Hcount].
  destruct (index_trips trip_list) as [m index]. cbn [fst snd] in *.
  destruct (Nat.eqb index 0); [discriminate|].
  destruct (String.eqb (ASSIGNMENT_OBJECTIVE glo) "AO_SERVICERATE"
            || String.eqb (ASSIGNMENT_OBJECTIVE glo) "AO_RMT"); [|discriminate].
  intros H. injection H as <-. split; [|split].
  - rewrite length_app, constraint_one_length, constraint_two_length.
    reflexivity.
  - intros j vehicle trips Hj. cbv zeta. split.
    + intros i Hi. eapply all_trips_vehicle; eassumption.
    + eexists. split; [|split; [|split]].
      * rewrite nth_error_app1.
        -- apply (constraint_one_nth glo trip_list 0 j vehicle trips Hj).
        -- rewrite constraint_one_length. apply nth_error_Some. congruence.
      * reflexivity.
      * cbn [c_sense]. destruct (String.eqb (ALGORITHM glo) "ILP_FULL");
          reflexivity.
      * reflexivity.
  - intros k request Hk. eexists. split; [|split; [|split; [|split; [|split]]]].
    + rewrite nth_error_app2 by (rewrite constraint_one_length; lia).
      rewrite constraint_one_length.
      replace (List.length trip_list + k - List.length trip_list)%nat
        with k by lia.
      apply (constraint_two_nth m requests 0 k request Hk).
    + reflexivity.
    + reflexivity.
    + cbn [c_vars]. destruct (Hidx (r_id request)) as [Hn _].
      apply e_var_NoDup in Hn.
      destruct (r_assigned request); [exact Hn|].
      apply NoDup_app; [exact Hn|repeat constructor; intros []|].
      intros a Ha [<-|[]]. apply in_map_iff in Ha.
      destruct Ha as (i & Hi & _). discriminate.
    + intros i. cbn [c_vars]. destruct (Hidx (r_id request)) as [_ Hi].
      rewrite <- Hi. destruct (r_assigned request).
      * rewrite in_map_iff. split.
        -- intros (x & E & Hx). injection E as ->. exact Hx.
        -- intros Hx. exists i. auto.
      * rewrite in_app_iff, in_map_iff. split.
        -- intros [(x & E & Hx)|[E|[]]]; [|discriminate].
           injection E as ->. exact Hx.
        -- intros Hx. left. exists i. auto.
    + intros k'. cbn [c_vars]. destruct (r_assigned request).
      * rewrite in_map_iff. split.
        -- intros (x & E & _). discriminate.
        -- intros [_ E]. discriminate.
      * rewrite in_app_iff, in_map_iff. simpl. split.
        -- intros [(x & E & _)|[E|[]]]; [discriminate|].
           injection E as <-. auto.
        -- intros [-> _]. right. left. reflexivity.
Qed.

End IlpFacts.

Lemma ilp_constraint_structure_witness :
  let trip_list := Examples.scenario2_trip_list in
  let requests := [Examples.sharer1; Examples.sharer2] in
  let rows := Examples.scenario2_rows in
  List.length rows = (List.length trip_list + List.length requests)%nat
  /\ (forall j vehicle trips,
        nth_error trip_list j = Some (vehicle, trips) ->
        let first := List.length (all_trips (firstn j trip_list)) in
        (forall i, (i < List.length trips)%nat ->
           nth_error (all_trips trip_list) (first + i) = nth_error trips i)
        /\ exists row,
             nth_error rows j = Some row
             /\ c_vars row = map e_var (seq first (List.length trips))
             /\ c_sense row = (if String.eqb (ALGORITHM Examples.defaults) "ILP_FULL"
                               then sense_eq else sense_le)
             /\ c_rhs row = 1)
  /\ (forall k request,
        nth_error requests k = Some request ->
        exists row,
          nth_error rows (List.length trip_list + k) = Some row
          /\ c_sense row = sense_eq /\ c_rhs row = 1
          /\ NoDup (c_vars row)
          /\ (forall i, In (e_var i) (c_vars row) <->
                exists trip, nth_error (all_trips trip_list) i = Some trip
                             /\ In (r_id request) (map r_id (t_requests trip)))
          /\ (forall k', In (x_var k') (c_vars row) <->
                k' = k /\ r_assigned request = false)).
Proof.
  apply (ilp_constraint_structure Examples.defaults Examples.scenario2_trip_list
           [Examples.sharer1; Examples.sharer2] Examples.scenario2_rows).
  vm_compute. reflexivity.
Defined.

(** ** Exactness of the search *)

Section Exactness.

Variable glo : Glo.
Variable network : Network.
Variable unlocks_id : MetaNodeStop -> Z.

(** The nodes between which the travel times are known to form a metric. *)
Variable node : Z -> Prop.

Hypothesis Hmetric :
  forall a b c, node a -> node b -> node c ->
    0 <= get_time network a b
    /\ get_time network a a = 0
    /\ get_time network a c <= get_time network a b + get_time network b c.
Hypothesis Hdwell : nonneg_dwell glo.

Notation nodes_ok := (Forall (fun ns => node (ns_node ns))).

Notation arrive := (arrival glo network).
Notation ok := (route_ok glo network).
Notation finish := (route_end glo network).
Notation times := (arrival_times glo network).
Notation search := (recursive_search glo network unlocks_id).
Notation loop := (search_loop glo network).
Notation complete_result := (complete_result glo network).

Lemma dwell_before_nonneg prev loc ns : 0 <= dwell_before glo prev loc ns.
Proof.
  destruct Hdwell. unfold dwell_before. destruct prev; try lia;
    match goal with |- context [if ?b then _ else _] => destruct b end; lia.
Qed.

Lemma arrival_lower prev loc now ns :
  node loc -> node (ns_node ns) ->
  now + get_time network loc (ns_node ns) <= arrive prev loc now ns.
Proof.
  intros Hl Hn. unfold arrival.
  pose proof (dwell_before_nonneg prev loc ns).
  match goal with |- context [if ?b then _ else _] => destruct b eqn:E end;
    zbool; lia.
Qed.

Lemma arrival_after prev loc now ns :
  node loc -> node (ns_node ns) -> now <= arrive prev loc now ns.
Proof.
  intros Hl Hn. pose proof (arrival_lower prev loc now ns Hl Hn).
  destruct (Hmetric loc (ns_node ns) loc Hl Hn Hl) as (H0 & _). lia.
Qed.

Lemma arrival_mono prev loc now now' ns :
  now <= now' -> arrive prev loc now ns <= arrive prev loc now' ns.
Proof.
  intros H. unfold arrival.
  repeat match goal with |- context [if ?b then _ else _] => destruct b eqn:? end;
    zcases; try lia; congruence.
Qed.

Lemma route_mono order :
  forall prev loc cap cap' now now',
    now <= now' -> cap' <= cap ->
    ok prev loc cap' now' order = true ->
    ok prev loc cap now order = true
    /\ finish prev loc now order <= finish prev loc now' order.
Proof.
  induction order as [|ns rest IH]; intros prev loc cap cap' now now' Hn Hc H;
    simpl in *; [split; [reflexivity|exact Hn]|].
  pose proof (arrival_mono prev loc now now' ns Hn) as Ha.
  zbool.
  match goal with H : route_ok _ _ _ _ _ _ rest = true |- _ =>
    eapply (IH _ _ (if ns_is_pickup ns then cap - 1 else cap + 1)) in H;
      [destruct H as [Hok Hend]|exact Ha|destruct (ns_is_pickup ns); lia] end.
  split; [|exact Hend].
  rewrite Hok, andb_true_r, !andb_true_iff. repeat split.
  - apply Z.leb_le. destruct (ns_is_pickup ns); lia.
  - destruct (ns_is_pickup ns); simpl in *; [|reflexivity].
    zbool. apply Z.leb_le. lia.
  - apply Z.leb_le. lia.
Qed.

Lemma route_end_after order :
  nodes_ok order ->
  forall prev loc now, node loc -> now <= finish prev loc now order.
Proof.
  induction 1 as [|ns rest Hns Hrest IH]; intros prev loc now Hl; simpl; [lia|].
  eapply Z.le_trans; [apply (arrival_after prev loc now ns Hl Hns)|].
  apply IH. exact Hns.
Qed.

(** Two dropoffs at the same node are reached at the same time. *)
Lemma arrival_same_dropoff prev loc now d1 d2 :
  ns_is_pickup d1 = false -> ns_is_pickup d2 = false ->
  ns_node d1 = ns_node d2 ->
  arrive prev loc now d1 = arrive prev loc now d2.
Proof.
  intros H1 H2 Hn. unfold arrival, dwell_before.
  rewrite H1, H2, Hn. reflexivity.
Qed.

(** A dropoff right after a dropoff at the same node takes no time. *)
Lemma arrival_second_dropoff now d1 d2 :
  ns_is_pickup d2 = false -> ns_node d1 = ns_node d2 -> node (ns_node d1) ->
  arrive DROPOFF (ns_node d1) now d2 = now.
Proof.
  intros H2 Hn Hv. unfold arrival, dwell_before.
  rewrite H2, <- Hn, Z.eqb_refl. simpl.
  destruct (Hmetric _ _ _ Hv Hv Hv) as (_ & -> & _). lia.
Qed.

(** Going to [b] directly is not slower than going through a dropoff. *)
Lemma arrival_through_dropoff prev loc now d b :
  ns_is_pickup d = false ->
  node loc -> node (ns_node d) -> node (ns_node b) ->
  arrive prev loc now b
  <= arrive DROPOFF (ns_node d) (arrive prev loc now d) b.
Proof.
  intros Hd Hl Hnd Hnb. destruct Hdwell as [HA HP].
  destruct (Hmetric loc (ns_node d) (ns_node b) Hl Hnd Hnb) as (_ & _ & Htri).
  pose proof (arrival_lower prev loc now d Hl Hnd) as Hlow.
  assert (Hdw : dwell_before glo prev loc b
                <= (arrive prev loc now d - now - get_time network loc (ns_node d))
                   + dwell_before glo DROPOFF (ns_node d) b).
  { unfold arrival. rewrite Hd. simpl.
    unfold dwell_before. rewrite Hd. simpl.
    destruct prev; simpl.
    - destruct (negb (ns_is_pickup b) || negb (loc =? ns_node b));
        destruct (ns_is_pickup b || negb (ns_node d =? ns_node b)); lia.
    - destruct (ns_is_pickup b) eqn:Hb; simpl.
      + destruct (negb (loc =? ns_node d)); lia.
      + destruct (loc =? ns_node b) eqn:E1, (loc =? ns_node d) eqn:E2,
          (ns_node d =? ns_node b) eqn:E3; simpl; zbool; lia.
    - destruct (ns_is_pickup b || negb (ns_node d =? ns_node b)); lia. }
  remember (arrive prev loc now d) as ad eqn:Had. clear Had.
  unfold arrival.
  repeat match goal with |- context [if ?b then _ else _] => destruct b eqn:? end;
    zcases; try lia; congruence.
Qed.

(** Leaving out the first stop, a dropoff, keeps the route valid and does
    not delay its end. *)
Lemma skip_head prev loc cap now d rest :
  ns_is_pickup d = false ->
  node loc -> nodes_ok (d :: rest) ->
  ok prev loc cap now (d :: rest) = true ->
  ok prev loc (cap + 1) now rest = true
  /\ finish prev loc now rest <= finish prev loc now (d :: rest).
Proof.
  intros Hd Hl Hv H. inversion Hv as [|? ? Hnd Hrest]; subst.
  assert (Hact : action_of d = DROPOFF)
    by (unfold action_of; rewrite Hd; reflexivity).
  destruct rest as [|b rest'].
  - simpl. split; [reflexivity|]. apply arrival_after; assumption.
  - inversion Hrest as [|? ? Hnb Hrest']; subst.
    pose proof (arrival_through_dropoff prev loc now d b Hd Hl Hnd Hnb) as Hle.
    cbn [route_ok route_end] in *. rewrite Hd, Hact in H.
    apply andb_true_iff in H. destruct H as [_ H].
    apply andb_true_iff in H. destruct H as [H Hok].
    eapply route_mono in Hok; [destruct Hok as [Hok Hend]|exact Hle|apply Z.le_refl].
    rewrite Hact. split; [|exact Hend].
    rewrite Hok, andb_true_r. zbool.
    rewrite !andb_true_iff. repeat split.
    + apply Z.leb_le. lia.
    + destruct (ns_is_pickup b); simpl in *; [|reflexivity].
      zbool. apply Z.leb_le. lia.
    + apply Z.leb_le. lia.
Qed.

(** The same for a dropoff anywhere in the route. *)
Lemma skip_dropoff d rest front :
  ns_is_pickup d = false ->
  forall prev loc cap now,
    node loc -> nodes_ok (front ++ d :: rest) ->
    ok prev loc cap now (front ++ d :: rest) = true ->
    ok prev loc (cap + 1) now (front ++ rest) = true
    /\ finish prev loc now (front ++ rest)
       <= finish prev loc now (front ++ d :: rest).
Proof.
  intros Hd. induction front as [|a front IH]; intros prev loc cap now Hl Hv H.
  - apply skip_head; assumption.
  - simpl in *. inversion Hv as [|? ? Hna Hv']; subst. zbool.
    match goal with H : route_ok _ _ _ _ _ _ (front ++ d :: rest) = true |- _ =>
      apply IH in H; [destruct H as [Hok Hend]|exact Hna|exact Hv'] end.
    split; [|exact Hend].
    replace (if ns_is_pickup a then cap + 1 - 1 else cap + 1 + 1)
      with ((if ns_is_pickup a then cap - 1 else cap + 1) + 1)
      by (destruct (ns_is_pickup a); lia).
    rewrite Hok, andb_true_r, !andb_true_iff. repeat split; try assumption.
    + apply Z.leb_le. destruct (ns_is_pickup a); lia.
    + apply Z.leb_le. lia.
Qed.

(** A stop of a valid route has its alighting deadline after the start. *)
Lemma deadline_after_start order :
  forall prev loc cap now x,
    node loc -> nodes_ok order ->
    ok prev loc cap now order = true -> In x order ->
    now <= r_latest_alighting (ns_r x).
Proof.
  induction order as [|ns rest IH]; intros prev loc cap now x Hl Hv H Hin;
    [destruct Hin|].
  inversion Hv as [|? ? Hns Hrest]; subst. cbn [route_ok] in H. zbool.
  pose proof (arrival_after prev loc now ns Hl Hns).
  destruct Hin as [->|Hin]; [lia|].
  match goal with H : route_ok _ _ _ _ _ _ rest = true |- _ =>
    pose proof (IH _ _ _ _ x Hns Hrest H Hin) end.
  lia.
Qed.

(** Of two dropoffs at the same node, the one visited later can be moved
    to the front: the route stays valid and does not end later. *)
Lemma exchange_dropoffs prev loc cap now dm dp front rest :
  ns_is_pickup dm = false -> ns_is_pickup dp = false ->
  ns_node dm = ns_node dp ->
  node loc -> nodes_ok (dm :: front ++ dp :: rest) ->
  ok prev loc cap now (dm :: front ++ dp :: rest) = true ->
  ok prev loc cap now (dp :: dm :: front ++ rest) = true
  /\ finish prev loc now (dp :: dm :: front ++ rest)
     <= finish prev loc now (dm :: front ++ dp :: rest).
Proof.
  intros Hm Hp Hn Hl Hv H. inversion Hv as [|? ? Hnm Hv']; subst.
  assert (Hactm : action_of dm = DROPOFF)
    by (unfold action_of; rewrite Hm; reflexivity).
  assert (Hactp : action_of dp = DROPOFF)
    by (unfold action_of; rewrite Hp; reflexivity).
  pose proof (arrival_same_dropoff prev loc now dm dp Hm Hp Hn) as Hsame.
  cbn [route_ok route_end] in *. rewrite Hm, Hactm in H. rewrite Hp, Hm, Hactp, Hactm.
  rewrite <- Hsame.
  assert (Hnp : node (ns_node dp)) by (rewrite <- Hn; exact Hnm).
  rewrite (arrival_second_dropoff (arrive prev loc now dm) dp dm Hm (eq_sym Hn) Hnp).
  apply andb_true_iff in H. destruct H as [H Hok]. zbool.
  pose proof (deadline_after_start _ _ _ _ _ dp Hnm Hv' Hok
                (in_elt dp front rest)) as Hdp.
  apply (skip_dropoff dp rest front Hp) in Hok; [|exact Hnm|exact Hv'].
  destruct Hok as [Hok Hend]. split; [|exact Hend].
  rewrite Hok. simpl.
  rewrite !andb_true_iff. repeat split; apply Z.leb_le; lia.
Qed.

(** *** Taking an available stop out of a linearisation *)

Lemma perm_cons_cases {A : Type} (a b : A) (l1 l2 : list A) :
  Permutation (a :: l1) (b :: l2) ->
  (a = b /\ Permutation l1 l2)
  \/ exists l, Permutation l1 (b :: l) /\ Permutation l2 (a :: l).
Proof.
  intros HP.
  assert (Hin : In b (a :: l1)).
  { apply (Permutation_in b (Permutation_sym HP)). left. reflexivity. }
  destruct Hin as [->|Hin].
  - left. split; [reflexivity|]. eapply Permutation_cons_inv, HP.
  - right. apply in_split in Hin. destruct Hin as (x & y & ->).
    exists (x ++ y). split; [apply Permutation_sym, Permutation_middle|].
    apply Permutation_sym. apply Permutation_cons_inv with (a := b).
    eapply perm_trans; [|exact HP].
    eapply perm_trans; [apply perm_swap|].
    apply perm_skip, Permutation_middle.
Qed.

Lemma Lin_extract (F : list MetaNodeStop) (order : list NodeStop) :
  Lin F order ->
  forall d F', Permutation F (d :: F') ->
    exists front rest,
      order = front ++ m_node d :: rest
      /\ Lin (F' ++ m_unlocks d) (front ++ rest).
Proof.
  induction 1 as [|F G m rest HF HL IH]; intros d F' HP.
  - apply Permutation_nil in HP. discriminate.
  - assert (HP' : Permutation (m :: G) (d :: F')).
    { eapply perm_trans; [apply Permutation_sym, HF|exact HP]. }
    apply perm_cons_cases in HP'. destruct HP' as [[-> HG]|(l & HG & HF')].
    + exists [], rest. split; [reflexivity|].
      eapply Lin_permutation; [|exact HL].
      apply Permutation_app_tail, HG.
    + destruct (IH d (l ++ m_unlocks m)) as (front & rest' & -> & HL').
      { apply (Permutation_app_tail (m_unlocks m)) in HG. exact HG. }
      exists (m_node m :: front), rest'. split; [reflexivity|].
      simpl. apply Lin_cons with (F' := l ++ m_unlocks d).
      * apply (Permutation_app_tail (m_unlocks d)) in HF'. exact HF'.
      * eapply Lin_permutation; [|exact HL'].
        rewrite <- !app_assoc. apply Permutation_app_head, Permutation_app_comm.
Qed.

(** *** The reachability test *)

Lemma arrival_time_lower order :
  forall prev loc now x a,
    node loc -> nodes_ok order ->
    In (x, a) (combine order (times prev loc now order)) ->
    now + get_time network loc (ns_node x) <= a.
Proof.
  induction order as [|ns rest IH]; intros prev loc now x a Hl Hv Hin;
    [destruct Hin|].
  inversion Hv as [|? ? Hns Hrest]; subst. simpl in Hin.
  pose proof (arrival_lower prev loc now ns Hl Hns) as Hlow.
  destruct Hin as [E|Hin].
  - injection E as <- <-. exact Hlow.
  - pose proof (IH _ _ _ _ _ Hns Hrest Hin) as Hx.
    assert (Hnx : node (ns_node x)).
    { apply in_combine_l in Hin. rewrite Forall_forall in Hrest.
      apply Hrest, Hin. }
    destruct (Hmetric loc (ns_node ns) (ns_node x) Hl Hns Hnx) as (_ & _ & Htri).
    lia.
Qed.

Lemma arrival_time_deadline order :
  forall prev loc cap now x a,
    ok prev loc cap now order = true ->
    In (x, a) (combine order (times prev loc now order)) ->
    a <= deadline x.
Proof.
  induction order as [|ns rest IH]; intros prev loc cap now x a H Hin;
    [destruct Hin|].
  cbn [route_ok] in H. simpl in Hin. zbool.
  destruct Hin as [E|Hin]; [|eauto].
  injection E as <- <-. unfold deadline.
  destruct (ns_is_pickup ns); simpl in *; [zbool|]; lia.
Qed.

Lemma arrival_time_exists order :
  forall prev loc now x,
    In x order -> exists a, In (x, a) (combine order (times prev loc now order)).
Proof.
  induction order as [|ns rest IH]; intros prev loc now x Hin; [destruct Hin|].
  simpl. destruct Hin as [->|Hin].
  - eexists. left. reflexivity.
  - destruct (IH (action_of ns) (ns_node ns) (arrive prev loc now ns) x Hin)
      as (a & Ha).
    exists a. right. exact Ha.
Qed.

(** A valid route through all remaining stops passes the reachability
    test of the search. *)
Lemma reachability_sound prev loc cap now remaining rest :
  node loc -> nodes_ok rest ->
  Lin remaining rest ->
  ok prev loc cap now rest = true ->
  basic_reachability network now loc remaining = true.
Proof.
  intros Hl Hv HL Hok. unfold basic_reachability. apply forallb_forall.
  intros x Hx. apply Z.leb_le.
  pose proof (Lin_visits _ _ _ HL Hx) as Hin.
  destruct (arrival_time_exists rest prev loc now _ Hin) as (a & Ha).
  pose proof (arrival_time_lower _ _ _ _ _ _ Hl Hv Ha).
  pose proof (arrival_time_deadline _ _ _ _ _ _ _ Hok Ha).
  lia.
Qed.

(** *** The order of iteration *)

Lemma meta_lt_true_le (x y : MetaNodeStop) :
  meta_lt unlocks_id x y = true -> meta_le x y.
Proof.
  unfold meta_lt, meta_le, stop_le.
  destruct (ns_node (m_node x) <? ns_node (m_node y)) eqn:E1; zbool; [auto|].
  destruct (ns_node (m_node x) >? ns_node (m_node y)) eqn:E2; zbool;
    [discriminate|].
  intros H. right. split; [lia|].
  destruct (ns_is_pickup (m_node x)), (ns_is_pickup (m_node y));
    simpl in *; auto; discriminate.
Qed.

Lemma meta_lt_false_le (x y : MetaNodeStop) :
  meta_lt unlocks_id x y = false -> meta_le y x.
Proof.
  unfold meta_lt, meta_le, stop_le.
  destruct (ns_node (m_node x) <? ns_node (m_node y)) eqn:E1; zbool;
    [discriminate|].
  destruct (ns_node (m_node x) >? ns_node (m_node y)) eqn:E2; zbool; [auto|].
  intros H. right. split; [lia|].
  destruct (ns_is_pickup (m_node x)), (ns_is_pickup (m_node y));
    simpl in *; auto; discriminate.
Qed.

Lemma meta_le_trans (x y z : MetaNodeStop) :
  meta_le x y -> meta_le y z -> meta_le x z.
Proof.
  unfold meta_le, stop_le. intros [H1|[H1 H1']] [H2|[H2 H2']];
    [left; lia|left; lia|left; lia|right; split; [lia|auto]].
Qed.

Lemma sorted_insert_In (x y : MetaNodeStop) (l : list MetaNodeStop) :
  In y (sorted_insert unlocks_id x l) -> y = x \/ In y l.
Proof.
  intros H. apply (Permutation_in _ (sorted_insert_perm unlocks_id x l)) in H.
  destruct H; auto.
Qed.

Lemma sorted_insert_sorted (x : MetaNodeStop) (l : list MetaNodeStop) :
  StronglySorted meta_le l ->
  StronglySorted meta_le (sorted_insert unlocks_id x l).
Proof.
  induction 1 as [|y l Hl IH Hy]; simpl; [repeat constructor|].
  destruct (meta_lt unlocks_id y x) eqn:E.
  - apply meta_lt_true_le in E. constructor; [exact IH|].
    rewrite Forall_forall in *. intros z Hz.
    apply sorted_insert_In in Hz. destruct Hz as [->|Hz]; auto.
  - apply meta_lt_false_le in E. constructor; [constructor; assumption|].
    constructor; [exact E|].
    rewrite Forall_forall in *. intros z Hz.
    eapply meta_le_trans; [exact E|auto].
Qed.

Lemma sorted_sorted (l : list MetaNodeStop) :
  StronglySorted meta_le (sorted unlocks_id l).
Proof.
  induction l as [|x l IH]; simpl; [constructor|].
  apply sorted_insert_sorted, IH.
Qed.

Lemma sorted_before {A : Type} (R : A -> A -> Prop) (visited todo : list A)
    (m p : A) :
  StronglySorted R (visited ++ m :: todo) -> In p visited -> R p m.
Proof.
  induction visited as [|v visited IH]; intros HS Hin; [destruct Hin|].
  simpl in HS. inversion HS as [|? ? Hrest Hall]; subst.
  destruct Hin as [->|Hin]; [|auto].
  rewrite Forall_forall in Hall. apply Hall, in_elt.
Qed.

(** *** Completeness of the search *)

Lemma ok_cons prev loc cap now ns rest :
  ok prev loc cap now (ns :: rest) = true ->
  0 <= (if ns_is_pickup ns then cap - 1 else cap + 1)
  /\ (ns_is_pickup ns = true ->
      arrive prev loc now ns <= r_latest_boarding (ns_r ns))
  /\ arrive prev loc now ns <= r_latest_alighting (ns_r ns)
  /\ ok (action_of ns) (ns_node ns)
       (if ns_is_pickup ns then cap - 1 else cap + 1)
       (arrive prev loc now ns) rest = true.
Proof.
  cbn [route_ok]. intros H. zbool. repeat split; try assumption.
  intros Hp. match goal with H : negb _ || _ = true |- _ =>
    rewrite Hp in H; simpl in H; apply Z.leb_le in H; exact H end.
Qed.

Lemma nodes_ok_Lin (F : list MetaNodeStop) (order : list NodeStop) :
  nodes_ok (forest_stops F) -> Lin F order -> nodes_ok order.
Proof.
  intros Hv HL.
  eapply Permutation_Forall; [apply Permutation_sym, Lin_stops, HL|exact Hv].
Qed.

Lemma covers_improve (best best' e : Z) :
  covers best e -> best' <> -1 -> best' <= best -> covers best' e.
Proof. unfold covers. intros [H1 H2] H3 H4. split; [exact H3|lia]. Qed.


Lemma starts_with_Lin F m rest :
  starts_with F m rest -> Lin F (m_node m :: rest).
Proof. intros (F' & HP & HL). econstructor; eassumption. Qed.

Lemma starts_with_remaining visited todo m rest F :
  Permutation F (visited ++ m :: todo) ->
  starts_with F m rest ->
  Lin (visited ++ todo ++ m_unlocks m) rest.
Proof.
  intros HP (F' & HF & HL). eapply Lin_permutation; [|exact HL].
  rewrite app_assoc. apply Permutation_app_tail.
  apply Permutation_cons_inv with (a := m).
  eapply perm_trans; [apply Permutation_sym, HF|].
  eapply perm_trans; [exact HP|].
  apply Permutation_sym, Permutation_middle.
Qed.

(** The exchange behind the test of line 114: a valid route that starts
    with a dropoff [m] can start instead with a dropoff [p] at the same
    node that is available too, and does not end later. *)
Lemma exchange_start prev loc cap now F m p rest :
  node loc -> nodes_ok (forest_stops F) ->
  ns_is_pickup (m_node m) = false -> ns_is_pickup (m_node p) = false ->
  ns_node (m_node p) = ns_node (m_node m) ->
  (exists l1 l2, F = l1 ++ p :: l2 /\ In m l2) ->
  starts_with F m rest ->
  ok prev loc cap now (m_node m :: rest) = true ->
  exists rest',
    starts_with F p rest'
    /\ ok prev loc cap now (m_node p :: rest') = true
    /\ finish prev loc now (m_node p :: rest')
       <= finish prev loc now (m_node m :: rest).
Proof.
  intros Hl Hv Hm Hp Hn (l1 & l2 & -> & Hin) Hstart Hok.
  pose proof (nodes_ok_Lin _ _ Hv (starts_with_Lin _ _ _ Hstart)) as Hvo.
  destruct Hstart as (F' & HF & HL).
  apply in_split in Hin. destruct Hin as (l3 & l4 & ->).
  set (G := l1 ++ l3 ++ l4).
  assert (HF' : Permutation F' (p :: G)).
  { apply Permutation_cons_inv with (a := m).
    eapply perm_trans; [apply Permutation_sym, HF|].
    unfold G.
    eapply perm_trans; [apply Permutation_sym, Permutation_middle|].
    eapply perm_trans; [|apply perm_swap]. apply perm_skip.
    rewrite !app_assoc. apply Permutation_sym, Permutation_middle. }
  destruct (Lin_extract _ _ HL p (G ++ m_unlocks m)) as (front & back & -> & HL').
  { apply (Permutation_app_tail (m_unlocks m)) in HF'. exact HF'. }
  destruct (exchange_dropoffs prev loc cap now (m_node m) (m_node p) front back
              Hm Hp (eq_sym Hn) Hl Hvo Hok) as [Hok' Hend].
  exists (m_node m :: front ++ back). split; [|split; assumption].
  exists (m :: G). split.
  - eapply perm_trans; [exact HF|].
    eapply perm_trans; [apply perm_skip, HF'|apply perm_swap].
  - apply Lin_cons with (F' := G ++ m_unlocks p); [apply Permutation_refl|].
    eapply Lin_permutation; [|exact HL'].
    rewrite <- !app_assoc. apply Permutation_app_head, Permutation_app_comm.
Qed.


Lemma search_loop_complete
    (rec : Z -> Z -> list MetaNodeStop -> Z -> Z -> Action
           -> option (Z * list NodeStop))
    (prev : Action) (loc cap now : Z) (F : list MetaNodeStop) :
  node loc -> 0 <= now -> nodes_ok (forest_stops F) ->
  (forall loc' cap' F' now' best' prev' res,
      rec loc' cap' F' now' best' prev' = Some res ->
      node loc' -> 0 <= now' -> nodes_ok (forest_stops F') ->
      complete_result prev' loc' cap' F' now' res) ->
  forall todo visited previous best_time best_tail res,
    F = visited ++ todo ->
    StronglySorted meta_le F ->
    (forall p, previous = Some p -> In p visited) ->
    (forall m rest, In m visited -> starts_with F m rest ->
        ok prev loc cap now (m_node m :: rest) = true ->
        covers best_time (finish prev loc now (m_node m :: rest))) ->
    loop rec loc cap now prev visited todo previous best_time best_tail
      = Some res ->
    forall m rest, In m F -> starts_with F m rest ->
      ok prev loc cap now (m_node m :: rest) = true ->
      covers (fst res) (finish prev loc now (m_node m :: rest)).
Proof.
  intros Hl Hnow Hv Hrec.
  induction todo as [|m todo IH];
    intros visited previous best_time best_tail res HF HS Hprev Hcov Hrun.
  - simpl in Hrun. injection Hrun as <-. rewrite app_nil_r in HF. subst F.
    exact Hcov.
  - assert (HF' : F = (visited ++ [m]) ++ todo)
      by (rewrite <- app_assoc; exact HF).
    assert (HP : Permutation F (visited ++ m :: todo))
      by (rewrite HF; apply Permutation_refl).
    assert (Hm_node : node (ns_node (m_node m))).
    { rewrite Forall_forall in Hv. apply Hv.
      rewrite HF, forest_stops_app, forest_stops_cons.
      apply in_or_app. right. left. reflexivity. }
    (* how the loop goes on, once the routes that start with [m] are
       covered by the time kept *)
    assert (Hnext : forall previous' bt bl,
      (forall p, previous' = Some p -> In p (visited ++ [m])) ->
      (bt = best_time \/ (bt <> -1 /\ (best_time = -1 \/ bt <= best_time))) ->
      (forall rest, starts_with F m rest ->
         ok prev loc cap now (m_node m :: rest) = true ->
         covers bt (finish prev loc now (m_node m :: rest))) ->
      loop rec loc cap now prev (visited ++ [m]) todo previous' bt bl = Some res ->
      forall m0 rest, In m0 F -> starts_with F m0 rest ->
        ok prev loc cap now (m_node m0 :: rest) = true ->
        covers (fst res) (finish prev loc now (m_node m0 :: rest))).
    { intros previous' bt bl Hp' Hbt Hmcov Hrun'.
      apply (IH (visited ++ [m]) previous' bt bl res HF' HS Hp'); [|exact Hrun'].
      intros m0 rest Hin Hst Hok.
      apply in_app_or in Hin. destruct Hin as [Hin|[<-|[]]].
      - pose proof (Hcov m0 rest Hin Hst Hok) as Hc.
        destruct Hbt as [->|[Hne Hle]]; [exact Hc|].
        apply (covers_improve best_time); [exact Hc|exact Hne|].
        destruct Hc as [Hc _]. destruct Hle; [contradiction|assumption].
      - apply Hmcov; assumption. }
    assert (Hlast : forall p, Some m = Some p -> In p (visited ++ [m])).
    { intros p E. injection E as <-. apply in_or_app. right. left. reflexivity. }
    cbn [search_loop] in Hrun.
    destruct (same_node_duplicate previous m) eqn:Hdup.
    { (* the stop is passed over *)
      destruct previous as [p|]; [|discriminate]. simpl in Hdup. zbool.
      pose proof (Hprev p eq_refl) as Hpin.
      apply (Hnext (Some p) best_time best_tail); [|left; reflexivity| |exact Hrun].
      - intros q E. injection E as <-. apply in_or_app. left. exact Hpin.
      - intros rest Hst Hok.
        assert (Hple : meta_le p m).
        { apply (sorted_before meta_le visited todo m p); [|exact Hpin].
          rewrite <- HF. exact HS. }
        assert (Hpd : ns_is_pickup (m_node p) = false).
        { destruct Hple as [Hlt|[_ Himp]]; [lia|].
          destruct (ns_is_pickup (m_node p)); [|reflexivity].
          match goal with H : ns_is_pickup (m_node m) = false |- _ =>
            rewrite Himp in H by reflexivity; discriminate end. }
        destruct (exchange_start prev loc cap now F m p rest Hl Hv)
          as (rest' & Hst' & Hok' & Hend); try assumption.
        { apply in_split in Hpin. destruct Hpin as (l1 & l2 & ->).
          exists l1, (l2 ++ m :: todo). split.
          - rewrite HF, <- app_assoc. reflexivity.
          - apply in_elt. }
        pose proof (Hcov p rest' Hpin Hst' Hok') as [Hc1 Hc2].
        split; [exact Hc1|lia]. }
    set (a := arrive prev loc now (m_node m)) in *.
    destruct (negb (best_time =? -1) && (a >=? best_time)) eqn:Hbound.
    { (* the bound *)
      apply (Hnext (Some m) best_time best_tail Hlast); [left; reflexivity| |exact Hrun].
      intros rest Hst Hok. zbool. split; [assumption|].
      pose proof (nodes_ok_Lin _ _ Hv (starts_with_Lin _ _ _ Hst)) as Hvo.
      inversion Hvo as [|? ? _ Hvr]; subst.
      cbn [route_end]. fold a.
      pose proof (route_end_after rest Hvr (action_of (m_node m))
                    (ns_node (m_node m)) a Hm_node).
      lia. }
    set (c := if ns_is_pickup (m_node m) then cap - 1 else cap + 1) in *.
    destruct (c <? 0) eqn:Hc.
    { apply (Hnext (Some m) best_time best_tail Hlast); [left; reflexivity| |exact Hrun].
      intros rest Hst Hok. apply ok_cons in Hok. fold c in Hok. zbool. lia. }
    destruct (ns_is_pickup (m_node m) && (a >? r_latest_boarding (ns_r (m_node m))))
      eqn:Hb.
    { apply (Hnext (Some m) best_time best_tail Hlast); [left; reflexivity| |exact Hrun].
      intros rest Hst Hok. apply ok_cons in Hok. fold a in Hok. zbool.
      destruct Hok as (_ & Hlb & _). specialize (Hlb ltac:(assumption)). lia. }
    destruct (get_alight_deadline (ns_r (m_node m)) <? a) eqn:Ha.
    { apply (Hnext (Some m) best_time best_tail Hlast); [left; reflexivity| |exact Hrun].
      intros rest Hst Hok. apply ok_cons in Hok. fold a in Hok.
      unfold get_alight_deadline in Ha. zbool. lia. }
    assert (Hrem : forall rest, starts_with F m rest ->
              ok prev loc cap now (m_node m :: rest) = true ->
              Lin (visited ++ todo ++ m_unlocks m) rest
              /\ ok (action_of (m_node m)) (ns_node (m_node m)) c a rest = true
              /\ nodes_ok rest).
    { intros rest Hst Hok. split; [|split].
      - eapply starts_with_remaining; eassumption.
      - apply ok_cons in Hok. tauto.
      - pose proof (nodes_ok_Lin _ _ Hv (starts_with_Lin _ _ _ Hst)) as Hvo.
        inversion Hvo; assumption. }
    destruct (negb (basic_reachability network a (ns_node (m_node m))
                      (visited ++ todo ++ m_unlocks m))) eqn:Hreach.
    { apply (Hnext (Some m) best_time best_tail Hlast); [left; reflexivity| |exact Hrun].
      intros rest Hst Hok. destruct (Hrem rest Hst Hok) as (HL & Hok' & Hvr).
      apply negb_true_iff in Hreach.
      rewrite (reachability_sound _ _ _ _ _ _ Hm_node Hvr HL Hok') in Hreach.
      discriminate. }
    destruct (rec (ns_node (m_node m)) c (visited ++ todo ++ m_unlocks m) a
                best_time (action_of (m_node m)))
      as [[tail_time tail_stops]|] eqn:Hr; [|discriminate].
    assert (Htail : forall rest, starts_with F m rest ->
              ok prev loc cap now (m_node m :: rest) = true ->
              covers tail_time (finish prev loc now (m_node m :: rest))).
    { intros rest Hst Hok. destruct (Hrem rest Hst Hok) as (HL & Hok' & Hvr).
      apply Hrec in Hr; [exact (Hr rest HL Hok')|exact Hm_node| |].
      - pose proof (arrival_after prev loc now (m_node m) Hl Hm_node).
        fold a in H. lia.
      - rewrite HF in Hv.
        rewrite !forest_stops_app, forest_stops_cons in Hv.
        rewrite !forest_stops_app.
        apply Forall_app in Hv. destruct Hv as [Hv1 Hv2].
        inversion Hv2 as [|? ? _ Hv3]; subst.
        apply Forall_app in Hv3. destruct Hv3 as [Hv3 Hv4].
        apply Forall_app. split; [exact Hv1|].
        apply Forall_app. split; assumption. }
    destruct (tail_time =? -1) eqn:Hm1.
    { apply (Hnext (Some m) best_time best_tail Hlast); [left; reflexivity| |exact Hrun].
      intros rest Hst Hok. zbool. destruct (Htail rest Hst Hok). contradiction. }
    destruct ((best_time =? -1) || (tail_time <? best_time)) eqn:Hup.
    { apply (Hnext (Some m) tail_time (tail_stops ++ [m_node m]) Hlast);
        [|exact Htail|exact Hrun].
      right. apply Z.eqb_neq in Hm1. split; [exact Hm1|].
      apply orb_true_iff in Hup. destruct Hup as [Hup|Hup]; zbool;
        [left; assumption|right; lia]. }
    { apply (Hnext (Some m) best_time best_tail Hlast); [left; reflexivity| |exact Hrun].
      intros rest Hst Hok. destruct (Htail rest Hst Hok) as [_ Hle].
      zbool. split; [assumption|lia]. }
Qed.

Lemma Lin_nil_inv (order : list NodeStop) : Lin [] order -> order = [].
Proof.
  inversion 1 as [|F F' m rest HP HL]; [reflexivity|].
  apply Permutation_nil in HP. discriminate.
Qed.

Lemma recursive_search_complete (fuel : nat) :
  forall loc cap F now best prev res,
    search fuel loc cap F now best prev = Some res ->
    node loc -> 0 <= now -> nodes_ok (forest_stops F) ->
    complete_result prev loc cap F now res.
Proof.
  induction fuel as [|fuel IH]; intros loc cap F now best prev res Hrun Hl Hn Hv;
    [discriminate|].
  rewrite recursive_search_S in Hrun.
  pose proof (sorted_perm unlocks_id F) as HP.
  pose proof (sorted_sorted F) as HS.
  intros order HL Hok.
  apply (Lin_permutation _ _ _ (Permutation_sym HP)) in HL.
  assert (Hv' : nodes_ok (forest_stops (sorted unlocks_id F))).
  { eapply Permutation_Forall; [apply Permutation_sym, forest_stops_perm, HP|].
    exact Hv. }
  destruct (sorted unlocks_id F) as [|m l] eqn:Hs.
  - injection Hrun as <-. apply Lin_nil_inv in HL. subst order.
    simpl. split; lia.
  - inversion HL as [|F0 F' m0 rest HF HL' E1 E2]; subst.
    refine (search_loop_complete (search fuel) prev loc cap now (m :: l)
              Hl Hn Hv' IH (m :: l) [] None best [] res eq_refl HS _ _ Hrun
              m0 rest _ _ Hok).
    + discriminate.
    + intros ? ? [].
    + apply (Permutation_in m0 (Permutation_sym HF)). left. reflexivity.
    + exists F'. split; assumption.
Qed.

End Exactness.

(** *** Feasible orders are the linearisations of the unlocked stop graph *)

Section FeasibleOrders.

Lemma forest_stops_request_metas (requests : list Request) :
  forest_stops (map request_meta requests)
  = flat_map (fun r => [pickup_stop r; dropoff_stop r]) requests.
Proof.
  induction requests as [|r l IH]; [reflexivity|].
  unfold forest_stops in *. simpl. rewrite IH. reflexivity.
Qed.

Lemma free_stops_app (l1 l2 : list NodeStop) :
  free_stops (l1 ++ l2) = free_stops l1 ++ free_stops l2.
Proof. apply map_app. Qed.

Lemma before_tail (x a b : NodeStop) (rest l1 l2 l3 : list NodeStop) :
  x :: rest = l1 ++ a :: l2 ++ b :: l3 -> a <> x ->
  exists l1', rest = l1' ++ a :: l2 ++ b :: l3.
Proof.
  destruct l1 as [|y l1]; simpl; intros E Hne; injection E as -> ->.
  - contradiction.
  - eauto.
Qed.

Lemma perm_take_pair {A : Type} (l1 l2 free : list A) (p d : A) :
  Permutation ((l1 ++ p :: d :: l2) ++ free) (p :: (l1 ++ l2) ++ free ++ [d]).
Proof.
  rewrite <- app_assoc. simpl.
  eapply perm_trans; [apply Permutation_sym, Permutation_middle|].
  apply perm_skip. rewrite <- app_assoc. apply Permutation_app_head.
  rewrite app_assoc. apply Permutation_cons_append.
Qed.

Lemma perm_take_free {A : Type} (l l1 l2 : list A) (x : A) :
  Permutation (l ++ l1 ++ x :: l2) (x :: l ++ l1 ++ l2).
Proof.
  rewrite !app_assoc. apply Permutation_sym, Permutation_middle.
Qed.

(** An order over the pickups and dropoffs of requests, none of them listed
    twice, and over free stops, with every pickup before its dropoff, is a
    linearisation of the stop graph in which the pickups unlock their
    dropoffs. *)
Lemma precedence_Lin (order : list NodeStop) :
  forall requests free,
    NoDup requests ->
    Permutation order
      (flat_map (fun r => [pickup_stop r; dropoff_stop r]) requests ++ free) ->
    precedence requests order ->
    Lin (map request_meta requests ++ free_stops free) order.
Proof.
  induction order as [|x rest IH]; intros requests free Hnd HP Hprec.
  - apply Permutation_nil in HP. apply app_eq_nil in HP. destruct HP as [HR ->].
    destruct requests; [constructor|discriminate].
  - destruct (in_dec NodeStop_eq_dec x (map pickup_stop requests)) as [Hpick|Hpick].
    + (* the pickup of [r] *)
      apply in_map_iff in Hpick. destruct Hpick as (r & <- & Hr).
      apply in_split in Hr. destruct Hr as (A & B & ->).
      pose proof (NoDup_remove_1 _ _ _ Hnd) as Hnd'.
      pose proof (NoDup_remove_2 _ _ _ Hnd) as Hr.
      rewrite flat_map_app in HP. simpl in HP.
      assert (HP' : Permutation rest
                (flat_map (fun r => [pickup_stop r; dropoff_stop r]) (A ++ B)
                 ++ free ++ [dropoff_stop r])).
      { apply Permutation_cons_inv with (a := pickup_stop r).
        eapply perm_trans; [exact HP|].
        rewrite flat_map_app. apply perm_take_pair. }
      apply Lin_cons with
        (m := request_meta r) (F' := map request_meta (A ++ B) ++ free_stops free).
      * rewrite !map_app. simpl. rewrite <- !app_assoc. simpl.
        apply Permutation_sym, Permutation_middle.
      * simpl. rewrite <- app_assoc.
        change [Meta (dropoff_stop r) []] with (free_stops [dropoff_stop r]).
        rewrite <- free_stops_app.
        apply IH; [exact Hnd'|exact HP'|].
        intros r' Hr'. destruct (Hprec r') as (l1 & l2 & l3 & E).
        { apply in_app_or in Hr'. apply in_or_app. simpl. tauto. }
        destruct (before_tail _ _ _ _ _ _ _ E) as (l1' & ->); [|eauto].
        intros Heq. apply Hr. apply (f_equal ns_r) in Heq. simpl in Heq.
        rewrite <- Heq. exact Hr'.
    + assert (Hne : forall r', In r' requests -> pickup_stop r' <> x).
      { intros r' Hr' Heq. apply Hpick. rewrite <- Heq. apply in_map, Hr'. }
      destruct (in_dec NodeStop_eq_dec x free) as [Hin|Hfree].
      * (* a free stop *)
        apply in_split in Hin. destruct Hin as (A & B & ->).
        assert (HP' : Permutation rest
                  (flat_map (fun r => [pickup_stop r; dropoff_stop r]) requests
                   ++ A ++ B)).
        { apply Permutation_cons_inv with (a := x).
          eapply perm_trans; [exact HP|]. apply perm_take_free. }
        apply Lin_cons with
          (m := Meta x []) (F' := map request_meta requests ++ free_stops (A ++ B)).
        -- rewrite !free_stops_app. simpl. apply perm_take_free.
        -- simpl. rewrite app_nil_r. apply IH; [exact Hnd|exact HP'|].
           intros r' Hr'. destruct (Hprec r' Hr') as (l1 & l2 & l3 & E).
           destruct (before_tail _ _ _ _ _ _ _ E) as (l1' & ->); [|eauto].
           apply Hne, Hr'.
      * (* the dropoff of a request cannot come before its pickup *)
        exfalso.
        assert (Hin : In x (flat_map (fun r => [pickup_stop r; dropoff_stop r])
                              requests ++ free)).
        { apply (Permutation_in x HP). left. reflexivity. }
        apply in_app_or in Hin. destruct Hin as [Hin|Hin]; [|contradiction].
        apply in_flat_map in Hin. destruct Hin as (r & Hr & Hxr).
        destruct Hxr as [Hxr|[<-|[]]]; [exact (Hne r Hr Hxr)|].
        destruct (Hprec r Hr) as (l1 & l2 & l3 & E).
        destruct l1 as [|y l1]; simpl in E; injection E as E1 E2;
          [discriminate|].
        assert (Hlater : In (dropoff_stop r) rest).
        { rewrite E2. apply in_or_app. right. right.
          apply in_or_app. right. left. reflexivity. }
        apply in_split in Hr. destruct Hr as (A & B & ->).
        pose proof (NoDup_remove_2 _ _ _ Hnd) as Hr.
        rewrite flat_map_app in HP. simpl in HP.
        assert (HP' : Permutation rest
                  (flat_map (fun r => [pickup_stop r; dropoff_stop r]) A
                   ++ pickup_stop r
                      :: flat_map (fun r => [pickup_stop r; dropoff_stop r]) B
                   ++ free)).
        { apply Permutation_cons_inv with (a := dropoff_stop r).
          eapply perm_trans; [exact HP|]. rewrite <- app_assoc. simpl.
          change (pickup_stop r :: dropoff_stop r
                  :: flat_map (fun r => [pickup_stop r; dropoff_stop r]) B ++ free)
            with ([pickup_stop r]
                  ++ dropoff_stop r
                     :: flat_map (fun r => [pickup_stop r; dropoff_stop r]) B
                        ++ free).
          rewrite app_assoc.
          eapply perm_trans; [apply Permutation_sym, Permutation_middle|].
          apply perm_skip. rewrite <- app_assoc. apply Permutation_refl. }
        apply (Permutation_in _ HP') in Hlater.
        assert (Hflat : forall l,
                  In (dropoff_stop r)
                     (flat_map (fun r => [pickup_stop r; dropoff_stop r]) l) ->
                  In r l).
        { intros l Hl. apply in_flat_map in Hl.
          destruct Hl as (r' & Hr' & [Heq|[Heq|[]]]); [discriminate|].
          apply (f_equal ns_r) in Heq. simpl in Heq. subst r'. exact Hr'. }
        apply in_app_or in Hlater. destruct Hlater as [Hl|[Hl|Hl]].
        -- apply Hr, in_or_app. left. apply Hflat, Hl.
        -- discriminate.
        -- apply in_app_or in Hl. destruct Hl as [Hl|Hl].
           ++ apply Hr, in_or_app. right. apply Hflat, Hl.
           ++ contradiction.
Qed.

End FeasibleOrders.

(** Whatever the stored stops, the stop graph handed to the search has the
    pickup of every request among its available stops, and no stop beyond
    the stops of the requests and the stored stops of the passengers. *)
Lemma prepared_stops_covered (glo : Glo) vehicle requests F :
  prepare_stops glo vehicle requests = Return (Available F) ->
  (forall r, In r requests -> exists m, In m F /\ m_node m = pickup_stop r)
  /\ incl (forest_stops F) (required_stops vehicle requests).
Proof.
  intros Hp. apply prepare_stops_shape in Hp. cbv zeta in Hp.
  unfold required_stops.
  set (onboard := onboard_stops (request_set (v_passengers vehicle))
                    (v_order_record vehicle)) in *.
  assert (Hstd : forall tail,
            forest_stops tail = onboard ->
            F = map request_meta requests ++ tail ->
            (forall r, In r requests ->
               exists m, In m F /\ m_node m = pickup_stop r)
            /\ incl (forest_stops F)
                 (flat_map (fun r => [pickup_stop r; dropoff_stop r]) requests
                  ++ onboard)).
  { intros tail Ht ->. split.
    - intros r Hr. exists (request_meta r). split; [|reflexivity].
      apply in_or_app. left. apply in_map, Hr.
    - rewrite forest_stops_app, forest_stops_request_metas, Ht.
      apply incl_refl. }
  destruct Hp as [HF|[HF|(front & last_request & -> & ->)]].
  - destruct (fix_onboard_locked glo vehicle requests).
    + apply (Hstd _ (forest_stops_chain onboard) HF).
    + apply (Hstd _ (forest_stops_free onboard) HF).
  - apply (Hstd _ (forest_stops_free onboard) HF).
  - split.
    + intros r Hr. apply in_app_or in Hr. destruct Hr as [Hr|[Hr|[]]].
      * exists (request_meta r). split; [|reflexivity].
        apply in_or_app. left. apply in_map, Hr.
      * subst r. exists (Meta (pickup_stop last_request) (chain onboard)).
        split; [|reflexivity].
        apply in_or_app. right. left. reflexivity.
    + rewrite forest_stops_app, forest_stops_request_metas, flat_map_app.
      rewrite forest_stops_cons. cbn [m_node m_unlocks flat_map].
      rewrite forest_stops_chain. unfold forest_stops at 1. cbn [flat_map].
      rewrite !app_nil_r.
      intros x Hx. apply in_app_or in Hx. destruct Hx as [Hx|[<-|Hx]].
      * apply in_or_app. left. apply in_or_app. left. exact Hx.
      * apply in_or_app. left. apply in_or_app. right. left. reflexivity.
      * apply in_or_app. right. exact Hx.
Qed.

Section ExactTravel.

Variable glo : Glo.
Variable network : Network.
Variable unlocks_id : MetaNodeStop -> Z.

Hypothesis Hdwell : nonneg_dwell glo.

Lemma format_path_cost (t : Z) (tail tail' : list NodeStop) (current_time : Z) :
  fst (format_path glo (t, tail) current_time)
  = fst (format_path glo (t, tail') current_time).
Proof. reflexivity. Qed.

Lemma format_path_mono (t t' : Z) (tail tail' : list NodeStop) (current_time : Z) :
  0 <= t -> t <= t' ->
  fst (format_path glo (t, tail) current_time)
  <= fst (format_path glo (t', tail') current_time).
Proof.
  intros H0 Hle. unfold format_path. simpl.
  replace (0 <=? t) with true by (symmetry; apply Z.leb_le; lia).
  replace (0 <=? t') with true by (symmetry; apply Z.leb_le; lia).
  destruct (String.eqb (CTSP_OBJECTIVE glo) "CTSP_VTT"); simpl; lia.
Qed.

(** Without prefix lock, the feasible orders are the valid routes through
    the stop graph handed to the search. *)
Lemma feasible_order_Lin vehicle requests current_time order :
  NoDup requests ->
  let F := map request_meta requests
           ++ free_stops (onboard_stops (request_set (v_passengers vehicle))
                            (v_order_record vehicle)) in
  feasible_order glo network vehicle requests current_time order
  <-> Lin F order
      /\ route_ok glo network NO_ACTION (v_node vehicle)
           (v_capacity vehicle - Z.of_nat (List.length (v_passengers vehicle)))
           (current_time + v_offset vehicle) order = true.
Proof.
  intros Hnd F. unfold feasible_order, required_stops in *. split.
  - intros (HP & Hprec & Hok). split; [|exact Hok].
    apply precedence_Lin; [exact Hnd|exact HP|exact Hprec].
  - intros (HL & Hok). split; [|split; [|exact Hok]].
    + eapply perm_trans; [apply Lin_stops, HL|].
      unfold F. rewrite forest_stops_app, forest_stops_request_metas,
        forest_stops_free. apply Permutation_refl.
    + intros r Hr.
      apply (Lin_unlock_order F order (request_meta r) (Meta (dropoff_stop r) [])).
      * exact HL.
      * apply in_or_app. left. apply in_map. exact Hr.
      * left. reflexivity.
Qed.

Lemma no_prefix_lock_stops vehicle requests :
  stops_stored vehicle ->
  no_prefix_lock glo vehicle requests ->
  prepare_stops glo vehicle requests
  = Return (Available
      (map request_meta requests
       ++ free_stops (onboard_stops (request_set (v_passengers vehicle))
                        (v_order_record vehicle)))).
Proof.
  intros Hs [Hlock Hprefix]. unfold prepare_stops. cbv zeta.
  rewrite (stops_stored_in_range vehicle requests Hs), Hprefix.
  rewrite Hs, Nat.sub_diag, Hlock. reflexivity.
Qed.

(** The stops of the search are at its nodes. *)
Lemma search_nodes_stops vehicle requests :
  Forall (fun ns => In (ns_node ns) (search_nodes vehicle requests))
    (required_stops vehicle requests).
Proof.
  apply Forall_forall. intros ns Hns. right. apply in_map, Hns.
Qed.

(** A feasible order does not end before the call time. *)
Lemma feasible_order_end vehicle requests current_time o :
  NoDup requests ->
  metric_among (search_nodes vehicle requests) network ->
  feasible_order glo network vehicle requests current_time o ->
  current_time + v_offset vehicle
  <= completion_time glo network vehicle current_time o.
Proof.
  intros Hnd Hmetric Ho. unfold completion_time.
  pose proof (feasible_order_Lin vehicle requests current_time o Hnd) as Hiff.
  cbv zeta in Hiff. apply Hiff in Ho. destruct Ho as [HL _].
  set (node := fun x => In x (search_nodes vehicle requests)).
  apply (route_end_after glo network node Hmetric Hdwell);
    [|left; reflexivity].
  refine (nodes_ok_Lin node _ _ _ HL).
  rewrite forest_stops_app, forest_stops_request_metas, forest_stops_free.
  apply search_nodes_stops.
Qed.

(** The search is exact for the cost that [format_path] makes of the
    completion time. *)
Lemma travel_exact_format vehicle requests current_time :
  valid_objective glo = true ->
  stops_stored vehicle ->
  no_prefix_lock glo vehicle requests ->
  NoDup requests ->
  metric_among (search_nodes vehicle requests) network ->
  0 <= current_time + v_offset vehicle ->
  0 <= v_offset vehicle ->
  search_exact_for (order_cost glo network vehicle current_time)
    glo network unlocks_id vehicle requests current_time.
Proof.
  intros Hobj Hstored Hlock Hnd Hmetric Hct Hoff.
  assert (Hnode : In (v_node vehicle) (search_nodes vehicle requests))
    by (left; reflexivity).
  unfold search_exact_for.
  apply (no_prefix_lock_stops _ _ Hstored) in Hlock.
  set (F := map request_meta requests
            ++ free_stops (onboard_stops (request_set (v_passengers vehicle))
                             (v_order_record vehicle))).
  set (cap := v_capacity vehicle - Z.of_nat (List.length (v_passengers vehicle))).
  set (call_time := current_time + v_offset vehicle).
  assert (HvF : Forall (fun ns => In (ns_node ns) (search_nodes vehicle requests))
                  (forest_stops F)).
  { unfold F. rewrite forest_stops_app, forest_stops_request_metas,
      forest_stops_free. apply search_nodes_stops. }
  destruct (recursive_search glo network unlocks_id (S (forest_size F))
              (v_node vehicle) cap F call_time (-1) NO_ACTION)
    as [[t tail]|] eqn:Hs.
  2:{ exfalso. revert Hs. apply recursive_search_total. lia. }
  pose proof (recursive_search_sound glo network unlocks_id _ _ _ _ _ _ _ _ Hs)
    as Hsound.
  pose proof (recursive_search_complete glo network unlocks_id
                (fun x => In x (search_nodes vehicle requests)) Hmetric Hdwell
                _ _ _ _ _ _ _ _ Hs Hnode ltac:(unfold call_time; lia) HvF)
    as Hcomplete.
  assert (Hfeas : forall o,
            feasible_order glo network vehicle requests current_time o
            <-> Lin F o /\ route_ok glo network NO_ACTION (v_node vehicle) cap
                             call_time o = true).
  { intros o. apply feasible_order_Lin. exact Hnd. }
  assert (Hend : forall o,
            feasible_order glo network vehicle requests current_time o ->
            call_time <= route_end glo network NO_ACTION (v_node vehicle)
                           call_time o).
  { intros o Ho. apply Hfeas in Ho. destruct Ho as [HL _].
    apply (route_end_after glo network
             (fun x => In x (search_nodes vehicle requests)) Hmetric Hdwell);
      [|exact Hnode].
    exact (nodes_ok_Lin (fun x => In x (search_nodes vehicle requests))
             _ _ HvF HL). }
  exists (fst (format_path glo (t, tail) current_time)), (rev tail).
  split; [|split].
  - rewrite travel_standard. unfold new_travel. rewrite Hlock, Hobj.
    fold F cap call_time. rewrite Hs. reflexivity.
  - split.
    + intros Hcost (o & Ho).
      pose proof (Hend o Ho) as Hge. apply Hfeas in Ho. destruct Ho as [HL Hok].
      destruct (Hcomplete o HL Hok) as [Hne Hle]. cbn [fst] in Hne, Hle.
      destruct Hsound as [[Ht _]|(HL' & Hok' & Hfin)]; cbn [fst snd] in *; [contradiction|].
      assert (Hge' : call_time <= t).
      { rewrite <- Hfin. apply Hend, Hfeas. split; assumption. }
      unfold format_path in Hcost. cbn [fst snd] in Hcost. unfold call_time in *.
      destruct (String.eqb (CTSP_OBJECTIVE glo) "CTSP_VTT" && (0 <=? t)); lia.
    + intros Hnone.
      destruct Hsound as [[Ht _]|(HL' & Hok' & Hfin)]; cbn [fst snd] in *.
      * subst t. rewrite format_path_negative by lia. reflexivity.
      * exfalso. apply Hnone. exists (rev tail). apply Hfeas. split; assumption.
  - intros o Ho. pose proof Ho as Ho'. apply Hfeas in Ho'. destruct Ho' as [HL Hok].
    destruct (Hcomplete o HL Hok) as [Hne _]. cbn [fst] in Hne.
    destruct Hsound as [[Ht _]|(HL' & Hok' & Hfin)]; cbn [fst snd] in *; [contradiction|].
    assert (Hbest : feasible_order glo network vehicle requests current_time
                      (rev tail)).
    { apply Hfeas. split; assumption. }
    split; [exact Hbest|]. split.
    + unfold order_cost. fold call_time. rewrite Hfin. reflexivity.
    + intros o' Ho'. unfold order_cost. fold call_time.
      pose proof (Hend _ Hbest) as Hge. rewrite Hfin in Hge.
      apply Hfeas in Ho'. destruct Ho' as [HL2 Hok2].
      destruct (Hcomplete o' HL2 Hok2) as [_ Hle]. cbn [fst] in Hle.
      apply format_path_mono; [unfold call_time in *; lia|exact Hle].
Qed.

(** C2 (amended). For a vehicle that stores a stop for every passenger,
    when no prefix lock is engaged (neither the FIX_ONBOARD test of line
    215 nor the FIX_PREFIX test of line 222 holds), the objective is
    CTSP_VTT or CTSP_DELAY, the travel times that [get_time] returns form
    a non-negative metric among the node of the vehicle and the nodes of
    the stops, the dwell times are not negative, and neither the offset of
    the vehicle nor the clock with the offset added is negative, the
    untimed feasibility search decides feasibility exactly for every set
    of requests (a list that holds no request twice): it returns the cost
    -1 if and only if no visit order over the stops of the requests and
    the stored stops of the passengers satisfies the precedence, capacity
    and deadline constraints, and otherwise it returns a feasible order of
    minimum completion time; the cost is the completion time minus the
    current time under CTSP_VTT, and the completion time under
    CTSP_DELAY. *)
Theorem travel_exact_without_lock vehicle requests current_time :
  valid_objective glo = true ->
  stops_stored vehicle ->
  no_prefix_lock glo vehicle requests ->
  NoDup requests ->
  metric_among (search_nodes vehicle requests) network ->
  0 <= current_time + v_offset vehicle ->
  0 <= v_offset vehicle ->
  exact_for_completion glo network unlocks_id vehicle requests current_time.
Proof.
  intros Hobj Hstored Hlock Hnd Hmetric Hct Hoff.
  assert (Hsame : forall o,
            feasible_order glo network vehicle requests current_time o ->
            order_cost glo network vehicle current_time o
            = completion_cost glo network vehicle current_time o).
  { intros o Ho.
    pose proof (feasible_order_end _ _ _ _ Hnd Hmetric Ho) as Hend.
    unfold order_cost, completion_cost, completion_time, format_path in *.
    cbn [fst snd].
    replace (0 <=? route_end glo network NO_ACTION (v_node vehicle)
                     (current_time + v_offset vehicle) o) with true
      by (symmetry; apply Z.leb_le; lia).
    rewrite andb_true_r.
    destruct (String.eqb (CTSP_OBJECTIVE glo) "CTSP_VTT"); reflexivity. }
  destruct (travel_exact_format vehicle requests current_time Hobj Hstored
              Hlock Hnd Hmetric Hct Hoff)
    as (cost & order & Htravel & Hiff & Hmin).
  exists cost, order. split; [exact Htravel|]. split; [exact Hiff|].
  intros o Ho. destruct (Hmin o Ho) as (Hbest & Hcost & Hle).
  split; [exact Hbest|]. split.
  - rewrite <- (Hsame _ Hbest). exact Hcost.
  - intros o' Ho'. rewrite <- (Hsame _ Ho'). apply Hle, Ho'.
Qed.

End ExactTravel.

Lemma line_metric : metric_times Examples.line.
Proof.
  intros a b c Ha Hb Hc. unfold get_time, Examples.line.
  cbn [time_matrix dwell_pickup dwell_alight].
  replace (a =? -10) with false by (symmetry; apply Z.eqb_neq; lia).
  replace (a =? -20) with false by (symmetry; apply Z.eqb_neq; lia).
  replace (b =? -10) with false by (symmetry; apply Z.eqb_neq; lia).
  replace (b =? -20) with false by (symmetry; apply Z.eqb_neq; lia).
  lia.
Qed.

Lemma travel_exact_without_lock_witness :
  exact_for_completion Examples.defaults Examples.line Examples.no_ties
    Examples.two_onboard [Examples.r3] 0.
Proof.
  apply (travel_exact_without_lock Examples.defaults Examples.line
           Examples.no_ties).
  - split; simpl; lia.
  - reflexivity.
  - reflexivity.
  - split; reflexivity.
  - repeat constructor; simpl; intuition discriminate.
  - intros a b c Ha Hb Hc. apply line_metric.
    + simpl in Ha. intuition lia.
    + simpl in Hb. intuition lia.
    + simpl in Hc. intuition lia.
  - simpl; lia.
  - simpl; lia.
Defined.

(** *** Where the search is not exact *)

Section NotExact.

Variable cost_of : list NodeStop -> Z.
Variable glo : Glo.
Variable network : Network.
Variable unlocks_id : MetaNodeStop -> Z.
Variable vehicle : Vehicle.
Variable requests : list Request.
Variable current_time : Z.

Notation result :=
  (travel glo network unlocks_id vehicle requests current_time "STANDARD").
Notation feasible := (feasible_order glo network vehicle requests current_time).
Notation exact :=
  (search_exact_for cost_of glo network unlocks_id vehicle requests
     current_time).

Lemma not_exact_raised msg : result = Raises msg -> ~ exact.
Proof. intros H (c & ord & Ht & _). rewrite H in Ht. discriminate. Qed.

Lemma not_exact_missed order o :
  result = Return (-1, order) -> feasible o -> ~ exact.
Proof.
  intros H Hf (c & ord & Ht & Hiff & _). rewrite H in Ht.
  injection Ht as <- <-. apply Hiff; [reflexivity|]. exists o. exact Hf.
Qed.

Lemma not_exact_cheaper cost order o :
  result = Return (cost, order) -> feasible o -> cost_of o < cost -> ~ exact.
Proof.
  intros H Hf Hlt (c & ord & Ht & _ & Hmin). rewrite H in Ht.
  injection Ht as <- <-. destruct (Hmin o Hf) as (_ & _ & Hle).
  specialize (Hle o Hf). lia.
Qed.

Lemma not_exact_cost cost order :
  result = Return (cost, order) -> feasible order -> cost <> cost_of order ->
  ~ exact.
Proof.
  intros H Hf Hne (c & ord & Ht & _ & Hmin). rewrite H in Ht.
  injection Ht as <- <-. destruct (Hmin order Hf) as (_ & Hc & _).
  contradiction.
Qed.

End NotExact.

(** A concrete order that holds the required stops and passes the checks
    of the route is feasible when no request is new. *)
Lemma feasible_onboard_order (glo : Glo) network vehicle current_time order :
  Permutation order (required_stops vehicle []) ->
  route_ok glo network NO_ACTION (v_node vehicle)
    (v_capacity vehicle - Z.of_nat (List.length (v_passengers vehicle)))
    (current_time + v_offset vehicle) order = true ->
  feasible_order glo network vehicle [] current_time order.
Proof. intros HP Hok. split; [exact HP|]. split; [intros r []|exact Hok]. Qed.

(** The pickup and the dropoff of one request, when no other stop is
    required. *)
Lemma feasible_single_request (glo : Glo) network vehicle current_time r :
  required_stops vehicle [r] = [pickup_stop r; dropoff_stop r] ->
  route_ok glo network NO_ACTION (v_node vehicle)
    (v_capacity vehicle - Z.of_nat (List.length (v_passengers vehicle)))
    (current_time + v_offset vehicle) [pickup_stop r; dropoff_stop r] = true ->
  feasible_order glo network vehicle [r] current_time
    [pickup_stop r; dropoff_stop r].
Proof.
  intros Hp Hok. split; [|split; [|exact Hok]].
  - rewrite Hp. apply Permutation_refl.
  - intros r' [<-|[]]. exists [], [], []. reflexivity.
Qed.

(** C2 as stated fails in each of these cases.

    - With the onboard dropoffs chained (FIX_ONBOARD with per-row
      capacities) the search returns the cost 180 for a vehicle with two
      passengers and one new request, although the order that drops the
      second passenger first is feasible and costs 120.
    - Under FIX_PREFIX with LP_LIMITVALUE = 1 it returns the cost -1 for the
      rider of scenario 1, whose route is feasible.
    - For a passenger without stored stop and no request it raises
      IndexError; for an objective that is not known it raises.
    - Under CTSP_DELAY it returns the completion time 120 for a dropoff
      that is not delayed; and (last part) it returns the order of
      completion time 240 and total delay 120 where the other order has no
      delay.
    - With a travel time that is negative (the other conditions of a
      metric holding) it returns the cost 20 where an order costs 15; with
      the travel time 10 from a node to itself it returns -1 where an
      order is feasible; and so it does with a travel time that violates
      the triangle inequality.
    - With DWELL_ALIGHT = -120 it returns the cost 60 where an order costs
      0; with DWELL_PICKUP = -10 it returns -1 where the route is feasible.
    - At the clock -1 it returns -1 for the empty route, which is feasible,
      and so it does at the clock 1 for a vehicle with the offset -1. *)
Lemma travel_not_exact :
  ~ exact_search Examples.per_row_capacity Examples.line Examples.no_ties
      Examples.two_onboard [Examples.r3] 0
  /\ ~ exact_search Counterexamples.prefix_limit Examples.line Examples.no_ties
        Examples.taxi [Examples.rider] 0
  /\ ~ exact_search Examples.defaults Examples.line Examples.no_ties
        Counterexamples.stranded [] 0
  /\ ~ exact_search Counterexamples.other_objective Examples.line
        Examples.no_ties Examples.taxi [Examples.rider] 0
  /\ ~ exact_search Examples.delay_objective Examples.line Examples.no_ties
        Counterexamples.one_onboard [] 0
  /\ ~ exact_search Examples.defaults Counterexamples.tilted Examples.no_ties
        Examples.two_onboard [] 0
  /\ ~ exact_search Examples.defaults Counterexamples.steady Examples.no_ties
        Counterexamples.pooled_hurried [] 0
  /\ ~ exact_search Examples.defaults Counterexamples.detour Examples.no_ties
        Counterexamples.three_onboard [] 0
  /\ ~ exact_search Counterexamples.alight_credit Examples.line
        Examples.no_ties Counterexamples.at_node2 [] 0
  /\ ~ exact_search Counterexamples.pickup_credit Examples.line
        Examples.no_ties Examples.taxi [Counterexamples.pressed_rider] 0
  /\ ~ exact_search Examples.defaults Examples.line Examples.no_ties
        Examples.taxi [] (-1)
  /\ ~ exact_search Examples.defaults Examples.line Examples.no_ties
        Counterexamples.just_behind [] 1
  /\ (travel Examples.delay_objective Examples.line Examples.no_ties
        Counterexamples.between [] 0 "STANDARD"
      = Return (240, [dropoff_stop Counterexamples.slack;
                      dropoff_stop Counterexamples.tight])
      /\ feasible_order Examples.delay_objective Examples.line
           Counterexamples.between [] 0
           [dropoff_stop Counterexamples.tight;
            dropoff_stop Counterexamples.slack]
      /\ total_delay Examples.delay_objective Examples.line
           Counterexamples.between
           [dropoff_stop Counterexamples.tight;
            dropoff_stop Counterexamples.slack] 0
         < total_delay Examples.delay_objective Examples.line
             Counterexamples.between
             [dropoff_stop Counterexamples.slack;
              dropoff_stop Counterexamples.tight] 0).
Proof.
  unfold exact_search. repeat apply conj.
  - (* FIX_ONBOARD chain *)
    apply (not_exact_cheaper _ _ _ _ _ _ _ 180
             [pickup_stop Examples.r3; dropoff_stop Examples.p1;
              dropoff_stop Examples.r3; dropoff_stop Examples.p2]
             Examples.route_with_r3);
      [vm_compute; reflexivity| |vm_compute; reflexivity].
    split; [|split].
    + apply (Permutation_cons_app
               [pickup_stop Examples.r3; dropoff_stop Examples.r3;
                dropoff_stop Examples.p1] []).
      simpl. apply perm_skip, perm_swap.
    + intros r [<-|[]].
      exists [dropoff_stop Examples.p2], [dropoff_stop Examples.p1], [].
      reflexivity.
    + vm_compute. reflexivity.
  - (* FIX_PREFIX limit *)
    apply (not_exact_missed _ _ _ _ _ _ _ []
             [pickup_stop Examples.rider; dropoff_stop Examples.rider]);
      [vm_compute; reflexivity|].
    apply feasible_single_request; reflexivity.
  - (* no stored stop *)
    apply (not_exact_raised _ _ _ _ _ _ _
             "IndexError: list index out of range").
    vm_compute. reflexivity.
  - (* unknown objective *)
    apply (not_exact_raised _ _ _ _ _ _ _ "not a valid CTSP objective").
    vm_compute. reflexivity.
  - (* CTSP_DELAY *)
    apply (not_exact_cost _ _ _ _ _ _ _ 120 [dropoff_stop Examples.p1]);
      [vm_compute; reflexivity| |vm_compute; discriminate].
    apply feasible_onboard_order; [apply Permutation_refl|reflexivity].
  - (* negative travel time *)
    apply (not_exact_cheaper _ _ _ _ _ _ _ 20
             [dropoff_stop Examples.p2; dropoff_stop Examples.p1]
             [dropoff_stop Examples.p1; dropoff_stop Examples.p2]);
      [vm_compute; reflexivity| |vm_compute; reflexivity].
    apply feasible_onboard_order; [apply Permutation_refl|reflexivity].
  - (* travel time from a node to itself *)
    apply (not_exact_missed _ _ _ _ _ _ _ []
             [dropoff_stop Counterexamples.hurried;
              dropoff_stop Examples.pa]);
      [vm_compute; reflexivity|].
    apply feasible_onboard_order; [apply perm_swap|reflexivity].
  - (* triangle inequality *)
    apply (not_exact_missed _ _ _ _ _ _ _ []
             [dropoff_stop Counterexamples.first_stop;
              dropoff_stop Counterexamples.second_stop;
              dropoff_stop Counterexamples.third_stop]);
      [vm_compute; reflexivity|].
    apply feasible_onboard_order; [apply Permutation_refl|reflexivity].
  - (* DWELL_ALIGHT *)
    apply (not_exact_cheaper _ _ _ _ _ _ _ 60
             [dropoff_stop Counterexamples.to_node0;
              dropoff_stop Counterexamples.to_node1]
             [dropoff_stop Counterexamples.to_node1;
              dropoff_stop Counterexamples.to_node0]);
      [vm_compute; reflexivity| |vm_compute; reflexivity].
    apply feasible_onboard_order; [apply perm_swap|reflexivity].
  - (* DWELL_PICKUP *)
    apply (not_exact_missed _ _ _ _ _ _ _ []
             [pickup_stop Counterexamples.pressed_rider;
              dropoff_stop Counterexamples.pressed_rider]);
      [vm_compute; reflexivity|].
    apply feasible_single_request; reflexivity.
  - (* negative clock *)
    apply (not_exact_missed _ _ _ _ _ _ _ [] []);
      [vm_compute; reflexivity|].
    apply feasible_onboard_order; [apply Permutation_refl|reflexivity].
  - (* negative offset *)
    apply (not_exact_missed _ _ _ _ _ _ _ [] []);
      [vm_compute; reflexivity|].
    apply feasible_onboard_order; [apply Permutation_refl|reflexivity].
  - (* CTSP_DELAY: the order found *)
    vm_compute. reflexivity.
  - apply perm_swap.
  - intros r [].
  - reflexivity.
  - vm_compute. reflexivity.
Qed.

(** The list of requests stands for a set.  For a list that holds a request
    twice the search returns the two pickups each before a dropoff, at the
    cost 240; [precedence] only asks for a pickup of the request before a
    dropoff of it, which an order that begins with a dropoff satisfies as
    well. *)
Lemma travel_listed_twice :
  travel Examples.defaults Examples.line Examples.no_ties
    Counterexamples.single_seat [Counterexamples.back; Counterexamples.back] 0
    "STANDARD"
  = Return (240,
            [pickup_stop Counterexamples.back; dropoff_stop Counterexamples.back;
             pickup_stop Counterexamples.back; dropoff_stop Counterexamples.back])
  /\ feasible_order Examples.defaults Examples.line Counterexamples.single_seat
       [Counterexamples.back; Counterexamples.back] 0
       [dropoff_stop Counterexamples.back; pickup_stop Counterexamples.back;
        dropoff_stop Counterexamples.back; pickup_stop Counterexamples.back].
Proof.
  split; [vm_compute; reflexivity|].
  split; [|split].
  - apply (Permutation_cons_app [pickup_stop Counterexamples.back] _).
    simpl. apply perm_skip.
    apply (Permutation_cons_app [pickup_stop Counterexamples.back] _).
    apply Permutation_refl.
  - intros r [<-|[<-|[]]];
      exists [dropoff_stop Counterexamples.back], [],
             [pickup_stop Counterexamples.back]; reflexivity.
  - vm_compute. reflexivity.
Qed.

(** ** The builders return: fuel is never exhausted *)

Section RtvTotal.

Variable glo : Glo.
Variable network : Network.
Variable unlocks_id : MetaNodeStop -> Z.
Variable wall_clock : nat -> Z.
Variable rr_edge : Z -> Z -> bool.

Notation search_timed :=
  (recursive_search_timed glo network unlocks_id wall_clock).
Notation loop_timed := (search_loop_timed glo network wall_clock).
Notation travel_timed := (travel_timed glo network unlocks_id wall_clock).

Lemma search_loop_timed_total
    (rec : Z -> Z -> list MetaNodeStop -> Z -> Z -> Action -> nat
           -> option (Z * list NodeStop * nat))
    (loc cap now : Z) (prev : Action) (start_time time_limit : Z) (n : nat) :
  (forall loc' cap' F' now' best' prev' reads',
      (forest_size F' < n)%nat ->
      rec loc' cap' F' now' best' prev' reads' <> None) ->
  forall todo visited previous best_time best_tail reads,
    (forest_size (visited ++ todo) <= n)%nat ->
    loop_timed rec loc cap now prev start_time time_limit visited todo
      previous best_time best_tail reads <> None.
Proof.
  intros Hrec. induction todo as [|m todo IH];
    intros visited previous best_time best_tail reads Hn; simpl; [discriminate|].
  assert (Hn' : (forest_size ((visited ++ [m]) ++ todo) <= n)%nat).
  { rewrite <- app_assoc. exact Hn. }
  repeat match goal with
  | |- (if ?b then _ else _) <> None => destruct b; [auto; discriminate|]
  end.
  match goal with
  | |- match ?r with _ => _ end <> None => destruct r as [[[tt ts] rd]|] eqn:Hr
  end.
  - repeat match goal with
    | |- (if ?b then _ else _) <> None => destruct b; auto
    end.
  - exfalso. revert Hr. apply Hrec.
    rewrite forest_size_app, forest_size_cons in Hn.
    rewrite !forest_size_app. lia.
Qed.

Lemma recursive_search_timed_total (fuel : nat) :
  forall loc cap F now best start_time time_limit prev reads,
    (forest_size F < fuel)%nat ->
    search_timed fuel loc cap F now best start_time time_limit prev reads
      <> None.
Proof.
  induction fuel as [|fuel IH];
    intros loc cap F now best start_time time_limit prev reads Hf; [lia|].
  cbn [recursive_search_timed].
  pose proof (forest_size_perm _ _ (sorted_perm unlocks_id F)) as HP.
  destruct (sorted unlocks_id F) as [|m l]; [discriminate|].
  apply search_loop_timed_total with (n := fuel).
  - intros. apply IH. assumption.
  - simpl app. lia.
Qed.

Lemma travel_timed_fuel vehicle requests current_time start_time time_limit
    trigger reads :
  fst (travel_timed vehicle requests current_time start_time time_limit
         trigger reads) <> OutOfFuel.
Proof.
  unfold travel_timed. destruct (time_limit =? 0); [apply travel_fuel|].
  unfold new_travel_timed.
  destruct (prepare_stops glo vehicle requests) as [[F|]| | |] eqn:Hp;
    try discriminate.
  - destruct (valid_objective glo); [|discriminate].
    match goal with |- fst (match ?s with _ => _ end) <> _ =>
      destruct s as [[[t tail] rd]|] eqn:Hs end; [discriminate|].
    exfalso. revert Hs. apply recursive_search_timed_total. lia.
  - exfalso. revert Hp. apply prepare_stops_fuel.
Qed.

Lemma bind_fuel {A B : Type} (x : outcome A) (f : A -> outcome B) :
  x <> OutOfFuel -> (forall a, f a <> OutOfFuel) -> bind x f <> OutOfFuel.
Proof. destruct x; simpl; auto; discriminate. Qed.

Lemma try_pair_fuel vehicle current_time start_time k previous_round
    trip1 trip2 st :
  try_pair glo network unlocks_id wall_clock rr_edge vehicle current_time
    start_time k previous_round trip1 trip2 st <> OutOfFuel.
Proof.
  unfold try_pair.
  repeat match goal with
  | |- (if ?b then _ else _) <> _ => destruct b; [discriminate|]
  end.
  pose proof (travel_timed_fuel vehicle
                (request_union (t_requests trip1) (t_requests trip2))
                current_time start_time (RTV_TIMELIMIT glo) "STANDARD"
                (reads st)) as Hf.
  destruct (travel_timed vehicle
              (request_union (t_requests trip1) (t_requests trip2))
              current_time start_time (RTV_TIMELIMIT glo) "STANDARD" (reads st))
    as [result reads'].
  apply bind_fuel; [exact Hf|].
  intros [cost order]. destruct (cost <? 0); discriminate.
Qed.

Lemma inner_loop_fuel vehicle current_time start_time k previous_round trip1 :
  forall partners st,
    inner_loop glo network unlocks_id wall_clock rr_edge vehicle current_time
      start_time k previous_round trip1 partners st <> OutOfFuel.
Proof.
  induction partners as [|trip2 partners IH]; intros st; simpl; [discriminate|].
  match goal with |- (if ?b then _ else _) <> _ => destruct b end;
    [discriminate|].
  apply bind_fuel; [apply try_pair_fuel|exact (IH)].
Qed.

Lemma outer_loop_fuel vehicle current_time start_time k previous_round :
  forall trips st,
    outer_loop glo network unlocks_id wall_clock rr_edge vehicle current_time
      start_time k previous_round trips st <> OutOfFuel.
Proof.
  induction trips as [|trip1 trips IH]; intros st; simpl; [discriminate|].
  apply bind_fuel; [apply inner_loop_fuel|exact IH].
Qed.

Lemma levels_fuel (fuel : nat) vehicle current_time start_time :
  forall k rounds timed_out n,
    (1 <= fuel)%nat -> v_capacity vehicle < Z.of_nat k + Z.of_nat fuel ->
    levels glo network unlocks_id wall_clock rr_edge fuel vehicle current_time
      start_time k rounds timed_out n <> OutOfFuel.
Proof.
  induction fuel as [|fuel IH]; intros k rounds timed_out n H1 Hk; [lia|].
  rewrite levels_S.
  destruct (nth k rounds []); [discriminate|].
  destruct timed_out; [discriminate|].
  destruct (Z.of_nat (S k) >? v_capacity vehicle) eqn:E; [discriminate|].
  zbool. apply bind_fuel; [apply outer_loop_fuel|].
  intros st. apply IH; lia.
Qed.

Lemma first_round_fuel vehicle current_time :
  forall initial_pairing,
    first_round glo network unlocks_id vehicle current_time initial_pairing
      <> OutOfFuel.
Proof.
  induction initial_pairing as [|request rest IH]; simpl; [discriminate|].
  apply bind_fuel; [apply travel_fuel|].
  intros [cost order]. apply bind_fuel; [exact IH|].
  intros trips. destruct (cost <? 0); discriminate.
Qed.

Lemma compile_trips_fuel vehicle current_time rounds :
  compile_trips glo network unlocks_id vehicle current_time rounds <> OutOfFuel.
Proof.
  unfold compile_trips.
  destruct (existsb (fun trip => t_cost trip =? -1) (List.concat rounds));
    [discriminate|].
  destruct (v_order_record vehicle); [discriminate|].
  match goal with |- (if ?b then _ else _) <> _ => destruct b end;
    [discriminate|].
  apply bind_fuel.
  - unfold previoustrip. apply bind_fuel; [apply travel_fuel|].
    intros [cost order]. discriminate.
  - intros trip. destruct (t_cost trip =? -1); discriminate.
Qed.

(** The embedding of [make_rtvgraph] has fuel enough for every vehicle: it
    returns a trip list, raises, or meets a vehicle outside the embedding. *)
Lemma make_rtvgraph_fuel vehicle rv_neighbors current_time n :
  make_rtvgraph glo network unlocks_id wall_clock rr_edge vehicle rv_neighbors
    current_time n <> OutOfFuel.
Proof.
  unfold make_rtvgraph. apply bind_fuel.
  - unfold rtv_rounds, baseline_trip.
    pose proof (travel_timed_fuel vehicle [] current_time (wall_clock n)
                  (RTV_TIMELIMIT glo) "STANDARD" (S n)) as Hf.
    destruct (travel_timed vehicle [] current_time (wall_clock n)
                (RTV_TIMELIMIT glo) "STANDARD" (S n)) as [result n1].
    apply bind_fuel.
    + apply bind_fuel; [exact Hf|]. intros [cost path]. discriminate.
    + intros baseline. apply bind_fuel; [apply first_round_fuel|].
      intros round1. apply levels_fuel; lia.
  - intros [rounds n']. apply compile_trips_fuel.
Qed.

End RtvTotal.

(** ** Where [delay_all] and the arrival-time model of the search agree *)

Section DelayFacts.

Variable glo : Glo.
Variable network : Network.

Hypothesis Hpickup : dwell_pickup network = DWELL_PICKUP glo.
Hypothesis Halight : dwell_alight network = DWELL_ALIGHT glo.
Hypothesis Hnn : nonneg_times glo network.

Lemma dwell_after_stop (vehicle : Vehicle) (a b : NodeStop) :
  (ns_is_pickup a = ns_is_pickup b -> ns_node a <> ns_node b) ->
  get_time network (node_type a (Some b)) (v_node vehicle)
  = dwell_before glo (action_of a) (ns_node a) b.
Proof.
  intros Hab. unfold node_type, dwell_before, action_of, get_time.
  destruct (ns_is_pickup a) eqn:Ea, (ns_is_pickup b) eqn:Eb; simpl.
  - destruct (ns_node b =? ns_node a) eqn:E1; simpl.
    + apply Z.eqb_eq in E1. exfalso. apply Hab; congruence.
    + rewrite Z.eqb_sym, E1. simpl. exact Hpickup.
  - exact Hpickup.
  - exact Halight.
  - destruct (ns_node b =? ns_node a) eqn:E1; simpl.
    + apply Z.eqb_eq in E1. exfalso. apply Hab; congruence.
    + rewrite Z.eqb_sym, E1. simpl. exact Halight.
Qed.

(** The arrival of the search when the entry time does not bind. *)
Lemma arrival_no_wait prev loc now ns :
  r_entry_time (ns_r ns) <= now ->
  arrival glo network prev loc now ns
  = now + get_time network loc (ns_node ns) + dwell_before glo prev loc ns.
Proof.
  intros He. unfold arrival. destruct Hnn as (Ht & Ha & Hp).
  pose proof (Ht loc (ns_node ns)).
  assert (0 <= dwell_before glo prev loc ns).
  { unfold dwell_before. destruct prev; try lia;
      match goal with |- context [if ?b then _ else _] => destruct b end; lia. }
  destruct (ns_is_pickup ns); simpl; [|reflexivity].
  destruct (r_entry_time (ns_r ns)
            >? now + get_time network loc (ns_node ns)
               + dwell_before glo prev loc ns) eqn:E; [zbool; lia|reflexivity].
Qed.

Lemma nearest_float_small (z : Z) : z < 2 ^ 53 -> nearest_float z = z.
Proof.
  intros H. unfold nearest_float.
  replace (z <? 2 ^ 53) with true by (symmetry; apply Z.ltb_lt; exact H).
  reflexivity.
Qed.

Lemma float_add_small (delay value : Z) :
  0 <= delay -> 0 <= value -> delay + value < 2 ^ 53 ->
  float_add delay value = delay + value.
Proof.
  intros Hd Hv Hs. unfold float_add.
  rewrite (nearest_float_small value) by lia.
  apply nearest_float_small, Hs.
Qed.

Lemma nearest_float_nonneg (z : Z) : 0 <= z -> 0 <= nearest_float z.
Proof.
  intros H. unfold nearest_float. destruct (z <? 2 ^ 53); [exact H|].
  cbv zeta. apply Z.shiftl_nonneg.
  assert (0 <= Z.shiftr z (Z.log2 z - 52)) by (apply Z.shiftr_nonneg, H).
  match goal with |- context [if ?b then _ else _] => destruct b end; lia.
Qed.

Lemma float_add_nonneg (delay value : Z) :
  0 <= delay -> 0 <= value -> 0 <= float_add delay value.
Proof.
  intros Hd Hv. unfold float_add. apply nearest_float_nonneg.
  pose proof (nearest_float_nonneg value Hv). lia.
Qed.

Lemma stop_delay_nonneg (ns : NodeStop) (a : Z) : 0 <= stop_delay ns a.
Proof. unfold stop_delay. destruct (ns_is_pickup ns); lia. Qed.

Lemma delays_nonneg (l : list (NodeStop * Z)) :
  0 <= fold_right Z.add 0 (map (fun '(ns, a) => stop_delay ns a) l).
Proof.
  induction l as [|[ns a] l IH]; simpl; [lia|].
  pose proof (stop_delay_nonneg ns a). lia.
Qed.

(** One step of the accumulation is exact below 2^53. *)
Lemma delay_step_small (ns : NodeStop) (a delay : Z) :
  0 <= delay -> delay + stop_delay ns a < 2 ^ 53 ->
  (if ns_is_pickup ns then delay else float_add delay (stop_delay ns a))
  = delay + stop_delay ns a.
Proof.
  intros Hd Hs. pose proof (stop_delay_nonneg ns a) as Hn.
  destruct (ns_is_pickup ns) eqn:E.
  - unfold stop_delay. rewrite E. lia.
  - apply float_add_small; assumption.
Qed.

Lemma delay_loop_agrees (vehicle : Vehicle) (entered : Z) (rest : list NodeStop) :
  forall prev reached delay,
    Forall (fun ns => r_entry_time (ns_r ns) <= entered) rest ->
    entered <= reached ->
    no_batched_stops (prev :: rest) ->
    0 <= delay ->
    delay
    + fold_right Z.add 0
        (map (fun '(ns, a) => stop_delay ns a)
           (combine rest
              (arrival_times glo network (action_of prev) (ns_node prev)
                 reached rest))) < 2 ^ 53 ->
    delay_loop network vehicle prev
      (reached + get_time network (node_type prev (hd_error rest))
                   (v_node vehicle))
      delay rest
    = delay
      + fold_right Z.add 0
          (map (fun '(ns, a) => stop_delay ns a)
             (combine rest
                (arrival_times glo network (action_of prev) (ns_node prev)
                   reached rest))).
Proof.
  induction rest as [|ns rest IH]; intros prev reached delay He Hr Hb Hd Hs;
    [simpl; lia|].
  inversion He as [|? ? He1 He2]; subst. destruct Hb as [Hb1 Hb2].
  cbn [delay_loop hd_error arrival_times combine map fold_right] in *.
  rewrite (dwell_after_stop vehicle prev ns Hb1).
  rewrite (arrival_no_wait (action_of prev) (ns_node prev) reached ns) in *
    by lia.
  set (a := reached + get_time network (ns_node prev) (ns_node ns)
            + dwell_before glo (action_of prev) (ns_node prev) ns) in *.
  replace (reached + dwell_before glo (action_of prev) (ns_node prev) ns
           + get_time network (ns_node prev) (ns_node ns)) with a
    by (unfold a; lia).
  set (later := fold_right Z.add 0
                  (map (fun '(ns0, a0) => stop_delay ns0 a0)
                     (combine rest
                        (arrival_times glo network (action_of ns) (ns_node ns)
                           a rest)))) in *.
  assert (Hl : 0 <= later) by apply delays_nonneg.
  pose proof (stop_delay_nonneg ns a) as Hn.
  rewrite (delay_step_small ns a delay Hd) by lia.
  rewrite IH; [fold later; lia|exact He2| |exact Hb2|lia|fold later; lia].
  destruct Hnn as (Ht & Ha & Hp).
  pose proof (Ht (ns_node prev) (ns_node ns)).
  assert (0 <= dwell_before glo (action_of prev) (ns_node prev) ns).
  { unfold dwell_before. destruct (action_of prev); try lia;
      match goal with |- context [if ?b then _ else _] => destruct b end; lia. }
  unfold a. lia.
Qed.

(** X6. When the network carries the dwell times of the configuration,
    no time is negative, the order has no two consecutive stops of the same
    kind at the same node, all its requests have entered by the time the
    vehicle is called, and the total delay of the order under the
    arrival-time model of the search is below 2^53, [delay_all] is that
    total delay.  (From 2^53 on the float in which [delay_all] accumulates
    rounds.) *)
Theorem delay_all_agrees (vehicle : Vehicle) (order : list NodeStop)
    (current_time : Z) :
  Forall (fun ns => r_entry_time (ns_r ns) <= current_time + v_offset vehicle)
    order ->
  no_batched_stops order ->
  total_delay glo network vehicle order current_time < 2 ^ 53 ->
  delay_all network vehicle order current_time
  = total_delay glo network vehicle order current_time.
Proof.
  intros He Hb. unfold delay_all, total_delay.
  destruct order as [|ns rest]; [reflexivity|].
  inversion He as [|? ? He1 He2]; subst. cbn [arrival_times combine map fold_right].
  rewrite (arrival_no_wait NO_ACTION (v_node vehicle)
             (current_time + v_offset vehicle) ns He1).
  unfold get_vehicle_time. cbn [dwell_before].
  set (a := current_time + (v_offset vehicle
            + get_time network (v_node vehicle) (ns_node ns))).
  replace (current_time + v_offset vehicle
           + get_time network (v_node vehicle) (ns_node ns) + 0) with a
    by (unfold a; lia).
  set (later := fold_right Z.add 0
                  (map (fun '(ns0, a0) => stop_delay ns0 a0)
                     (combine rest
                        (arrival_times glo network (action_of ns) (ns_node ns)
                           a rest)))).
  intros Hs.
  assert (Hl : 0 <= later) by apply delays_nonneg.
  pose proof (stop_delay_nonneg ns a) as Hn.
  pose proof (delay_step_small ns a 0 ltac:(lia) ltac:(lia)) as Hstep.
  rewrite Hstep.
  rewrite (delay_loop_agrees vehicle (current_time + v_offset vehicle) rest
             ns a (0 + stop_delay ns a) He2); [fold later; lia| |exact Hb|lia|
             fold later; lia].
  destruct Hnn as (Ht & _). pose proof (Ht (v_node vehicle) (ns_node ns)).
  unfold a. lia.
Qed.

Lemma delay_loop_ge0 (vehicle : Vehicle) (rest : list NodeStop) :
  forall prev arrival_time delay,
    0 <= delay ->
    0 <= delay_loop network vehicle prev arrival_time delay rest.
Proof.
  induction rest as [|node rest IH]; intros prev arrival_time delay Hd; simpl;
    [exact Hd|].
  apply IH. destruct (ns_is_pickup node); [exact Hd|].
  apply float_add_nonneg; [exact Hd|apply stop_delay_nonneg].
Qed.

Lemma delay_all_ge0 (vehicle : Vehicle) (node_list : list NodeStop)
    (current_time : Z) :
  0 <= delay_all network vehicle node_list current_time.
Proof.
  unfold delay_all. destruct node_list as [|node rest]; [lia|].
  apply delay_loop_ge0. destruct (ns_is_pickup node); [lia|].
  apply float_add_nonneg; [lia|apply stop_delay_nonneg].
Qed.

(** X7. [delay_all] is never negative, whatever the order and the network:
    the cost it puts on a trip is never the infeasibility sentinel -1. *)
Theorem delay_all_nonneg (vehicle : Vehicle) (node_list : list NodeStop)
    (current_time : Z) :
  0 <= delay_all network vehicle node_list current_time
  /\ delay_all network vehicle node_list current_time <> -1.
Proof.
  pose proof (delay_all_ge0 vehicle node_list current_time). lia.
Qed.

End DelayFacts.

Lemma delay_all_agrees_witness :
  delay_all Examples.line Examples.two_onboard
    (v_order_record Examples.two_onboard) 0
  = total_delay Examples.defaults Examples.line Examples.two_onboard
      (v_order_record Examples.two_onboard) 0.
Proof.
  apply (delay_all_agrees Examples.defaults Examples.line).
  - reflexivity.
  - reflexivity.
  - apply line_nonneg; simpl; lia.
  - repeat constructor; simpl; lia.
  - simpl. split; [|exact I]. intros _. discriminate.
  - vm_compute. reflexivity.
Defined.

(** From 2^53 on the accumulation rounds: a passenger who was due at time
    0 and is dropped at the node of the vehicle at time 2^53 + 1 has the
    delay 2^53 + 1, and [delay_all] returns 2^53. *)
Lemma delay_all_rounds :
  delay_all Examples.line Counterexamples.overdue
    (v_order_record Counterexamples.overdue) (2 ^ 53 + 1)
  = 2 ^ 53
  /\ total_delay Examples.defaults Examples.line Counterexamples.overdue
       (v_order_record Counterexamples.overdue) (2 ^ 53 + 1)
     = 2 ^ 53 + 1.
Proof. split; vm_compute; reflexivity. Qed.

(** ** The previous assignment in the trip list *)

Section MemoryTrip.

Variable glo : Glo.
Variable network : Network.
Variable unlocks_id : MetaNodeStop -> Z.

(** X12. When the stored order is not empty and no trip of level
    [|pending_requests|] visits the same requests in the same sequence, the
    Memory replay is what decides, as long as the objective is not
    CTSP_DELAY: a replay of cost -1 is fatal, and any other replay is
    emitted as the last trip, with [use_memory] set and the pending
    requests as its requests. *)
Theorem memory_trip_emitted vehicle current_time rounds cost order :
  String.eqb (CTSP_OBJECTIVE glo) "CTSP_DELAY" = false ->
  v_order_record vehicle <> [] ->
  existsb (fun trip => t_cost trip =? -1) (List.concat rounds) = false ->
  (forall trip,
      In trip (nth (List.length (v_pending_requests vehicle)) rounds []) ->
      stop_ids (t_order_record trip) <> stop_ids (v_order_record vehicle)) ->
  travel glo network unlocks_id vehicle (v_pending_requests vehicle)
    current_time "MEMORY" = Return (cost, order) ->
  compile_trips glo network unlocks_id vehicle current_time rounds
  = if cost =? -1
    then Raises "Previous assignment no longer feasible for vehicle"
    else Return (List.concat rounds
                 ++ [mkTrip cost false true order (v_pending_requests vehicle)]).
Proof.
  intros Hobj Hne Hcost Habsent Hmem. unfold compile_trips. rewrite Hcost.
  destruct (v_order_record vehicle) as [|ns rest] eqn:Hrec; [contradiction|].
  match goal with |- (if existsb ?f ?l then _ else _) = _ =>
    destruct (existsb f l) eqn:Hex end.
  - exfalso. apply existsb_exists in Hex. destruct Hex as (ids & Hin & Heq).
    destruct (list_eq_dec Z.eq_dec (stop_ids (ns :: rest)) ids) as [E|E];
      [|discriminate].
    destruct (Nat.ltb (List.length (v_pending_requests vehicle))
                (List.length rounds)); [|destruct Hin].
    apply in_map_iff in Hin. destruct Hin as (trip & Hids & Htrip).
    apply (Habsent trip Htrip). congruence.
  - unfold previoustrip, stored_cost. rewrite Hmem, Hobj. simpl. reflexivity.
Qed.

(** The test of the source compares id sequences, so that it also fires
    when no trip of the level has the request set of the stored order. *)
Lemma absent_set_absent_sequence (stored candidate : list NodeStop) :
  ~ (forall id, In id (stop_ids stored) <-> In id (stop_ids candidate)) ->
  stop_ids candidate <> stop_ids stored.
Proof. intros H E. apply H. intros id. rewrite E. tauto. Qed.

End MemoryTrip.

Lemma memory_trip_emitted_witness :
  compile_trips Examples.defaults Examples.line Examples.no_ties
    Examples.two_onboard 0
    [[mkTrip 120 false false
        [dropoff_stop Examples.p2; dropoff_stop Examples.p1] []]; []]
  = if 180 =? -1
    then Raises "Previous assignment no longer feasible for vehicle"
    else Return (List.concat
                   [[mkTrip 120 false false
                       [dropoff_stop Examples.p2; dropoff_stop Examples.p1] []];
                    []]
                 ++ [mkTrip 180 false true
                       [dropoff_stop Examples.p1; dropoff_stop Examples.p2]
                       (v_pending_requests Examples.two_onboard)]).
Proof.
  apply (memory_trip_emitted Examples.defaults Examples.line Examples.no_ties
           Examples.two_onboard 0).
  - reflexivity.
  - discriminate.
  - reflexivity.
  - intros trip [<-|[]]. simpl. discriminate.
  - vm_compute. reflexivity.
Defined.

(** ** The Memory replay (src/algo/insersion.py, [memory]) *)

Section MemoryReplay.

Variable glo : Glo.
Variable network : Network.
Variable unlocks_id : MetaNodeStop -> Z.

Lemma forest_size_chain (stops : list NodeStop) :
  forest_size (chain stops) = List.length stops.
Proof.
  induction stops as [|ns rest IH]; [reflexivity|].
  unfold forest_size in *. simpl. rewrite IH. lia.
Qed.

(** The search on a chain follows the chain, and finds it feasible exactly
    when the chain respects capacity and deadlines as it stands. *)
Lemma chain_search (stops : list NodeStop) :
  nonneg_times glo network ->
  forall fuel prev loc cap now,
    (List.length stops < fuel)%nat -> 0 <= now ->
    recursive_search glo network unlocks_id fuel loc cap (chain stops) now (-1) prev
    = Some (if route_ok glo network prev loc cap now stops
            then (route_end glo network prev loc now stops, rev stops)
            else (-1, [])).
Proof.
  intros Hnn. induction stops as [|ns rest IH]; intros fuel prev loc cap now Hf Hnow;
    (destruct fuel as [|fuel]; [simpl in Hf; lia|]).
  - reflexivity.
  - rewrite recursive_search_S. cbn [chain sorted sorted_insert search_loop].
    cbn [same_node_duplicate m_node m_unlocks app]. rewrite Z.eqb_refl.
    cbn [negb andb route_ok route_end].
    pose proof (arrival_ge glo network prev loc now ns Hnn) as Hge.
    set (a := arrival glo network prev loc now ns) in *.
    set (c := if ns_is_pickup ns then cap - 1 else cap + 1).
    destruct (c <? 0) eqn:Hc.
    { replace (0 <=? c) with false by (symmetry; zbool; apply Z.leb_gt; lia).
      reflexivity. }
    replace (0 <=? c) with true by (symmetry; zbool; apply Z.leb_le; lia).
    destruct (ns_is_pickup ns && (a >? r_latest_boarding (ns_r ns))) eqn:Hb.
    { zbool. rewrite H. cbn [negb orb andb].
      replace (a <=? r_latest_boarding (ns_r ns)) with false
        by (symmetry; apply Z.leb_gt; lia).
      reflexivity. }
    replace (negb (ns_is_pickup ns) || (a <=? r_latest_boarding (ns_r ns)))
      with true.
    2:{ symmetry. destruct (ns_is_pickup ns); [|reflexivity]. simpl in *.
        rewrite Z.gtb_ltb in Hb. apply Z.ltb_ge in Hb. apply Z.leb_le. lia. }
    unfold get_alight_deadline.
    destruct (r_latest_alighting (ns_r ns) <? a) eqn:Ha.
    { replace (a <=? r_latest_alighting (ns_r ns)) with false
        by (symmetry; zbool; apply Z.leb_gt; lia).
      reflexivity. }
    replace (a <=? r_latest_alighting (ns_r ns)) with true
      by (symmetry; zbool; apply Z.leb_le; lia).
    cbn [andb].
    destruct (basic_reachability network a (ns_node ns) (chain rest)) eqn:Hr;
      cbn [negb].
    + rewrite IH by (simpl in Hf; lia).
      destruct (route_ok glo network (action_of ns) (ns_node ns) c a rest).
      * pose proof (route_end_ge glo network rest Hnn (action_of ns)
                      (ns_node ns) a) as Hend.
        replace (route_end glo network (action_of ns) (ns_node ns) a rest =? -1)
          with false by (symmetry; apply Z.eqb_neq; lia).
        reflexivity.
      * reflexivity.
    + destruct rest as [|ns' rest']; [discriminate|].
      cbn [chain basic_reachability forallb m_node] in Hr.
      rewrite andb_true_r in Hr. apply Z.leb_gt in Hr.
      cbn [route_ok].
      assert (Hlate : deadline ns'
                      < arrival glo network (action_of ns) (ns_node ns) a ns').
      { unfold arrival. destruct Hnn as (Ht & Hda & Hdp).
        assert (0 <= dwell_before glo (action_of ns) (ns_node ns) ns').
        { unfold dwell_before. destruct (action_of ns); try lia;
            match goal with |- context [if ?b then _ else _] => destruct b end;
            lia. }
        match goal with |- context [if ?b then _ else _] =>
          destruct b eqn:E end; zbool; lia. }
      unfold deadline in Hlate.
      destruct (ns_is_pickup ns') eqn:Hp'; cbn [negb orb].
      * replace (arrival glo network (action_of ns) (ns_node ns) a ns'
                 <=? r_latest_boarding (ns_r ns')) with false
          by (symmetry; apply Z.leb_gt; lia).
        rewrite andb_false_r. reflexivity.
      * replace (arrival glo network (action_of ns) (ns_node ns) a ns'
                 <=? r_latest_alighting (ns_r ns')) with false
          by (symmetry; apply Z.leb_gt; lia).
        rewrite andb_false_r. reflexivity.
Qed.

(** X1. For travel and dwell times that are not negative and a call time
    that is not negative, the Memory replay never reorders: it returns the
    stored [order_record] itself, with the cost of that order, when the
    stored order still respects capacity and deadlines from the present
    position of the vehicle, and [(-1, [])] when it no longer does. *)
Theorem memory_replays_stored_order vehicle requests current_time :
  nonneg_times glo network ->
  0 <= current_time + v_offset vehicle ->
  travel glo network unlocks_id vehicle requests current_time "MEMORY"
  = Return
      (if route_ok glo network NO_ACTION (v_node vehicle)
            (v_capacity vehicle - Z.of_nat (List.length (v_passengers vehicle)))
            (current_time + v_offset vehicle) (v_order_record vehicle)
       then (order_cost glo network vehicle current_time (v_order_record vehicle),
             v_order_record vehicle)
       else (-1, [])).
Proof.
  intros Hnn Hnow. unfold travel. cbn [String.eqb Ascii.eqb Bool.eqb].
  unfold memory.
  rewrite (chain_search (v_order_record vehicle) Hnn)
    by (rewrite ?forest_size_chain; lia).
  destruct (route_ok glo network NO_ACTION (v_node vehicle)
              (v_capacity vehicle - Z.of_nat (List.length (v_passengers vehicle)))
              (current_time + v_offset vehicle) (v_order_record vehicle)).
  - unfold order_cost, format_path. cbn [fst snd]. rewrite rev_involutive.
    reflexivity.
  - rewrite format_path_negative by lia. reflexivity.
Qed.

End MemoryReplay.

Lemma memory_replays_stored_order_witness :
  travel Examples.defaults Examples.line Examples.no_ties Examples.late
    [] 1000 "MEMORY"
  = Return
      (if route_ok Examples.defaults Examples.line NO_ACTION
            (v_node Examples.late)
            (v_capacity Examples.late
             - Z.of_nat (List.length (v_passengers Examples.late)))
            (1000 + v_offset Examples.late) (v_order_record Examples.late)
       then (order_cost Examples.defaults Examples.line Examples.late 1000
               (v_order_record Examples.late),
             v_order_record Examples.late)
       else (-1, [])).
Proof.
  apply (memory_replays_stored_order Examples.defaults Examples.line
           Examples.no_ties Examples.late [] 1000).
  - apply line_nonneg; simpl; lia.
  - simpl. lia.
Defined.

(** ** The time-constrained search against the clock *)

Section TimedSearch.

Variable glo : Glo.
Variable network : Network.
Variable unlocks_id : MetaNodeStop -> Z.
Variable wall_clock : nat -> Z.

Notation search_timed :=
  (recursive_search_timed glo network unlocks_id wall_clock).
Notation loop_timed := (search_loop_timed glo network wall_clock).
Notation sound_result := (sound_result glo network).

Lemma search_loop_timed_sound
    (rec : Z -> Z -> list MetaNodeStop -> Z -> Z -> Action -> nat
           -> option (Z * list NodeStop * nat))
    (loc cap now : Z) (prev : Action) (start_time time_limit : Z)
    (F : list MetaNodeStop) (best0 : Z) :
  (forall loc' cap' F' now' best' prev' reads' t tail reads'',
      rec loc' cap' F' now' best' prev' reads' = Some (t, tail, reads'') ->
      sound_result prev' loc' cap' F' now' best' (t, tail)) ->
  forall todo visited previous best_time best_tail reads t tail reads',
    Permutation F (visited ++ todo) ->
    sound_result prev loc cap F now best0 (best_time, best_tail) ->
    loop_timed rec loc cap now prev start_time time_limit visited todo
      previous best_time best_tail reads = Some (t, tail, reads') ->
    sound_result prev loc cap F now best0 (t, tail).
Proof.
  intros Hrec. induction todo as [|m todo IH];
    intros visited previous best_time best_tail reads t tail reads' HP Hinv Hrun;
    simpl in Hrun.
  - inversion Hrun; subst. exact Hinv.
  - assert (HP' : Permutation F ((visited ++ [m]) ++ todo)).
    { rewrite <- app_assoc. exact HP. }
    destruct (negb (time_limit =? 0)
              && (wall_clock reads - start_time >? time_limit)).
    { inversion Hrun; subst. exact Hinv. }
    set (reads1 := if negb (time_limit =? 0) then S reads else reads) in *.
    destruct (same_node_duplicate previous m); [eauto|].
    destruct (negb (best_time =? -1)
              && (arrival glo network prev loc now (m_node m) >=? best_time));
      [eauto|].
    set (c := if ns_is_pickup (m_node m) then cap - 1 else cap + 1) in *.
    destruct (c <? 0) eqn:Hc; [eauto|].
    destruct (ns_is_pickup (m_node m)
              && (arrival glo network prev loc now (m_node m)
                  >? r_latest_boarding (ns_r (m_node m)))) eqn:Hb; [eauto|].
    destruct (get_alight_deadline (ns_r (m_node m))
              <? arrival glo network prev loc now (m_node m)) eqn:Ha; [eauto|].
    destruct (negb (basic_reachability network
                (arrival glo network prev loc now (m_node m)) (ns_node (m_node m))
                (visited ++ todo ++ m_unlocks m))); [eauto|].
    destruct (rec (ns_node (m_node m)) c (visited ++ todo ++ m_unlocks m)
                (arrival glo network prev loc now (m_node m)) best_time
                (action_of (m_node m)) reads1)
      as [[[tail_time tail_stops] reads2]|] eqn:Hr; [|discriminate].
    destruct (tail_time =? -1) eqn:Hm1; [eauto|].
    destruct ((best_time =? -1) || (tail_time <? best_time)) eqn:Hup; [|eauto].
    apply (IH _ _ _ _ _ _ _ _ HP') in Hrun; [exact Hrun|].
    right. simpl. rewrite rev_app_distr. simpl.
    apply Hrec in Hr. destruct Hr as [[Ht _]|(HL & Hok & Hend)]; simpl in *.
    + exfalso. subst tail_time.
      apply Z.eqb_neq in Hm1. apply orb_true_iff in Hup.
      destruct Hup as [Hup|Hup]; [apply Z.eqb_eq in Hup|apply Z.ltb_lt in Hup]; lia.
    + split; [|split].
      * apply Lin_cons with (F' := visited ++ todo).
        -- eapply perm_trans; [exact HP|].
           apply Permutation_sym, Permutation_middle.
        -- rewrite <- app_assoc. exact HL.
      * fold c. rewrite Hok, andb_true_r.
        unfold get_alight_deadline in Ha.
        apply Z.ltb_ge in Hc, Ha.
        rewrite !andb_true_iff. repeat split.
        -- apply Z.leb_le. lia.
        -- destruct (ns_is_pickup (m_node m)); simpl in *; [|reflexivity].
           zbool. apply Z.leb_le. lia.
        -- apply Z.leb_le. lia.
      * exact Hend.
Qed.

Lemma recursive_search_timed_result (fuel : nat) :
  forall loc cap F now best start_time time_limit prev reads t tail reads',
    search_timed fuel loc cap F now best start_time time_limit prev reads
      = Some (t, tail, reads') ->
    sound_result prev loc cap F now best (t, tail).
Proof.
  induction fuel as [|fuel IH];
    intros loc cap F now best start_time time_limit prev reads t tail reads' Hrun;
    [discriminate|].
  cbn [recursive_search_timed] in Hrun.
  pose proof (sorted_perm unlocks_id F) as HP.
  destruct (sorted unlocks_id F) as [|m l] eqn:Hs.
  - inversion Hrun; subst. right; simpl.
    apply Permutation_nil in HP. subst F.
    repeat split. constructor.
  - refine (search_loop_timed_sound _ loc cap now prev start_time time_limit
              F best _ (m :: l) [] None best [] reads t tail reads' _ _ Hrun).
    + intros loc' cap' F' now' best' prev' reads1 t' tail' reads2 H.
      eapply IH. exact H.
    + simpl. apply Permutation_sym, HP.
    + left. split; reflexivity.
Qed.

(** X2. Whatever the clock reads, the time-constrained search, called as
    its signature says, returns, and what it returns is either the bound
    [best_time] it was given with no stops, or the end time of a complete
    route through the stop graph that respects capacity and deadlines: a
    timeout can lose routes but never yields an invalid or a partial one. *)
Theorem recursive_search_timed_sound loc cap F now best start_time time_limit
    prev reads :
  exists t tail reads',
    search_timed (S (forest_size F)) loc cap F now best start_time time_limit
      prev reads = Some (t, tail, reads')
    /\ sound_result prev loc cap F now best (t, tail).
Proof.
  destruct (search_timed (S (forest_size F)) loc cap F now best start_time
              time_limit prev reads) as [[[t tail] reads']|] eqn:Hrun.
  - exists t, tail, reads'. split; [reflexivity|].
    eapply recursive_search_timed_result. exact Hrun.
  - exfalso. revert Hrun.
    apply (recursive_search_timed_total glo network unlocks_id wall_clock). lia.
Qed.

Lemma search_loop_timed_agrees
    (rec : Z -> Z -> list MetaNodeStop -> Z -> Z -> Action
           -> option (Z * list NodeStop))
    (rec_timed : Z -> Z -> list MetaNodeStop -> Z -> Z -> Action -> nat
           -> option (Z * list NodeStop * nat))
    (loc cap now : Z) (prev : Action) (start_time time_limit : Z) :
  (time_limit = 0 \/ forall n, wall_clock n - start_time <= time_limit) ->
  (forall loc' cap' F' now' best' prev' reads',
      option_map fst (rec_timed loc' cap' F' now' best' prev' reads')
      = rec loc' cap' F' now' best' prev') ->
  forall todo visited previous best_time best_tail reads,
    option_map fst
      (loop_timed rec_timed loc cap now prev start_time time_limit visited todo
         previous best_time best_tail reads)
    = search_loop glo network rec loc cap now prev visited todo previous
        best_time best_tail.
Proof.
  intros Hclock Hrec. induction todo as [|m todo IH];
    intros visited previous best_time best_tail reads; simpl; [reflexivity|].
  replace (negb (time_limit =? 0)
           && (wall_clock reads - start_time >? time_limit)) with false.
  2:{ symmetry. destruct Hclock as [->|Hclock]; [reflexivity|].
      apply andb_false_iff. right. rewrite Z.gtb_ltb. apply Z.ltb_ge.
      apply Hclock. }
  set (reads1 := if negb (time_limit =? 0) then S reads else reads).
  repeat match goal with
  | |- option_map fst (if ?b then _ else _) = (if ?b then _ else _) =>
    destruct b; [apply IH|]
  end.
  rewrite <- (Hrec (ns_node (m_node m))
                (if ns_is_pickup (m_node m) then cap - 1 else cap + 1)
                (visited ++ todo ++ m_unlocks m)
                (arrival glo network prev loc now (m_node m)) best_time
                (action_of (m_node m)) reads1).
  destruct (rec_timed (ns_node (m_node m))
              (if ns_is_pickup (m_node m) then cap - 1 else cap + 1)
              (visited ++ todo ++ m_unlocks m)
              (arrival glo network prev loc now (m_node m)) best_time
              (action_of (m_node m)) reads1)
    as [[[tail_time tail_stops] reads2]|]; cbn [option_map fst]; [|reflexivity].
  destruct (tail_time =? -1); [apply IH|].
  destruct ((best_time =? -1) || (tail_time <? best_time)); apply IH.
Qed.

(** X3. Without a time limit ([time_limit = 0]), or when the clock never
    reads more than [time_limit] past [start_time], the time-constrained
    search returns what the untimed search returns. *)
Theorem recursive_search_timed_agrees (fuel : nat) loc cap F now best
    start_time time_limit prev reads :
  (time_limit = 0 \/ forall n, wall_clock n - start_time <= time_limit) ->
  option_map fst
    (search_timed fuel loc cap F now best start_time time_limit prev reads)
  = recursive_search glo network unlocks_id fuel loc cap F now best prev.
Proof.
  intros Hclock. revert loc cap F now best prev reads.
  induction fuel as [|fuel IH]; intros loc cap F now best prev reads;
    [reflexivity|].
  cbn [recursive_search_timed recursive_search].
  destruct (sorted unlocks_id F) as [|m l]; [reflexivity|].
  apply search_loop_timed_agrees; [exact Hclock|].
  intros. apply IH.
Qed.

End TimedSearch.

Lemma recursive_search_timed_agrees_witness :
  option_map fst
    (recursive_search_timed Examples.defaults Examples.line Examples.no_ties
       Examples.clock 3 0 4 [request_meta Examples.rider] 0 (-1) 1700000000 0
       NO_ACTION 0)
  = recursive_search Examples.defaults Examples.line Examples.no_ties 3 0 4
      [request_meta Examples.rider] 0 (-1) NO_ACTION.
Proof.
  apply (recursive_search_timed_agrees Examples.defaults Examples.line
           Examples.no_ties Examples.clock 3 0 4 [request_meta Examples.rider]
           0 (-1) 1700000000 0 NO_ACTION 0).
  left. reflexivity.
Defined.

(** ** The order in which a set is iterated *)

Section SetOrder.

Variable glo : Glo.
Variable network : Network.
Variable unlocks_id : MetaNodeStop -> Z.

Notation mlt := (meta_lt unlocks_id).
Notation msorted := (sorted unlocks_id).
Notation minsert := (sorted_insert unlocks_id).

(** [MetaNodeStop.__lt__] is the lexicographic order on node, kind
    (dropoffs first), request id and address of the unlock list. *)
Lemma meta_lt_spec (a b : MetaNodeStop) :
  mlt a b = true <->
  ns_node (m_node a) < ns_node (m_node b)
  \/ (ns_node (m_node a) = ns_node (m_node b)
      /\ ((ns_is_pickup (m_node a) = false /\ ns_is_pickup (m_node b) = true)
          \/ (ns_is_pickup (m_node a) = ns_is_pickup (m_node b)
              /\ (r_id (ns_r (m_node a)) < r_id (ns_r (m_node b))
                  \/ (r_id (ns_r (m_node a)) = r_id (ns_r (m_node b))
                      /\ unlocks_id a < unlocks_id b))))).
Proof.
  unfold meta_lt, nodestop_lt, nodestop_eq, request_eq.
  destruct (ns_is_pickup (m_node a)), (ns_is_pickup (m_node b));
    cbn [negb andb orb Bool.eqb];
    repeat match goal with
    | |- context [?x <? ?y] => destruct (x <? y) eqn:?
    | |- context [?x >? ?y] => destruct (x >? y) eqn:?
    | |- context [?x =? ?y] => destruct (x =? y) eqn:?
    end; cbn [negb andb orb]; zbool;
    (split; [intros; try discriminate|intros; try reflexivity]);
    try lia; intuition (try discriminate; try lia).
Qed.

Lemma meta_lt_false (a b : MetaNodeStop) :
  mlt a b = false <-> ~ (mlt a b = true).
Proof.
  destruct (mlt a b); split; intro H; try discriminate; try reflexivity.
  exfalso. apply H. reflexivity.
Qed.

Notation not_after := (not_after unlocks_id).

Lemma not_after_trans (a b c : MetaNodeStop) :
  not_after a b -> not_after b c -> not_after a c.
Proof.
  unfold not_after. rewrite !meta_lt_false, !meta_lt_spec.
  destruct (ns_is_pickup (m_node a)), (ns_is_pickup (m_node b)),
    (ns_is_pickup (m_node c)); intros H1 H2 H3;
    assert (Hf : true = false -> False) by discriminate;
    assert (Hg : false = true -> False) by discriminate;
    intuition lia.
Qed.

Lemma meta_lt_asym (a b : MetaNodeStop) : mlt a b = true -> mlt b a = false.
Proof.
  rewrite meta_lt_false, !meta_lt_spec.
  destruct (ns_is_pickup (m_node a)), (ns_is_pickup (m_node b)); intros H1 H2;
    intuition (try discriminate; try lia).
Qed.

Lemma meta_lt_total (a b : MetaNodeStop) :
  nodestop_eq (m_node a) (m_node b) = false ->
  mlt a b = false -> mlt b a = true.
Proof.
  rewrite meta_lt_false, !meta_lt_spec. unfold nodestop_eq, request_eq.
  destruct (ns_is_pickup (m_node a)), (ns_is_pickup (m_node b));
    cbn [Bool.eqb]; rewrite ?andb_true_r, ?andb_false_r; intros He H;
    try apply Z.eqb_neq in He;
    assert (Hc : ns_node (m_node a) < ns_node (m_node b)
                 \/ ns_node (m_node a) = ns_node (m_node b)
                 \/ ns_node (m_node b) < ns_node (m_node a)) by lia;
    assert (Hr : r_id (ns_r (m_node a)) < r_id (ns_r (m_node b))
                 \/ r_id (ns_r (m_node a)) = r_id (ns_r (m_node b))
                 \/ r_id (ns_r (m_node b)) < r_id (ns_r (m_node a))) by lia;
    intuition (try discriminate; try lia).
Qed.

Lemma sorted_insert_elements (x y : MetaNodeStop) (l : list MetaNodeStop) :
  In y (minsert x l) -> y = x \/ In y l.
Proof.
  intros H. apply (Permutation_in _ (sorted_insert_perm unlocks_id x l)) in H.
  destruct H; auto.
Qed.

Lemma sorted_insert_strongly (x : MetaNodeStop) (l : list MetaNodeStop) :
  StronglySorted not_after l -> StronglySorted not_after (minsert x l).
Proof.
  induction l as [|y l IH]; intros Hs; simpl.
  - repeat constructor.
  - inversion Hs as [|? ? Hl Hy]; subst.
    destruct (mlt y x) eqn:E.
    + constructor; [auto|]. apply Forall_forall. intros z Hz.
      apply sorted_insert_elements in Hz. destruct Hz as [->|Hz].
      * apply meta_lt_asym, E.
      * rewrite Forall_forall in Hy. auto.
    + constructor; [exact Hs|]. constructor; [exact E|].
      rewrite Forall_forall in *. intros z Hz.
      apply (not_after_trans x y z); [exact E|auto].
Qed.

Lemma sorted_strongly (l : list MetaNodeStop) : StronglySorted not_after (msorted l).
Proof.
  induction l as [|x l IH]; simpl; [constructor|].
  apply sorted_insert_strongly, IH.
Qed.

Lemma strongly_sorted_unique (l1 : list MetaNodeStop) :
  forall l2,
    Permutation l1 l2 ->
    StronglySorted not_after l1 -> StronglySorted not_after l2 ->
    (forall a b, In a l1 -> In b l1 -> not_after a b -> not_after b a -> a = b) ->
    l1 = l2.
Proof.
  induction l1 as [|a l1 IH]; intros l2 HP H1 H2 Hanti.
  - apply Permutation_nil in HP. subst. reflexivity.
  - destruct l2 as [|b l2].
    { apply Permutation_sym, Permutation_nil in HP. discriminate. }
    inversion H1 as [|? ? Hs1 Ha]; subst.
    inversion H2 as [|? ? Hs2 Hb]; subst.
    rewrite Forall_forall in Ha, Hb.
    assert (Hab : a = b).
    { assert (Hin_a : In a (b :: l2))
        by (apply (Permutation_in _ HP); left; reflexivity).
      assert (Hin_b : In b (a :: l1))
        by (apply (Permutation_in _ (Permutation_sym HP)); left; reflexivity).
      destruct Hin_a as [E|Hin_a]; [congruence|].
      destruct Hin_b as [E|Hin_b]; [congruence|].
      apply Hanti; [left; reflexivity|right; exact Hin_b|auto|auto]. }
    subst b. f_equal. apply IH; auto.
    + eapply Permutation_cons_inv. exact HP.
    + intros x y Hx Hy. apply Hanti; right; assumption.
Qed.

Lemma sorted_set_order (l1 l2 : list MetaNodeStop) :
  Permutation l1 l2 -> distinct_stops l1 -> msorted l1 = msorted l2.
Proof.
  intros HP Hd. apply strongly_sorted_unique.
  - eapply perm_trans; [apply sorted_perm|].
    eapply perm_trans; [exact HP|apply Permutation_sym, sorted_perm].
  - apply sorted_strongly.
  - apply sorted_strongly.
  - intros a b Ha Hb Hab Hba.
    apply (Permutation_in _ (sorted_perm unlocks_id l1)) in Ha, Hb.
    destruct (ForallOrdPairs_In Hd a b Ha Hb) as [E|[E|E]]; [exact E| |].
    + apply (meta_lt_total a b E) in Hba. unfold not_after in Hab. congruence.
    + apply (meta_lt_total b a E) in Hab. unfold not_after in Hba. congruence.
Qed.

Lemma recursive_search_perm (fuel : nat) loc cap (l1 l2 : list MetaNodeStop)
    now best prev :
  Permutation l1 l2 -> distinct_stops l1 ->
  recursive_search glo network unlocks_id fuel loc cap l1 now best prev
  = recursive_search glo network unlocks_id fuel loc cap l2 now best prev.
Proof.
  intros HP Hd. destruct fuel as [|fuel]; [reflexivity|].
  rewrite !recursive_search_S, (sorted_set_order l1 l2 HP Hd). reflexivity.
Qed.

(** X4. The search does not depend on the order in which the set of the
    available stops is iterated, as long as no two available stops are
    equal as [NodeStop]s (same request and same kind): [sorted] then puts
    them in one order, whatever order the set hands them over in. *)
Theorem recursive_search_set_order (fuel : nat) loc cap (l1 l2 : list MetaNodeStop)
    now best prev :
  Permutation l1 l2 -> distinct_stops l1 ->
  recursive_search glo network unlocks_id fuel loc cap l1 now best prev
  = recursive_search glo network unlocks_id fuel loc cap l2 now best prev.
Proof. apply recursive_search_perm. Qed.

(** *** The order in which the requests of a trip are listed *)

Lemma request_set_fixed (l : list Request) :
  NoDup (map r_id l) -> request_set l = l.
Proof.
  induction l as [|x l IH]; simpl; intros H; [reflexivity|].
  inversion H as [|? ? Hx Hl]; subst. rewrite (IH Hl). f_equal.
  apply forallb_filter_id. apply forallb_forall. intros y Hy.
  unfold request_eq. apply negb_true_iff, Z.eqb_neq. intros E.
  apply Hx. rewrite E. apply in_map, Hy.
Qed.

Lemma filter_length_perm {A : Type} (f : A -> bool) (l l' : list A) :
  Permutation l l' -> List.length (filter f l) = List.length (filter f l').
Proof.
  induction 1; simpl; try congruence.
  - destruct (f x); simpl; congruence.
  - destruct (f x), (f y); reflexivity.
Qed.

Lemma ordpairs_app {A : Type} (R : A -> A -> Prop) (l1 l2 : list A) :
  ForallOrdPairs R l1 -> ForallOrdPairs R l2 ->
  (forall a b, In a l1 -> In b l2 -> R a b) ->
  ForallOrdPairs R (l1 ++ l2).
Proof.
  induction 1 as [|a l1 Ha H1 IH]; intros H2 Hc; simpl; [exact H2|].
  constructor.
  - apply Forall_app. split; [exact Ha|].
    apply Forall_forall. intros b Hb. apply Hc; [left; reflexivity|exact Hb].
  - apply IH; [exact H2|]. intros x y Hx Hy. apply Hc; [right; exact Hx|exact Hy].
Qed.

Lemma request_remove_NoDup (x : Request) (l : list Request) :
  NoDup (map r_id l) -> NoDup (map r_id (request_remove x l)).
Proof.
  induction l as [|y l IH]; simpl; intros H; [constructor|].
  inversion H as [|? ? Hy Hl]; subst.
  destruct (request_eq x y); [exact Hl|]. simpl. constructor; [|auto].
  intros Hin. apply Hy. apply (request_remove_ids x l _ Hl) in Hin. tauto.
Qed.

Lemma onboard_stops_distinct (record : list NodeStop) :
  forall s, NoDup (map r_id s) ->
    ForallOrdPairs (fun a b => request_eq (ns_r a) (ns_r b) = false)
      (onboard_stops s record).
Proof.
  induction record as [|ns rest IH]; intros s Hs; simpl; [constructor|].
  destruct (request_mem (ns_r ns) s) eqn:Hm; [|auto].
  constructor; [|apply IH, request_remove_NoDup, Hs].
  apply Forall_forall. intros n' Hn'.
  apply onboard_stops_origin in Hn'. destruct Hn' as [_ Hmem].
  apply request_mem_ids, (request_remove_ids _ _ _ Hs) in Hmem.
  unfold request_eq. apply Z.eqb_neq. intros E. destruct Hmem as [_ Hne].
  apply Hne. symmetry. exact E.
Qed.

Lemma distinct_available (vehicle : Vehicle) (requests : list Request)
    (locked : bool) :
  NoDup (map r_id requests) ->
  (forall r, In r requests -> request_mem r (v_passengers vehicle) = false) ->
  let onboard := onboard_stops (request_set (v_passengers vehicle))
                   (v_order_record vehicle) in
  distinct_stops (map request_meta requests
                  ++ (if locked then chain onboard else free_stops onboard)).
Proof.
  intros Hn Hp onboard. apply ordpairs_app.
  - clear Hp. induction requests as [|r l IH]; simpl; [constructor|].
    inversion Hn as [|? ? Hr Hl]; subst. constructor; [|auto].
    apply Forall_forall. intros m Hm. apply in_map_iff in Hm.
    destruct Hm as (r' & <- & Hr'). unfold nodestop_eq, request_eq. simpl.
    rewrite andb_true_r. apply Z.eqb_neq. intros E. apply Hr. rewrite E.
    apply in_map, Hr'.
  - pose proof (onboard_stops_distinct (v_order_record vehicle)
                  (request_set (v_passengers vehicle))
                  (request_set_NoDup _)) as Hd.
    fold onboard in Hd. destruct locked.
    + destruct onboard as [|ns rest]; simpl; repeat constructor.
    + unfold free_stops. induction Hd as [|ns rest Hns Hrest IH]; simpl;
        constructor; [|exact IH].
      apply Forall_forall. intros m Hm. apply in_map_iff in Hm.
      destruct Hm as (n' & <- & Hn'). rewrite Forall_forall in Hns.
      unfold nodestop_eq. simpl. rewrite (Hns n' Hn'). reflexivity.
  - intros a b Ha Hb. apply in_map_iff in Ha. destruct Ha as (r & <- & Hr).
    assert (Hb' : In (m_node b) onboard).
    { destruct locked.
      - destruct onboard as [|ns rest]; [destruct Hb|].
        destruct Hb as [<-|[]]. left. reflexivity.
      - apply in_map_iff in Hb. destruct Hb as (n' & <- & Hn'). exact Hn'. }
    apply onboard_stops_origin in Hb'. destruct Hb' as [_ Hmem].
    rewrite request_mem_set in Hmem.
    unfold nodestop_eq. simpl. apply andb_false_iff. left.
    unfold request_eq. apply Z.eqb_neq. intros E.
    specialize (Hp r Hr). apply request_mem_ids in Hmem.
    rewrite <- E in Hmem. apply request_mem_ids in Hmem. congruence.
Qed.

(** X5. For a vehicle that stores a stop for every passenger, the route
    found for a set of requests does not depend on the order in which the
    requests are listed, when the requests have different ids and none of
    them has the id of a passenger of the vehicle.  (When a stop of a
    passenger is missing, lines 216-221 of the source address stops of the
    last listed requests instead, and the result depends on the
    listing.) *)
Theorem travel_request_order vehicle (requests requests' : list Request)
    current_time trigger :
  stops_stored vehicle ->
  Permutation requests requests' ->
  NoDup (map r_id requests) ->
  (forall r, In r requests -> request_mem r (v_passengers vehicle) = false) ->
  travel glo network unlocks_id vehicle requests current_time trigger
  = travel glo network unlocks_id vehicle requests' current_time trigger.
Proof.
  intros Hs HP Hn Hp. unfold travel.
  destruct (String.eqb trigger "MEMORY"); [reflexivity|].
  destruct (String.eqb trigger "REBALANCING"); [reflexivity|].
  unfold new_travel, prepare_stops. cbv zeta.
  rewrite (stops_stored_in_range vehicle requests Hs),
    (stops_stored_in_range vehicle requests' Hs).
  unfold stops_stored in Hs. rewrite Hs, Nat.sub_diag.
  set (onboard := onboard_stops (request_set (v_passengers vehicle))
                    (v_order_record vehicle)) in *.
  assert (Hlock : fix_onboard_locked glo vehicle requests'
                  = fix_onboard_locked glo vehicle requests).
  { unfold fix_onboard_locked. rewrite (Permutation_length HP). reflexivity. }
  rewrite Hlock, <- (Permutation_length HP).
  assert (Hn' : NoDup (map r_id requests')).
  { eapply Permutation_NoDup; [apply Permutation_map, HP|exact Hn]. }
  rewrite !(request_set_fixed (filter _ _)) by (apply filter_ids_NoDup; assumption).
  rewrite <- (filter_length_perm _ _ _ HP).
  destruct (String.eqb (CTSP glo) "FIX_PREFIX"
            && (Z.of_nat (2 * List.length requests
                          + List.length (v_passengers vehicle))
                >? LP_LIMITVALUE glo)).
  { match goal with |- context [if (?n * 2 >? ?l) then _ else _] =>
      destruct (n * 2 >? l) end; reflexivity. }
  cbv iota beta.
  destruct (valid_objective glo); [|reflexivity].
  pose proof (distinct_available vehicle requests
                (fix_onboard_locked glo vehicle requests) Hn Hp) as Hd.
  cbv zeta in Hd. fold onboard in Hd.
  assert (HF : forall rest,
             Permutation (map request_meta requests ++ rest)
               (map request_meta requests' ++ rest)).
  { intros rest. apply Permutation_app_tail, Permutation_map, HP. }
  destruct (fix_onboard_locked glo vehicle requests);
    rewrite <- (forest_size_perm _ _ (HF _)),
      (recursive_search_perm _ _ _ _ _ _ _ _ (HF _) Hd); reflexivity.
Qed.

End SetOrder.

Lemma recursive_search_set_order_witness :
  recursive_search Examples.defaults Examples.line Examples.no_ties 5 0 4
    [request_meta Examples.sharer1; request_meta Examples.sharer2] 0 (-1)
    NO_ACTION
  = recursive_search Examples.defaults Examples.line Examples.no_ties 5 0 4
      [request_meta Examples.sharer2; request_meta Examples.sharer1] 0 (-1)
      NO_ACTION.
Proof.
  apply (recursive_search_set_order Examples.defaults Examples.line
           Examples.no_ties 5 0 4).
  - apply perm_swap.
  - repeat constructor.
Defined.

Lemma travel_request_order_witness :
  travel Examples.defaults Examples.line Examples.no_ties Examples.taxi
    [Examples.sharer1; Examples.sharer2] 0 "STANDARD"
  = travel Examples.defaults Examples.line Examples.no_ties Examples.taxi
      [Examples.sharer2; Examples.sharer1] 0 "STANDARD".
Proof.
  apply (travel_request_order Examples.defaults Examples.line Examples.no_ties
           Examples.taxi [Examples.sharer1; Examples.sharer2]
           [Examples.sharer2; Examples.sharer1] 0 "STANDARD").
  - reflexivity.
  - apply perm_swap.
  - repeat constructor; simpl; intuition discriminate.
  - intros r _. reflexivity.
Defined.

(** ** Invariants of the trip list of a vehicle *)

Section RtvInvariants.

Variable glo : Glo.
Variable network : Network.
Variable unlocks_id : MetaNodeStop -> Z.
Variable wall_clock : nat -> Z.
Variable rr_edge : Z -> Z -> bool.

Notation try_pair := (try_pair glo network unlocks_id wall_clock rr_edge).
Notation inner_loop := (inner_loop glo network unlocks_id wall_clock rr_edge).
Notation outer_loop := (outer_loop glo network unlocks_id wall_clock rr_edge).
Notation levels := (levels glo network unlocks_id wall_clock rr_edge).
Notation rtv_rounds := (rtv_rounds glo network unlocks_id wall_clock rr_edge).
Notation make_rtvgraph := (make_rtvgraph glo network unlocks_id wall_clock rr_edge).
Notation baseline_trip := (baseline_trip glo network unlocks_id wall_clock).
Notation first_round := (first_round glo network unlocks_id).

(** What one pair of the previous round does to the state of the level:
    nothing, or one more trip on the union of the two request sets. *)
Lemma try_pair_cases vehicle current_time start_time k previous_round
    trip1 trip2 st st' :
  try_pair vehicle current_time start_time k previous_round trip1 trip2 st
    = Return st' ->
  (new_round st' = new_round st /\ existing_trips st' = existing_trips st)
  \/ exists path_cost path_order,
      let U := request_union (t_requests trip1) (t_requests trip2) in
      List.length U = k
      /\ existsb (request_set_eq U) (existing_trips st) = false
      /\ 0 <= path_cost
      /\ new_round st'
         = new_round st
           ++ [mkTrip (stored_cost glo network vehicle path_cost path_order
                         current_time)
                 false false path_order U]
      /\ existing_trips st' = existing_trips st ++ [U].
Proof.
  unfold try_pair.
  set (U := request_union (t_requests trip1) (t_requests trip2)).
  destruct (negb (Nat.eqb (List.length U) k)
            || existsb (request_set_eq U) (existing_trips st)) eqn:Hk;
    [intros H; injection H as <-; auto|].
  destruct (Z.of_nat (List.length (request_diff U
              (request_set (v_pending_requests vehicle)))) * 2
            >? MAX_NEW glo);
    [intros H; injection H as <-; auto|].
  destruct (is_rr_connected rr_edge (t_requests trip1) (t_requests trip2));
    simpl; [|intros H; injection H as <-; auto].
  destruct (all_subsets_exist U previous_round);
    simpl; [|intros H; injection H as <-; auto].
  destruct (travel_timed glo network unlocks_id wall_clock vehicle U
              current_time start_time (RTV_TIMELIMIT glo) "STANDARD" (reads st))
    as [result reads'].
  intros H. apply bind_Return in H. destruct H as ([cost order] & _ & H).
  destruct (cost <? 0) eqn:Hc; injection H as <-; simpl; [auto|].
  right. exists cost, order.
  apply orb_false_iff in Hk. destruct Hk as [Hk Hex].
  apply negb_false_iff, Nat.eqb_eq in Hk. apply Z.ltb_ge in Hc. auto.
Qed.

Section LevelInvariant.

(** A property of the trips of the level under construction and of the
    request sets seen so far that every pair keeps. *)
Variable I : list Trip -> list (list Request) -> Prop.
Variable vehicle : Vehicle.
Variables current_time start_time : Z.
Variable k : nat.
Variable previous_round : list Trip.

Hypothesis Hstep : forall trip1 trip2 st st',
  try_pair vehicle current_time start_time k previous_round trip1 trip2 st
    = Return st' ->
  I (new_round st) (existing_trips st) ->
  I (new_round st') (existing_trips st').

Lemma inner_loop_inv trip1 :
  forall partners st st',
    inner_loop vehicle current_time start_time k previous_round trip1
      partners st = Return st' ->
    I (new_round st) (existing_trips st) ->
    I (new_round st') (existing_trips st').
Proof.
  induction partners as [|trip2 partners IH]; intros st st' H Hi; simpl in H.
  - injection H as <-. exact Hi.
  - match type of H with (if ?b then _ else _) = _ => destruct b end.
    + injection H as <-. exact Hi.
    + apply bind_Return in H. destruct H as (st1 & Hp & H).
      eapply IH; [exact H|]. eapply Hstep; [exact Hp|exact Hi].
Qed.

Lemma outer_loop_inv :
  forall trips st st',
    outer_loop vehicle current_time start_time k previous_round trips st
      = Return st' ->
    I (new_round st) (existing_trips st) ->
    I (new_round st') (existing_trips st').
Proof.
  induction trips as [|trip1 trips IH]; intros st st' H Hi; simpl in H.
  - injection H as <-. exact Hi.
  - apply bind_Return in H. destruct H as (st1 & Hp & H).
    eapply IH; [exact H|]. eapply inner_loop_inv; [exact Hp|exact Hi].
Qed.

End LevelInvariant.

(** A property [R j round] of the rounds that every new level has holds
    for all the rounds once the levels are built. *)
Lemma levels_rounds (R : nat -> list Trip -> Prop) fuel vehicle
    current_time start_time :
  (forall k previous_round timed_out n st',
      (2 <= k)%nat -> Z.of_nat k <= v_capacity vehicle ->
      outer_loop vehicle current_time start_time k previous_round
        previous_round
        (mkLevel [] (map (fun trip => request_set (t_requests trip))
                         previous_round) timed_out n) = Return st' ->
      R k (new_round st')) ->
  forall k rounds timed_out n rounds' n',
    List.length rounds = S k -> (1 <= k)%nat ->
    (forall j, (j < List.length rounds)%nat -> R j (nth j rounds [])) ->
    levels fuel vehicle current_time start_time k rounds timed_out n
      = Return (rounds', n') ->
    forall j, (j < List.length rounds')%nat -> R j (nth j rounds' []).
Proof.
  intros Hnew. induction fuel as [|fuel IH];
    intros k rounds timed_out n rounds' n' Hlen Hk HR H; [discriminate|].
  rewrite levels_S in H.
  destruct (nth k rounds []) as [|t0 l0] eqn:Hnth;
    [injection H as <- <-; exact HR|].
  destruct timed_out; [injection H as <- <-; exact HR|].
  destruct (Z.of_nat (S k) >? v_capacity vehicle) eqn:Hcap;
    [injection H as <- <-; exact HR|].
  apply bind_Return in H. destruct H as (st & Hst & H).
  apply Hnew in Hst; [|lia|rewrite Z.gtb_ltb in Hcap; apply Z.ltb_ge in Hcap; lia].
  eapply IH; [| | |exact H].
  - rewrite length_app. simpl. lia.
  - lia.
  - intros j Hj. rewrite length_app in Hj. simpl in Hj.
    destruct (Nat.eq_dec j (S k)) as [->|Hne].
    + rewrite app_nth2 by lia.
      replace (S k - List.length rounds)%nat with 0%nat by lia. exact Hst.
    + rewrite app_nth1 by lia. apply HR. lia.
Qed.

(** The trips of the first level. *)
Lemma first_round_trips vehicle current_time :
  forall initial_pairing trips,
    first_round vehicle current_time initial_pairing = Return trips ->
    Forall (fun trip =>
      exists r cost,
        In r initial_pairing /\ t_requests trip = [r] /\ 0 <= cost
        /\ travel glo network unlocks_id vehicle [r] current_time "STANDARD"
           = Return (cost, t_order_record trip)
        /\ t_cost trip
           = stored_cost glo network vehicle cost (t_order_record trip)
               current_time
        /\ t_use_memory trip = false) trips.
Proof.
  induction initial_pairing as [|request rest IH]; intros trips H; simpl in H.
  - injection H as <-. constructor.
  - apply bind_Return in H. destruct H as ([cost order] & Ht & H).
    apply bind_Return in H. destruct H as (trips' & Hr & H).
    specialize (IH _ Hr).
    assert (IH' : Forall (fun trip =>
      exists r cost0,
        In r (request :: rest) /\ t_requests trip = [r] /\ 0 <= cost0
        /\ travel glo network unlocks_id vehicle [r] current_time "STANDARD"
           = Return (cost0, t_order_record trip)
        /\ t_cost trip
           = stored_cost glo network vehicle cost0 (t_order_record trip)
               current_time
        /\ t_use_memory trip = false) trips').
    { eapply Forall_impl; [|exact IH].
      intros trip (r & c & Hin & Hrest). exists r, c. split; [right; exact Hin|].
      exact Hrest. }
    destruct (cost <? 0) eqn:Hc; injection H as <-; [exact IH'|].
    constructor; [|exact IH'].
    exists request, cost. apply Z.ltb_ge in Hc. simpl.
    repeat split; auto.
Qed.

Lemma first_round_sublist vehicle current_time :
  forall initial_pairing trips,
    first_round vehicle current_time initial_pairing = Return trips ->
    NoDup (map r_id initial_pairing) ->
    ForallOrdPairs (fun a b => ~ same_requests (t_requests a) (t_requests b))
      trips.
Proof.
  induction initial_pairing as [|request rest IH]; intros trips H Hn; simpl in H.
  - injection H as <-. constructor.
  - inversion Hn as [|? ? Hr Hrest]; subst.
    apply bind_Return in H. destruct H as ([cost order] & Ht & H).
    apply bind_Return in H. destruct H as (trips' & Hf & H).
    pose proof (first_round_trips _ _ _ _ Hf) as Hall.
    specialize (IH _ Hf Hrest).
    destruct (cost <? 0); injection H as <-; [exact IH|].
    constructor; [|exact IH].
    apply Forall_forall. intros trip Hin. rewrite Forall_forall in Hall.
    destruct (Hall trip Hin) as (r & c & Hr' & Hreq & _). simpl.
    rewrite Hreq. intros Hsame. apply Hr.
    destruct (Hsame (r_id request)) as [Hs _]. simpl in Hs.
    destruct Hs as [E|[]]; [left; reflexivity|]. rewrite <- E.
    apply in_map, Hr'.
Qed.

Lemma stored_cost_nonneg vehicle path_cost path_order current_time :
  0 <= path_cost ->
  0 <= stored_cost glo network vehicle path_cost path_order current_time.
Proof.
  intros H. unfold stored_cost.
  destruct (String.eqb (CTSP_OBJECTIVE glo) "CTSP_DELAY");
    [apply delay_all_ge0|exact H].
Qed.

Lemma in_tail_nth {A : Type} (l : list (list A)) (x : list A) :
  In x (tl l) -> exists j, (1 <= j < List.length l)%nat /\ nth j l [] = x.
Proof.
  destruct l as [|a l]; simpl; [tauto|].
  intros H. apply (In_nth _ _ []) in H. destruct H as (j & Hj & E).
  exists (S j). split; [lia|exact E].
Qed.

(** The rounds as [rtv_rounds] hands them to the level loop. *)
Lemma rtv_rounds_inv (R : nat -> list Trip -> Prop) vehicle rv_neighbors
    current_time n rounds n' :
  rtv_rounds vehicle rv_neighbors current_time n = Return (rounds, n') ->
  (forall baseline,
      fst (baseline_trip vehicle current_time (wall_clock n) (S n))
        = Return baseline -> R 0%nat [baseline]) ->
  (forall round1,
      first_round vehicle current_time
        (request_set (rv_neighbors ++ v_pending_requests vehicle))
        = Return round1 -> R 1%nat round1) ->
  (forall k previous_round timed_out m st',
      (2 <= k)%nat -> Z.of_nat k <= v_capacity vehicle ->
      outer_loop vehicle current_time (wall_clock n) k previous_round
        previous_round
        (mkLevel [] (map (fun trip => request_set (t_requests trip))
                         previous_round) timed_out m) = Return st' ->
      R k (new_round st')) ->
  (2 <= List.length rounds)%nat
  /\ forall j, (j < List.length rounds)%nat -> R j (nth j rounds []).
Proof.
  unfold rtv_rounds. intros H H0 H1 Hk.
  destruct (baseline_trip vehicle current_time (wall_clock n) (S n))
    as [result n1].
  apply bind_Return in H. destruct H as (baseline & -> & H).
  apply bind_Return in H. destruct H as (round1 & Hr1 & H).
  split.
  - apply levels_extend in H. destruct H as (extra & ->).
    rewrite length_app. simpl. lia.
  - eapply (levels_rounds R); [| | | |exact H].
    + intros k previous_round timed_out m st' Hk2 Hcap Ho.
      eapply Hk; eassumption.
    + reflexivity.
    + lia.
    + intros j Hj. simpl in Hj.
      destruct j as [|[|j]]; [apply H0; reflexivity|apply H1, Hr1|lia].
Qed.

Lemma rounds_tail_forall (P : Trip -> Prop) (rounds : list (list Trip)) :
  (forall j, (1 <= j < List.length rounds)%nat -> Forall P (nth j rounds [])) ->
  Forall P (List.concat (tl rounds)).
Proof.
  intros H. apply Forall_concat. apply Forall_forall. intros round Hin.
  apply in_tail_nth in Hin. destruct Hin as (j & Hj & <-). apply H, Hj.
Qed.

Lemma level_costs vehicle rv_neighbors current_time n rounds n' :
  rtv_rounds vehicle rv_neighbors current_time n = Return (rounds, n') ->
  (2 <= List.length rounds)%nat
  /\ forall j, (j < List.length rounds)%nat ->
       (1 <= j)%nat ->
       Forall (fun trip => 0 <= t_cost trip /\ t_use_memory trip = false)
         (nth j rounds []).
Proof.
  intros H.
  apply (rtv_rounds_inv
           (fun j round => (1 <= j)%nat ->
              Forall (fun trip => 0 <= t_cost trip /\ t_use_memory trip = false)
                round)) in H; [exact H| | |].
  - intros baseline _ Hj. lia.
  - intros round1 Hr _. apply first_round_trips in Hr.
    eapply Forall_impl; [|exact Hr].
    intros trip (r & c & _ & _ & Hc & _ & -> & Hm). split; [|exact Hm].
    apply stored_cost_nonneg, Hc.
  - intros k previous_round timed_out m st' _ _ Ho _.
    apply (outer_loop_inv
             (fun nr _ => Forall (fun trip => 0 <= t_cost trip
                                              /\ t_use_memory trip = false) nr))
      in Ho; [exact Ho| |constructor].
    intros trip1 trip2 st st1 Hp Hall.
    apply try_pair_cases in Hp.
    destruct Hp as [[-> _]|(c & o & _ & _ & Hc & -> & _)]; [exact Hall|].
    apply Forall_app. split; [exact Hall|]. constructor; [|constructor].
    simpl. split; [apply stored_cost_nonneg, Hc|reflexivity].
Qed.

Lemma rounds_head vehicle rv_neighbors current_time n rounds n' :
  rtv_rounds vehicle rv_neighbors current_time n = Return (rounds, n') ->
  exists baseline rest, rounds = [baseline] :: rest.
Proof.
  unfold rtv_rounds. intros H.
  destruct (baseline_trip vehicle current_time (wall_clock n) (S n))
    as [result n1].
  apply bind_Return in H. destruct H as (baseline & -> & H).
  apply bind_Return in H. destruct H as (round1 & _ & H).
  apply levels_extend in H. destruct H as (extra & ->).
  exists baseline. eexists. reflexivity.
Qed.

Lemma previoustrip_fields vehicle current_time previous :
  previoustrip glo network unlocks_id vehicle current_time = Return previous ->
  t_use_memory previous = true
  /\ t_requests previous = v_pending_requests vehicle.
Proof.
  unfold previoustrip. intros H.
  apply bind_Return in H. destruct H as ([c o] & _ & H).
  injection H as <-. split; reflexivity.
Qed.

(** What [compile_trips] returns: the trips of the rounds, none of cost
    -1, possibly followed by the replay of the previous assignment. *)
Lemma compile_trips_cases vehicle current_time rounds trips :
  compile_trips glo network unlocks_id vehicle current_time rounds
    = Return trips ->
  Forall (fun trip => t_cost trip <> -1) (List.concat rounds)
  /\ (trips = List.concat rounds
      \/ exists previous,
           previoustrip glo network unlocks_id vehicle current_time
             = Return previous
           /\ t_cost previous <> -1
           /\ trips = List.concat rounds ++ [previous]).
Proof.
  unfold compile_trips.
  destruct (existsb (fun trip => t_cost trip =? -1) (List.concat rounds)) eqn:Hex;
    [discriminate|].
  intros H. split.
  - apply Forall_forall. intros trip Hin Hc.
    assert (Hex' : existsb (fun trip => t_cost trip =? -1) (List.concat rounds)
                   = true).
    { apply existsb_exists. exists trip. split; [exact Hin|].
      apply Z.eqb_eq, Hc. }
    congruence.
  - destruct (v_order_record vehicle); [injection H as <-; left; reflexivity|].
    match type of H with (if ?b then _ else _) = _ => destruct b end;
      [injection H as <-; left; reflexivity|].
    apply bind_Return in H. destruct H as (previous & Hp & H).
    destruct (t_cost previous =? -1) eqn:Hc; [discriminate|].
    injection H as <-. right. exists previous. apply Z.eqb_neq in Hc. auto.
Qed.

(** X8. No trip of the trip list that the RTV builder returns for a vehicle
    carries the infeasibility sentinel -1 as its cost, and every trip of it
    other than the baseline (the first one) and the replay of the previous
    assignment (the one with [use_memory]) has a cost that is not
    negative. *)
Theorem rtv_trip_costs vehicle rv_neighbors current_time n trips :
  make_rtvgraph vehicle rv_neighbors current_time n = Return trips ->
  Forall (fun trip => t_cost trip <> -1) trips
  /\ Forall (fun trip => t_use_memory trip = false -> 0 <= t_cost trip)
       (tl trips).
Proof.
  unfold make_rtvgraph. intros H.
  apply bind_Return in H. destruct H as ([rounds n'] & Hr & H).
  destruct (rounds_head _ _ _ _ _ _ Hr) as (baseline & others & Hrounds).
  apply level_costs in Hr. destruct Hr as [Hlen Hr].
  assert (Hlevels : Forall (fun trip => t_use_memory trip = false
                                        -> 0 <= t_cost trip)
                      (List.concat (tl rounds))).
  { apply rounds_tail_forall. intros j Hj.
    eapply Forall_impl; [|apply Hr; lia]. intros trip [Hc _] _. exact Hc. }
  apply compile_trips_cases in H. destruct H as [Hno Hshape].
  subst rounds. simpl in Hlevels, Hshape, Hno.
  destruct Hshape as [->|(previous & Hp & Hc & ->)].
  - split; [exact Hno|exact Hlevels].
  - apply previoustrip_fields in Hp. destruct Hp as [Hm _]. split.
    + rewrite app_comm_cons. apply Forall_app. split; [exact Hno|].
      constructor; [exact Hc|constructor].
    + simpl. apply Forall_app. split; [exact Hlevels|].
      constructor; [|constructor]. intros Hf. congruence.
Qed.

(** X9. Every trip of level k holds exactly k requests, with different
    ids, and a level of two or more requests is only built when it does
    not exceed the capacity of the vehicle. *)
Theorem rtv_level_sizes vehicle rv_neighbors current_time n rounds n' :
  rtv_rounds vehicle rv_neighbors current_time n = Return (rounds, n') ->
  forall k trip, In trip (nth k rounds []) ->
    List.length (t_requests trip) = k
    /\ NoDup (map r_id (t_requests trip))
    /\ ((2 <= k)%nat -> Z.of_nat k <= v_capacity vehicle).
Proof.
  intros H k trip Hin.
  apply (rtv_rounds_inv
           (fun j round => Forall (fun trip =>
              List.length (t_requests trip) = j
              /\ NoDup (map r_id (t_requests trip))
              /\ ((2 <= j)%nat -> Z.of_nat j <= v_capacity vehicle)) round))
    in H.
  - destruct H as [_ H].
    destruct (Nat.lt_ge_cases k (List.length rounds)) as [Hk|Hk].
    + specialize (H k Hk). rewrite Forall_forall in H. apply H, Hin.
    + rewrite nth_overflow in Hin by lia. destruct Hin.
  - intros baseline Hb. constructor; [|constructor].
    unfold baseline_trip in Hb.
    destruct (travel_timed glo network unlocks_id wall_clock vehicle []
                current_time (wall_clock n) (RTV_TIMELIMIT glo) "STANDARD" (S n))
      as [res n2].
    simpl in Hb. apply bind_Return in Hb. destruct Hb as ([c o] & _ & Hb).
    injection Hb as <-. simpl. repeat split; [constructor|lia].
  - intros round1 Hr. apply first_round_trips in Hr.
    eapply Forall_impl; [|exact Hr].
    intros t (r & c & _ & -> & _). simpl.
    repeat split; [repeat constructor; simpl; tauto|lia].
  - intros j previous_round timed_out m st' Hj Hcap Ho.
    apply (outer_loop_inv
             (fun nr _ => Forall (fun trip =>
                List.length (t_requests trip) = j
                /\ NoDup (map r_id (t_requests trip))
                /\ ((2 <= j)%nat -> Z.of_nat j <= v_capacity vehicle)) nr))
      in Ho; [exact Ho| |constructor].
    intros trip1 trip2 st st1 Hp Hall.
    apply try_pair_cases in Hp.
    destruct Hp as [[-> _]|(c & o & Hlen & _ & _ & -> & _)]; [exact Hall|].
    apply Forall_app. split; [exact Hall|]. constructor; [|constructor].
    simpl. repeat split; [exact Hlen|apply request_set_NoDup|auto].
Qed.

Lemma same_requests_sym (a b : list Request) :
  same_requests a b -> same_requests b a.
Proof. intros H i. symmetry. apply H. Qed.

Lemma same_requests_trans (a b c : list Request) :
  same_requests a b -> same_requests b c -> same_requests a c.
Proof. intros H1 H2 i. rewrite (H1 i). apply H2. Qed.

(** X10. No two trips of one level have the same set of requests. *)
Theorem rtv_level_sets_distinct vehicle rv_neighbors current_time n rounds n' :
  rtv_rounds vehicle rv_neighbors current_time n = Return (rounds, n') ->
  forall k,
    ForallOrdPairs (fun a b => ~ same_requests (t_requests a) (t_requests b))
      (nth k rounds []).
Proof.
  intros H k.
  apply (rtv_rounds_inv
           (fun _ round =>
              ForallOrdPairs
                (fun a b => ~ same_requests (t_requests a) (t_requests b))
                round)) in H.
  - destruct H as [_ H].
    destruct (Nat.lt_ge_cases k (List.length rounds)) as [Hk|Hk].
    + apply H, Hk.
    + rewrite nth_overflow by lia. constructor.
  - intros baseline _. repeat constructor.
  - intros round1 Hr. eapply first_round_sublist; [exact Hr|].
    apply request_set_NoDup.
  - intros j previous_round timed_out m st' _ _ Ho.
    apply (outer_loop_inv
             (fun nr ex =>
                ForallOrdPairs
                  (fun a b => ~ same_requests (t_requests a) (t_requests b)) nr
                /\ Forall (fun trip =>
                     existsb (request_set_eq (t_requests trip)) ex = true) nr))
      in Ho; [exact (proj1 Ho)| |split; constructor].
    intros trip1 trip2 st st1 Hp [Hd Hseen].
    apply try_pair_cases in Hp.
    destruct Hp as [[-> ->]|(c & o & _ & Hnew & _ & -> & ->)];
      [split; assumption|].
    set (U := request_union (t_requests trip1) (t_requests trip2)) in *.
    split.
    + apply ordpairs_app; [exact Hd|repeat constructor|].
      intros a b Ha [<-|[]]. simpl. intros Hsame.
      rewrite Forall_forall in Hseen. specialize (Hseen a Ha).
      apply existsb_exists in Hseen. destruct Hseen as (e & He & Hae).
      apply request_set_eq_same in Hae.
      assert (Hex : existsb (request_set_eq U) (existing_trips st) = true).
      { apply existsb_exists. exists e. split; [exact He|].
        apply request_set_eq_same.
        eapply same_requests_trans; [apply same_requests_sym, Hsame|exact Hae]. }
      congruence.
    + apply Forall_app. split.
      * eapply Forall_impl; [|exact Hseen]. intros a Ha.
        rewrite existsb_app, Ha. reflexivity.
      * constructor; [|constructor]. simpl. rewrite existsb_app. simpl.
        replace (request_set_eq U U) with true; [apply orb_true_r|].
        symmetry. apply request_set_eq_same. intros i. tauto.
Qed.

(** X11. Every trip of the first level serves one request, which is a
    neighbour of the vehicle in the RV graph or one of its pending
    requests, along the route that [travel] found for this request alone,
    at a cost that is not negative. *)
Theorem rtv_first_level vehicle rv_neighbors current_time n rounds n' :
  rtv_rounds vehicle rv_neighbors current_time n = Return (rounds, n') ->
  forall trip, In trip (nth 1 rounds []) ->
    exists r cost,
      (In r rv_neighbors \/ In r (v_pending_requests vehicle))
      /\ t_requests trip = [r] /\ 0 <= cost
      /\ travel glo network unlocks_id vehicle [r] current_time "STANDARD"
         = Return (cost, t_order_record trip)
      /\ t_cost trip
         = stored_cost glo network vehicle cost (t_order_record trip)
             current_time.
Proof.
  intros H trip Hin.
  apply (rtv_rounds_inv
           (fun j round => j = 1%nat ->
              Forall (fun trip =>
                exists r cost,
                  (In r rv_neighbors \/ In r (v_pending_requests vehicle))
                  /\ t_requests trip = [r] /\ 0 <= cost
                  /\ travel glo network unlocks_id vehicle [r] current_time
                       "STANDARD" = Return (cost, t_order_record trip)
                  /\ t_cost trip
                     = stored_cost glo network vehicle cost
                         (t_order_record trip) current_time) round)) in H.
  - destruct H as [Hlen H]. specialize (H 1%nat Hlen eq_refl).
    rewrite Forall_forall in H. apply H, Hin.
  - intros baseline _ E. discriminate.
  - intros round1 Hr _. apply first_round_trips in Hr.
    eapply Forall_impl; [|exact Hr].
    intros t (r & c & Hr' & Hreq & Hc & Ht & Hcost & _).
    exists r, c. repeat split; auto.
    apply request_set_subset, in_app_or in Hr'. exact Hr'.
  - intros j previous_round timed_out m st' Hj _ _ E. lia.
Qed.

End RtvInvariants.

Lemma rtv_trip_costs_witness :
  Forall (fun trip => t_cost trip <> -1) Examples.scenario2_trips
  /\ Forall (fun trip => t_use_memory trip = false -> 0 <= t_cost trip)
       (tl Examples.scenario2_trips).
Proof.
  apply (rtv_trip_costs Examples.defaults Examples.line Examples.no_ties
           Examples.clock Examples.all_edges Examples.taxi
           [Examples.sharer1; Examples.sharer2] 0 0 Examples.scenario2_trips).
  vm_compute. reflexivity.
Defined.

Lemma rtv_level_sizes_witness :
  List.length (t_requests Examples.scenario2_shared_trip) = 2%nat
  /\ NoDup (map r_id (t_requests Examples.scenario2_shared_trip))
  /\ ((2 <= 2)%nat -> Z.of_nat 2 <= v_capacity Examples.taxi).
Proof.
  apply (rtv_level_sizes Examples.defaults Examples.line Examples.no_ties
           Examples.clock Examples.all_edges Examples.taxi
           [Examples.sharer1; Examples.sharer2] 0 0
           Examples.scenario2_rounds 1).
  - vm_compute. reflexivity.
  - vm_compute. left. reflexivity.
Defined.

Lemma rtv_level_sets_distinct_witness :
  ForallOrdPairs (fun a b => ~ same_requests (t_requests a) (t_requests b))
    (nth 1 Examples.scenario2_rounds []).
Proof.
  apply (rtv_level_sets_distinct Examples.defaults Examples.line
           Examples.no_ties Examples.clock Examples.all_edges Examples.taxi
           [Examples.sharer1; Examples.sharer2] 0 0
           Examples.scenario2_rounds 1).
  vm_compute. reflexivity.
Defined.

Lemma rtv_first_level_witness :
  exists r cost,
    (In r [Examples.sharer1; Examples.sharer2]
     \/ In r (v_pending_requests Examples.taxi))
    /\ t_requests (nth 0 (nth 1 Examples.scenario2_rounds [])
                     Examples.scenario2_shared_trip) = [r]
    /\ 0 <= cost
    /\ travel Examples.defaults Examples.line Examples.no_ties Examples.taxi
         [r] 0 "STANDARD"
       = Return (cost,
                 t_order_record (nth 0 (nth 1 Examples.scenario2_rounds [])
                                   Examples.scenario2_shared_trip))
    /\ t_cost (nth 0 (nth 1 Examples.scenario2_rounds [])
                 Examples.scenario2_shared_trip)
       = stored_cost Examples.defaults Examples.line Examples.taxi cost
           (t_order_record (nth 0 (nth 1 Examples.scenario2_rounds [])
                              Examples.scenario2_shared_trip)) 0.
Proof.
  apply (rtv_first_level Examples.defaults Examples.line Examples.no_ties
           Examples.clock Examples.all_edges Examples.taxi
           [Examples.sharer1; Examples.sharer2] 0 0
           Examples.scenario2_rounds 1).
  - vm_compute. reflexivity.
  - vm_compute. left. reflexivity.
Defined.

(** ** The RV and RR graphs *)

Section GraphFacts.

Lemma label_eqb_eq (a b : label) : label_eqb a b = true <-> a = b.
Proof.
  destruct a, b; simpl; rewrite ?Z.eqb_eq; split; intros H;
    try discriminate; congruence.
Qed.

Lemma label_eqb_refl (a : label) : label_eqb a a = true.
Proof. apply label_eqb_eq. reflexivity. Qed.

Lemma same_edge_refl (directed : bool) (u v : label) :
  same_edge directed u v u v = true.
Proof. unfold same_edge. rewrite !label_eqb_refl. reflexivity. Qed.

(** A property of the edges that the new edge has in both directions is
    kept by [set_edge]. *)
Lemma set_edge_forall (P : label * label * Z -> Prop) (directed : bool)
    (u v : label) (w : Z) (edges : list (label * label * Z)) :
  Forall P edges -> P (u, v, w) ->
  (forall a b x, In (a, b, x) edges -> same_edge directed u v a b = true ->
                 P (a, b, w)) ->
  Forall P (set_edge directed edges u v w).
Proof.
  intros Hall Hnew Hupd. induction edges as [|[[a b] x] rest IH]; simpl.
  - constructor; [exact Hnew|constructor].
  - inversion Hall as [|? ? Hx Hrest]; subst.
    destruct (same_edge directed u v a b) eqn:E.
    + constructor; [|exact Hrest]. apply (Hupd a b x); [left; reflexivity|exact E].
    + constructor; [exact Hx|]. apply IH; [exact Hrest|].
      intros a' b' x' Hin. apply (Hupd a' b' x'). right. exact Hin.
Qed.

Lemma set_edge_has (directed : bool) (u v : label) (w : Z)
    (edges : list (label * label * Z)) :
  existsb (fun e => same_edge directed u v (fst (fst e)) (snd (fst e)))
    (set_edge directed edges u v w) = true.
Proof.
  induction edges as [|[[a b] x] rest IH]; simpl.
  - rewrite same_edge_refl. reflexivity.
  - destruct (same_edge directed u v a b) eqn:E; simpl; rewrite ?E; simpl;
      [reflexivity|exact IH].
Qed.

Lemma set_edge_keeps (directed : bool) (u v a b : label) (w : Z)
    (edges : list (label * label * Z)) :
  existsb (fun e => same_edge directed a b (fst (fst e)) (snd (fst e))) edges
    = true ->
  existsb (fun e => same_edge directed a b (fst (fst e)) (snd (fst e)))
    (set_edge directed edges u v w) = true.
Proof.
  induction edges as [|[[a' b'] x] rest IH]; simpl; [discriminate|].
  intros H. destruct (same_edge directed u v a' b'); simpl; [exact H|].
  apply orb_true_iff in H. apply orb_true_iff.
  destruct H as [H|H]; [left; exact H|right; auto].
Qed.

(** The number of edges that end at a node. *)
Lemma set_edge_ends (directed : bool) (u v n : label) (w : Z)
    (edges : list (label * label * Z)) :
  (List.length (filter (fun e => label_eqb (snd (fst e)) n)
                  (set_edge directed edges u v w))
   <= List.length (filter (fun e => label_eqb (snd (fst e)) n) edges)
      + (if label_eqb v n then 1 else 0))%nat.
Proof.
  induction edges as [|[[a b] x] rest IH]; simpl.
  - destruct (label_eqb v n); simpl; lia.
  - destruct (same_edge directed u v a b); simpl.
    + destruct (label_eqb b n); simpl; lia.
    + destruct (label_eqb b n); simpl; lia.
Qed.

Lemma insert_sorted_perm {A : Type} (lt : A -> A -> bool) (x : A) (l : list A) :
  Permutation (insert_sorted lt x l) (x :: l).
Proof.
  induction l as [|y l IH]; simpl; [apply Permutation_refl|].
  destruct (lt y x); [|apply Permutation_refl].
  eapply perm_trans; [apply perm_skip, IH|apply perm_swap].
Qed.

Lemma sort_stable_perm {A : Type} (lt : A -> A -> bool) (l : list A) :
  Permutation (sort_stable lt l) l.
Proof.
  induction l as [|x l IH]; simpl; [apply Permutation_refl|].
  eapply perm_trans; [apply insert_sorted_perm|apply perm_skip, IH].
Qed.

Lemma for_requests_inv (I : graph -> Prop)
    (body : graph -> Request -> outcome graph) (requests : list Request) :
  (forall g request g', In request requests -> I g ->
      body g request = Return g' -> I g') ->
  forall indices g g',
    I g -> for_requests body requests indices g = Return g' -> I g'.
Proof.
  intros Hbody. induction indices as [|i rest IH]; intros g g' Hi H; simpl in H.
  - injection H as <-. exact Hi.
  - destruct (nth_error requests i) as [request|] eqn:Hn; [|discriminate].
    apply bind_Return in H. destruct H as (g1 & Hb & H).
    eapply IH; [|exact H]. eapply Hbody; [|exact Hi|exact Hb].
    apply (nth_error_In _ _ Hn).
Qed.

End GraphFacts.

Section RvFacts.

Variable glo : Glo.
Variable switches : Switches.
Variable network : Network.
Variable unlocks_id : MetaNodeStop -> Z.

Notation rv_link := (rv_link glo switches network unlocks_id).
Notation rv_request := (rv_request glo switches network unlocks_id).
Notation make_rvgraph := (make_rvgraph glo switches network unlocks_id).
Notation travel := (travel glo network unlocks_id).

Notation rv_feasible := (rv_feasible glo network unlocks_id).

Lemma nearest_vehicles_In vehicles request current_time w vehicle :
  In (w, vehicle) (nearest_vehicles network vehicles request current_time) <->
  In vehicle vehicles
  /\ w = get_vehicle_time network vehicle (r_origin request) - 0
  /\ current_time + w <= r_latest_boarding request.
Proof.
  unfold nearest_vehicles. rewrite in_flat_map. split.
  - intros (v & Hv & Hin). cbv zeta in Hin.
    destruct (current_time + (get_vehicle_time network v (r_origin request) - 0)
              >? r_latest_boarding request) eqn:E; [destruct Hin|].
    destruct Hin as [Hin|[]]. injection Hin as <- <-.
    rewrite Z.gtb_ltb in E. apply Z.ltb_ge in E. auto.
  - intros (Hv & -> & Hle). exists vehicle. split; [exact Hv|]. cbv zeta.
    replace (current_time + (get_vehicle_time network vehicle (r_origin request) - 0)
             >? r_latest_boarding request) with false.
    + left. reflexivity.
    + symmetry. rewrite Z.gtb_ltb. apply Z.ltb_ge. exact Hle.
Qed.

Lemma rv_link_edges vehicles requests request current_time :
  In request requests ->
  forall nearest_vs count g g',
    (forall w vehicle, In (w, vehicle) nearest_vs -> In vehicle vehicles) ->
    Forall (rv_feasible vehicles requests current_time) (g_edges g) ->
    rv_link request current_time nearest_vs count g = Return g' ->
    Forall (rv_feasible vehicles requests current_time) (g_edges g').
Proof.
  intros Hr. induction nearest_vs as [|[w vehicle] rest IH];
    intros count g g' Hin Hall H; simpl in H.
  - injection H as <-. exact Hall.
  - apply bind_Return in H. destruct H as ([cost order] & Ht & H).
    cbn [fst] in H.
    destruct ((PRUNING_RV_K switches >? 0) && (count >=? PRUNING_RV_K switches));
      [injection H as <-; exact Hall|].
    assert (Hin' : forall w' v', In (w', v') rest -> In v' vehicles).
    { intros w' v' H'. eapply Hin. right. exact H'. }
    destruct (cost >=? 0) eqn:Hc; [|eapply IH; eassumption].
    eapply IH; [exact Hin'| |exact H].
    rewrite Z.geb_leb in Hc. apply Z.leb_le in Hc.
    assert (Hnew : forall a b, a = v_label (v_id vehicle) ->
                     b = r_label (r_id request) ->
                     rv_feasible vehicles requests current_time (a, b, cost)).
    { intros a b -> ->. exists vehicle, request, order. simpl.
      repeat split; auto. eapply Hin. left. reflexivity. }
    simpl. apply set_edge_forall; [exact Hall|apply Hnew; reflexivity|].
    intros a b x Hab Hsame. apply Hnew.
    + unfold same_edge in Hsame. rewrite Forall_forall in Hall.
      destruct (Hall _ Hab) as (v0 & r0 & o0 & _ & _ & Ha & Hb & _).
      simpl in Ha, Hb. subst a b. simpl in Hsame.
      rewrite andb_false_r, orb_false_r in Hsame.
      apply andb_true_iff in Hsame. destruct Hsame as [E _].
      apply Z.eqb_eq in E. congruence.
    + unfold same_edge in Hsame. rewrite Forall_forall in Hall.
      destruct (Hall _ Hab) as (v0 & r0 & o0 & _ & _ & Ha & Hb & _).
      simpl in Ha, Hb. subst a b. simpl in Hsame.
      rewrite andb_false_r, orb_false_r in Hsame.
      apply andb_true_iff in Hsame. destruct Hsame as [_ E].
      apply Z.eqb_eq in E. congruence.
Qed.

(** X13. Every edge of the RV graph that [make_rvgraph] builds from the
    empty graph joins the node of a vehicle to the node of a request for
    which [travel] finds a route for this request alone on this vehicle,
    and its weight is the cost of that route, which is not negative. *)
Theorem rv_edges_feasible (start end_ : nat) requests vehicles current_time g' :
  make_rvgraph start end_ (empty_graph false) requests vehicles current_time
    = Return g' ->
  Forall (rv_feasible vehicles requests current_time) (g_edges g').
Proof.
  unfold make_rvgraph. intros H.
  eapply (for_requests_inv
            (fun g => Forall (rv_feasible vehicles requests current_time)
                        (g_edges g))); [| |exact H]; [|constructor].
  intros g request g1 Hr Hall Hb. unfold rv_request in Hb.
  refine (rv_link_edges vehicles requests request current_time Hr _ _
            (add_node g (r_label (r_id request)) (request_data request)) g1
            _ Hall Hb).
  intros w vehicle Hin.
  apply (Permutation_in _ (sort_stable_perm _ _)) in Hin.
  apply nearest_vehicles_In in Hin. tauto.
Qed.

Lemma rv_link_bound request current_time :
  0 < PRUNING_RV_K switches ->
  forall nearest_vs count g g' n,
    rv_link request current_time nearest_vs count g = Return g' ->
    Z.of_nat (edges_to g' n)
    <= Z.of_nat (edges_to g n)
       + (if label_eqb (r_label (r_id request)) n
          then Z.max 0 (PRUNING_RV_K switches - count) else 0).
Proof.
  intros HK. induction nearest_vs as [|[w vehicle] rest IH];
    intros count g g' n H; simpl in H.
  - injection H as <-. destruct (label_eqb _ n); lia.
  - apply bind_Return in H. destruct H as ([cost order] & _ & H). cbn [fst] in H.
    destruct ((PRUNING_RV_K switches >? 0) && (count >=? PRUNING_RV_K switches))
      eqn:Hbreak; [injection H as <-; destruct (label_eqb _ n); lia|].
    destruct (cost >=? 0); [|apply IH, H].
    apply (IH _ _ _ n) in H.
    assert (Hcount : count < PRUNING_RV_K switches).
    { apply andb_false_iff in Hbreak. destruct Hbreak as [E|E].
      - rewrite Z.gtb_ltb in E. apply Z.ltb_ge in E. lia.
      - rewrite Z.geb_leb in E. apply Z.leb_gt in E. exact E. }
    pose proof (set_edge_ends (g_directed g) (v_label (v_id vehicle))
                  (r_label (r_id request)) n cost (g_edges g)) as Hends.
    unfold edges_to, add_edge, add_node in *. cbn [g_edges g_directed] in H.
    destruct (label_eqb (r_label (r_id request)) n); lia.
Qed.

Lemma NoDup_ids_nth (requests : list Request) (i j : nat) (a b : Request) :
  NoDup (map r_id requests) ->
  nth_error requests i = Some a -> nth_error requests j = Some b ->
  r_id a = r_id b -> i = j.
Proof.
  intros Hn Ha Hb E.
  assert (Hi : (i < List.length (map r_id requests))%nat).
  { rewrite length_map. apply nth_error_Some. congruence. }
  apply (proj1 (NoDup_nth_error (map r_id requests)) Hn i j Hi).
  rewrite !nth_error_map, Ha, Hb. simpl. congruence.
Qed.

Lemma rv_jobs_bound vehicles requests current_time :
  0 < PRUNING_RV_K switches -> NoDup (map r_id requests) ->
  forall indices g g',
    NoDup indices ->
    (forall n, Z.of_nat (edges_to g n) <= PRUNING_RV_K switches) ->
    (forall i request, In i indices -> nth_error requests i = Some request ->
        edges_to g (r_label (r_id request)) = 0%nat) ->
    for_requests (rv_request vehicles current_time) requests indices g
      = Return g' ->
    forall n, Z.of_nat (edges_to g' n) <= PRUNING_RV_K switches.
Proof.
  intros HK Hids. induction indices as [|i rest IH];
    intros g g' Hnd Hall Hfresh H; simpl in H.
  - injection H as <-. exact Hall.
  - destruct (nth_error requests i) as [request|] eqn:Hi; [|discriminate].
    apply bind_Return in H. destruct H as (g1 & Hb & H).
    inversion Hnd as [|? ? Hni Hrest]; subst.
    assert (Hstep : forall n,
              Z.of_nat (edges_to g1 n)
              <= Z.of_nat (edges_to g n)
                 + (if label_eqb (r_label (r_id request)) n
                    then PRUNING_RV_K switches else 0)).
    { intros n. unfold rv_request in Hb.
      apply (rv_link_bound request current_time HK _ _ _ _ n) in Hb.
      unfold edges_to, add_node in *. cbn [g_edges] in Hb.
      destruct (label_eqb (r_label (r_id request)) n); lia. }
    eapply IH; [exact Hrest| | |exact H].
    + intros n. specialize (Hstep n).
      destruct (label_eqb (r_label (r_id request)) n) eqn:E.
      * apply label_eqb_eq in E. subst n.
        rewrite (Hfresh i request) in Hstep; [lia|left; reflexivity|exact Hi].
      * specialize (Hall n). lia.
    + intros j r Hj Hr. specialize (Hstep (r_label (r_id r))).
      destruct (label_eqb (r_label (r_id request)) (r_label (r_id r))) eqn:E.
      * exfalso. simpl in E. apply Z.eqb_eq in E.
        apply Hni. rewrite (NoDup_ids_nth requests i j request r Hids Hi Hr E).
        exact Hj.
      * rewrite (Hfresh j r) in Hstep; [lia|right; exact Hj|exact Hr].
Qed.

(** X14. With PRUNING_RV_K > 0 and requests of different ids, no request
    of the RV graph that [make_rvgraph] builds from the empty graph has
    more than PRUNING_RV_K edges. *)
Theorem rv_pruning_bound (start end_ : nat) requests vehicles current_time g' :
  0 < PRUNING_RV_K switches -> NoDup (map r_id requests) ->
  make_rvgraph start end_ (empty_graph false) requests vehicles current_time
    = Return g' ->
  forall n, Z.of_nat (edges_to g' n) <= PRUNING_RV_K switches.
Proof.
  unfold make_rvgraph. intros HK Hids H.
  eapply rv_jobs_bound; [exact HK|exact Hids|apply seq_NoDup| | |exact H].
  - intros n. unfold edges_to. simpl. lia.
  - intros. reflexivity.
Qed.

(** The waiting-time test of [make_rvgraph] discards no vehicle on which
    [travel] finds a route. *)
Lemma feasible_pickup_in_time vehicle requests r current_time cost order :
  metric_times network -> nonneg_dwell glo ->
  0 <= v_node vehicle -> valid_nodes (required_stops vehicle requests) ->
  In r requests ->
  travel vehicle requests current_time "STANDARD" = Return (cost, order) ->
  0 <= cost ->
  current_time + get_vehicle_time network vehicle (r_origin r)
  <= r_latest_boarding r.
Proof.
  intros Hm Hd Hnode Hvalid Hr Ht Hc.
  change (travel vehicle requests current_time "STANDARD")
    with (new_travel glo network unlocks_id vehicle requests current_time) in Ht.
  destruct (new_travel_found _ _ _ _ _ _ _ _ Ht Hc) as (F & Hp & HL & Hok & _).
  apply prepared_stops_covered in Hp. destruct Hp as [Hpick Hincl].
  assert (Hvo : valid_nodes order).
  { apply (nodes_ok_Lin (fun x => 0 <= x) F); [|exact HL].
    unfold valid_nodes in *.
    rewrite Forall_forall in *. intros x Hx. apply Hvalid, Hincl, Hx. }
  assert (Hin : In (pickup_stop r) order).
  { destruct (Hpick r Hr) as (m & Hroot & <-).
    apply (Lin_visits F order m HL Hroot). }
  destruct (arrival_time_exists glo network order NO_ACTION (v_node vehicle)
              (current_time + v_offset vehicle) _ Hin) as (a & Ha).
  pose proof (arrival_time_lower glo network (fun x => 0 <= x) Hm Hd order
                _ _ _ _ _ Hnode Hvo Ha) as Hlow.
  pose proof (arrival_time_deadline glo network order _ _ _ _ _ _ Hok Ha)
    as Hdead.
  unfold deadline in Hdead. simpl in Hdead, Hlow.
  unfold get_vehicle_time. lia.
Qed.

Lemma has_edge_add (g : graph) (n : label) (d : node_data) (u v : label) (w : Z) :
  has_edge (add_edge (add_node g n d) u v w) u v = true
  /\ forall a b, has_edge g a b = true ->
                 has_edge (add_edge (add_node g n d) u v w) a b = true.
Proof.
  unfold has_edge. simpl. split.
  - apply set_edge_has.
  - intros a b. apply set_edge_keeps.
Qed.

Lemma rv_link_complete request current_time :
  PRUNING_RV_K switches <= 0 ->
  forall nearest_vs count g g',
    rv_link request current_time nearest_vs count g = Return g' ->
    (forall a b, has_edge g a b = true -> has_edge g' a b = true)
    /\ (forall w vehicle cost order,
          In (w, vehicle) nearest_vs ->
          travel vehicle [request] current_time "STANDARD"
            = Return (cost, order) ->
          0 <= cost ->
          has_edge g' (v_label (v_id vehicle)) (r_label (r_id request)) = true).
Proof.
  intros HK. induction nearest_vs as [|[w vehicle] rest IH];
    intros count g g' H; simpl in H.
  - injection H as <-. split; [auto|]. intros w v c o [].
  - apply bind_Return in H. destruct H as ([cost order] & Ht & H). cbn [fst] in H.
    replace (PRUNING_RV_K switches >? 0) with false in H
      by (symmetry; rewrite Z.gtb_ltb; apply Z.ltb_ge; lia).
    cbn [andb] in H.
    destruct (cost >=? 0) eqn:Hc.
    + apply IH in H. destruct H as [Hmono Hrest].
      destruct (has_edge_add g (v_label (v_id vehicle)) (vehicle_data vehicle)
                  (v_label (v_id vehicle)) (r_label (r_id request)) cost)
        as [Hnew Hold].
      split; [auto|].
      intros w' v' c' o' [E|Hin] Ht' Hc'; [|eapply Hrest; eassumption].
      injection E as _ <-. apply Hmono, Hnew.
    + apply IH in H. destruct H as [Hmono Hrest]. split; [exact Hmono|].
      intros w' v' c' o' [E|Hin] Ht' Hc'; [|eapply Hrest; eassumption].
      injection E as _ <-. rewrite Ht in Ht'. injection Ht' as <- _.
      rewrite Z.geb_leb in Hc. apply Z.leb_gt in Hc. lia.
Qed.

Lemma rv_jobs_complete vehicles requests current_time :
  PRUNING_RV_K switches <= 0 -> metric_times network -> nonneg_dwell glo ->
  forall indices g g',
    for_requests (rv_request vehicles current_time) requests indices g
      = Return g' ->
    (forall a b, has_edge g a b = true -> has_edge g' a b = true)
    /\ (forall i request vehicle cost order,
          In i indices -> nth_error requests i = Some request ->
          In vehicle vehicles -> 0 <= v_node vehicle ->
          valid_nodes (required_stops vehicle [request]) ->
          travel vehicle [request] current_time "STANDARD"
            = Return (cost, order) ->
          0 <= cost ->
          has_edge g' (v_label (v_id vehicle)) (r_label (r_id request)) = true).
Proof.
  intros HK Hm Hd. induction indices as [|i rest IH]; intros g g' H; simpl in H.
  - injection H as <-. split; [auto|]. intros i r v c o [].
  - destruct (nth_error requests i) as [request|] eqn:Hi; [|discriminate].
    apply bind_Return in H. destruct H as (g1 & Hb & H).
    apply IH in H. destruct H as [Hmono Hrest].
    unfold rv_request in Hb. apply (rv_link_complete _ _ HK) in Hb.
    destruct Hb as [Hmono1 Hnew]. split.
    + intros a b Hab. apply Hmono, Hmono1. unfold has_edge in *. exact Hab.
    + intros j r v c o [<-|Hj] Hr Hv Hnode Hvalid Ht Hc;
        [|eapply Hrest; eassumption].
      rewrite Hi in Hr. injection Hr as <-. apply Hmono.
      eapply (Hnew _ v c o); [|exact Ht|exact Hc].
      apply (Permutation_in _ (Permutation_sym (sort_stable_perm _ _))).
      apply nearest_vehicles_In. split; [exact Hv|]. split; [reflexivity|].
      pose proof (feasible_pickup_in_time v [request] request current_time c o
                    Hm Hd Hnode Hvalid (or_introl eq_refl) Ht Hc).
      lia.
Qed.

(** X15. Without pruning (PRUNING_RV_K <= 0) and for travel times that
    form a metric, the waiting-time test of [make_rvgraph] loses nothing:
    every vehicle on which [travel] finds a route for a request of the
    job is joined to the request in the RV graph. *)
Theorem rv_edges_complete (start end_ : nat) requests vehicles current_time g' :
  PRUNING_RV_K switches <= 0 -> metric_times network -> nonneg_dwell glo ->
  make_rvgraph start end_ (empty_graph false) requests vehicles current_time
    = Return g' ->
  forall i request vehicle cost order,
    (start <= i < end_)%nat -> nth_error requests i = Some request ->
    In vehicle vehicles -> 0 <= v_node vehicle ->
    valid_nodes (required_stops vehicle [request]) ->
    travel vehicle [request] current_time "STANDARD" = Return (cost, order) ->
    0 <= cost ->
    has_edge g' (v_label (v_id vehicle)) (r_label (r_id request)) = true.
Proof.
  unfold make_rvgraph. intros HK Hm Hd H i request vehicle cost order Hi.
  apply (rv_jobs_complete vehicles requests current_time HK Hm Hd) in H.
  destruct H as [_ H]. apply H. apply in_seq. lia.
Qed.

End RvFacts.

Section RrFacts.

Variable glo : Glo.
Variable switches : Switches.
Variable network : Network.
Variable unlocks_id : MetaNodeStop -> Z.
Variable rank : Type.
Variable detour_factor : Request -> Request -> Network -> rank.
Variable rank_lt : rank -> rank -> bool.

Notation compatible := (compatible glo network unlocks_id).
Notation rr_request :=
  (rr_request glo switches network unlocks_id rank detour_factor rank_lt).
Notation make_rrgraph :=
  (make_rrgraph glo switches network unlocks_id rank detour_factor rank_lt).
Notation travel := (travel glo network unlocks_id).
Notation rr_feasible := (rr_feasible glo network unlocks_id).

Lemma compatible_sound request1 current_time :
  forall requests links,
    compatible request1 requests current_time = Return links ->
    Forall (fun link : Request * Z =>
      In (fst link) requests /\ r_id request1 <> r_id (fst link)
      /\ 0 <= snd link
      /\ exists order,
           travel (dummyvehicle request1) [request1; fst link] current_time
             "STANDARD" = Return (snd link, order)) links.
Proof.
  induction requests as [|request2 rest IH]; intros links H; simpl in H.
  - injection H as <-. constructor.
  - assert (Hrest : forall l,
              compatible request1 rest current_time = Return l ->
              Forall (fun link : Request * Z =>
                In (fst link) (request2 :: rest)
                /\ r_id request1 <> r_id (fst link)
                /\ 0 <= snd link
                /\ exists order,
                     travel (dummyvehicle request1) [request1; fst link]
                       current_time "STANDARD" = Return (snd link, order)) l).
    { intros l Hl. eapply Forall_impl; [|apply IH, Hl].
      intros link (Hin & Hrest). split; [right; exact Hin|exact Hrest]. }
    destruct (request_eq request1 request2) eqn:Heq; [apply Hrest, H|].
    match type of H with (if ?b then _ else _) = _ => destruct b end;
      [apply Hrest, H|].
    apply bind_Return in H. destruct H as ([cost order] & Ht & H).
    apply bind_Return in H. destruct H as (tail & Htail & H).
    cbn [fst] in H. destruct (cost >=? 0) eqn:Hc; injection H as <-;
      [|apply Hrest, Htail].
    constructor; [|apply Hrest, Htail]. simpl.
    unfold request_eq in Heq. apply Z.eqb_neq in Heq.
    rewrite Z.geb_leb in Hc. apply Z.leb_le in Hc.
    repeat split; auto. exists order. exact Ht.
Qed.

Lemma firstn_subset {A : Type} (n : nat) (l : list A) (x : A) :
  In x (firstn n l) -> In x l.
Proof.
  revert l. induction n as [|n IH]; intros [|y l]; simpl; try tauto.
  intros [H|H]; [left; exact H|right; apply IH, H].
Qed.

Lemma py_prefix_incl {A : Type} (k : Z) (l : list A) : incl (py_prefix k l) l.
Proof.
  unfold py_prefix. intros x Hx.
  destruct (0 <=? k); eapply firstn_subset; exact Hx.
Qed.

Lemma py_prefix_length {A : Type} (k : Z) (l : list A) :
  0 <= k -> Z.of_nat (List.length (py_prefix k l)) <= k.
Proof.
  intros Hk. unfold py_prefix.
  replace (0 <=? k) with true by (symmetry; apply Z.leb_le; exact Hk).
  rewrite length_firstn. lia.
Qed.

Lemma rr_links_edges requests current_time request1 :
  In request1 requests ->
  forall links g,
    g_directed g = true ->
    Forall (fun link : Request * Z =>
      In (fst link) requests /\ r_id request1 <> r_id (fst link)
      /\ 0 <= snd link
      /\ exists order,
           travel (dummyvehicle request1) [request1; fst link] current_time
             "STANDARD" = Return (snd link, order)) links ->
    Forall (rr_feasible requests current_time) (g_edges g) ->
    let g' := fold_left (fun g (link : Request * Z) =>
                add_edge (add_node g (r_label (r_id (fst link)))
                            (request_data (fst link)))
                  (r_label (r_id request1)) (r_label (r_id (fst link)))
                  (snd link)) links g in
    g_directed g' = true
    /\ Forall (rr_feasible requests current_time) (g_edges g').
Proof.
  intros H1. induction links as [|[request2 cost] rest IH];
    intros g Hdir Hlinks Hall; simpl; [auto|].
  inversion Hlinks as [|? ? Hlink Hrest]; subst. simpl in Hlink.
  destruct Hlink as (H2 & Hne & Hc & order & Ht).
  apply IH; [exact Hdir|exact Hrest|].
  assert (Hnew : rr_feasible requests current_time
                   (r_label (r_id request1), r_label (r_id request2), cost)).
  { exists request1, request2, order. simpl. repeat split; auto. }
  simpl. apply set_edge_forall; [exact Hall|exact Hnew|].
  intros a b x _ Hsame. unfold same_edge in Hsame. rewrite Hdir in Hsame.
  simpl in Hsame. rewrite orb_false_r in Hsame.
  apply andb_true_iff in Hsame. destruct Hsame as [Ea Eb].
  apply label_eqb_eq in Ea, Eb. subst a b. exact Hnew.
Qed.

Lemma rr_request_kept requests current_time g request1 g' :
  rr_request requests current_time g request1 = Return g' ->
  exists links kept,
    compatible request1 requests current_time = Return links
    /\ incl kept links
    /\ (PRUNING_RR_K switches = 0 -> Permutation kept links)
    /\ (0 < PRUNING_RR_K switches ->
        Z.of_nat (List.length kept) <= PRUNING_RR_K switches)
    /\ g' = fold_left (fun g (link : Request * Z) =>
              add_edge (add_node g (r_label (r_id (fst link)))
                          (request_data (fst link)))
                (r_label (r_id request1)) (r_label (r_id (fst link)))
                (snd link)) kept
              (add_node g (r_label (r_id request1)) (request_data request1)).
Proof.
  unfold rr_request. intros H.
  apply bind_Return in H. destruct H as (links & Hl & H).
  injection H as <-. exists links.
  set (ranked := sort_stable _ links).
  assert (HP : Permutation ranked links) by apply sort_stable_perm.
  eexists. split; [exact Hl|]. split; [|split; [|split; [|reflexivity]]].
  - destruct (negb (PRUNING_RR_K switches =? 0)
              && (Z.of_nat (List.length ranked) >? PRUNING_RR_K switches)).
    + intros x Hx. apply py_prefix_incl in Hx.
      apply (Permutation_in _ HP), Hx.
    + intros x Hx. apply (Permutation_in _ HP), Hx.
  - intros ->. simpl. exact HP.
  - intros HK.
    destruct (negb (PRUNING_RR_K switches =? 0)
              && (Z.of_nat (List.length ranked) >? PRUNING_RR_K switches))
      eqn:E.
    + apply py_prefix_length. lia.
    + apply andb_false_iff in E. destruct E as [E|E].
      * apply negb_false_iff, Z.eqb_eq in E. lia.
      * rewrite Z.gtb_ltb in E. apply Z.ltb_ge in E. exact E.
Qed.

(** X16. Every edge of the RR graph that [make_rrgraph] builds from the
    empty directed graph joins two requests of different ids for which
    [travel] finds a route serving both on a four-seat vehicle that starts
    at the origin of the first, and its weight is the cost of that route,
    which is not negative. *)
Theorem rr_edges_feasible (start end_ : nat) requests current_time g' :
  make_rrgraph start end_ (empty_graph true) requests current_time
    = Return g' ->
  Forall (rr_feasible requests current_time) (g_edges g').
Proof.
  unfold make_rrgraph. intros H.
  apply (for_requests_inv
           (fun g => g_directed g = true
                     /\ Forall (rr_feasible requests current_time) (g_edges g))
           _ requests) in H; [exact (proj2 H)| |split; [reflexivity|constructor]].
  intros g request1 g1 H1 [Hdir Hall] Hb.
  apply rr_request_kept in Hb.
  destruct Hb as (links & kept & Hl & Hincl & _ & _ & ->).
  apply rr_links_edges; [exact H1|exact Hdir| |exact Hall].
  apply compatible_sound in Hl. rewrite Forall_forall in *.
  intros link Hin. apply Hl, Hincl, Hin.
Qed.

Lemma set_edge_starts (directed : bool) (u v n : label) (w : Z)
    (edges : list (label * label * Z)) :
  (List.length (filter (fun e => label_eqb (fst (fst e)) n)
                  (set_edge directed edges u v w))
   <= List.length (filter (fun e => label_eqb (fst (fst e)) n) edges)
      + (if label_eqb u n then 1 else 0))%nat.
Proof.
  induction edges as [|[[a b] x] rest IH]; simpl.
  - destruct (label_eqb u n); simpl; lia.
  - destruct (same_edge directed u v a b); simpl.
    + destruct (label_eqb a n); simpl; lia.
    + destruct (label_eqb a n); simpl; lia.
Qed.

Lemma rr_links_bound request1 (n : label) :
  forall kept g,
    let g' := fold_left (fun g (link : Request * Z) =>
                add_edge (add_node g (r_label (r_id (fst link)))
                            (request_data (fst link)))
                  (r_label (r_id request1)) (r_label (r_id (fst link)))
                  (snd link)) kept g in
    (edges_from g' n
     <= edges_from g n
        + (if label_eqb (r_label (r_id request1)) n
           then List.length kept else 0))%nat.
Proof.
  induction kept as [|[request2 cost] rest IH]; intros g; cbn [fold_left].
  - destruct (label_eqb (r_label (r_id request1)) n); cbn [List.length]; lia.
  - eapply Nat.le_trans; [apply IH|]. cbn [List.length].
    pose proof (set_edge_starts (g_directed g) (r_label (r_id request1))
                  (r_label (r_id request2)) n cost (g_edges g)) as Hs.
    unfold edges_from, add_edge, add_node. cbn [g_edges g_directed fst snd].
    destruct (label_eqb (r_label (r_id request1)) n); lia.
Qed.

Lemma rr_jobs_bound requests current_time :
  0 < PRUNING_RR_K switches -> NoDup (map r_id requests) ->
  forall indices g g',
    NoDup indices ->
    (forall n, Z.of_nat (edges_from g n) <= PRUNING_RR_K switches) ->
    (forall i request, In i indices -> nth_error requests i = Some request ->
        edges_from g (r_label (r_id request)) = 0%nat) ->
    for_requests (rr_request requests current_time) requests indices g
      = Return g' ->
    forall n, Z.of_nat (edges_from g' n) <= PRUNING_RR_K switches.
Proof.
  intros HK Hids. induction indices as [|i rest IH];
    intros g g' Hnd Hall Hfresh H; simpl in H.
  - injection H as <-. exact Hall.
  - destruct (nth_error requests i) as [request|] eqn:Hi; [|discriminate].
    apply bind_Return in H. destruct H as (g1 & Hb & H).
    inversion Hnd as [|? ? Hni Hrest]; subst.
    assert (Hstep : forall n,
              Z.of_nat (edges_from g1 n)
              <= Z.of_nat (edges_from g n)
                 + (if label_eqb (r_label (r_id request)) n
                    then PRUNING_RR_K switches else 0)).
    { intros n. apply rr_request_kept in Hb.
      destruct Hb as (links & kept & _ & _ & _ & Hlen & ->).
      specialize (Hlen HK).
      pose proof (rr_links_bound request n kept
                    (add_node g (r_label (r_id request)) (request_data request)))
        as Hb.
      cbv zeta in Hb.
      change (edges_from (add_node g (r_label (r_id request))
                            (request_data request)) n)
        with (edges_from g n) in Hb.
      destruct (label_eqb (r_label (r_id request)) n); lia. }
    eapply IH; [exact Hrest| | |exact H].
    + intros n. specialize (Hstep n).
      destruct (label_eqb (r_label (r_id request)) n) eqn:E.
      * apply label_eqb_eq in E. subst n.
        rewrite (Hfresh i request) in Hstep; [lia|left; reflexivity|exact Hi].
      * specialize (Hall n). lia.
    + intros j r Hj Hr. specialize (Hstep (r_label (r_id r))).
      destruct (label_eqb (r_label (r_id request)) (r_label (r_id r))) eqn:E.
      * exfalso. simpl in E. apply Z.eqb_eq in E.
        apply Hni. rewrite (NoDup_ids_nth requests i j request r Hids Hi Hr E).
        exact Hj.
      * rewrite (Hfresh j r) in Hstep; [lia|right; exact Hj|exact Hr].
Qed.

(** X17. With PRUNING_RR_K > 0 and requests of different ids, no request
    of the RR graph that [make_rrgraph] builds from the empty directed
    graph has more than PRUNING_RR_K outgoing edges. *)
Theorem rr_pruning_bound (start end_ : nat) requests current_time g' :
  0 < PRUNING_RR_K switches -> NoDup (map r_id requests) ->
  make_rrgraph start end_ (empty_graph true) requests current_time
    = Return g' ->
  forall n, Z.of_nat (edges_from g' n) <= PRUNING_RR_K switches.
Proof.
  unfold make_rrgraph. intros HK Hids H.
  eapply rr_jobs_bound; [exact HK|exact Hids|apply seq_NoDup| | |exact H].
  - intros n. unfold edges_from. simpl. lia.
  - intros. reflexivity.
Qed.

Lemma compatible_complete request1 current_time :
  metric_times network -> nonneg_dwell glo ->
  r_entry_time request1 <= current_time -> 0 <= r_origin request1 ->
  forall requests links,
    compatible request1 requests current_time = Return links ->
    forall request2 cost order,
      In request2 requests -> r_id request1 <> r_id request2 ->
      valid_nodes [pickup_stop request1; dropoff_stop request1;
                   pickup_stop request2; dropoff_stop request2] ->
      travel (dummyvehicle request1) [request1; request2] current_time
        "STANDARD" = Return (cost, order) ->
      0 <= cost ->
      In (request2, cost) links.
Proof.
  intros Hm Hd He Ho. induction requests as [|r rest IH];
    intros links H request2 cost order Hin Hne Hv Ht Hc; [destruct Hin|].
  simpl in H.
  destruct Hin as [->|Hin].
  - unfold request_eq in H.
    replace (r_id request1 =? r_id request2) with false in H
      by (symmetry; apply Z.eqb_neq; exact Hne).
    pose proof (feasible_pickup_in_time glo network unlocks_id
                  (dummyvehicle request1) [request1; request2] request2
                  current_time cost order Hm Hd Ho) as Hfilter.
    unfold required_stops in Hfilter. simpl in Hfilter.
    specialize (Hfilter Hv (or_intror (or_introl eq_refl)) Ht Hc).
    unfold get_vehicle_time in Hfilter. simpl in Hfilter.
    replace (get_time network (r_origin request1) (r_origin request2) - 0
             + Z.max current_time (r_entry_time request1)
             >? r_latest_boarding request2) with false in H
      by (symmetry; rewrite Z.gtb_ltb; apply Z.ltb_ge; lia).
    apply bind_Return in H. destruct H as ([c o] & Ht' & H).
    apply bind_Return in H. destruct H as (tail & _ & H).
    rewrite Ht in Ht'. injection Ht' as <- <-. cbn [fst] in H.
    replace (cost >=? 0) with true in H
      by (symmetry; rewrite Z.geb_leb; apply Z.leb_le; exact Hc).
    injection H as <-. left. reflexivity.
  - assert (Hrest : forall l,
              compatible request1 rest current_time = Return l ->
              In (request2, cost) l).
    { intros l Hl. eapply IH; eassumption. }
    destruct (request_eq request1 r); [apply Hrest, H|].
    match type of H with (if ?b then _ else _) = _ => destruct b end;
      [apply Hrest, H|].
    apply bind_Return in H. destruct H as ([c o] & _ & H).
    apply bind_Return in H. destruct H as (tail & Htail & H).
    cbn [fst] in H. destruct (c >=? 0); injection H as <-;
      [right|]; apply Hrest, Htail.
Qed.

Lemma rr_links_has request1 :
  forall kept g,
    let g' := fold_left (fun g (link : Request * Z) =>
                add_edge (add_node g (r_label (r_id (fst link)))
                            (request_data (fst link)))
                  (r_label (r_id request1)) (r_label (r_id (fst link)))
                  (snd link)) kept g in
    (forall a b, has_edge g a b = true -> has_edge g' a b = true)
    /\ (forall link, In link kept ->
          has_edge g' (r_label (r_id request1)) (r_label (r_id (fst link)))
          = true).
Proof.
  induction kept as [|[request2 cost] rest IH]; intros g; simpl.
  - split; [auto|]. intros link [].
  - destruct (IH (add_edge (add_node g (r_label (r_id request2))
                              (request_data request2))
                    (r_label (r_id request1)) (r_label (r_id request2)) cost))
      as [Hmono Hrest].
    destruct (has_edge_add g (r_label (r_id request2)) (request_data request2)
                (r_label (r_id request1)) (r_label (r_id request2)) cost)
      as [Hnew Hold].
    split; [auto|].
    intros link [<-|Hin]; [apply Hmono, Hnew|apply Hrest, Hin].
Qed.

Lemma rr_jobs_complete requests current_time :
  PRUNING_RR_K switches = 0 -> metric_times network -> nonneg_dwell glo ->
  forall indices g g',
    for_requests (rr_request requests current_time) requests indices g
      = Return g' ->
    (forall a b, has_edge g a b = true -> has_edge g' a b = true)
    /\ (forall i request1 request2 cost order,
          In i indices -> nth_error requests i = Some request1 ->
          In request2 requests -> r_id request1 <> r_id request2 ->
          r_entry_time request1 <= current_time -> 0 <= r_origin request1 ->
          valid_nodes [pickup_stop request1; dropoff_stop request1;
                       pickup_stop request2; dropoff_stop request2] ->
          travel (dummyvehicle request1) [request1; request2] current_time
            "STANDARD" = Return (cost, order) ->
          0 <= cost ->
          has_edge g' (r_label (r_id request1)) (r_label (r_id request2))
          = true).
Proof.
  intros HK Hm Hd. induction indices as [|i rest IH]; intros g g' H; simpl in H.
  - injection H as <-. split; [auto|]. intros i r1 r2 c o [].
  - destruct (nth_error requests i) as [request|] eqn:Hi; [|discriminate].
    apply bind_Return in H. destruct H as (g1 & Hb & H).
    apply IH in H. destruct H as [Hmono Hrest].
    apply rr_request_kept in Hb.
    destruct Hb as (links & kept & Hl & _ & Hperm & _ & ->).
    specialize (Hperm HK).
    destruct (rr_links_has request kept
                (add_node g (r_label (r_id request)) (request_data request)))
      as [Hmono1 Hnew].
    split.
    + intros a b Hab. apply Hmono, Hmono1. exact Hab.
    + intros j r1 r2 c o [<-|Hj] Hr1 H2 Hne He Ho Hv Ht Hc;
        [|eapply Hrest; eassumption].
      rewrite Hi in Hr1. injection Hr1 as <-. apply Hmono.
      apply (Hnew (r2, c)).
      apply (Permutation_in _ (Permutation_sym Hperm)).
      eapply compatible_complete; eassumption.
Qed.

(** X18. Without pruning (PRUNING_RR_K = 0) and for travel times that
    form a metric, the waiting-time test of [make_rrgraph] loses nothing
    for a request that has entered by the current time: every other
    request with which [travel] finds a shared route from its origin is
    joined to it by an RR edge. *)
Theorem rr_edges_complete (start end_ : nat) requests current_time g' :
  PRUNING_RR_K switches = 0 -> metric_times network -> nonneg_dwell glo ->
  make_rrgraph start end_ (empty_graph true) requests current_time
    = Return g' ->
  forall i request1 request2 cost order,
    (start <= i < end_)%nat -> nth_error requests i = Some request1 ->
    In request2 requests -> r_id request1 <> r_id request2 ->
    r_entry_time request1 <= current_time -> 0 <= r_origin request1 ->
    valid_nodes [pickup_stop request1; dropoff_stop request1;
                 pickup_stop request2; dropoff_stop request2] ->
    travel (dummyvehicle request1) [request1; request2] current_time
      "STANDARD" = Return (cost, order) ->
    0 <= cost ->
    has_edge g' (r_label (r_id request1)) (r_label (r_id request2)) = true.
Proof.
  unfold make_rrgraph. intros HK Hm Hd H i request1 request2 cost order Hi.
  apply (rr_jobs_complete requests current_time HK Hm Hd) in H.
  destruct H as [_ H]. apply H. apply in_seq. lia.
Qed.

End RrFacts.

Lemma rv_edges_feasible_witness :
  Forall (rv_feasible Examples.defaults Examples.line Examples.no_ties
            [Examples.taxi; GraphExamples.taxi2] GraphExamples.requests 0)
    (g_edges GraphExamples.rv_graph).
Proof.
  apply (rv_edges_feasible Examples.defaults GraphExamples.no_pruning
           Examples.line Examples.no_ties 0 2 GraphExamples.requests
           [Examples.taxi; GraphExamples.taxi2] 0 GraphExamples.rv_graph).
  vm_compute. reflexivity.
Defined.

Lemma rv_pruning_bound_witness :
  Z.of_nat (edges_to GraphExamples.rv_graph_pruned (r_label 11))
  <= PRUNING_RV_K GraphExamples.one_link.
Proof.
  apply (rv_pruning_bound Examples.defaults GraphExamples.one_link
           Examples.line Examples.no_ties 0 2 GraphExamples.requests
           [Examples.taxi; GraphExamples.taxi2] 0 GraphExamples.rv_graph_pruned).
  - simpl. lia.
  - repeat constructor; simpl; intuition discriminate.
  - vm_compute. reflexivity.
Defined.

Lemma rv_edges_complete_witness :
  has_edge GraphExamples.rv_graph (v_label (v_id GraphExamples.taxi2))
    (r_label (r_id Examples.sharer2)) = true.
Proof.
  eapply (rv_edges_complete Examples.defaults GraphExamples.no_pruning
            Examples.line Examples.no_ties 0 2 GraphExamples.requests
            [Examples.taxi; GraphExamples.taxi2] 0 GraphExamples.rv_graph)
    with (i := 1%nat) (cost := 60)
         (order := [pickup_stop Examples.sharer2; dropoff_stop Examples.sharer2]).
  - simpl. lia.
  - apply line_metric.
  - split; simpl; lia.
  - vm_compute. reflexivity.
  - lia.
  - reflexivity.
  - right. left. reflexivity.
  - simpl. lia.
  - repeat constructor; simpl; lia.
  - vm_compute. reflexivity.
  - lia.
Defined.

Lemma rr_edges_feasible_witness :
  Forall (rr_feasible Examples.defaults Examples.line Examples.no_ties
            GraphExamples.requests 0)
    (g_edges GraphExamples.rr_graph).
Proof.
  apply (rr_edges_feasible Examples.defaults GraphExamples.no_pruning
           Examples.line Examples.no_ties Z GraphExamples.flat_rank Z.ltb
           0 2 GraphExamples.requests 0 GraphExamples.rr_graph).
  vm_compute. reflexivity.
Defined.

Lemma rr_pruning_bound_witness :
  Z.of_nat (edges_from GraphExamples.rr_graph_pruned (r_label 11))
  <= PRUNING_RR_K GraphExamples.one_link.
Proof.
  apply (rr_pruning_bound Examples.defaults GraphExamples.one_link
           Examples.line Examples.no_ties Z GraphExamples.flat_rank Z.ltb
           0 2 GraphExamples.requests 0 GraphExamples.rr_graph_pruned).
  - simpl. lia.
  - repeat constructor; simpl; intuition discriminate.
  - vm_compute. reflexivity.
Defined.

Lemma rr_edges_complete_witness :
  has_edge GraphExamples.rr_graph (r_label (r_id Examples.sharer1))
    (r_label (r_id Examples.sharer2)) = true.
Proof.
  eapply (rr_edges_complete Examples.defaults GraphExamples.no_pruning
            Examples.line Examples.no_ties Z GraphExamples.flat_rank Z.ltb
            0 2 GraphExamples.requests 0 GraphExamples.rr_graph)
    with (i := 0%nat) (cost := 180)
         (order := [pickup_stop Examples.sharer1; pickup_stop Examples.sharer2;
                    dropoff_stop Examples.sharer2; dropoff_stop Examples.sharer1]).
  - reflexivity.
  - apply line_metric.
  - split; simpl; lia.
  - vm_compute. reflexivity.
  - lia.
  - reflexivity.
  - right. left. reflexivity.
  - simpl. lia.
  - simpl. lia.
  - simpl. lia.
  - repeat constructor; simpl; lia.
  - vm_compute. reflexivity.
  - lia.
Defined.

(** ** Time strings and the request buffer *)

Section TimeStrings.

Lemma digit_facts c :
  is_digit c = true ->
  is_space c = false /\ Ascii.eqb c ":" = false /\ Ascii.eqb c "_" = false
  /\ Ascii.eqb c "-" = false /\ Ascii.eqb c "+" = false.
Proof.
  destruct c as [[] [] [] [] [] [] [] []]; vm_compute; intro H;
    try discriminate H; repeat split.
Qed.

Lemma uint_string_digits d :
  string_all is_digit (DecimalString.NilEmpty.string_of_uint d) = true.
Proof. induction d; simpl; auto. Qed.

Lemma to_uint_nonnil n : N.to_uint n <> Decimal.Nil.
Proof.
  rewrite <- (DecimalN.Unsigned.of_to n) at 1.
  rewrite DecimalN.Unsigned.to_of. apply DecimalFacts.unorm_nonnil.
Qed.

Lemma decimal_uint n :
  decimal n = DecimalString.NilEmpty.string_of_uint (N.to_uint n).
Proof.
  unfold decimal, DecimalString.NilZero.string_of_uint.
  pose proof (to_uint_nonnil n). destruct (N.to_uint n); congruence.
Qed.

Lemma decimal_digits n : string_all is_digit (decimal n) = true.
Proof. rewrite decimal_uint. apply uint_string_digits. Qed.

Lemma decimal_nonempty n : decimal n <> EmptyString.
Proof.
  rewrite decimal_uint. pose proof (to_uint_nonnil n).
  destruct (N.to_uint n); simpl; congruence.
Qed.

Lemma decimal_value n :
  DecimalString.NilEmpty.uint_of_string (decimal n) = Some (N.to_uint n).
Proof. rewrite decimal_uint. apply DecimalString.NilEmpty.usu. Qed.


Lemma digits_lstrip s : string_all is_digit s = true -> lstrip s = s.
Proof.
  destruct s as [|c s]; simpl; auto. intro H.
  apply andb_true_iff in H as [H _]. apply digit_facts in H as [-> _]. auto.
Qed.

Lemma digits_rstrip s : string_all is_digit s = true -> rstrip s = s.
Proof.
  induction s as [|c s IH]; simpl; auto. intro H.
  apply andb_true_iff in H as [Hc H]. rewrite (IH H).
  apply digit_facts in Hc as [-> _]. destruct s; auto.
Qed.

Lemma digits_grouped s b :
  string_all is_digit s = true -> s <> EmptyString ->
  grouped_digits s b = true.
Proof.
  revert b. induction s as [|c s IH]; simpl; intros b H Hne; [congruence|].
  apply andb_true_iff in H as [Hc H]. rewrite Hc.
  destruct s as [|c' s']; [reflexivity|]. apply IH; [exact H|discriminate].
Qed.

Lemma digits_no_underscore s :
  string_all is_digit s = true -> without_underscores s = s.
Proof.
  induction s as [|c s IH]; simpl; auto. intro H.
  apply andb_true_iff in H as [Hc H]. rewrite (IH H).
  apply digit_facts in Hc as (_ & _ & -> & _). auto.
Qed.

Lemma split_field sep s rest :
  string_all (fun c => negb (Ascii.eqb c sep)) s = true ->
  split_on sep (s ++ String sep rest) = s :: split_on sep rest.
Proof.
  induction s as [|c s IH]; simpl; intro H.
  - rewrite Ascii.eqb_refl. reflexivity.
  - apply andb_true_iff in H as [Hc H]. apply negb_true_iff in Hc.
    rewrite Hc, (IH H). reflexivity.
Qed.

Lemma split_last sep s :
  string_all (fun c => negb (Ascii.eqb c sep)) s = true ->
  split_on sep s = [s].
Proof.
  induction s as [|c s IH]; simpl; intro H; auto.
  apply andb_true_iff in H as [Hc H]. apply negb_true_iff in Hc.
  rewrite Hc, (IH H). reflexivity.
Qed.

Lemma string_all_impl (p q : ascii -> bool) s :
  (forall c, p c = true -> q c = true) ->
  string_all p s = true -> string_all q s = true.
Proof.
  intro Hpq. induction s as [|c s IH]; simpl; auto. intro H.
  apply andb_true_iff in H as [Hc H]. rewrite (Hpq _ Hc), (IH H). auto.
Qed.

(** [int] on a numeral of digits only. *)
Lemma py_int_digits limit s d :
  string_all is_digit s = true -> s <> EmptyString ->
  int_refused limit (String.length s) = false ->
  DecimalString.NilEmpty.uint_of_string s = Some d ->
  py_int limit s = Some (Z.of_N (N.of_uint d)).
Proof.
  intros Hs Hne Hlim Hd. unfold py_int.
  rewrite (digits_lstrip _ Hs), (digits_rstrip _ Hs).
  assert (Hsign : match s with
                  | String "-" rest => (true, rest)
                  | String "+" rest => (false, rest)
                  | _ => (false, s)
                  end = (false, s)).
  { destruct s as [|c s']; [reflexivity|]. simpl in Hs.
    apply andb_true_iff in Hs as [Hc _].
    destruct c as [[] [] [] [] [] [] [] []]; try reflexivity;
      vm_compute in Hc; discriminate Hc. }
  rewrite Hsign. rewrite (digits_no_underscore _ Hs), (digits_grouped _ _ Hs Hne).
  rewrite Hlim, Hd. reflexivity.
Qed.

(** [int] on a minus sign followed by digits. *)
Lemma py_int_minus limit s d :
  string_all is_digit s = true -> s <> EmptyString ->
  int_refused limit (String.length s) = false ->
  DecimalString.NilEmpty.uint_of_string s = Some d ->
  py_int limit (String "-" s) = Some (- Z.of_N (N.of_uint d)).
Proof.
  intros Hs Hne Hlim Hd. unfold py_int.
  assert (Hl : lstrip (String "-" s) = String "-" s) by reflexivity.
  assert (Hr : rstrip (String "-" s) = String "-" s).
  { cbn [rstrip]. rewrite (digits_rstrip _ Hs). destruct s; congruence. }
  rewrite Hl, Hr. cbv iota beta.
  rewrite (digits_no_underscore _ Hs), (digits_grouped _ _ Hs Hne).
  rewrite Hlim, Hd. reflexivity.
Qed.


Lemma digits_no_colon s :
  string_all is_digit s = true -> string_all no_colon s = true.
Proof.
  apply string_all_impl. intros c Hc. unfold no_colon.
  apply digit_facts in Hc as (_ & -> & _). reflexivity.
Qed.

(** What [f'{n:02}'] gives is read back by [int] as [n], and holds no
    colon. *)
Lemma py_int_format limit n s :
  format_02 limit n = Some s ->
  py_int limit s = Some n /\ string_all no_colon s = true.
Proof.
  unfold format_02, format_refused.
  set (d := decimal (Z.to_N (Z.abs n))).
  pose proof (decimal_digits (Z.to_N (Z.abs n))) as Hd.
  pose proof (decimal_nonempty (Z.to_N (Z.abs n))) as Hne.
  pose proof (decimal_value (Z.to_N (Z.abs n))) as Hv.
  fold d in Hd, Hne, Hv.
  destruct (Z.ltb_spec n 0) as [Hneg|Hpos].
  - destruct (str_refused limit (S (String.length d)) (String.length d)) eqn:Hlim;
      [discriminate|]. intro H. injection H as <-. split.
    + rewrite (py_int_minus limit d (N.to_uint (Z.to_N (Z.abs n))) Hd Hne); auto.
      * rewrite DecimalN.Unsigned.of_to. f_equal. lia.
      * unfold int_refused, str_refused in *.
        destruct (Nat.ltb_spec LONG_MAX_STR_DIGITS_THRESHOLD (String.length d)); auto.
        destruct (Nat.ltb_spec LONG_MAX_STR_DIGITS_THRESHOLD (S (String.length d)));
          [exact Hlim|lia].
    + simpl. apply digits_no_colon, Hd.
  - destruct (str_refused limit (String.length d) (String.length d)) eqn:Hlim;
      [discriminate|]. intro H. injection H as <-.
    destruct (Nat.ltb_spec (String.length d) 2) as [Hshort|Hlong].
    + split.
      * rewrite (py_int_digits limit (String "0" d) (Decimal.D0 (N.to_uint (Z.to_N (Z.abs n))))).
        -- change (N.of_uint (Decimal.D0 ?x)) with (N.of_uint x).
           rewrite DecimalN.Unsigned.of_to. f_equal. lia.
        -- simpl. exact Hd.
        -- discriminate.
        -- unfold int_refused, LONG_MAX_STR_DIGITS_THRESHOLD. simpl String.length.
           destruct (Nat.ltb_spec 640 (S (String.length d))); [lia|reflexivity].
        -- simpl. rewrite Hv. reflexivity.
      * simpl. apply digits_no_colon, Hd.
    + split.
      * rewrite (py_int_digits limit d _ Hd Hne Hlim Hv).
        rewrite DecimalN.Unsigned.of_to. f_equal. lia.
      * apply digits_no_colon, Hd.
Qed.


Lemma small_numeral (k : nat) :
  (k < 60)%nat -> Nat.leb (String.length (decimal (N.of_nat k))) 2 = true.
Proof. intro H. do 60 (destruct k as [|k]; [reflexivity|]). lia. Qed.

(** Minutes and seconds are always formatted. *)
Lemma format_small limit m :
  0 <= m < 60 -> format_refused limit m = false.
Proof.
  intro H. unfold format_refused, str_refused.
  pose proof (small_numeral (Z.to_nat m) ltac:(lia)) as Hk.
  replace (N.of_nat (Z.to_nat m)) with (Z.to_N (Z.abs m)) in Hk by lia.
  apply Nat.leb_le in Hk.
  destruct (Z.ltb_spec m 0); [lia|]. unfold LONG_MAX_STR_DIGITS_THRESHOLD.
  destruct (Nat.ltb_spec 640 (String.length (decimal (Z.to_N (Z.abs m)))));
    [lia|reflexivity].
Qed.

Lemma format_02_some limit n :
  format_refused limit n = false -> exists s, format_02 limit n = Some s.
Proof. unfold format_02. intros ->. eauto. Qed.

Lemma hms_sum t : t / 3600 * 3600 + (t / 60) mod 60 * 60 + t mod 60 = t.
Proof.
  replace (t / 3600) with (t / 60 / 60) by (rewrite Z.div_div; [reflexivity|lia|lia]).
  pose proof (Z.div_mod t 60 ltac:(lia)).
  pose proof (Z.div_mod (t / 60) 60 ltac:(lia)). lia.
Qed.

(** X19. Round trip of the time strings: when the hour count
    [timeint // 3600] is a numeral that the interpreter converts (always
    so up to 640 characters, or with no limit set), [encode_time] returns
    a string from which [decode_time] and [read_time] give back
    [timeint], negative times included. *)
Theorem decode_encode_time limit t :
  format_refused limit (t / 3600) = false ->
  exists s, encode_time limit t = Return s
            /\ decode_time limit s = Return t
            /\ read_time limit s = Return t.
Proof.
  intro Hh.
  destruct (format_02_some limit _ Hh) as [h Eh].
  destruct (format_02_some limit ((t / 60) mod 60)
              (format_small limit _ (Z.mod_pos_bound _ 60 ltac:(lia)))) as [m Em].
  destruct (format_02_some limit (t mod 60)
              (format_small limit _ (Z.mod_pos_bound _ 60 ltac:(lia)))) as [s Es].
  exists (h ++ ":" ++ m ++ ":" ++ s)%string.
  unfold encode_time, decode_time, read_time. rewrite Eh, Em, Es.
  apply py_int_format in Eh as [Ih Ch], Em as [Im Cm], Es as [Is Cs].
  change (h ++ ":" ++ m ++ ":" ++ s)%string
    with (h ++ String ":" (m ++ String ":" s))%string.
  rewrite (split_field ":" h _ Ch), (split_field ":" m _ Cm), (split_last ":" s Cs).
  cbn [map]. rewrite Ih, Im, Is, hms_sum. auto.
Qed.

Lemma split_on_length sep s :
  List.length (split_on sep s) = S (count_char sep s).
Proof.
  induction s as [|c s IH]; simpl; auto.
  destruct (Ascii.eqb c sep); simpl; [rewrite IH; reflexivity|].
  destruct (split_on sep s); simpl in *; congruence.
Qed.

(** X20. A time string that does not hold exactly two colons is refused:
    [decode_time] raises the ValueError with the string in its message,
    whatever stands between the colons. *)
Theorem decode_time_fields limit s :
  count_char ":" s <> 2%nat ->
  decode_time limit s = Raises ("ValueError: Invalid time string: " ++ s)%string.
Proof.
  intro H. unfold decode_time.
  pose proof (split_on_length ":" s) as Hl.
  destruct (split_on ":" s) as [|a [|b [|c [|e l]]]]; cbn [List.length] in Hl;
    try (exfalso; lia); cbn [map];
    repeat match goal with |- context [py_int limit ?x] =>
             destruct (py_int limit x) end; reflexivity.
Qed.

End TimeStrings.

Lemma decode_encode_time_witness :
  format_refused 4300 (-1 / 3600) = false
  /\ exists s, encode_time 4300 (-1) = Return s
               /\ decode_time 4300 s = Return (-1)
               /\ read_time 4300 s = Return (-1).
Proof.
  split; [reflexivity|]. apply (decode_encode_time 4300 (-1)). reflexivity.
Defined.

Lemma decode_time_fields_witness :
  count_char ":" "12:30" <> 2%nat
  /\ decode_time 4300 "12:30"
     = Raises ("ValueError: Invalid time string: " ++ "12:30")%string.
Proof.
  split; [cbn; lia|]. apply (decode_time_fields 4300 "12:30"). cbn. lia.
Defined.

(** *** The request buffer over the ticks of the main loop *)

Section BufferFacts.

Variable switches : Switches.
Hypothesis Hinterval : 0 < INTERVAL switches.

(** With enough fuel the clock loop ends. *)
Lemma clock_loop_total final_time :
  forall fuel current_time,
    final_time - INTERVAL switches - current_time
    <= Z.of_nat fuel * INTERVAL switches ->
    exists ticks, clock_loop switches fuel current_time final_time = Return ticks.
Proof.
  induction fuel as [|fuel IH]; intros current_time H; cbn [clock_loop].
  - replace (current_time <? final_time - INTERVAL switches) with false
      by (symmetry; apply Z.ltb_ge; lia).
    eauto.
  - destruct (current_time <? final_time - INTERVAL switches); [|eauto].
    destruct (IH (current_time + INTERVAL switches)) as (ticks & ->); [lia|].
    cbn [bind]. eauto.
Qed.

(** The requests that are new at a tick. *)
Lemma count_new_requests (requests : list Request) (r : Request) (t : Z) :
  count_occ Request_eq_dec (get_new_requests switches requests t) r
  = if (r_entry_time r <=? t) && (t <? r_entry_time r + INTERVAL switches)
    then count_occ Request_eq_dec requests r else 0%nat.
Proof.
  unfold get_new_requests. induction requests as [|x l IHl].
  - simpl. destruct (_ && _); reflexivity.
  - cbn [filter count_occ].
    destruct (Request_eq_dec x r) as [->|Hne].
    + destruct ((r_entry_time r <=? t)
                && (t <? r_entry_time r + INTERVAL switches)) eqn:E.
      * cbn [count_occ]. destruct (Request_eq_dec r r); [|contradiction].
        rewrite IHl. reflexivity.
      * exact IHl.
    + destruct ((r_entry_time x <=? t)
                && (t <? r_entry_time x + INTERVAL switches)).
      * cbn [count_occ]. destruct (Request_eq_dec x r); [contradiction|].
        exact IHl.
      * exact IHl.
Qed.

(** The number of ticks at which a request is new. *)
Lemma count_new_ticks (requests : list Request) (r : Request) (ticks : list Z) :
  count_occ Request_eq_dec (buffer_entries switches requests ticks) r
  = Nat.mul
      (List.length
         (filter (fun t => (r_entry_time r <=? t)
                           && (t <? r_entry_time r + INTERVAL switches)) ticks))
      (count_occ Request_eq_dec requests r).
Proof.
  unfold buffer_entries.
  induction ticks as [|t ticks IH]; [reflexivity|].
  cbn [flat_map filter]. rewrite count_occ_app, IH, count_new_requests.
  destruct ((r_entry_time r <=? t)
            && (t <? r_entry_time r + INTERVAL switches));
    cbn [List.length]; lia.
Qed.

(** The ticks of the loop at which a request is new: one, the first tick
    at or after its entry, when the request enters after the start of the
    clock and that tick is before the final time; none otherwise. *)
Lemma clock_loop_new (r : Request) (final_time : Z) :
  forall fuel current_time ticks,
    clock_loop switches fuel current_time final_time = Return ticks ->
    List.length
      (filter (fun t => (r_entry_time r <=? t)
                        && (t <? r_entry_time r + INTERVAL switches)) ticks)
    = if (current_time <? r_entry_time r)
         && (entry_tick switches (current_time + INTERVAL switches) r
             <? final_time)
      then 1%nat else 0%nat.
Proof.
  set (I := INTERVAL switches) in *. set (e := r_entry_time r).
  assert (Htick : forall c,
            entry_tick switches (c + I) r = c + I + - ((c + I - e) / I) * I)
    by reflexivity.
  assert (Hnext : forall c, (c + I + I - e) / I = (c + I - e) / I + 1).
  { intros c. replace (c + I + I - e) with (c + I - e + 1 * I) by lia.
    apply Z.div_add. lia. }
  induction fuel as [|fuel IH]; intros c ticks H; cbn [clock_loop] in H;
    fold I in H.
  - destruct (c <? final_time - I) eqn:E; [discriminate|].
    injection H as <-. cbn [filter List.length]. apply Z.ltb_ge in E.
    destruct (c <? e) eqn:Ec; [|reflexivity]. apply Z.ltb_lt in Ec.
    rewrite Htick.
    pose proof (Z.div_mod (c + I - e) I ltac:(lia)).
    pose proof (Z.mod_pos_bound (c + I - e) I Hinterval).
    assert (Hq : (c + I - e) / I <= 0)
      by (apply Z.lt_succ_r, Z.div_lt_upper_bound; lia).
    replace (c + I + - ((c + I - e) / I) * I <? final_time) with false
      by (symmetry; apply Z.ltb_ge; nia).
    reflexivity.
  - destruct (c <? final_time - I) eqn:E.
    + apply bind_Return in H. destruct H as (rest & Hrest & H).
      injection H as <-. apply IH in Hrest. cbn [filter].
      apply Z.ltb_lt in E. rewrite !Htick in *. rewrite Hnext in Hrest.
      pose proof (Z.div_mod (c + I - e) I ltac:(lia)).
      pose proof (Z.mod_pos_bound (c + I - e) I Hinterval).
      destruct ((e <=? c + I) && (c + I <? e + I)) eqn:En.
      * apply andb_true_iff in En as [A B].
        apply Z.leb_le in A. apply Z.ltb_lt in B.
        cbn [List.length]. rewrite Hrest.
        replace (c + I <? e) with false by (symmetry; apply Z.ltb_ge; lia).
        replace (c <? e) with true by (symmetry; apply Z.ltb_lt; lia).
        assert (Hq : (c + I - e) / I = 0) by (apply Z.div_small; lia).
        rewrite Hq.
        replace (c + I + - 0 * I <? final_time) with true
          by (symmetry; apply Z.ltb_lt; lia).
        reflexivity.
      * rewrite Hrest. apply andb_false_iff in En.
        destruct (c + I <? e) eqn:E1.
        -- apply Z.ltb_lt in E1.
           replace (c <? e) with true by (symmetry; apply Z.ltb_lt; lia).
           cbn [andb].
           replace (c + I + I + - ((c + I - e) / I + 1) * I)
             with (c + I + - ((c + I - e) / I) * I) by lia.
           reflexivity.
        -- apply Z.ltb_ge in E1. cbn [andb].
           destruct (c <? e) eqn:E2; [|reflexivity].
           apply Z.ltb_lt in E2. exfalso.
           destruct En as [En|En]; [apply Z.leb_gt in En|apply Z.ltb_ge in En];
             lia.
    + injection H as <-. cbn [filter List.length]. apply Z.ltb_ge in E.
      destruct (c <? e) eqn:Ec; [|reflexivity]. apply Z.ltb_lt in Ec.
      rewrite Htick.
      pose proof (Z.div_mod (c + I - e) I ltac:(lia)).
      pose proof (Z.mod_pos_bound (c + I - e) I Hinterval).
      assert (Hq : (c + I - e) / I <= 0)
        by (apply Z.lt_succ_r, Z.div_lt_upper_bound; lia).
      replace (c + I + - ((c + I - e) / I) * I <? final_time) with false
        by (symmetry; apply Z.ltb_ge; nia).
      reflexivity.
Qed.

(** The ticks of the loop are on the lattice of the clock, after the
    start and before the final time. *)
Lemma clock_loop_lattice (final_time : Z) :
  forall fuel current_time ticks,
    clock_loop switches fuel current_time final_time = Return ticks ->
    forall t, In t ticks ->
      exists k, 0 < k /\ t = current_time + k * INTERVAL switches
                /\ t < final_time.
Proof.
  induction fuel as [|fuel IH]; intros c ticks H t Hin; cbn [clock_loop] in H;
    destruct (c <? final_time - INTERVAL switches) eqn:E;
    try discriminate; try (injection H as <-; destruct Hin).
  apply bind_Return in H. destruct H as (rest & Hrest & H).
  injection H as <-. apply Z.ltb_lt in E. destruct Hin as [<-|Hin].
  - exists 1. lia.
  - destruct (IH _ _ Hrest t Hin) as (k & Hk & -> & Hlt).
    exists (k + 1). lia.
Qed.

(** X21. With a positive INTERVAL the main loop runs at the ticks
    [initial_time], [initial_time + INTERVAL], ... before [final_time], and
    over these ticks a request of the list enters the request buffer
    once, at the first tick at or after its entry time, when it entered
    after [initial_time - INTERVAL] and that tick is before [final_time];
    otherwise it never enters the buffer.  (The count is that of the
    request in the list, should the list hold it more than once.) *)
Theorem new_requests_once requests r initial_time final_time fuel :
  final_time - initial_time <= Z.of_nat fuel * INTERVAL switches ->
  exists ticks,
    simulation_ticks switches fuel initial_time final_time = Return ticks
    /\ count_occ Request_eq_dec (buffer_entries switches requests ticks) r
       = (if (initial_time - INTERVAL switches <? r_entry_time r)
             && (entry_tick switches initial_time r <? final_time)
          then count_occ Request_eq_dec requests r else 0%nat)
    /\ forall t,
         In t ticks -> In r (get_new_requests switches requests t) ->
         t = entry_tick switches initial_time r.
Proof.
  intros Hfuel. unfold simulation_ticks.
  destruct (clock_loop_total final_time fuel
              (initial_time - INTERVAL switches) ltac:(lia)) as (ticks & Ht).
  exists ticks. split; [exact Ht|]. split.
  - rewrite count_new_ticks, (clock_loop_new r final_time _ _ _ Ht).
    replace (initial_time - INTERVAL switches + INTERVAL switches)
      with initial_time by lia.
    destruct ((initial_time - INTERVAL switches <? r_entry_time r)
              && (entry_tick switches initial_time r <? final_time)); lia.
  - intros t Hin Hnew. unfold get_new_requests in Hnew.
    apply filter_In in Hnew. destruct Hnew as [_ Hnew].
    apply andb_true_iff in Hnew as [A B].
    apply Z.leb_le in A. apply Z.ltb_lt in B.
    destruct (clock_loop_lattice final_time _ _ _ Ht t Hin)
      as (k & Hk & -> & _).
    unfold entry_tick.
    set (I := INTERVAL switches) in *. set (e := r_entry_time r) in *.
    pose proof (Z.div_mod (initial_time - e) I ltac:(lia)).
    pose proof (Z.mod_pos_bound (initial_time - e) I Hinterval).
    assert (k - 1 = - ((initial_time - e) / I)) by nia.
    nia.
Qed.

End BufferFacts.

Lemma new_requests_once_witness :
  exists ticks,
    simulation_ticks GraphExamples.no_pruning 60 0 3600 = Return ticks
    /\ count_occ Request_eq_dec
         (buffer_entries GraphExamples.no_pruning GraphExamples.requests ticks)
         Examples.sharer1
       = (if (0 - INTERVAL GraphExamples.no_pruning
              <? r_entry_time Examples.sharer1)
             && (entry_tick GraphExamples.no_pruning 0 Examples.sharer1 <? 3600)
          then count_occ Request_eq_dec GraphExamples.requests Examples.sharer1
          else 0%nat)
    /\ forall t,
         In t ticks ->
         In Examples.sharer1
           (get_new_requests GraphExamples.no_pruning GraphExamples.requests t) ->
         t = entry_tick GraphExamples.no_pruning 0 Examples.sharer1.
Proof.
  apply (new_requests_once GraphExamples.no_pruning ltac:(reflexivity)
           GraphExamples.requests Examples.sharer1 0 3600 60).
  vm_compute. discriminate.
Defined.

(** ** The state clock of a vehicle *)

Section ClockFacts.

Lemma known_state_cases s :
  known_state s = true ->
  s = IDLE \/ s = ENROUTE \/ s = IN_USE \/ s = REBALANCING.
Proof.
  unfold known_state. intro H.
  repeat (apply orb_true_iff in H as [H|H]); apply String.eqb_eq in H; auto.
Qed.

Lemma set_state_inv v state current_time :
  known_state (v_state v) = true -> clock_total v = v_time_stamp v ->
  v_time_stamp v <> -1 ->
  known_state state = true -> current_time <> -1 ->
  let v' := set_state v state current_time in
  known_state (v_state v') = true /\ clock_total v' = v_time_stamp v'
  /\ v_time_stamp v' <> -1.
Proof.
  intros Hk Ht Hs Hk' Hc. unfold set_state.
  destruct (Z.eqb_spec (v_time_stamp v) (-1)) as [E|_]; [contradiction|].
  destruct (String.eqb state (v_state v)); cbn [negb].
  - cbn. auto.
  - unfold clock_total in *. cbn [v_state v_total_idle v_total_rebalancing
      v_total_enroute v_total_inuse v_time_stamp].
    repeat split; auto.
    apply known_state_cases in Hk as [E|[E|[E|E]]]; rewrite E; cbn; lia.
Qed.

Lemma set_states_inv calls : forall v,
  known_state (v_state v) = true -> clock_total v = v_time_stamp v ->
  v_time_stamp v <> -1 ->
  Forall (fun call => known_state (fst call) = true /\ snd call <> -1) calls ->
  let v' := set_states v calls in
  known_state (v_state v') = true /\ clock_total v' = v_time_stamp v'.
Proof.
  induction calls as [|c calls IH]; intros v Hk Ht Hs Hall; cbn.
  - auto.
  - inversion Hall as [|? ? [Hc1 Hc2] Hrest]; subst.
    destruct (set_state_inv v (fst c) (snd c) Hk Ht Hs Hc1 Hc2) as (A & B & C).
    apply IH; auto.
Qed.

(** X22. The state clock loses no time: after any calls of [set_state]
    on a new vehicle, with states among Idle, EnRoute, InUse and
    Rebalancing and times other than -1, the four totals read at [time]
    add up to [time]. *)
Theorem state_times_add_up calls time :
  Forall (fun call => known_state (fst call) = true /\ snd call <> -1) calls ->
  let v := set_states new_clock calls in
  get_total_idle v time + get_total_rebalancing v time
  + get_total_enroute v time + get_total_inuse v time = time.
Proof.
  intro Hall.
  destruct (set_states_inv calls new_clock eq_refl eq_refl ltac:(discriminate) Hall)
    as [Hk Ht].
  cbv zeta. unfold get_total_idle, get_total_rebalancing, get_total_enroute,
    get_total_inuse, clock_total in *.
  apply known_state_cases in Hk as [E|[E|[E|E]]]; rewrite E; cbn; lia.
Qed.

End ClockFacts.

Lemma state_times_add_up_witness :
  Forall (fun call => known_state (fst call) = true /\ snd call <> -1)
         [(ENROUTE, 60); (IN_USE, 180); (IDLE, 420)]
  /\ (let v := set_states new_clock [(ENROUTE, 60); (IN_USE, 180); (IDLE, 420)] in
      get_total_idle v 600 + get_total_rebalancing v 600
      + get_total_enroute v 600 + get_total_inuse v 600 = 600).
Proof.
  assert (H : Forall (fun call => known_state (fst call) = true /\ snd call <> -1)
                [(ENROUTE, 60); (IN_USE, 180); (IDLE, 420)]).
  { repeat constructor; cbn; lia. }
  split; [exact H|].
  apply (state_times_add_up [(ENROUTE, 60); (IN_USE, 180); (IDLE, 420)] 600 H).
Defined.

(** ** Jobs of the thread pools *)

Section JobFacts.

Lemma seq_offset s n : seq s n = map (fun k => (s + k)%nat) (seq 0 n).
Proof.
  induction n as [|n IH]; [reflexivity|].
  rewrite !seq_S, map_app, IH. reflexivity.
Qed.

Lemma py_range_app a b c :
  a <= b <= c -> py_range a b ++ py_range b c = py_range a c.
Proof.
  intros [Hab Hbc]. unfold py_range.
  replace (Z.to_nat (c - a)) with (Z.to_nat (b - a) + Z.to_nat (c - b))%nat by lia.
  rewrite seq_app, map_app. f_equal.
  rewrite Nat.add_0_l, (seq_offset (Z.to_nat (b - a))), map_map.
  apply map_ext_in. intros k _. lia.
Qed.

(** Jobs with the consecutive bounds [b 0 <= b 1 <= ... <= b m] work on
    the range from [b 0] to [b m]. *)
Lemma consecutive_jobs (b : nat -> Z) m :
  (forall k, (k < m)%nat -> b k <= b (S k)) ->
  job_indices (map (fun k => (b k, b (S k))) (seq 0 m)) = py_range (b 0%nat) (b m).
Proof.
  unfold job_indices. induction m as [|m IH]; intro Hb.
  - cbn. unfold py_range. rewrite Z.sub_diag. reflexivity.
  - rewrite seq_S, map_app, flat_map_app, IH by (intros; apply Hb; lia).
    cbn [map flat_map fst snd Nat.add]. rewrite app_nil_r.
    apply py_range_app. split; [|apply Hb; lia].
    clear IH. induction m as [|m IH]; [lia|].
    etransitivity; [apply IH; intros; apply Hb; lia|apply Hb; lia].
Qed.

Lemma py_range_0 n : py_range 0 (Z.of_nat n) = map Z.of_nat (seq 0 n).
Proof. unfold py_range. rewrite Z.sub_0_r, Nat2Z.id. reflexivity. Qed.

(** X23. With a positive number of threads [build_rtv_graph] makes one
    job per thread, and the jobs together work on every index of the
    vehicle list once and in order, also when there are more threads
    than vehicles. *)
Theorem rtv_jobs_partition threads vehicles :
  0 < threads ->
  exists jobs, rtv_jobs threads vehicles = Return jobs
               /\ List.length jobs = Z.to_nat threads
               /\ job_indices jobs = py_range 0 (Z.of_nat (List.length vehicles)).
Proof.
  intro Ht. unfold rtv_jobs.
  destruct (Z.leb_spec threads 0); [lia|].
  set (len := Z.of_nat (List.length vehicles)).
  set (w := len / threads).
  eexists. split; [reflexivity|]. split.
  { unfold py_range. rewrite !length_map, length_seq. f_equal. lia. }
  assert (Hw : 0 <= w) by (apply Z.div_pos; lia).
  assert (Hlen : (threads - 1) * w <= len).
  { pose proof (Z.mul_div_le len threads Ht). fold w in H0. nia. }
  set (b := fun k : nat =>
              if Z.of_nat k <? threads then Z.of_nat k * w else len).
  assert (Hr : py_range 0 threads = map Z.of_nat (seq 0 (Z.to_nat threads))).
  { rewrite <- py_range_0. f_equal. lia. }
  rewrite Hr, map_map.
  rewrite (map_ext_in _ (fun k => (b k, b (S k)))).
  - rewrite consecutive_jobs.
    + unfold b. destruct (Z.ltb_spec (Z.of_nat 0) threads); [|lia].
      destruct (Z.ltb_spec (Z.of_nat (Z.to_nat threads)) threads); [lia|].
      reflexivity.
    + intros k Hk. unfold b.
      destruct (Z.ltb_spec (Z.of_nat k) threads); [|lia].
      destruct (Z.ltb_spec (Z.of_nat (S k)) threads); nia.
  - intros k Hk. apply in_seq in Hk. unfold b.
    destruct (Z.ltb_spec (Z.of_nat k) threads); [|lia].
    destruct (Z.ltb_spec (Z.of_nat k) (threads - 1)),
             (Z.ltb_spec (Z.of_nat (S k)) threads); try lia; f_equal; lia.
Qed.

(** X24. With a positive number of threads and at least one vehicle the
    chunks of [simulate_vehicles] together cover every index of the
    vehicle list once and in order. *)
Theorem simulate_chunks_partition num_threads vehicles :
  0 < num_threads -> vehicles <> [] ->
  exists chunks, simulate_chunks num_threads vehicles = Return chunks
                 /\ job_indices chunks = py_range 0 (Z.of_nat (List.length vehicles)).
Proof.
  intros Ht Hv. unfold simulate_chunks.
  set (n := Z.of_nat (List.length vehicles)).
  assert (Hn : 0 < n) by (destruct vehicles; [congruence|cbn in n; lia]).
  destruct (Z.eqb_spec num_threads 0); [lia|].
  destruct (Z.ltb_spec num_threads 0); [lia|].
  set (cs := (n + num_threads - 1) / num_threads).
  assert (Hcs : 0 < cs).
  { unfold cs. apply Z.div_str_pos. lia. }
  destruct (Z.eqb_spec cs 0); [lia|].
  eexists. split; [reflexivity|].
  unfold py_range_step. rewrite map_map.
  set (m := Z.to_nat ((n - 0 + cs - 1) / cs)).
  set (b := fun k : nat => Z.min (Z.of_nat k * cs) n).
  assert (Hm1 : n <= Z.of_nat m * cs).
  { unfold m. rewrite Z2Nat.id by (apply Z.div_pos; lia).
    pose proof (Z.mod_pos_bound (n - 0 + cs - 1) cs Hcs).
    pose proof (Z.div_mod (n - 0 + cs - 1) cs ltac:(lia)). nia. }
  assert (Hm2 : forall k, (k < m)%nat -> Z.of_nat k * cs < n).
  { intros k Hk. unfold m in Hk.
    assert (Z.of_nat k + 1 <= (n - 0 + cs - 1) / cs) by lia.
    pose proof (Z.mul_div_le (n - 0 + cs - 1) cs Hcs). nia. }
  rewrite (map_ext_in _ (fun k => (b k, b (S k)))).
  - rewrite consecutive_jobs.
    + unfold b. rewrite Z.min_l by lia. rewrite Z.min_r by lia. reflexivity.
    + intros k Hk. unfold b. nia.
  - intros k Hk. apply in_seq in Hk. unfold b.
    pose proof (Hm2 k ltac:(lia)). f_equal; [lia|]. f_equal. lia.
Qed.

(** X25. With no vehicle the chunk size of [simulate_vehicles] is 0 and
    the call raises the ValueError of [range] with a zero step, for every
    positive number of threads. *)
Theorem simulate_chunks_empty_fleet num_threads :
  0 < num_threads ->
  simulate_chunks num_threads [] = Raises "ValueError: range() arg 3 must not be zero".
Proof.
  intro Ht. unfold simulate_chunks. cbn [List.length Z.of_nat].
  destruct (Z.eqb_spec num_threads 0); [lia|].
  destruct (Z.ltb_spec num_threads 0); [lia|].
  replace ((0 + num_threads - 1) / num_threads) with 0; [reflexivity|].
  symmetry. apply Z.div_small. lia.
Qed.

End JobFacts.

Lemma rtv_jobs_partition_witness :
  0 < 3
  /\ exists jobs, rtv_jobs 3 [Examples.taxi; GraphExamples.taxi2] = Return jobs
                  /\ List.length jobs = Z.to_nat 3
                  /\ job_indices jobs
                     = py_range 0 (Z.of_nat (List.length [Examples.taxi; GraphExamples.taxi2])).
Proof.
  split; [lia|]. apply (rtv_jobs_partition 3 [Examples.taxi; GraphExamples.taxi2]). lia.
Defined.

Lemma simulate_chunks_partition_witness :
  0 < 3 /\ [Examples.taxi; GraphExamples.taxi2] <> []
  /\ exists chunks,
       simulate_chunks 3 [Examples.taxi; GraphExamples.taxi2] = Return chunks
       /\ job_indices chunks
          = py_range 0 (Z.of_nat (List.length [Examples.taxi; GraphExamples.taxi2])).
Proof.
  split; [lia|]. split; [discriminate|].
  apply (simulate_chunks_partition 3 [Examples.taxi; GraphExamples.taxi2]);
    [lia|discriminate].
Defined.

Lemma simulate_chunks_empty_fleet_witness :
  0 < 4
  /\ simulate_chunks 4 [] = Raises "ValueError: range() arg 3 must not be zero".
Proof.
  split; [lia|]. apply (simulate_chunks_empty_fleet 4). lia.
Defined.

(** ** Solutions of the assignment ILP *)

Section AssignmentFacts.

Variable value : ilp_var -> bool.
Variable rid : Z.

Lemma esum_app a b : esum value (a ++ b) = esum value a + esum value b.
Proof. unfold esum. induction a; simpl; [reflexivity|]. fold esum in *. lia. Qed.

Lemma esum_perm a b : Permutation a b -> esum value a = esum value b.
Proof. unfold esum. induction 1; simpl; lia. Qed.

Lemma esum_nonneg l : 0 <= esum value l.
Proof.
  unfold esum. induction l as [|i l IH]; simpl; [lia|].
  unfold var_value at 1. destruct (value (e_var i)); lia.
Qed.

Lemma serving_In trips : forall count i,
  In i (serving rid count trips) <->
  (count <= i)%nat /\ exists trip, nth_error trips (i - count) = Some trip
                                   /\ serves rid trip = true.
Proof.
  induction trips as [|t rest IH]; intros count i; simpl.
  - split; [tauto|]. intros (_ & trip & H & _). destruct (i - count)%nat; discriminate.
  - assert (Hrest : In i (serving rid (S count) rest) <->
                    (count < i)%nat /\ exists trip,
                      nth_error (t :: rest) (i - count) = Some trip
                      /\ serves rid trip = true).
    { rewrite IH. split; intros (Hi & trip & Hn & Hs); (split; [lia|]);
        exists trip; (split; [|exact Hs]).
      - replace (i - count)%nat with (S (i - S count)) by lia. exact Hn.
      - replace (i - count)%nat with (S (i - S count)) in Hn by lia. exact Hn. }
    destruct (serves rid t) eqn:Ht.
    + simpl. rewrite Hrest. split.
      * intros [<-|(Hi & H)]; [|split; [lia|exact H]].
        split; [lia|]. exists t. rewrite Nat.sub_diag. auto.
      * intros (Hi & trip & Hn & Hs).
        destruct (Nat.eq_dec count i) as [E|E]; [left; exact E|right].
        split; [lia|]. exists trip. auto.
    + rewrite Hrest. split.
      * intros (Hi & H). split; [lia|exact H].
      * intros (Hi & trip & Hn & Hs).
        destruct (Nat.eq_dec count i) as [E|E].
        -- subst. rewrite Nat.sub_diag in Hn. simpl in Hn. congruence.
        -- split; [lia|]. exists trip. auto.
Qed.

Lemma serving_NoDup trips : forall count, NoDup (serving rid count trips).
Proof.
  induction trips as [|t rest IH]; intros count; simpl; [constructor|].
  destruct (serves rid t); [|apply IH]. constructor; [|apply IH].
  rewrite serving_In. lia.
Qed.

Lemma serving_app a b count :
  serving rid count (a ++ b) = serving rid count a ++ serving rid (count + List.length a) b.
Proof.
  revert count. induction a as [|t a IH]; intros count; simpl.
  - rewrite Nat.add_0_r. reflexivity.
  - rewrite IH. replace (S count + List.length a)%nat
      with (count + S (List.length a))%nat by lia.
    destruct (serves rid t); reflexivity.
Qed.

Lemma serves_In trip :
  serves rid trip = true <-> In rid (map r_id (t_requests trip)).
Proof.
  unfold serves. rewrite existsb_exists. split.
  - intros (x & Hx & E). apply Z.eqb_eq in E. subst. exact Hx.
  - intros H. exists rid. split; [exact H|apply Z.eqb_refl].
Qed.

(** The indices stored for a request id are the indices of the trips
    that serve it. *)
Lemma indexed_serving m done :
  indexes m done -> Permutation (rid_indices m rid) (serving rid 0 done).
Proof.
  intro H. destruct (H rid) as [Hn Hi].
  apply NoDup_Permutation; [exact Hn|apply serving_NoDup|].
  intro i. rewrite Hi, serving_In, Nat.sub_0_r. split.
  - intros (trip & Ht & Hin). split; [lia|]. exists trip.
    rewrite serves_In. auto.
  - intros (_ & trip & Ht & Hs). exists trip. rewrite <- serves_In. auto.
Qed.

Lemma esum_subset trips : forall count,
  esum value (seq count (List.length trips)) <= 0 -> esum value (serving rid count trips) = 0.
Proof.
  induction trips as [|t rest IH]; intros count H; simpl in *; [reflexivity|].
  unfold esum in H. simpl in H. fold (esum value (seq (S count) (List.length rest))) in H.
  pose proof (esum_nonneg (seq (S count) (List.length rest))).
  unfold var_value in H at 1.
  destruct (serves rid t).
  - unfold esum. simpl. fold (esum value (serving rid (S count) rest)).
    unfold var_value at 1. destruct (value (e_var count)); [lia|].
    rewrite IH; lia.
  - apply IH. destruct (value (e_var count)); lia.
Qed.

(** In the block of a vehicle that selects at most one trip, the selected
    trips that serve the request are the first selected one, if it
    does. *)
Lemma block_serving trips : forall count,
  esum value (seq count (List.length trips)) <= 1 ->
  esum value (serving rid count trips)
  = match first_selected value count trips with
    | Some trip => if serves rid trip then 1 else 0
    | None => 0
    end.
Proof.
  induction trips as [|t rest IH]; intros count H; simpl in *; [reflexivity|].
  unfold esum in H. simpl in H. fold (esum value (seq (S count) (List.length rest))) in H.
  pose proof (esum_nonneg (seq (S count) (List.length rest))).
  unfold var_value in H at 1.
  destruct (value (e_var count)) eqn:Hv.
  - assert (Hz : esum value (serving rid (S count) rest) = 0) by (apply esum_subset; lia).
    destruct (serves rid t); [|exact Hz].
    unfold esum. simpl. fold (esum value (serving rid (S count) rest)).
    unfold var_value at 1. rewrite Hv. lia.
  - destruct (serves rid t).
    + unfold esum. simpl. fold (esum value (serving rid (S count) rest)).
      unfold var_value at 1. rewrite Hv. rewrite IH by lia. reflexivity.
    + apply IH. lia.
Qed.

Lemma row_sum_e l prefix id sense rhs :
  row_sum value (mkConstr prefix id (map e_var l) sense rhs) = esum value l.
Proof. unfold row_sum, esum. cbn [c_vars]. rewrite map_map. reflexivity. Qed.

Lemma row_sum_ex l k prefix id sense rhs :
  row_sum value (mkConstr prefix id (map e_var l ++ [x_var k]) sense rhs)
  = esum value l + var_value value (x_var k).
Proof.
  unfold row_sum, esum. cbn [c_vars]. rewrite map_app, map_map.
  induction l as [|i l IH]; cbn [map app fold_right] in *; lia.
Qed.

Lemma constraint_one_blocks glo trip_list : forall count,
  forallb (row_holds value) (constraint_one glo trip_list count) = true ->
  esum value (serving rid count (all_trips trip_list))
  = Z.of_nat (List.length (served_by rid (retrieve_assignments value trip_list count))).
Proof.
  unfold all_trips, served_by.
  induction trip_list as [|[vehicle trips] rest IH]; intros count H;
    [reflexivity|].
  cbn [constraint_one forallb] in H. apply andb_true_iff in H as [Hrow Hrest].
  cbn [map List.concat snd retrieve_assignments].
  rewrite serving_app, esum_app, (IH _ Hrest), block_serving.
  - destruct (first_selected value count trips) as [trip|]; [|lia].
    cbn [filter snd]. destruct (serves rid trip); cbn [map List.length]; lia.
  - unfold row_holds in Hrow. cbn [c_sense c_rhs] in Hrow.
    rewrite row_sum_e in Hrow.
    destruct (negb (String.eqb (ALGORITHM glo) "ILP_FULL")); lia.
Qed.

End AssignmentFacts.

(** X26. From values that satisfy the rows, [ilp_assignment] retrieves an
    assignment in which every committed request of the list is served by
    exactly one vehicle, and every other request by one vehicle when its
    [x] variable is not set and by none when it is: no request is served
    twice. *)
Theorem assignment_serves_once glo trip_list requests rows value k request :
  ilp_constraints glo trip_list requests = Return (Some rows) ->
  solves value rows = true ->
  nth_error requests k = Some request ->
  Z.of_nat (List.length (served_by (r_id request)
                           (retrieve_assignments value trip_list 0)))
  = if r_assigned request then 1
    else if value (x_var k) then 0 else 1.
Proof.
  unfold ilp_constraints, solves.
  destruct (index_trips_spec trip_list) as [Hidx Hcount].
  destruct (index_trips trip_list) as [m index]. cbn [fst snd] in *.
  destruct (Nat.eqb index 0); [discriminate|].
  destruct (String.eqb (ASSIGNMENT_OBJECTIVE glo) "AO_SERVICERATE"
            || String.eqb (ASSIGNMENT_OBJECTIVE glo) "AO_RMT"); [|discriminate].
  intros H Hs Hk. injection H as <-.
  rewrite forallb_app in Hs. apply andb_true_iff in Hs as [H1 H2].
  rewrite <- (constraint_one_blocks value (r_id request) glo trip_list 0 H1).
  rewrite <- (esum_perm value _ _ (indexed_serving (r_id request) m _ Hidx)).
  pose proof (constraint_two_nth m requests 0 k request Hk) as Hrow.
  rewrite forallb_forall in H2. specialize (H2 _ (nth_error_In _ _ Hrow)).
  unfold row_holds in H2. cbn [c_sense c_rhs] in H2. apply Z.eqb_eq in H2.
  destruct (r_assigned request).
  - rewrite row_sum_e in H2. exact H2.
  - rewrite row_sum_ex in H2. unfold var_value in H2 at 1.
    cbn [Nat.add] in H2. destruct (value (x_var k)); lia.
Qed.

Lemma block_selected value trips : forall count,
  fold_right Z.add 0 (map (fun i => var_value value (e_var i))
                        (seq count (List.length trips))) = 1 ->
  exists trip, first_selected value count trips = Some trip /\ In trip trips.
Proof.
  induction trips as [|t rest IH]; intros count H; simpl in *; [lia|].
  unfold var_value in H at 1. destruct (value (e_var count)).
  - exists t. auto.
  - destruct (IH (S count)) as (trip & E & Hin); [lia|].
    exists trip. auto.
Qed.

(** X27. Under ILP_FULL, from values that satisfy the rows, every vehicle
    of the trip list is assigned a trip, in the order of the list, and
    the trip is one of the trips of the vehicle. *)
Theorem full_assignment_covers_fleet glo trip_list requests rows value :
  ALGORITHM glo = "ILP_FULL"%string ->
  ilp_constraints glo trip_list requests = Return (Some rows) ->
  solves value rows = true ->
  Forall2 (fun entry assigned =>
             fst assigned = fst entry /\ In (snd assigned) (snd entry))
          trip_list (retrieve_assignments value trip_list 0).
Proof.
  unfold ilp_constraints, solves. intro Halg.
  destruct (index_trips trip_list) as [m index].
  destruct (Nat.eqb index 0); [discriminate|].
  destruct (String.eqb (ASSIGNMENT_OBJECTIVE glo) "AO_SERVICERATE"
            || String.eqb (ASSIGNMENT_OBJECTIVE glo) "AO_RMT"); [|discriminate].
  intros H Hs. injection H as <-.
  rewrite forallb_app in Hs. apply andb_true_iff in Hs as [H1 _].
  revert H1. generalize 0%nat.
  induction trip_list as [|[vehicle trips] rest IH]; intros count H;
    [constructor|].
  cbn [constraint_one forallb] in H. apply andb_true_iff in H as [Hrow Hrest].
  cbn [retrieve_assignments].
  unfold row_holds in Hrow. cbn [c_sense c_rhs] in Hrow.
  rewrite Halg in Hrow. cbn in Hrow. apply Z.eqb_eq in Hrow.
  unfold row_sum in Hrow. cbn [c_vars] in Hrow. rewrite map_map in Hrow.
  destruct (block_selected value trips count Hrow) as (trip & -> & Hin).
  constructor; [cbn; auto|]. apply IH, Hrest.
Qed.

(** X28. When a committed request is in no trip, which is the case that
    [ilp_assignement_full] reports before it builds the model, no values
    satisfy the rows: the row of the request has no variable. *)
Theorem missing_assigned_unsolvable glo trip_list requests rows value :
  missing_assigned_requests trip_list requests <> [] ->
  ilp_constraints glo trip_list requests = Return (Some rows) ->
  solves value rows = false.
Proof.
  unfold ilp_constraints, solves. intro Hmiss.
  destruct (index_trips_spec trip_list) as [Hidx _].
  destruct (index_trips trip_list) as [m index]. cbn [fst snd] in *.
  destruct (Nat.eqb index 0); [discriminate|].
  destruct (String.eqb (ASSIGNMENT_OBJECTIVE glo) "AO_SERVICERATE"
            || String.eqb (ASSIGNMENT_OBJECTIVE glo) "AO_RMT"); [|discriminate].
  intros H. injection H as <-.
  destruct (missing_assigned_requests trip_list requests) as [|rid rest] eqn:E;
    [congruence|].
  assert (Hin : In rid (missing_assigned_requests trip_list requests))
    by (rewrite E; left; reflexivity).
  unfold missing_assigned_requests in Hin. apply filter_In in Hin as [Ha Hn].
  apply nodup_In, in_map_iff in Ha as (r & <- & Hr).
  apply filter_In in Hr as [Hr Hassigned].
  apply negb_true_iff in Hn.
  apply In_nth_error in Hr as [k Hk].
  pose proof (constraint_two_nth m requests 0 k r Hk) as Hrow.
  rewrite Hassigned in Hrow.
  assert (Hnone : rid_indices m (r_id r) = []).
  { destruct (rid_indices m (r_id r)) as [|i l] eqn:Ei; [reflexivity|exfalso].
    destruct (Hidx (r_id r)) as [_ Hi]. rewrite Ei in Hi.
    destruct (proj1 (Hi i) (or_introl eq_refl)) as (trip & Ht & Hin).
    assert (existsb (Z.eqb (r_id r))
              (flat_map (fun trip => map r_id (t_requests trip))
                 (all_trips trip_list)) = true); [|congruence].
    apply existsb_exists. exists (r_id r). split; [|apply Z.eqb_refl].
    apply in_flat_map. exists trip. split; [|exact Hin].
    eapply nth_error_In, Ht. }
  rewrite Hnone in Hrow.
  apply not_true_is_false. intro Hs. rewrite forallb_app in Hs.
  apply andb_true_iff in Hs as [_ H2]. rewrite forallb_forall in H2.
  specialize (H2 _ (nth_error_In _ _ Hrow)). discriminate H2.
Qed.

Lemma chosen_indices_ge trip_list : forall choice count i,
  In i (chosen_indices trip_list choice count) -> (count <= i)%nat.
Proof.
  induction trip_list as [|[vehicle trips] rest IH]; intros [|c choice] count i;
    simpl; try tauto.
  intros [<-|H]; [lia|]. apply IH in H. lia.
Qed.

Lemma block_choice value trips : forall count c,
  (c < List.length trips)%nat ->
  (forall i, (count <= i < count + List.length trips)%nat ->
     (value (e_var i) = true <-> i = (count + c)%nat)) ->
  fold_right Z.add 0 (map (fun i => var_value value (e_var i))
                        (seq count (List.length trips))) = 1
  /\ first_selected value count trips = nth_error trips c.
Proof.
  induction trips as [|t rest IH]; intros count c Hc Hv; simpl in *; [lia|].
  unfold var_value at 1. destruct c as [|c].
  - rewrite (proj2 (Hv count ltac:(lia)) ltac:(lia)). split; [|reflexivity].
    assert (Hz : forall n k, (count < k)%nat -> (k + n <= count + S (List.length rest))%nat ->
              fold_right Z.add 0 (map (fun i => var_value value (e_var i)) (seq k n)) = 0).
    { induction n as [|n IHn]; intros k Hk Hle; simpl; [reflexivity|].
      rewrite IHn by lia. unfold var_value.
      destruct (value (e_var k)) eqn:E; [|reflexivity].
      apply Hv in E; lia. }
    rewrite Hz; lia.
  - destruct (value (e_var count)) eqn:E.
    + apply Hv in E; lia.
    + destruct (IH (S count) c) as [A B]; [lia| |].
      * intros i Hi. rewrite Hv by lia. lia.
      * rewrite A, B. split; [lia|reflexivity].
Qed.

Lemma choice_blocks glo value trip_list : forall choice count,
  Forall2 (fun entry c => (c < List.length (snd entry))%nat) trip_list choice ->
  (forall i, (count <= i)%nat ->
     (value (e_var i) = true <-> In i (chosen_indices trip_list choice count))) ->
  forallb (row_holds value) (constraint_one glo trip_list count) = true
  /\ retrieve_assignments value trip_list count = chosen_trips trip_list choice.
Proof.
  induction trip_list as [|[vehicle trips] rest IH]; intros choice count Hch Hv;
    inversion Hch as [|? c ? choice' Hc Hrest]; subst; [auto|].
  cbn [snd] in Hc. cbn [chosen_indices] in Hv.
  destruct (block_choice value trips count c Hc) as [Hsum Hsel].
  { intros i Hi. rewrite Hv by lia. cbn [In]. split.
    - intros [E|H]; [lia|]. apply chosen_indices_ge in H. lia.
    - intros ->. left. reflexivity. }
  destruct (IH choice' (count + List.length trips)%nat Hrest) as [Hrows Hret].
  { intros i Hi. rewrite Hv by lia. cbn [In]. split.
    - intros [E|H]; [lia|exact H].
    - intros H. right. exact H. }
  split.
  - cbn [constraint_one forallb]. rewrite Hrows, andb_true_r.
    unfold row_holds. cbn [c_sense c_rhs]. unfold row_sum. cbn [c_vars].
    rewrite map_map, Hsum.
    destruct (negb (String.eqb (ALGORITHM glo) "ILP_FULL")); reflexivity.
  - cbn [retrieve_assignments chosen_trips]. rewrite Hsel, Hret. reflexivity.
Qed.

(** X29. Every choice of one trip per vehicle that serves no request of
    the list twice and serves every committed one is a solution: its
    values satisfy the rows, and [ilp_assignment] retrieves exactly the
    chosen trips from them. *)
Theorem conflict_free_choice_solves glo trip_list requests rows choice :
  ilp_constraints glo trip_list requests = Return (Some rows) ->
  Forall2 (fun entry c => (c < List.length (snd entry))%nat) trip_list choice ->
  (forall request, In request requests ->
     let n := List.length (served_by (r_id request)
                             (chosen_trips trip_list choice)) in
     (n <= 1)%nat /\ (r_assigned request = true -> n = 1%nat)) ->
  let value := choice_value trip_list choice requests in
  solves value rows = true
  /\ retrieve_assignments value trip_list 0 = chosen_trips trip_list choice.
Proof.
  intros H Hch Hfree value. unfold ilp_constraints in H. unfold solves.
  destruct (index_trips_spec trip_list) as [Hidx _].
  destruct (index_trips trip_list) as [m index]. cbn [fst snd] in *.
  destruct (Nat.eqb index 0); [discriminate|].
  destruct (String.eqb (ASSIGNMENT_OBJECTIVE glo) "AO_SERVICERATE"
            || String.eqb (ASSIGNMENT_OBJECTIVE glo) "AO_RMT"); [|discriminate].
  injection H as <-.
  destruct (choice_blocks glo value trip_list choice 0%nat Hch) as [H1 Hret].
  { intros i _. unfold value, choice_value. rewrite existsb_exists. split.
    - intros (j & Hj & E). apply Nat.eqb_eq in E. subst. exact Hj.
    - intros Hi. exists i. split; [exact Hi|apply Nat.eqb_refl]. }
  split; [|exact Hret].
  rewrite forallb_app, H1. cbn [andb]. apply forallb_forall. intros row Hrow.
  apply In_nth_error in Hrow as [k Hk].
  assert (Hlt : (k < List.length requests)%nat).
  { rewrite <- (constraint_two_length m requests 0). apply nth_error_Some. congruence. }
  destruct (nth_error requests k) as [request|] eqn:Hreq;
    [|apply nth_error_None in Hreq; lia].
  rewrite (constraint_two_nth m requests 0 k request Hreq) in Hk.
  injection Hk as <-.
  pose proof (constraint_one_blocks value (r_id request) glo trip_list 0 H1) as Hcount.
  rewrite <- (esum_perm value _ _ (indexed_serving (r_id request) m _ Hidx)) in Hcount.
  rewrite Hret in Hcount.
  destruct (Hfree request (nth_error_In _ _ Hreq)) as [Hle Hone].
  unfold row_holds. cbn [c_sense c_rhs]. apply Z.eqb_eq.
  destruct (r_assigned request).
  - rewrite row_sum_e, Hcount, Hone; reflexivity.
  - rewrite row_sum_ex, Hcount. unfold var_value, value, choice_value.
    cbn [Nat.add]. rewrite Hreq.
    destruct (List.length (served_by (r_id request) (chosen_trips trip_list choice)))
      as [|[|n]]; cbn; lia.
Qed.

Lemma assignment_serves_once_witness :
  ilp_constraints Examples.defaults Examples.scenario2_trip_list
    [Examples.sharer1; Examples.sharer2] = Return (Some Examples.scenario2_rows)
  /\ solves AssignmentExamples.shared_selected Examples.scenario2_rows = true
  /\ nth_error [Examples.sharer1; Examples.sharer2] 0 = Some Examples.sharer1
  /\ Z.of_nat (List.length
                 (served_by (r_id Examples.sharer1)
                    (retrieve_assignments AssignmentExamples.shared_selected
                       Examples.scenario2_trip_list 0)))
     = if r_assigned Examples.sharer1 then 1
       else if AssignmentExamples.shared_selected (x_var 0) then 0 else 1.
Proof.
  split; [reflexivity|]. split; [reflexivity|]. split; [reflexivity|].
  apply (assignment_serves_once Examples.defaults Examples.scenario2_trip_list
           [Examples.sharer1; Examples.sharer2] Examples.scenario2_rows
           AssignmentExamples.shared_selected 0 Examples.sharer1);
    reflexivity.
Defined.

Lemma full_assignment_covers_fleet_witness :
  ALGORITHM Examples.defaults = "ILP_FULL"%string
  /\ Forall2 (fun entry assigned =>
                fst assigned = fst entry /\ In (snd assigned) (snd entry))
             Examples.scenario2_trip_list
             (retrieve_assignments AssignmentExamples.shared_selected
                Examples.scenario2_trip_list 0).
Proof.
  split; [reflexivity|].
  apply (full_assignment_covers_fleet Examples.defaults
           Examples.scenario2_trip_list [Examples.sharer1; Examples.sharer2]
           Examples.scenario2_rows AssignmentExamples.shared_selected);
    reflexivity.
Defined.

Lemma missing_assigned_unsolvable_witness :
  missing_assigned_requests Examples.scenario2_trip_list
    [AssignmentExamples.orphan] <> []
  /\ solves AssignmentExamples.shared_selected AssignmentExamples.orphan_rows
     = false.
Proof.
  split; [discriminate|].
  apply (missing_assigned_unsolvable Examples.defaults
           Examples.scenario2_trip_list [AssignmentExamples.orphan]
           AssignmentExamples.orphan_rows AssignmentExamples.shared_selected);
    [discriminate|reflexivity].
Defined.

Lemma conflict_free_choice_solves_witness :
  Forall2 (fun entry c => (c < List.length (snd entry))%nat)
          Examples.scenario2_trip_list [3%nat]
  /\ (let value := choice_value Examples.scenario2_trip_list [3%nat]
                     [Examples.sharer1; Examples.sharer2] in
      solves value Examples.scenario2_rows = true
      /\ retrieve_assignments value Examples.scenario2_trip_list 0
         = chosen_trips Examples.scenario2_trip_list [3%nat]).
Proof.
  assert (H : Forall2 (fun entry c => (c < List.length (snd entry))%nat)
                Examples.scenario2_trip_list [3%nat]).
  { repeat constructor. }
  split; [exact H|].
  apply (conflict_free_choice_solves Examples.defaults
           Examples.scenario2_trip_list [Examples.sharer1; Examples.sharer2]
           Examples.scenario2_rows [3%nat]); [reflexivity|exact H|].
  intros request [<-|[<-|[]]]; vm_compute; split; [lia|discriminate|lia|discriminate].
Defined.

(** ** The previous trip in the trip list *)

Section ReplicateFacts.

Variable glo : Glo.
Variable network : Network.
Variable unlocks_id : MetaNodeStop -> Z.
Variable wall_clock : nat -> Z.
Variable rr_edge : Z -> Z -> bool.

Lemma route_stops vehicle requests F order :
  prepare_stops glo vehicle requests = Return (Available F) ->
  Lin F order ->
  forall stop, In stop order ->
    In (r_id (ns_r stop)) (map r_id requests)
    \/ In (r_id (ns_r stop)) (map r_id (v_passengers vehicle)).
Proof.
  intros Hp HL stop Hin.
  apply prepared_stops_covered in Hp. destruct Hp as [_ Hincl].
  apply Lin_stops in HL.
  apply (Permutation_in _ HL), Hincl in Hin. unfold required_stops in Hin.
  apply in_app_or in Hin. destruct Hin as [Hin|Ho].
  - left. apply in_flat_map in Hin. destruct Hin as (r & Hr & [<-|[<-|[]]]);
      apply in_map, Hr.
  - right.
    apply onboard_stops_origin in Ho. destruct Ho as [_ Hm].
    rewrite request_mem_set in Hm. apply request_mem_ids, Hm.
Qed.

Lemma new_travel_stops vehicle requests current_time cost order :
  new_travel glo network unlocks_id vehicle requests current_time
    = Return (cost, order) ->
  forall stop, In stop order ->
    In (r_id (ns_r stop)) (map r_id requests)
    \/ In (r_id (ns_r stop)) (map r_id (v_passengers vehicle)).
Proof.
  unfold new_travel.
  destruct (prepare_stops glo vehicle requests) as [[F|]| | |] eqn:Hp;
    try discriminate.
  - destruct (valid_objective glo); [|discriminate].
    destruct (recursive_search glo network unlocks_id (S (forest_size F))
                (v_node vehicle)
                (v_capacity vehicle - Z.of_nat (List.length (v_passengers vehicle)))
                F (current_time + v_offset vehicle) (-1) NO_ACTION)
      as [[t tail]|] eqn:Hs; [|discriminate].
    intros H. injection H as _ <-. cbn [snd].
    apply recursive_search_sound in Hs.
    destruct Hs as [[_ Ht]|[HL _]]; cbn [fst snd] in *.
    + rewrite Ht. intros stop [].
    + eapply route_stops; eassumption.
  - intros H. injection H as <- <-. intros stop [].
Qed.

Lemma travel_timed_stops vehicle requests current_time start_time time_limit
    reads cost order :
  fst (travel_timed glo network unlocks_id wall_clock vehicle requests
         current_time start_time time_limit "STANDARD" reads)
    = Return (cost, order) ->
  forall stop, In stop order ->
    In (r_id (ns_r stop)) (map r_id requests)
    \/ In (r_id (ns_r stop)) (map r_id (v_passengers vehicle)).
Proof.
  unfold travel_timed. destruct (time_limit =? 0).
  - cbn [fst]. rewrite travel_standard. apply new_travel_stops.
  - unfold new_travel_timed.
    destruct (prepare_stops glo vehicle requests) as [[F|]| | |] eqn:Hp;
      cbn [fst]; try discriminate.
    + destruct (valid_objective glo); [|discriminate].
      destruct (recursive_search_timed glo network unlocks_id wall_clock
                  (S (forest_size F)) (v_node vehicle)
                  (v_capacity vehicle - Z.of_nat (List.length (v_passengers vehicle)))
                  F (current_time + v_offset vehicle) start_time time_limit (-1)
                  NO_ACTION reads) as [[[t tail] reads']|] eqn:Hs;
        cbn [fst]; [|discriminate].
      intros H. injection H as _ <-. cbn [snd].
      apply recursive_search_timed_result in Hs.
      destruct Hs as [[_ Ht]|[HL _]]; cbn [fst snd] in *.
      * rewrite Ht. intros stop [].
      * eapply route_stops; eassumption.
    + intros H. injection H as <- <-. intros stop [].
Qed.

Lemma try_pair_route vehicle current_time start_time k previous_round
    trip1 trip2 st st' :
  try_pair glo network unlocks_id wall_clock rr_edge vehicle current_time
    start_time k previous_round trip1 trip2 st = Return st' ->
  new_round st' = new_round st
  \/ exists trip,
       new_round st' = new_round st ++ [trip]
       /\ List.length (t_requests trip) = k
       /\ NoDup (map r_id (t_requests trip))
       /\ known_stops vehicle trip.
Proof.
  unfold try_pair.
  set (U := request_union (t_requests trip1) (t_requests trip2)).
  destruct (negb (Nat.eqb (List.length U) k)
            || existsb (request_set_eq U) (existing_trips st)) eqn:Hk;
    [intros H; injection H as <-; auto|].
  destruct (Z.of_nat (List.length (request_diff U
              (request_set (v_pending_requests vehicle)))) * 2
            >? MAX_NEW glo);
    [intros H; injection H as <-; auto|].
  destruct (is_rr_connected rr_edge (t_requests trip1) (t_requests trip2));
    simpl; [|intros H; injection H as <-; auto].
  destruct (all_subsets_exist U previous_round);
    simpl; [|intros H; injection H as <-; auto].
  pose proof (travel_timed_stops vehicle U current_time start_time
                (RTV_TIMELIMIT glo) (reads st)) as Hstops.
  destruct (travel_timed glo network unlocks_id wall_clock vehicle U
              current_time start_time (RTV_TIMELIMIT glo) "STANDARD" (reads st))
    as [result reads'].
  intros H. apply bind_Return in H. destruct H as ([cost order] & Hres & H).
  destruct (cost <? 0) eqn:Hc; injection H as <-; simpl; [auto|].
  right. eexists. split; [reflexivity|].
  apply orb_false_iff in Hk. destruct Hk as [Hk _].
  apply negb_false_iff, Nat.eqb_eq in Hk. apply Z.ltb_ge in Hc.
  cbn [t_requests]. split; [exact Hk|]. split; [apply request_set_NoDup|].
  unfold known_stops. cbn [t_order_record t_requests].
  apply (Hstops cost order). exact Hres.
Qed.

(** Every trip of level [j] has [j] requests of different ids, and its
    stops belong to them or to the passengers. *)
Lemma level_routes vehicle rv_neighbors current_time n rounds n' :
  rtv_rounds glo network unlocks_id wall_clock rr_edge vehicle rv_neighbors
    current_time n = Return (rounds, n') ->
  forall j trip, In trip (nth j rounds []) ->
    List.length (t_requests trip) = j
    /\ NoDup (map r_id (t_requests trip))
    /\ known_stops vehicle trip.
Proof.
  intros H j trip Hin.
  apply (rtv_rounds_inv glo network unlocks_id wall_clock rr_edge
           (fun j round => Forall (fun trip =>
              List.length (t_requests trip) = j
              /\ NoDup (map r_id (t_requests trip))
              /\ known_stops vehicle trip) round))
    in H.
  - destruct H as [_ H].
    destruct (Nat.lt_ge_cases j (List.length rounds)) as [Hj|Hj].
    + specialize (H j Hj). rewrite Forall_forall in H. apply H, Hin.
    + rewrite nth_overflow in Hin by lia. destruct Hin.
  - intros baseline Hb. constructor; [|constructor].
    unfold baseline_trip in Hb.
    pose proof (travel_timed_stops vehicle [] current_time (wall_clock n)
                  (RTV_TIMELIMIT glo) (S n)) as Hstops.
    destruct (travel_timed glo network unlocks_id wall_clock vehicle []
                current_time (wall_clock n) (RTV_TIMELIMIT glo) "STANDARD" (S n))
      as [res n2].
    simpl in Hb. apply bind_Return in Hb. destruct Hb as ([c o] & Hres & Hb).
    injection Hb as <-. simpl. repeat split; [constructor|].
    unfold known_stops. cbn [t_order_record t_requests].
    apply (Hstops c o). exact Hres.
  - intros round1 Hr. apply first_round_trips in Hr.
    eapply Forall_impl; [|exact Hr].
    intros t (r & c & _ & Hreq & Hc & Ht & _).
    rewrite Hreq. simpl.
    repeat split; [repeat constructor; simpl; tauto|].
    unfold known_stops. rewrite Hreq.
    rewrite travel_standard in Ht.
    apply (new_travel_stops _ _ _ _ _ Ht).
  - intros j' previous_round timed_out m st' Hj Hcap Ho.
    apply (outer_loop_inv glo network unlocks_id wall_clock rr_edge
             (fun nr _ => Forall (fun trip =>
                List.length (t_requests trip) = j'
                /\ NoDup (map r_id (t_requests trip))
                /\ known_stops vehicle trip) nr))
      in Ho; [exact Ho| |constructor].
    intros trip1 trip2 st st1 Hp Hall.
    apply try_pair_route in Hp.
    destruct Hp as [->|(trip' & -> & Hlen & Hnd & Hks)]; [exact Hall|].
    apply Forall_app. split; [exact Hall|]. constructor; [|constructor].
    auto.
Qed.


Lemma in_level_concat (rounds : list (list Trip)) j trip :
  In trip (nth j rounds []) -> In trip (List.concat rounds).
Proof.
  intro Hin. destruct (Nat.lt_ge_cases j (List.length rounds)) as [Hj|Hj].
  - apply in_concat. exists (nth j rounds []). split; [apply nth_In, Hj|exact Hin].
  - rewrite nth_overflow in Hin by lia. destruct Hin.
Qed.

(** What [compile_trips] returns: the trips of the rounds when the vehicle
    stores no order or a trip of the level of the pending requests repeats
    the ids of the stored order, and one more trip, on the pending
    requests, otherwise. *)
Lemma compile_trips_found vehicle current_time rounds trips :
  compile_trips glo network unlocks_id vehicle current_time rounds
    = Return trips ->
  (trips = List.concat rounds
   /\ (v_order_record vehicle = []
       \/ exists trip,
            In trip (nth (List.length (v_pending_requests vehicle)) rounds [])
            /\ stop_ids (t_order_record trip)
               = stop_ids (v_order_record vehicle)))
  \/ exists previous,
       t_requests previous = v_pending_requests vehicle
       /\ trips = List.concat rounds ++ [previous].
Proof.
  unfold compile_trips.
  destruct (existsb (fun trip => t_cost trip =? -1) (List.concat rounds));
    [discriminate|].
  destruct (v_order_record vehicle) as [|stop rest] eqn:Hrec.
  - intros H. injection H as <-. left. auto.
  - match goal with |- (if existsb ?f ?l then _ else _) = _ -> _ =>
      destruct (existsb f l) eqn:Hex end.
    + intros H. injection H as <-. left. split; [reflexivity|]. right.
      apply existsb_exists in Hex. destruct Hex as (ids & Hin & Heq).
      destruct (list_eq_dec Z.eq_dec (stop_ids (stop :: rest)) ids) as [E|E];
        [|discriminate].
      destruct (Nat.ltb (List.length (v_pending_requests vehicle))
                  (List.length rounds)); [|destruct Hin].
      apply in_map_iff in Hin. destruct Hin as (trip & Hids & Htrip).
      exists trip. split; [exact Htrip|congruence].
    + intros H. apply bind_Return in H. destruct H as (previous & Hp & H).
      destruct (t_cost previous =? -1); [discriminate|].
      injection H as <-. right. exists previous. split; [|reflexivity].
      apply previoustrip_fields in Hp. apply Hp.
Qed.

(** X30. The trip list that [make_rtvgraph] returns for a vehicle passes
    the check of [ilp_assignement_full] for the previous trips: it holds a
    trip whose set of requests is the set of the pending requests of the
    vehicle, provided these have different ids, each has a stop in the
    stored order, and none has the id of a passenger. *)
Theorem rtv_replicates_previous_trip vehicle rv_neighbors current_time n trips :
  make_rtvgraph glo network unlocks_id wall_clock rr_edge vehicle rv_neighbors
    current_time n = Return trips ->
  NoDup (map r_id (v_pending_requests vehicle)) ->
  incl (map r_id (v_pending_requests vehicle))
       (stop_ids (v_order_record vehicle)) ->
  (forall id, In id (map r_id (v_pending_requests vehicle)) ->
              ~ In id (map r_id (v_passengers vehicle))) ->
  previous_trip_found vehicle trips = true.
Proof.
  unfold make_rtvgraph. intros H Hnd Hstored Hsep.
  apply bind_Return in H. destruct H as ([rounds n'] & Hr & H).
  pose proof (level_routes _ _ _ _ _ _ Hr) as Hlevels.
  unfold previous_trip_found. apply existsb_exists.
  apply compile_trips_found in H.
  destruct H as [[-> [Hrec|(trip & Hin & Hids)]]|(previous & Hreq & ->)].
  - (* no stored order: no pending request, and the baseline trip *)
    assert (Hnil : v_pending_requests vehicle = []).
    { destruct (v_pending_requests vehicle) as [|r l]; [reflexivity|].
      rewrite Hrec in Hstored. destruct (Hstored (r_id r)). left. reflexivity. }
    destruct (rounds_head _ _ _ _ _ _ _ _ _ _ _ Hr) as (baseline & rest & ->).
    exists baseline. split; [left; reflexivity|].
    destruct (Hlevels 0%nat baseline (or_introl eq_refl)) as (Hlen & _).
    destruct (t_requests baseline); [|discriminate]. rewrite Hnil. reflexivity.
  - exists trip. split; [eapply in_level_concat, Hin|].
    destruct (Hlevels _ _ Hin) as (Hlen & Hndt & Hks).
    assert (Hsub : incl (map r_id (v_pending_requests vehicle))
                        (map r_id (t_requests trip))).
    { intros id Hid. pose proof (Hstored id Hid) as Hs.
      rewrite <- Hids in Hs. unfold stop_ids in Hs.
      apply in_map_iff in Hs. destruct Hs as (stop & <- & Hstop).
      destruct (Hks stop Hstop) as [Ht|Hp]; [exact Ht|].
      exfalso. exact (Hsep _ Hid Hp). }
    unfold request_set_eq. apply andb_true_iff. split;
      apply request_subset_incl; [|exact Hsub].
    apply NoDup_length_incl; [exact Hnd| |exact Hsub].
    rewrite !length_map. lia.
  - exists previous. split; [apply in_or_app; right; left; reflexivity|].
    rewrite Hreq. unfold request_set_eq.
    rewrite (proj2 (request_subset_incl _ _)); [reflexivity|apply incl_refl].
Qed.

End ReplicateFacts.

Lemma rtv_replicates_previous_trip_witness :
  make_rtvgraph Examples.defaults Examples.line Examples.no_ties
    Examples.clock Examples.all_edges ReplicationExamples.committed
    [Examples.sharer2] 0 0 = Return ReplicationExamples.committed_trips
  /\ previous_trip_found ReplicationExamples.committed
       ReplicationExamples.committed_trips = true.
Proof.
  split; [vm_compute; reflexivity|].
  apply (rtv_replicates_previous_trip Examples.defaults Examples.line
           Examples.no_ties Examples.clock Examples.all_edges
           ReplicationExamples.committed [Examples.sharer2] 0 0).
  - vm_compute. reflexivity.
  - repeat constructor. intros [].
  - intros id [<-|[]]. left. reflexivity.
  - intros id _ [].
Defined.
